(** * graffiti-mongoose: filter/sort compiler, hook composition, field
    arguments and the type cache, embedded from the JavaScript sources.

    The development follows the sources function by function:
    - utils : [parseValue], [addHooks]
    - query : [getFilterObject], [getSortObject]
    - type  : [getFieldArguments], [createInputObject], [getType], [getTypes]

    JavaScript values are a small universe of their own ([value]); objects
    keep their property order, exceptions are an explicit [outcome]. *)

From Stdlib Require Import ZArith Ascii String.
From stdpp Require Import base tactics option list strings pretty gmap.

#[local] Set Warnings "-register-all".

Local Open Scope string_scope.
Local Open Scope list_scope.

(* ================================================================== *)
(** * Part I. Definitions                                              *)
(* ================================================================== *)

(** ** JavaScript numbers

    Integers are exact up to the 53 bits of a double and rounded to the
    nearest even mantissa beyond; a number that is no integer is kept as the
    decimal fraction it was read from ([NDec m d] is m / 10^d, [m] not a
    multiple of 10), so binary rounding of fractions is outside the model. *)

Inductive number : Type :=
| NInt (z : Z)
| NDec (m : Z) (d : positive)
| NNaN
| NInf (negative : bool).

Inductive value : Type :=
| VUndef
| VNull
| VBool (b : bool)
| VNum (n : number)
| VStr (s : string)
| VArr (elems : list value)
| VObj (props : list (string * value)).

Definition props : Type := list (string * value).

#[global] Instance number_eq_dec : EqDecision number.
Proof. solve_decision. Defined.

Definition round_double (z : Z) : number :=
  let n := Z.abs z in
  let len := (Z.log2 n + 1)%Z in
  if (len <=? 53)%Z then NInt z
  else
    let sh := (len - 53)%Z in
    let q := Z.shiftr n sh in
    let r := Z.land n (Z.ones sh) in
    let half := Z.shiftl 1 (sh - 1) in
    let q' := if ((half <? r) || ((r =? half) && Z.odd q))%Z then (q + 1)%Z else q in
    let m := Z.shiftl q' sh in
    if (Z.shiftl 1 1024 <=? m)%Z then NInf (z <? 0)%Z else NInt (Z.sgn z * m)%Z.

(** ** Characters and decimal text *)

Definition is_digit (c : ascii) : bool :=
  let n := Ascii.N_of_ascii c in ((48 <=? n) && (n <=? 57))%N.

Definition digit_val (c : ascii) : Z := (Z.of_N (Ascii.N_of_ascii c) - 48)%Z.

(** StrWhiteSpaceChar, ASCII part: TAB, LF, VT, FF, CR, SP. *)
Definition is_ws (c : ascii) : bool :=
  let n := Ascii.N_of_ascii c in (((9 <=? n) && (n <=? 13)) || (n =? 32))%N.

Fixpoint skip_ws (s : string) : string :=
  match s with
  | String c s' => if is_ws c then skip_ws s' else s
  | EmptyString => s
  end.

(** Reads the longest run of digits; [cnt] counts them. *)
Fixpoint read_digits (s : string) (acc : Z) (cnt : nat) : Z * nat * string :=
  match s with
  | String c s' =>
      if is_digit c then read_digits s' (10 * acc + digit_val c)%Z (S cnt)
      else (acc, cnt, s)
  | EmptyString => (acc, cnt, s)
  end.

Definition read_sign (s : string) : bool * string :=
  match s with
  | String "-" r => (true, r)
  | String "+" r => (false, r)
  | _ => (false, s)
  end.

(** [parseInt(s, 10)]. *)
Definition parseInt (s : string) : number :=
  let '(neg, s1) := read_sign (skip_ws s) in
  let '(z, cnt, _) := read_digits s1 0%Z 0 in
  match cnt with
  | O => NNaN
  | S _ => round_double (if neg then (- z)%Z else z)
  end.

Fixpoint strip_zeros (fuel : nat) (m : Z) (d : Z) : Z * Z :=
  match fuel with
  | O => (m, d)
  | S fuel' =>
      if ((0 <? d) && (m mod 10 =? 0))%Z then strip_zeros fuel' (m / 10)%Z (d - 1)%Z
      else (m, d)
  end.

(** The number denoted by mantissa [m] scaled by 10^[e]. *)
Definition decimal_number (neg : bool) (m : Z) (digits : nat) (e : Z) : number :=
  let sm := if neg then (- m)%Z else m in
  if (m =? 0)%Z then NInt 0
  else if (0 <=? e)%Z then round_double (sm * 10 ^ e)%Z
  else
    let '(m', d') := strip_zeros digits sm (- e)%Z in
    match d' with
    | Zpos p => NDec m' p
    | _ => round_double m'
    end.

(** The exponent part counts only when a digit follows the marker. *)
Definition read_exponent (s : string) : Z :=
  match s with
  | String c r =>
      if (Ascii.eqb c "e" || Ascii.eqb c "E")%bool then
        let '(neg, r1) := read_sign r in
        let '(z, cnt, _) := read_digits r1 0%Z 0 in
        match cnt with
        | O => 0%Z
        | S _ => if neg then (- z)%Z else z
        end
      else 0%Z
  | EmptyString => 0%Z
  end.

(** [parseFloat(s)]: longest prefix that is a StrDecimalLiteral. *)
Definition parseFloat (s : string) : number :=
  let '(neg, s1) := read_sign (skip_ws s) in
  if String.prefix "Infinity" s1 then NInf neg
  else
    let '(ip, icnt, s2) := read_digits s1 0%Z 0 in
    let '(m, fcnt, s3) :=
      match s2 with
      | String "." r => let '(m, cnt, r') := read_digits r ip 0 in (m, cnt, r')
      | _ => (ip, O, s2)
      end in
    match (icnt + fcnt)%nat with
    | O => NNaN
    | S _ => decimal_number neg m (icnt + fcnt) (read_exponent s3 - Z.of_nat fcnt)%Z
    end.

Fixpoint zeros (n : nat) : string :=
  match n with
  | O => ""
  | S n' => "0" +:+ zeros n'
  end.

(** ** Number::toString

    The digits JavaScript prints for a number are the fewest that still
    read back as the same double; among several candidates with that many
    digits, the closest to the number, an even one on a tie. *)

Definition digits (a : Z) : nat := String.length (pretty a).

(** [a] without its trailing zeros. *)
Definition significand (a : Z) : Z :=
  (strip_zeros (digits a) a (Z.of_nat (digits a))).1.

(** The shortest [c] that reads back as the double [a], tried with [k],
    [k + 1], ... significant digits; [nd] is the number of digits of [a]. *)
Fixpoint shortest_from (fuel : nat) (k : Z) (a : Z) (nd : Z) : Z :=
  match fuel with
  | O => a
  | S fuel' =>
      if (nd <=? k)%Z then a
      else
        let p := (10 ^ (nd - k))%Z in
        let lo := (a / p * p)%Z in
        let hi := (lo + p)%Z in
        let oklo := bool_decide (round_double lo = NInt a) in
        let okhi := bool_decide (round_double hi = NInt a) in
        if (oklo && okhi)%bool then
          if (a - lo <? hi - a)%Z then lo
          else if (hi - a <? a - lo)%Z then hi
          else if Z.even (a / p) then lo else hi
        else if oklo then lo
        else if okhi then hi
        else shortest_from fuel' (k + 1)%Z a nd
  end.

(** Up to 2^53 every integer is a double of its own and its digits are the
    shortest; beyond, 17 digits always suffice. *)
Definition shortest (a : Z) : Z :=
  if (a <=? 2 ^ 53)%Z then a else shortest_from 17 1%Z a (Z.of_nat (digits a)).

(** Exponent notation: the digits [s], the first before the point, and the
    power of ten [n - 1]. *)
Definition exponential (s : Z) (n : Z) : string :=
  match pretty s with
  | String c rest =>
      String c (match rest with EmptyString => "" | _ => "." +:+ rest end) +:+
        "e" +:+ (if (n - 1 <? 0)%Z then "-" else "+") +:+ pretty (Z.abs (n - 1))
  | EmptyString => ""
  end.

(** A positive integer double: plain digits when there are at most 21 of
    them, exponent notation from 10^21 on. *)
Definition int_to_string (a : Z) : string :=
  let c := shortest a in
  let n := Z.of_nat (digits c) in
  if (n <=? 21)%Z then pretty c else exponential (significand c) n.

(** The fraction [a / 10^d], [a] positive and no multiple of 10: its digits
    are [a], and its power of ten decides between plain notation, from
    10^-6 up, and exponent notation, below. *)
Definition dec_to_string (a : Z) (d : positive) : string :=
  let n := (Z.of_nat (digits a) - Zpos d)%Z in
  if ((n <? -5) || (21 <? n))%Z then exponential a n
  else
    let p := (10 ^ Zpos d)%Z in
    let frac := pretty (a mod p)%Z in
    pretty (a / p)%Z +:+ "." +:+ zeros (Pos.to_nat d - String.length frac) +:+ frac.

(** Number::toString. An integer is printed as the double it rounds to; a
    fraction as the decimal it was read from. *)
Definition num_to_string (n : number) : string :=
  match n with
  | NInt z =>
      match round_double z with
      | NInt z' => (if (z' <? 0)%Z then "-" else "") +:+ int_to_string (Z.abs z')
      | NInf neg => if neg then "-Infinity" else "Infinity"
      | _ => "NaN"
      end
  | NDec m d =>
      let '(m', d') := strip_zeros (Pos.to_nat d) m (Zpos d) in
      (if (m <? 0)%Z then "-" else "") +:+
        match d' with
        | Zpos p => dec_to_string (Z.abs m') p
        | _ => int_to_string (Z.abs m')
        end
  | NNaN => "NaN"
  | NInf neg => if neg then "-Infinity" else "Infinity"
  end.

Fixpoint join (sep : string) (l : list string) : string :=
  match l with
  | [] => ""
  | [x] => x
  | x :: r => x +:+ sep +:+ join sep r
  end.

(** ToString. *)
Fixpoint to_string (v : value) : string :=
  match v with
  | VUndef => "undefined"
  | VNull => "null"
  | VBool b => if b then "true" else "false"
  | VNum n => num_to_string n
  | VStr s => s
  | VArr l =>
      join ","
        ((fix elems (l : list value) : list string :=
            match l with
            | [] => []
            | x :: r =>
                match x with
                | VUndef | VNull => ""
                | _ => to_string x
                end :: elems r
            end) l)
  | VObj _ => "[object Object]"
  end.

(** ToBoolean. *)
Definition truthy (v : value) : bool :=
  match v with
  | VUndef | VNull => false
  | VBool b => b
  | VNum (NInt z) => negb (z =? 0)%Z
  | VNum NNaN => false
  | VNum _ => true
  | VStr s => negb (String.eqb s "")
  | VArr _ | VObj _ => true
  end.

(** [a || b] *)
Definition js_or (a b : value) : value := if truthy a then a else b.

(** ** Objects

    An object is the list of its own properties in enumeration order: array
    indices first, ascending, then the other keys in creation order. *)

Definition array_index (k : string) : option Z :=
  let '(z, cnt, rest) := read_digits k 0%Z 0 in
  match cnt with
  | O => None
  | S _ =>
      if (String.eqb rest "" && String.eqb (pretty z) k && (z <? 4294967295)%Z)%bool
      then Some z else None
  end.

Fixpoint obj_get {A : Type} (k : string) (o : list (string * A)) : option A :=
  match o with
  | [] => None
  | (k', v) :: r => if String.eqb k' k then Some v else obj_get k r
  end.

Fixpoint obj_replace {A : Type} (k : string) (v : A) (o : list (string * A)) : list (string * A) :=
  match o with
  | [] => []
  | (k', v') :: r => if String.eqb k' k then (k', v) :: r else (k', v') :: obj_replace k v r
  end.

Fixpoint obj_insert_index {A : Type} (n : Z) (k : string) (v : A) (o : list (string * A))
  : list (string * A) :=
  match o with
  | [] => [(k, v)]
  | (k', v') :: r =>
      match array_index k' with
      | Some n' => if (n' <? n)%Z then (k', v') :: obj_insert_index n k v r else (k, v) :: o
      | None => (k, v) :: o
      end
  end.

(** [o[k] = v] on an ordinary object. *)
Definition obj_set {A : Type} (k : string) (v : A) (o : list (string * A)) : list (string * A) :=
  match obj_get k o with
  | Some _ => obj_replace k v o
  | None =>
      match array_index k with
      | Some n => obj_insert_index n k v o
      | None => o ++ [(k, v)]
      end
  end.

(** One [...src] inside an object literal whose properties so far are [o]. *)
Definition obj_assign {A : Type} (o src : list (string * A)) : list (string * A) :=
  fold_left (fun acc kv => obj_set kv.1 kv.2 acc) src o.

(** Own enumerable properties of an array: its indices. *)
Definition array_props {A : Type} (l : list A) : list (string * A) :=
  imap (fun i x => (pretty (Z.of_nat i), x)) l.

(** ** Exceptions *)

Inductive exn : Type :=
| TypeError (msg : string)
| RangeError (msg : string)
| Error (msg : string).

(** [OutOfFuel]: the recursion went deeper than the depth it was given. *)
Inductive outcome (A : Type) : Type :=
| Ok (a : A)
| Throw (e : exn)
| OutOfFuel.

Arguments Ok {A} a.
Arguments Throw {A} e.
Arguments OutOfFuel {A}.

#[global] Instance outcome_ret : MRet outcome := fun A a => Ok a.
#[global] Instance outcome_bind : MBind outcome := fun A B f m =>
  match m with
  | Ok a => f a
  | Throw e => Throw e
  | OutOfFuel => OutOfFuel
  end.

(** [Array.prototype.reduce] with a callback that may throw. *)
Fixpoint reduceM {A B : Type} (f : B -> A -> outcome B) (l : list A) (init : B) : outcome B :=
  match l with
  | [] => Ok init
  | x :: r => b ← f init x; reduceM f r b
  end.

(** [Array.prototype.map], the callback receiving (element, index). *)
Fixpoint mapM_index {A B : Type} (f : A -> nat -> outcome B) (l : list A) (i : nat)
  : outcome (list B) :=
  match l with
  | [] => Ok []
  | x :: r => y ← f x i; ys ← mapM_index f r (S i); Ok (y :: ys)
  end.

(** ** The query AST (graphql-js) *)

Inductive ValueNode : Type :=
| VariableRef (name : string)
| IntValue (value : string)
| FloatValue (value : string)
| StringValue (value : string)
| BooleanValue (value : bool)
| NullValue
| EnumValue (value : string)
| ListValue (values : list ValueNode)
| ObjectValue (fields : list (string * ValueNode)).

(** [it.name.value] and [it.value] of an argument node. *)
Record Argument : Type := mkArgument { arg_name : string; arg_value : ValueNode }.

(** A selection. An inline fragment has no [name]; [OtherNode] is any node of
    another kind, with or without a [name]. *)
Inductive Selection : Type :=
| Field (name : string) (arguments : list Argument) (selectionSet : option (list Selection))
| InlineFragment (selectionSet : list Selection)
| FragmentSpread (name : string)
| OtherNode (kind : string) (name : option string).

(** The resolve info: [fragments] maps a fragment name to the selections of
    its definition. *)
Record ResolveInfo : Type := mkInfo {
  fieldNodes : option (list Selection);
  fragments : list (string * list Selection);
  variableValues : list (string * value)
}.

(** ** utils: parseValue *)

(** What the two parameters of [parseValue] can be bound to: the resolve
    info, an AST node, or the index [Array.prototype.map] passes second. *)
Inductive js_arg : Type :=
| AInfo (info : ResolveInfo)
| ANode (node : ValueNode)
| AIndex (i : nat).

(** One unfolding of [parseValue(info, {kind, name, value, values})];
    [self] is the function itself, handed to [values.map]. *)
Definition parseValue_step (self : js_arg -> js_arg -> outcome value)
    (info : js_arg) (node : js_arg) : outcome value :=
  match node with
  | ANode (VariableRef name) =>
      match info with
      | AInfo i => Ok (default VUndef (obj_get name (variableValues i)))
      | _ => Throw (TypeError "Cannot read property of undefined")
      end
  | ANode (IntValue value) => Ok (VNum (parseInt value))
  | ANode (FloatValue value) => Ok (VNum (parseFloat value))
  | ANode (StringValue value) => Ok (VStr value)
  | ANode (BooleanValue value) => Ok (VBool value)
  | ANode NullValue => Ok VNull
  | ANode (ListValue values) =>
      l ← mapM_index (fun x i => self (ANode x) (AIndex i)) values 0; Ok (VArr l)
  | ANode (EnumValue value) => Ok (VStr value)
  | ANode (ObjectValue _) => Ok VUndef
  | AInfo _ | AIndex _ => Ok VUndef
  end.

Fixpoint parseValue_rec (depth : nat) (info node : js_arg) : outcome value :=
  match depth with
  | O => OutOfFuel
  | S d => parseValue_step (parseValue_rec d) info node
  end.

(** [parseValue(info, node)] as the compilers call it. The callback never
    recurses further than one level, see [parseValue_rec_stable]. *)
Definition parseValue (info : ResolveInfo) (node : ValueNode) : outcome value :=
  parseValue_rec 2 (AInfo info) (ANode node).

(** The one-parameter [parseValue] that the earlier filter module carried:
    here [values.map(parseValue)] binds the element to the only parameter. *)
Fixpoint parseValue_v1 (node : ValueNode) : value :=
  match node with
  | IntValue value => VNum (parseInt value)
  | FloatValue value => VNum (parseFloat value)
  | StringValue value => VStr value
  | BooleanValue value => VBool value
  | NullValue => VNull
  | ListValue values => VArr (map parseValue_v1 values)
  | EnumValue value => VStr value
  | VariableRef _ | ObjectValue _ => VUndef
  end.

(** The [value] property of a value node, read without parsing. *)
Definition raw_value (node : ValueNode) : value :=
  match node with
  | IntValue v | FloatValue v | StringValue v | EnumValue v => VStr v
  | BooleanValue b => VBool b
  | VariableRef _ | NullValue | ListValue _ | ObjectValue _ => VUndef
  end.

(** ** query: the traversal shared by both compilers *)

(** The [fieldNodes] argument: omitted or undefined, one node (only its
    [selectionSet] is read), or an array of nodes. *)
Inductive NodeArg : Type :=
| NUndefined
| NNode (selectionSet : option (list Selection))
| NArray (nodes : list Selection).

Definition selectionSet_of (s : Selection) : option (list Selection) :=
  match s with
  | Field _ _ ss => ss
  | InlineFragment ss => Some ss
  | FragmentSpread _ | OtherNode _ _ => None
  end.

(** [fieldNodes = fieldNodes || info.fieldNodes], then the array [nodes] and
    the concatenation of the selection sets found in it. *)
Definition selections_of (info : ResolveInfo) (nodeArg : NodeArg) : list Selection :=
  let fieldNodes' :=
    match nodeArg with
    | NUndefined =>
        match info.(fieldNodes) with
        | Some l => NArray l
        | None => NUndefined
        end
    | _ => nodeArg
    end in
  let nodes :=
    match fieldNodes' with
    | NArray l => map selectionSet_of l
    | NNode ss => [ss]
    | NUndefined => []
    end in
  fold_left (fun selections source =>
               match source with
               | Some sels => selections ++ sels
               | None => selections
               end) nodes [].

(** [info.fragments[name.value]] as a [fieldNodes] argument. *)
Definition fragment_node (info : ResolveInfo) (name : string) : NodeArg :=
  match obj_get name info.(fragments) with
  | Some sels => NNode (Some sels)
  | None => NUndefined
  end.

(** [(parentName ? `${parentName}.` : '') + name.value] *)
Definition node_prefix (parentName : option string) (name : string) : string :=
  match parentName with
  | Some p => if truthy (VStr p) then p +:+ "." else ""
  | None => ""
  end +:+ name.

Definition name_undefined : exn := TypeError "Cannot read property 'value' of undefined".
Definition unsupported_selection : exn := Error "Unsuported query selection".

(** ** query: getFilterObject *)

Definition names : list string := ["eq"; "gt"; "gte"; "lt"; "lte"; "ne"; "in"; "nin"].

Definition is_comparison (it : Argument) : bool := bool_decide (it.(arg_name) ∈ names).

Fixpoint find_arg (n : string) (args : list Argument) : option Argument :=
  match args with
  | [] => None
  | it :: r => if String.eqb it.(arg_name) n then Some it else find_arg n r
  end.

(** [filters]: one single-key object per comparison argument. *)
Definition filters_of (info : ResolveInfo) (args : list Argument) : outcome (list value) :=
  mapM_index (fun it _ => v ← parseValue info it.(arg_value);
                          Ok (VObj [("$" +:+ it.(arg_name), v)]))
             (filter (fun it => is_comparison it = true) args) 0.

(** [op]: the raw value of the [op] argument, ['and'] without one. *)
Definition op_of (args : list Argument) : value :=
  match find_arg "op" args with
  | Some it => raw_value it.(arg_value)
  | None => VStr "and"
  end.

Definition config_of (prefix : string) (op : value) (filters : list value) : props :=
  match filters with
  | [] => []
  | [f] => [(prefix, f)]
  | _ => [(prefix, VObj [("$" +:+ to_string op, VArr filters)])]
  end.

(** The callback of [selections.reduce]; [self] is the recursive call at
    one level less of depth. *)
Definition filter_step (self : NodeArg -> option string -> outcome props)
    (info : ResolveInfo) (parentName : option string)
    (list : props) (ast : Selection) : outcome props :=
  match ast with
  | Field name args ss =>
      let prefix := node_prefix parentName name in
      filters ← filters_of info args;
      let config := config_of prefix (op_of args) filters in
      sub ← self (NNode ss) (Some prefix);
      Ok (obj_assign (obj_assign (obj_assign [] list) sub) config)
  | InlineFragment _ => Throw name_undefined
  | FragmentSpread name =>
      let prefix := node_prefix parentName name in
      sub ← self (fragment_node info name) (Some prefix);
      Ok (obj_assign (obj_assign [] list) sub)
  | OtherNode _ None => Throw name_undefined
  | OtherNode _ (Some _) => Throw unsupported_selection
  end.

Fixpoint getFilterObject (fuel : nat) (info : option ResolveInfo) (nodeArg : NodeArg)
    (parentName : option string) : outcome props :=
  match fuel with
  | O => OutOfFuel
  | S fuel' =>
      match info with
      | None => Ok []
      | Some i =>
          reduceM (filter_step (getFilterObject fuel' info) i parentName)
                  (selections_of i nodeArg) []
      end
  end.

(** ** query: getSortObject *)

(** How [[...x]] treats an [x] that is not iterable. The language throws a
    TypeError; a build compiled down to ES5 may go through a spread helper
    that falls back to [Array.from(x)], which reads [x] as an array-like
    and finds nothing in an object without a [length]. [getSortObject]
    spreads objects into arrays, so its results are stated for both. *)
Inductive SpreadMode : Type := StrictSpread | ArrayFromSpread.

Record SortEntry : Type := mkSortEntry { se_name : string; se_value : number; se_order : number }.

(** What the accumulator of the reduce can hold: an entry, a bare direction
    (copied from a nested result), or a hole. *)
Inductive sort_item : Type :=
| IEntry (e : SortEntry)
| INumber (n : number)
| IUndefined.

(** The accumulator itself: the array it starts as, or the object that
    [{...list, ...}] turns it into. *)
Inductive sort_acc : Type :=
| AccArray (l : list sort_item)
| AccObject (o : list (string * sort_item)).

Definition numbers (m : list (string * number)) : list (string * sort_item) :=
  map (fun kv => (kv.1, INumber kv.2)) m.

Definition own_props (acc : sort_acc) : list (string * sort_item) :=
  match acc with
  | AccArray l => array_props l
  | AccObject o => o
  end.

(** ToLength of the [length] property. *)
Definition to_length (it : option sort_item) : Z :=
  match it with
  | Some (INumber (NInt z)) => Z.min (Z.max 0 z) 9007199254740991
  | Some (INumber (NDec m d)) => Z.max 0 (Z.quot m (10 ^ Zpos d))
  | Some (INumber (NInf false)) => 9007199254740991
  | _ => 0
  end.

Definition array_from (o : list (string * sort_item)) : outcome (list sort_item) :=
  let len := to_length (obj_get "length" o) in
  if (4294967295 <? len)%Z then Throw (RangeError "Invalid array length")
  else Ok (map (fun i => default IUndefined (obj_get (pretty (Z.of_nat i)) o))
               (seq 0 (Z.to_nat len))).

Definition spread_array (mode : SpreadMode) (acc : sort_acc) : outcome (list sort_item) :=
  match acc with
  | AccArray l => Ok l
  | AccObject o =>
      match mode with
      | StrictSpread => Throw (TypeError "object is not iterable")
      | ArrayFromSpread => array_from o
      end
  end.

(** [parseInt(v, 10)] for any value: ToString first. *)
Definition parseInt_value (v : value) : number := parseInt (to_string v).

(** [parseInt(parseValue(info, sortArg.value), 10) || 1] *)
Definition sort_direction (v : value) : number :=
  let n := parseInt_value v in if truthy (VNum n) then n else NInt 1.

(** [orderArg ? parseInt(orderArg.value.value, 10) : Infinity] *)
Definition sort_order (orderArg : option Argument) : number :=
  match orderArg with
  | Some it => parseInt_value (raw_value it.(arg_value))
  | None => NInf false
  end.

Definition sort_step (self : NodeArg -> option string -> outcome (list (string * number)))
    (mode : SpreadMode) (info : ResolveInfo) (parentName : option string)
    (list : sort_acc) (ast : Selection) : outcome sort_acc :=
  match ast with
  | Field name args ss =>
      let prefix := node_prefix parentName name in
      let sortArg := find_arg "sort" args in
      let orderArg := find_arg "sortOrder" args in
      match sortArg with
      | None =>
          sub ← self (NNode ss) None;
          Ok (AccObject (obj_assign (obj_assign [] (own_props list)) (numbers sub)))
      | Some it =>
          l1 ← spread_array mode list;
          sub ← self (NNode ss) (Some prefix);
          l2 ← spread_array mode (AccObject (numbers sub));
          v ← parseValue info it.(arg_value);
          Ok (AccArray (l1 ++ l2 ++
                [IEntry (mkSortEntry prefix (sort_direction v) (sort_order orderArg))]))
      end
  | InlineFragment _ => Throw name_undefined
  | FragmentSpread name =>
      let prefix := node_prefix parentName name in
      l1 ← spread_array mode list;
      sub ← self (fragment_node info name) (Some prefix);
      l2 ← spread_array mode (AccObject (numbers sub));
      Ok (AccArray (l1 ++ l2))
  | OtherNode _ None => Throw name_undefined
  | OtherNode _ (Some _) => Throw unsupported_selection
  end.

(** *** lodash [orderBy]

    Library code, modelled from its contract: the iteratee values of every
    element are compared column by column with [compareAscending]; elements
    that tie keep their order. An element that is no object has undefined
    in every column. *)

Definition num_ratio (n : number) : Z * Z :=
  match n with
  | NInt z => (z, 1%Z)
  | NDec m d => (m, (10 ^ Zpos d)%Z)
  | _ => (0%Z, 1%Z)
  end.

(** [a < b] on numbers. *)
Definition num_lt (a b : number) : bool :=
  match a, b with
  | NNaN, _ | _, NNaN => false
  | NInf na, NInf nb => na && negb nb
  | NInf na, _ => na
  | _, NInf nb => negb nb
  | _, _ => let '(x, p) := num_ratio a in let '(y, q) := num_ratio b in (x * q <? y * p)%Z
  end.

(** [a === b] on numbers. *)
Definition num_strict_eq (a b : number) : bool :=
  match a with
  | NNaN => false
  | _ => bool_decide (a = b)
  end.

Definition num_reflexive (a : number) : bool := num_strict_eq a a.

Definition compareAscending {A : Type} (lt eq : A -> A -> bool) (reflexive : A -> bool)
    (value other : option A) : Z :=
  let same := match value, other with
              | None, None => true
              | Some a, Some b => eq a b
              | _, _ => false
              end in
  if same then 0%Z
  else
    let valIsDefined := bool_decide (is_Some value) in
    let othIsDefined := bool_decide (is_Some other) in
    let valIsReflexive := from_option reflexive true value in
    let othIsReflexive := from_option reflexive true other in
    let gt := match value, other with Some a, Some b => lt b a | _, _ => false end in
    let less := match value, other with Some a, Some b => lt a b | _, _ => false end in
    if gt || (negb valIsDefined && othIsReflexive) || negb valIsReflexive then 1%Z
    else if less || (negb othIsDefined && valIsReflexive) || negb othIsReflexive then (-1)%Z
    else 0%Z.

(** The criteria [order], [name], [value] of an element. *)
Definition criteria (it : sort_item) : option number * option string * option number :=
  match it with
  | IEntry e => (Some e.(se_order), Some e.(se_name), Some e.(se_value))
  | INumber _ | IUndefined => (None, None, None)
  end.

(** [compareMultiple] with orders [['asc']]: columns past the first have no
    order of their own and are ascending too; the position breaks ties. *)
Definition compareMultiple (object other : nat * sort_item) : Z :=
  let '(o1, n1, v1) := criteria object.2 in
  let '(o2, n2, v2) := criteria other.2 in
  let c1 := compareAscending num_lt num_strict_eq num_reflexive o1 o2 in
  if negb (c1 =? 0)%Z then c1
  else
    let c2 := compareAscending String.ltb String.eqb (fun _ => true) n1 n2 in
    if negb (c2 =? 0)%Z then c2
    else
      let c3 := compareAscending num_lt num_strict_eq num_reflexive v1 v2 in
      if negb (c3 =? 0)%Z then c3
      else (Z.of_nat object.1 - Z.of_nat other.1)%Z.

(** [array.sort(comparer)] as a stable insertion sort. With the position as
    the last criterion the comparer is a total order whenever no [order] is
    NaN, and every correct sort then returns this same list. *)
Fixpoint sort_insert {A : Type} (cmp : A -> A -> Z) (x : A) (l : list A) : list A :=
  match l with
  | [] => [x]
  | y :: r => if (cmp x y <? 0)%Z then x :: l else y :: sort_insert cmp x r
  end.

Definition js_sort {A : Type} (cmp : A -> A -> Z) (l : list A) : list A :=
  fold_left (fun acc x => sort_insert cmp x acc) l [].

Definition collection_values (acc : sort_acc) : list sort_item :=
  match acc with
  | AccArray l => l
  | AccObject o => map snd o
  end.

Definition orderBy (collection : sort_acc) : list sort_item :=
  map snd (js_sort compareMultiple (imap (fun i x => (i, x)) (collection_values collection))).

(** The callback of the final reduce:
    [it.name ? {...sorts, [it.name]: it.value} : sorts]. *)
Definition sorts_step (sorts : list (string * number)) (it : sort_item)
  : outcome (list (string * number)) :=
  match it with
  | IEntry e =>
      if truthy (VStr e.(se_name))
      then Ok (obj_set e.(se_name) e.(se_value) (obj_assign [] sorts))
      else Ok sorts
  | INumber _ => Ok sorts
  | IUndefined => Throw (TypeError "Cannot read property 'name' of undefined")
  end.

Fixpoint getSortObject (mode : SpreadMode) (fuel : nat) (info : option ResolveInfo)
    (nodeArg : NodeArg) (parentName : option string) : outcome (list (string * number)) :=
  match fuel with
  | O => OutOfFuel
  | S fuel' =>
      match info with
      | None => Ok []
      | Some i =>
          fieldArr ← reduceM (sort_step (getSortObject mode fuel' info) mode i parentName)
                             (selections_of i nodeArg) (AccArray []);
          reduceM sorts_step (orderBy fieldArr) []
      end
  end.

(** ** utils: addHooks

    An async function is a state transformer that settles: it fulfils with a
    value or rejects with a reason, in both cases leaving a state behind. *)

Section Hooks.

Context {S : Type}.

Inductive settled (A : Type) : Type :=
| Fulfilled (a : A) (s : S)
| Rejected (reason : value) (s : S).

Definition async (A : Type) : Type := S -> settled A.

(** [await m] followed by [k]. *)
Definition await {A B : Type} (m : async A) (k : A -> async B) : async B :=
  fun s =>
    match m s with
    | Fulfilled _ a s' => k a s'
    | Rejected _ e s' => Rejected B e s'
    end.

Definition resolved {A : Type} (a : A) : async A := fun s => Fulfilled A a s.

(** The class [Middleware] lives in a module of its own; [addHooks] only
    needs what [new Middleware(hooks).compose(...args)] does, for whatever
    [hooks] stands for. *)
Context {hooks : Type}.
Variable compose : hooks -> list value -> async value.

Definition addHooks (resolver : list value -> async value) (pre post : hooks)
  : list value -> async value :=
  fun args =>
    await (compose pre args) (fun _ =>
    await (resolver args) (fun result =>
    await (compose post (result :: args)) (fun chained =>
    resolved (js_or chained result)))).

End Hooks.

Arguments settled : clear implicits.
Arguments async : clear implicits.
Arguments Fulfilled {S A} a s.
Arguments Rejected {S A} reason s.

(** Modelled from the spec: [Middleware.compose], whose module is not part of
    the sources at hand. The hooks run one after the other, each with the
    arguments [compose] was called with; a hook that fails ends the chain and
    its failure is the chain's; the result of the chain is the result of its
    last hook, and undefined when there is none. *)
Fixpoint Middleware_compose {S : Type} (chain : list (list value -> async S value))
    (args : list value) : async S value :=
  match chain with
  | [] => resolved VUndef
  | [h] => h args
  | h :: rest => await (h args) (fun _ => Middleware_compose rest args)
  end.

(** ** type: the argument deriver

    Types as the first pass of [getType] builds them: finite trees. *)

Inductive GraphQLType : Type :=
| GraphQLScalarType (name : string)
| GraphQLEnumType (name : string) (values : list (string * value))
| GraphQLObjectType (name : string) (fields : list (string * GraphQLType))
| GraphQLInputObjectType (name : string) (fields : list (string * GraphQLType))
| GraphQLList (ofType : GraphQLType)
| GraphQLNonNull (ofType : GraphQLType).

Definition GraphQLInt : GraphQLType := GraphQLScalarType "Int".
Definition GraphQLFloat : GraphQLType := GraphQLScalarType "Float".
Definition GraphQLString : GraphQLType := GraphQLScalarType "String".
Definition GraphQLID : GraphQLType := GraphQLScalarType "ID".

Definition GraphQLLogical : GraphQLType :=
  GraphQLEnumType "op"
    [("and", VStr "and"); ("or", VStr "or"); ("not", VStr "not"); ("nor", VStr "nor")].

Definition GraphQLSort : GraphQLType :=
  GraphQLEnumType "sort" [("desc", VNum (NInt (-1))); ("asc", VNum (NInt 1))].

(** An argument definition: [{ name, type, description }]. *)
Record FieldArg : Type := mkFieldArg {
  fa_name : string;
  fa_type : GraphQLType;
  fa_description : string
}.

(** An output field as [getFieldArguments] reads it: [{ name, type }]. *)
Record OutputField : Type := mkOutputField { of_name : string; of_type : GraphQLType }.

(** [type.name]; a list or non-null wrapper has none, and the undefined
    it yields becomes the key ["undefined"]. *)
Definition type_name (t : GraphQLType) : string :=
  match t with
  | GraphQLScalarType n | GraphQLEnumType n _
  | GraphQLObjectType n _ | GraphQLInputObjectType n _ => n
  | GraphQLList _ | GraphQLNonNull _ => "undefined"
  end.

Definition unwrap_nonNull (t : GraphQLType) : GraphQLType :=
  match t with
  | GraphQLNonNull t' => t'
  | _ => t
  end.

(** [createInputObject] after its first step (the non-null unwrapping);
    [inputByTypes] is threaded through. Only an object or input object type
    has a [_typeConfig] for [getTypeFields] to read. *)
Fixpoint input_mirror (type : GraphQLType) (inputByTypes : gmap string GraphQLType)
  : outcome (GraphQLType * gmap string GraphQLType) :=
  match type with
  | GraphQLInputObjectType _ _ | GraphQLScalarType _ => Ok (type, inputByTypes)
  | _ =>
      match inputByTypes !! type_name type with
      | Some t => Ok (t, inputByTypes)
      | None =>
          match type with
          | GraphQLObjectType name fields =>
              r ← (fix each (fields : list (string * GraphQLType))
                       (inputs : list (string * GraphQLType))
                       (memo : gmap string GraphQLType) :=
                     match fields with
                     | [] => Ok (inputs, memo)
                     | (fname, ftype) :: rest =>
                         r ← input_mirror
                               (match ftype with GraphQLNonNull t' => t' | _ => ftype end) memo;
                         each rest (obj_set fname r.1 inputs) r.2
                     end) fields [] inputByTypes;
              let mirror := GraphQLInputObjectType ("inputFor" +:+ name) r.1 in
              Ok (mirror, <[name := mirror]> r.2)
          | _ => Throw (TypeError "Cannot read property 'fields' of undefined")
          end
      end
  end.

Definition createInputObject (type : GraphQLType) (inputByTypes : gmap string GraphQLType)
  : outcome (GraphQLType * gmap string GraphQLType) :=
  input_mirror (unwrap_nonNull type) inputByTypes.

Definition instanceof_scalar_or_enum (t : GraphQLType) : bool :=
  match t with
  | GraphQLScalarType _ | GraphQLEnumType _ _ => true
  | _ => false
  end.

Definition instanceof_object (t : GraphQLType) : bool :=
  match t with
  | GraphQLObjectType _ _ => true
  | _ => false
  end.

Definition comparison_args (type : GraphQLType) : list (string * FieldArg) :=
  [ ("eq", mkFieldArg "eq" type "Matches values that are equal to a specified value.");
    ("gt", mkFieldArg "gt" type "Matches values that are greater than a specified value.");
    ("gte", mkFieldArg "gte" type
       "Matches values that are greater than or equal to a specified value.");
    ("lt", mkFieldArg "lt" type "Matches values that are less than a specified value.");
    ("lte", mkFieldArg "lte" type
       "Matches values that are less than or equal to a specified value.");
    ("ne", mkFieldArg "ne" type "Matches all values that are not equal to a specified value.");
    ("in", mkFieldArg "in" (GraphQLList type) "Matches any of the values specified in an array.");
    ("nin", mkFieldArg "nin" (GraphQLList type)
       "Matches none of the values specified in an array.");
    ("op", mkFieldArg "op" GraphQLLogical "Logical relations among multiple matches.") ].

Definition sort_args : list (string * FieldArg) :=
  [ ("sort", mkFieldArg "sort" GraphQLSort
       "A document that defines the sort order of the result set.");
    ("sortOrder", mkFieldArg "sortOrder" GraphQLInt
       "Sort order from small to large execution.") ].

Definition getFieldArguments (field : OutputField) (args : list (string * FieldArg))
    (inputByTypes : gmap string GraphQLType)
  : outcome (list (string * FieldArg) * gmap string GraphQLType) :=
  if (String.eqb field.(of_name) "_id" || String.eqb field.(of_name) "id")%bool
  then Ok (args, inputByTypes)
  else
    let type := unwrap_nonNull field.(of_type) in
    let args1 :=
      if instanceof_scalar_or_enum type
      then obj_assign (obj_assign [] (obj_assign (obj_assign [] args) (comparison_args type)))
                      sort_args
      else args in
    match type with
    | GraphQLList ofType =>
        r ← createInputObject ofType inputByTypes;
        let args2 :=
          obj_assign (obj_assign [] args1)
            [ ("all", mkFieldArg "all" (GraphQLList r.1)
                 "Matches arrays that contain all elements specified in the query.");
              ("size", mkFieldArg "size" GraphQLInt
                 "Selects documents if the array field is a specified size.") ] in
        if instanceof_object type
        then
          r' ← createInputObject ofType r.2;
          Ok (obj_assign (obj_assign [] args2)
                [ ("elemMatch", mkFieldArg "elemMatch" r'.1
                     "Selects documents if element in the array field matches all the specified $elemMatch conditions.") ],
              r'.2)
        else Ok (args2, r.2)
    | _ => Ok (args1, inputByTypes)
    end.

(** ** type: getType and getTypes

    The type objects of a context are shared and mutated in place, so they
    live in a store: a type object points to the object holding its fields,
    and that one to its field objects. Field arguments and resolvers are not
    read by [getTypes] and have no place in the store. *)

(** The type a field object holds. [TString] is the plain string a reference
    slot carries until the resolution pass; the relay types are what
    [connectionDefinitions] makes, fresh at every call. *)
Inductive gtype : Type :=
| TScalar (name : string)
| TEnum (name : string) (values : list string)
| TList (ofType : gtype)
| TNonNull (ofType : gtype)
| TObject (ref : nat)
| TConnection (name : string) (nodeType : gtype)
| TEdge (name : string) (nodeType : gtype)
| TPageInfo
| TString (s : string)
| TUndefined.

#[global] Instance gtype_eq_dec : EqDecision gtype.
Proof. solve_decision. Defined.

Record TypeObject : Type := mkTypeObject {
  t_name : string;
  t_interfaces : option (list nat);
  t_fields : option nat;
  t_mongooseEmbedded : bool
}.

(** [f_connection]: the object carries [args: connectionArgs]. *)
Record FieldObject : Type := mkFieldObject {
  f_name : string;
  f_type : gtype;
  f_connection : bool
}.

Inductive cell : Type :=
| CType (t : TypeObject)
| CFieldMap (m : list (string * nat))
| CField (f : FieldObject).

(** A field of a model, as the model layer describes it. *)
Inductive FieldDescriptor : Type :=
| mkFieldDescriptor (name type : string) (subtype reference : option string)
    (nonNull hidden : bool) (fields : list FieldDescriptor)
    (embeddedModel : option (string * list FieldDescriptor))
    (enumValues : option (list string)).

Record Model : Type := mkModel {
  m_key : string;
  m_name : string;
  m_fields : list FieldDescriptor
}.

(** The store and the type cache are shared by every context; the registry
    [types] and the table [resolveReference] belong to one. *)
Record TypeState : Type := mkTypeState {
  store : list cell;
  cache : option (list (string * nat));
  types : list (string * nat);
  resolveReference : list (string * list (string * nat))
}.

Definition TypeM (A : Type) : Type := TypeState -> outcome (A * TypeState).

#[global] Instance TypeM_ret : MRet TypeM := fun A a st => Ok (a, st).
#[global] Instance TypeM_bind : MBind TypeM := fun A B f m st =>
  match m st with
  | Ok (a, st') => f a st'
  | Throw e => Throw e
  | OutOfFuel => OutOfFuel
  end.

Definition throwM {A : Type} (e : exn) : TypeM A := fun _ => Throw e.
Definition getsM {A : Type} (f : TypeState -> A) : TypeM A := fun st => Ok (f st, st).
Definition modifyM (f : TypeState -> TypeState) : TypeM unit := fun st => Ok (tt, f st).

Definition set_store (f : list cell -> list cell) (st : TypeState) : TypeState :=
  mkTypeState (f st.(store)) st.(cache) st.(types) st.(resolveReference).
Definition set_cache (f : option (list (string * nat)) -> option (list (string * nat)))
    (st : TypeState) : TypeState :=
  mkTypeState st.(store) (f st.(cache)) st.(types) st.(resolveReference).
Definition set_types (f : list (string * nat) -> list (string * nat)) (st : TypeState)
  : TypeState :=
  mkTypeState st.(store) st.(cache) (f st.(types)) st.(resolveReference).
Definition set_resolveReference
    (f : list (string * list (string * nat)) -> list (string * list (string * nat)))
    (st : TypeState) : TypeState :=
  mkTypeState st.(store) st.(cache) st.(types) (f st.(resolveReference)).

(** [new ...]: the object gets the next free address. *)
Definition alloc (c : cell) : TypeM nat :=
  fun st => Ok (length st.(store), set_store (fun h => h ++ [c]) st).

Definition read_type (ref : nat) : TypeM TypeObject :=
  fun st =>
    match st.(store) !! ref with
    | Some (CType t) => Ok (t, st)
    | _ => Throw (TypeError "not a type object")
    end.

(** [types[name] = type]. The registry [types] is an Array used as a map:
    its [length] is a property of its own that takes numbers only, so a
    type of that name cannot be stored. *)
Definition addType (name : string) (type : nat) : TypeM unit :=
  if String.eqb name "length" then throwM (RangeError "Invalid array length")
  else modifyM (set_types (obj_set name type)).

Definition stringToGraphQLType (type : string) : gtype :=
  if String.eqb type "String" then TScalar "String"
  else if String.eqb type "Number" then TScalar "Float"
  else if String.eqb type "Date" then TScalar "Date"
  else if String.eqb type "Buffer" then TScalar "Buffer"
  else if String.eqb type "Boolean" then TScalar "Boolean"
  else if String.eqb type "ObjectID" then TScalar "ID"
  else TScalar "Generic".

Definition toUpperCase (c : ascii) : ascii :=
  let n := Ascii.N_of_ascii c in
  if ((97 <=? n) && (n <=? 122))%N then Ascii.ascii_of_N (n - 32) else c.

Definition getTypeFieldName (typeName fieldName : string) : string :=
  typeName +:+
    match fieldName with
    | String c r => String (toUpperCase c) r
    | EmptyString => ""
    end.

(** An option that holds a string, tested as JavaScript tests it. *)
Definition truthy_string (o : option string) : option string :=
  match o with
  | Some s => if String.eqb s "" then None else Some s
  | None => None
  end.

(** [resolveReference[rootType.name][key] = slot] *)
Definition add_slot (rootName key : string) (slot : nat) : TypeM unit :=
  fun st =>
    match obj_get rootName st.(resolveReference) with
    | Some fields =>
        Ok (tt, set_resolveReference (obj_set rootName (obj_set key slot fields)) st)
    | None => Throw (TypeError "Cannot set property of undefined")
    end.

(** The body of [getType] around the reduce over the fields; [each] is that
    reduce. *)
Definition getType_body
    (each : string -> list string -> string -> TypeM (list (string * nat)))
    (nodeInterface : nat) (name : string) (path : list string) (rootType : option string)
  : TypeM nat :=
  let root := bool_decide (path = []) in
  let rootName := default name rootType in
  _ ← modifyM (set_resolveReference (fun rr =>
         match obj_get name rr with
         | Some _ => rr
         | None => obj_set name [] rr
         end));
  graphQLTypeFields ← each name path rootName;
  graphQLTypeFields' ←
    (if root
     then idField ← alloc (CField (mkFieldObject "id" (TNonNull (TScalar "ID")) false));
          mret (obj_set "id" idField graphQLTypeFields)
     else mret graphQLTypeFields);
  fieldsObject ← alloc (CFieldMap graphQLTypeFields');
  definition ← alloc (CType (mkTypeObject name
                         (if root then Some [nodeInterface] else None)
                         (Some fieldsObject) false));
  _ ← (if root then addType name definition else mret tt);
  mret definition.

(** The callback of the reduce over the fields of a model, for one field;
    [getType] for the nested and embedded types is the recursion. *)
Fixpoint getType_field (nodeInterface : nat) (typeName : string) (path : list string)
    (rootName : string) (fd : FieldDescriptor) (graphQLFields : list (string * nat))
    {struct fd} : TypeM (list (string * nat)) :=
  match fd with
  | mkFieldDescriptor name type subtype reference nonNull hidden subfields
      embeddedModel enumValues =>
      let getType := fun (fields : list FieldDescriptor) (n : string) (p : list string)
                         (rt : option string) =>
        getType_body
          (fun tn pa rn =>
             (fix each (fs : list FieldDescriptor) (acc : list (string * nat))
                : TypeM (list (string * nat)) :=
                match fs with
                | [] => mret acc
                | f :: rest =>
                    acc' ← getType_field nodeInterface tn pa rn f acc; each rest acc'
                end) fields [])
          nodeInterface n p rt in
      let newPath := path ++ [name] in
      if (hidden || String.prefix "__" name)%bool then mret graphQLFields
      else
        fieldType ←
          (if String.eqb type "Array" then
             if bool_decide (subtype = Some "Object") then
               t ← getType subfields (getTypeFieldName typeName name) newPath (Some rootName);
               mret (TList (TObject t))
             else
               _ ← match truthy_string reference with
                   | Some r =>
                       slot ← alloc (CField (mkFieldObject name (TString r) true));
                       add_slot rootName name slot
                   | None => mret tt
                   end;
               mret (TList (stringToGraphQLType (default "undefined" subtype)))
           else if String.eqb type "Object" then
             t ← getType subfields (getTypeFieldName typeName name) newPath (Some rootName);
             mret (TObject t)
           else if String.eqb type "Embedded" then
             registered ← getsM (fun st => obj_get name st.(types));
             t ← (if String.eqb name "length"
                  then throwM (TypeError "Cannot create property on number")
                  else
                    match registered with
                    | Some t => mret t
                    | None =>
                        match embeddedModel with
                        | Some (ename, efields) => getType efields ename ["embedded"] None
                        | None => throwM (TypeError "Cannot destructure undefined")
                        end
                    end);
             o ← read_type t;
             _ ← modifyM (set_store (fun h =>
                    <[t := CType (mkTypeObject o.(t_name) o.(t_interfaces) o.(t_fields) true)]> h));
             mret (TObject t)
           else
             match enumValues with
             | Some vs =>
                 if String.eqb type "String"
                 then mret (TEnum (getTypeFieldName typeName (name +:+ "Enum")) vs)
                 else mret (stringToGraphQLType type)
             | None => mret (stringToGraphQLType type)
             end);
        _ ← match truthy_string reference with
            | Some r =>
                if bool_decide (fieldType = TScalar "ID") then
                  slot ← alloc (CField (mkFieldObject name (TString r) false));
                  add_slot rootName (join "." newPath) slot
                else mret tt
            | None => mret tt
            end;
        let fieldType' := if nonNull then TNonNull fieldType else fieldType in
        graphQLField ← alloc (CField (mkFieldObject name fieldType' false));
        mret (obj_set name graphQLField graphQLFields)
  end.

Definition getType_fields (nodeInterface : nat) (fields : list FieldDescriptor)
    (typeName : string) (path : list string) (rootName : string)
  : TypeM (list (string * nat)) :=
  (fix each (fs : list FieldDescriptor) (acc : list (string * nat))
     : TypeM (list (string * nat)) :=
     match fs with
     | [] => mret acc
     | f :: rest =>
         acc' ← getType_field nodeInterface typeName path rootName f acc; each rest acc'
     end) fields [].

(** [getType(graffitiModels, { name, fields }, path, rootType)] *)
Definition getType (nodeInterface : nat) (name : string) (fields : list FieldDescriptor)
    (path : list string) (rootType : option string) : TypeM nat :=
  getType_body (getType_fields nodeInterface fields) nodeInterface name path rootType.

(** [String(type)], the key under which [types[field.type]] looks. *)
Fixpoint type_key (h : list cell) (t : gtype) : string :=
  match t with
  | TScalar n | TEnum n _ => n
  | TList t' => "[" +:+ type_key h t' +:+ "]"
  | TNonNull t' => type_key h t' +:+ "!"
  | TObject ref =>
      match h !! ref with
      | Some (CType o) => o.(t_name)
      | _ => "undefined"
      end
  | TConnection n _ => n +:+ "Connection"
  | TEdge n _ => n +:+ "Edge"
  | TPageInfo => "PageInfo"
  | TString s => s
  | TUndefined => "undefined"
  end.

(** [types[key]] in the result of the reduce over the models. *)
Definition types_lookup (types : list (string * nat)) (key : string) : gtype :=
  match obj_get key types with
  | Some ref => TObject ref
  | None => TUndefined
  end.

(** The object the path walk stands on: a field map of the store, or the
    fields of a relay type, made anew by its thunk and dropped afterwards. *)
Inductive parent_fields : Type :=
| PStore (fields : nat)
| PFresh (fields : list (string * gtype))
| PUndefined.

Definition relay_fields (t : gtype) : option (list (string * gtype)) :=
  match t with
  | TConnection n node =>
      Some [("pageInfo", TNonNull TPageInfo); ("edges", TList (TEdge n node));
            ("count", TScalar "Float")]
  | TEdge _ node => Some [("node", node); ("cursor", TNonNull (TScalar "String"))]
  | TPageInfo =>
      Some [("hasNextPage", TNonNull (TScalar "Boolean"));
            ("hasPreviousPage", TNonNull (TScalar "Boolean"));
            ("startCursor", TScalar "String"); ("endCursor", TScalar "String")]
  | _ => None
  end.

(** Whether [t instanceof GraphQLObjectType]. *)
Definition instanceof_GraphQLObjectType (t : gtype) : bool :=
  match t with
  | TObject _ | TConnection _ _ | TEdge _ _ | TPageInfo => true
  | _ => false
  end.

(** [getTypeFields(type)] for an instance of GraphQLObjectType: the object
    its [fields] thunk returns, undefined when the type was given none. *)
Definition getTypeFields (h : list cell) (t : gtype) : parent_fields :=
  match t with
  | TObject ref =>
      match h !! ref with
      | Some (CType o) => from_option PStore PUndefined o.(t_fields)
      | _ => PUndefined
      end
  | _ => from_option PFresh PUndefined (relay_fields t)
  end.

(** The type of [parent[segment]], if there is such a field; reading a
    property of undefined throws. *)
Definition parent_lookup (h : list cell) (parent : parent_fields) (segment : string)
  : outcome (option gtype) :=
  match parent with
  | PStore a =>
      match h !! a with
      | Some (CFieldMap m) =>
          match obj_get segment m with
          | Some fa =>
              match h !! fa with
              | Some (CField f) => Ok (Some f.(f_type))
              | _ => Ok None
              end
          | None => Ok None
          end
      | _ => Ok None
      end
  | PFresh m => Ok (obj_get segment m)
  | PUndefined => Throw (TypeError "Cannot read property of undefined")
  end.

(** One step of [path.reduce]. *)
Definition path_step (field : nat) (last : nat) (st : list cell * parent_fields)
    (segment_idx : nat * string) : outcome (list cell * parent_fields) :=
  let '(h, parent) := st in
  let '(idx, segment) := segment_idx in
  found ← parent_lookup h parent segment;
  let parent' :=
    match found with
    | Some t =>
        if instanceof_GraphQLObjectType t then getTypeFields h t
        else
          match t with
          | TList t' => if instanceof_GraphQLObjectType t' then getTypeFields h t' else parent
          | _ => parent
          end
    | None => parent
    end in
  if (idx =? last)%nat then
    match parent' with
    | PStore a =>
        match h !! a with
        | Some (CFieldMap m) => Ok (<[a := CFieldMap (obj_set segment field m)]> h, parent')
        | _ => Ok (h, parent')
        end
    | PFresh _ => Ok (h, parent')
    | PUndefined => Throw (TypeError "Cannot set property of undefined")
    end
  else Ok (h, parent').

(** [fieldName.split('.')] *)
Fixpoint split_dots (s : string) (cur : string) : list string :=
  match s with
  | EmptyString => [cur]
  | String c r =>
      if Ascii.eqb c "." then cur :: split_dots r "" else split_dots r (cur +:+ String c "")
  end.

(** The callback of the reduce over the slots of one type; [typeFields] is
    the accumulator, the same object throughout. *)
Definition resolve_slot (types : list (string * nat)) (typeName : string)
    (typeFields : parent_fields) (h : list cell) (slot : string * nat)
  : outcome (list cell) :=
  let '(fieldName, field) := slot in
  match h !! field with
  | Some (CField f) =>
      let target := types_lookup types (type_key h f.(f_type)) in
      let newType :=
        if f.(f_connection)
        then TConnection (getTypeFieldName typeName fieldName) target
        else target in
      let h1 := <[field := CField (mkFieldObject f.(f_name) newType f.(f_connection))]> h in
      let path := split_dots fieldName "" in
      r ← reduceM (path_step field (length path - 1)) (imap (fun i x => (i, x)) path)
                  (h1, typeFields);
      Ok r.1
  | _ => Ok h
  end.

(** The callback of [forEach(resolveReference, ...)] past its gate. The
    closing [setTypeFields(type, typeFields)] gives the type a thunk that
    returns the object its fields already were. *)
Definition resolve_type (types : list (string * nat)) (typeName : string)
    (fields : list (string * nat)) : TypeM unit :=
  match obj_get typeName types with
  | Some type =>
      o ← read_type type;
      let typeFields := from_option PStore PUndefined o.(t_fields) in
      _ ← (fun st =>
             match reduceM (resolve_slot types typeName typeFields) fields st.(store) with
             | Ok h => Ok (tt, set_store (fun _ => h) st)
             | Throw e => Throw e
             | OutOfFuel => OutOfFuel
             end);
      modifyM (set_store (fun h =>
        <[type := CType (mkTypeObject o.(t_name) o.(t_interfaces) o.(t_fields)
                           o.(t_mongooseEmbedded))]> h))
  | None => mret tt
  end.

Fixpoint forEachM {A : Type} (f : A -> TypeM unit) (l : list A) : TypeM unit :=
  match l with
  | [] => mret tt
  | x :: r => _ ← f x; forEachM f r
  end.

(** The callback of the reduce over the models, shared by both versions of
    [getTypes]; the accumulator is [types] with [reResolveTypes]. *)
Definition getTypes_model (nodeInterface : nat) (acc : list (string * nat) * list string)
    (model : Model) : TypeM (list (string * nat) * list string) :=
  let '(types, reResolveTypes) := acc in
  c ← getsM cache;
  r ← match c with
      | Some entries =>
          match obj_get model.(m_key) entries with
          | None =>
              type ← getType nodeInterface model.(m_name) model.(m_fields) [] None;
              _ ← modifyM (set_cache (fmap (obj_set model.(m_key) type)));
              mret (type, reResolveTypes)
          | Some type =>
              o ← read_type type;
              match o.(t_interfaces) with
              | None => throwM (TypeError "Cannot read property '0' of undefined")
              | Some interfaces =>
                  if bool_decide (head interfaces = Some nodeInterface)
                  then mret (type, reResolveTypes)
                  else
                    type' ← alloc (CType (mkTypeObject o.(t_name) (Some [nodeInterface])
                                            o.(t_fields) false));
                    _ ← addType model.(m_name) type';
                    mret (type', reResolveTypes ++ [o.(t_name)])
              end
          end
      | None =>
          type ← getType nodeInterface model.(m_name) model.(m_fields) [] None;
          mret (type, reResolveTypes)
      end;
  mret (obj_set model.(m_name) r.1 types, r.2).

Fixpoint reduceT {A B : Type} (f : B -> A -> TypeM B) (l : list A) (init : B) : TypeM B :=
  match l with
  | [] => mret init
  | x :: r => b ← f init x; reduceT f r b
  end.

(** [getTypes(graffitiModels)], the version with [reResolveTypes]. *)
Definition getTypes (nodeInterface : nat) (graffitiModels : list Model)
  : TypeM (list (string * nat)) :=
  r ← reduceT (getTypes_model nodeInterface) graffitiModels ([], []);
  let '(types, reResolveTypes) := r in
  rr ← getsM resolveReference;
  _ ← forEachM (fun entry : string * list (string * nat) =>
         if bool_decide (entry.1 ∈ reResolveTypes) then mret tt
         else resolve_type types entry.1 entry.2) rr;
  mret types.

(** [getTypes(graffitiModels)], the version of type/type.js: the gate asks
    the cache for the type name. *)
Definition getTypes_cacheGate (nodeInterface : nat) (graffitiModels : list Model)
  : TypeM (list (string * nat)) :=
  r ← reduceT (getTypes_model nodeInterface) graffitiModels ([], []);
  let types := r.1 in
  rr ← getsM resolveReference;
  _ ← forEachM (fun entry : string * list (string * nat) =>
         c ← getsM cache;
         let cached := match c with
                       | Some entries => bool_decide (is_Some (obj_get entry.1 entries))
                       | None => false
                       end in
         if cached then mret tt else resolve_type types entry.1 entry.2) rr;
  mret types.

(** [createTypeContext(cache)]: a node interface of its own, the Viewer type
    registered, an empty reference table; store and cache are those of the
    process. *)
Definition createTypeContext (nodeInterface : nat) (st : TypeState) : TypeState :=
  let viewer := length st.(store) in
  mkTypeState (st.(store) ++ [CType (mkTypeObject "Viewer" (Some [nodeInterface]) None false)])
              st.(cache) [("Viewer", viewer)] [].

(** The type of field [fieldName] of the type object at [ref]. *)
Definition field_type (h : list cell) (ref : nat) (fieldName : string) : option gtype :=
  match h !! ref with
  | Some (CType o) =>
      match o.(t_fields) with
      | Some a =>
          match parent_lookup h (PStore a) fieldName with
          | Ok t => t
          | _ => None
          end
      | None => None
      end
  | _ => None
  end.

(** Hooks that only leave a mark: [probe tag ret] appends its tag and the
    arguments it was called with to a log and fulfils with [ret]. Used to
    observe the order of calls. *)
Definition probe (tag : string) (ret : value)
  : list value -> async (list (string * list value)) value :=
  fun args log => Fulfilled ret (log ++ [(tag, args)]).

(** Nesting depth of a selection list, and whether it is free of fragment
    spreads: the traversal of such a list needs no more than its depth. *)
Fixpoint sel_depth (s : Selection) : nat :=
  match s with
  | Field _ _ (Some ss) => S (foldr (fun x d => Nat.max (sel_depth x) d) 0 ss)
  | Field _ _ None => 1
  | InlineFragment ss => S (foldr (fun x d => Nat.max (sel_depth x) d) 0 ss)
  | FragmentSpread _ | OtherNode _ _ => 1
  end.

Definition sels_depth (ss : list Selection) : nat :=
  foldr (fun x d => Nat.max (sel_depth x) d) 0 ss.

(** A selection of one of the three kinds the compilers know, all the way
    down. *)
Fixpoint supported (s : Selection) : bool :=
  match s with
  | Field _ _ (Some ss) => forallb supported ss
  | Field _ _ None => true
  | InlineFragment ss => forallb supported ss
  | FragmentSpread _ => true
  | OtherNode _ _ => false
  end.

(** Every selection that a traversal of [info] can meet is supported. *)
Definition all_supported (info : ResolveInfo) : bool :=
  forallb supported (selections_of info NUndefined) &&
  forallb (fun f => forallb supported f.2) info.(fragments).

(** A node of another kind lies in the tree below [sels], fragments
    included. *)
Inductive contains_other (info : ResolveInfo) : list Selection -> Prop :=
| co_here kind name sels :
    In (OtherNode kind name) sels -> contains_other info sels
| co_field name args ss sels :
    In (Field name args (Some ss)) sels -> contains_other info ss ->
    contains_other info sels
| co_inline ss sels :
    In (InlineFragment ss) sels -> contains_other info ss -> contains_other info sels
| co_spread name sels :
    In (FragmentSpread name) sels ->
    contains_other info (selections_of info (fragment_node info name)) ->
    contains_other info sels.

(** The clause built for one comparison argument. *)
Definition clause_of (info : ResolveInfo) (it : Argument) (c : value) : Prop :=
  exists v, parseValue info it.(arg_value) = Ok v /\ c = VObj [("$" +:+ it.(arg_name), v)].

Fixpoint spread_free (s : Selection) : bool :=
  match s with
  | Field _ _ (Some ss) => forallb spread_free ss
  | Field _ _ None => true
  | InlineFragment ss => forallb spread_free ss
  | FragmentSpread _ => false
  | OtherNode _ _ => true
  end.

(** Where the traversal goes below a selection. *)
Definition child_node (info : ResolveInfo) (x : Selection) : NodeArg :=
  match x with
  | Field _ _ ss => NNode ss
  | FragmentSpread name => fragment_node info name
  | _ => NUndefined
  end.

(** A model for the examples: a user with a name, a mother and friends
    that are users, and a nested object holding a boss, a user too. *)
Definition user_model : Model :=
  mkModel "User" "User"
    [ mkFieldDescriptor "name" "String" None None false false [] None None;
      mkFieldDescriptor "mother" "ObjectID" None (Some "User") false false [] None None;
      mkFieldDescriptor "friends" "Array" (Some "ObjectID") (Some "User") false false []
        None None;
      mkFieldDescriptor "sub" "Object" None None false false
        [ mkFieldDescriptor "foo" "String" None None false false [] None None;
          mkFieldDescriptor "boss" "ObjectID" None (Some "User") false false [] None None ]
        None None ].

(** ** Where the keys of a filter come from *)

(** [filter_path info sels parent k]: some field with a comparison argument,
    met by the traversal of [sels] under the prefix [parent], has the dotted
    path [k]. The name of a fragment is a segment of the path like the name
    of a field. *)
Inductive filter_path (info : ResolveInfo)
  : list Selection -> option string -> string -> Prop :=
| fp_here sels parentName name args ss :
    In (Field name args ss) sels ->
    filter (fun it => is_comparison it = true) args <> [] ->
    filter_path info sels parentName (node_prefix parentName name)
| fp_below sels parentName name args ss k :
    In (Field name args ss) sels ->
    filter_path info (selections_of info (NNode ss)) (Some (node_prefix parentName name)) k ->
    filter_path info sels parentName k
| fp_spread sels parentName name k :
    In (FragmentSpread name) sels ->
    filter_path info (selections_of info (fragment_node info name))
      (Some (node_prefix parentName name)) k ->
    filter_path info sels parentName k.

(** A selection made of fields only, all the way down. *)
Fixpoint fields_only (s : Selection) : bool :=
  match s with
  | Field _ _ (Some ss) => forallb fields_only ss
  | Field _ _ None => true
  | _ => false
  end.

(** The traversal of [sels] meets the spread of a fragment that
    [info.fragments] does not hold. *)
Inductive reaches_unknown_fragment (info : ResolveInfo) : list Selection -> Prop :=
| ru_here name sels :
    In (FragmentSpread name) sels -> obj_get name info.(fragments) = None ->
    reaches_unknown_fragment info sels
| ru_field name args ss sels :
    In (Field name args (Some ss)) sels -> reaches_unknown_fragment info ss ->
    reaches_unknown_fragment info sels
| ru_spread name ss sels :
    In (FragmentSpread name) sels -> obj_get name info.(fragments) = Some ss ->
    reaches_unknown_fragment info ss ->
    reaches_unknown_fragment info sels.

(** A selection made of fields only, none of which carries a [sort]
    argument, all the way down. *)
Fixpoint unsorted (s : Selection) : bool :=
  match s with
  | Field _ args (Some ss) =>
      negb (bool_decide (is_Some (find_arg "sort" args))) && forallb unsorted ss
  | Field _ args None => negb (bool_decide (is_Some (find_arg "sort" args)))
  | _ => false
  end.

(** What a field with a [sort] argument contributes. *)
Definition sort_origin (info : ResolveInfo) (sels : list Selection)
    (parentName : option string) (k : string) (n : number) : Prop :=
  exists name args ss it v,
    In (Field name args ss) sels /\
    find_arg "sort" args = Some it /\
    parseValue info it.(arg_value) = Ok v /\
    k = node_prefix parentName name /\
    n = sort_direction v.

(** ** Values the embedding prints as JavaScript does

    A number that is a double: an integer that rounds to itself, or a
    decimal fraction of at most 15 digits within the normal range, which a
    double tells apart from every other such fraction and prints back. A
    string of ASCII characters, on which [parseInt] skips the white space
    modelled here and no other. *)
Definition exact_number (n : number) : bool :=
  match n with
  | NInt z => bool_decide (round_double z = NInt z)
  | NDec m d => ((Z.abs m <? 10 ^ 15) && (Zpos d <=? 300))%Z
  | NNaN | NInf _ => true
  end.

Definition ascii_string (s : string) : bool :=
  forallb (fun c => (Ascii.N_of_ascii c <? 128)%N) (list_ascii_of_string s).

Fixpoint exact_value (v : value) : bool :=
  match v with
  | VNum n => exact_number n
  | VStr s => ascii_string s
  | VArr l =>
      (fix all (l : list value) : bool :=
         match l with
         | [] => true
         | x :: r => exact_value x && all r
         end) l
  | VUndef | VNull | VBool _ | VObj _ => true
  end.

(** ** The earlier query modules

    The compilers as they were before the dotted paths: the same traversal,
    no [parentName], the one-parameter [parseValue], and [name.value] read
    only where a case needs it. *)

Definition filters_of_v1 (args : list Argument) : list value :=
  map (fun it => VObj [("$" +:+ it.(arg_name), parseValue_v1 it.(arg_value))])
      (filter (fun it => is_comparison it = true) args).

Definition filter_step_v1 (self : NodeArg -> outcome props) (info : ResolveInfo)
    (list : props) (ast : Selection) : outcome props :=
  match ast with
  | Field name args ss =>
      let config := config_of name (op_of args) (filters_of_v1 args) in
      sub ← self (NNode ss);
      Ok (obj_assign (obj_assign (obj_assign [] list) sub) config)
  | InlineFragment ss =>
      sub ← self (NNode (Some ss));
      Ok (obj_assign (obj_assign [] list) sub)
  | FragmentSpread name =>
      sub ← self (fragment_node info name);
      Ok (obj_assign (obj_assign [] list) sub)
  | OtherNode _ _ => Throw unsupported_selection
  end.

Fixpoint getFilterObject_v1 (fuel : nat) (info : option ResolveInfo) (nodeArg : NodeArg)
  : outcome props :=
  match fuel with
  | O => OutOfFuel
  | S fuel' =>
      match info with
      | None => Ok []
      | Some i =>
          reduceM (filter_step_v1 (getFilterObject_v1 fuel' info) i)
                  (selections_of i nodeArg) []
      end
  end.

(** The result of the earlier [getSortObject]: a key can hold undefined. *)
Definition sort_values (m : list (string * option number)) : list (string * sort_item) :=
  map (fun kv => (kv.1, from_option INumber IUndefined kv.2)) m.

Definition sort_step_v1 (self : NodeArg -> outcome (list (string * option number)))
    (mode : SpreadMode) (info : ResolveInfo)
    (list : sort_acc) (ast : Selection) : outcome sort_acc :=
  match ast with
  | Field name args ss =>
      let sortArg := find_arg "sort" args in
      let orderArg := find_arg "sortOrder" args in
      match sortArg with
      | None =>
          sub ← self (NNode ss);
          Ok (AccObject (obj_assign (obj_assign [] (own_props list)) (sort_values sub)))
      | Some it =>
          l1 ← spread_array mode list;
          sub ← self (NNode ss);
          l2 ← spread_array mode (AccObject (sort_values sub));
          Ok (AccArray (l1 ++ l2 ++
                [IEntry (mkSortEntry it.(arg_name)
                           (let n := parseInt_value (raw_value it.(arg_value)) in
                            if truthy (VNum n) then n else NInt 1)
                           (sort_order orderArg))]))
      end
  | InlineFragment ss =>
      l1 ← spread_array mode list;
      sub ← self (NNode (Some ss));
      l2 ← spread_array mode (AccObject (sort_values sub));
      Ok (AccArray (l1 ++ l2))
  | FragmentSpread name =>
      l1 ← spread_array mode list;
      sub ← self (fragment_node info name);
      l2 ← spread_array mode (AccObject (sort_values sub));
      Ok (AccArray (l1 ++ l2))
  | OtherNode _ _ => Throw unsupported_selection
  end.

(** The callback of the final reduce, [{...sorts, [it.name]: it.value}]: a
    number has no [name] and no [value], and lands under the key
    ["undefined"]. *)
Definition sorts_step_v1 (sorts : list (string * option number)) (it : sort_item)
  : outcome (list (string * option number)) :=
  match it with
  | IEntry e => Ok (obj_set e.(se_name) (Some e.(se_value)) (obj_assign [] sorts))
  | INumber _ => Ok (obj_set "undefined" None (obj_assign [] sorts))
  | IUndefined => Throw (TypeError "Cannot read property 'name' of undefined")
  end.

Fixpoint getSortObject_v1 (mode : SpreadMode) (fuel : nat) (info : option ResolveInfo)
    (nodeArg : NodeArg) : outcome (list (string * option number)) :=
  match fuel with
  | O => OutOfFuel
  | S fuel' =>
      match info with
      | None => Ok []
      | Some i =>
          fieldArr ← reduceM (sort_step_v1 (getSortObject_v1 mode fuel' info) mode i)
                             (selections_of i nodeArg) (AccArray []);
          reduceM sorts_step_v1 (orderBy fieldArr) []
      end
  end.

(** A selection of fields without selections of their own. *)
Definition flat (s : Selection) : bool :=
  match s with
  | Field _ _ None => true
  | _ => false
  end.

(** A value node on which the two [parseValue] cannot differ: no variable,
    and no list with an element. *)
Definition literal (node : ValueNode) : bool :=
  match node with
  | VariableRef _ | ListValue (_ :: _) => false
  | _ => true
  end.

Definition literal_args (s : Selection) : bool :=
  match s with
  | Field _ args _ =>
      forallb (fun it => literal it.(arg_value))
              (filter (fun it => is_comparison it = true) args)
  | _ => true
  end.

(** [filter_name_v1 info sels k]: the earlier traversal of [sels] meets a
    field named [k] that carries a comparison argument. *)
Inductive filter_name_v1 (info : ResolveInfo) : list Selection -> string -> Prop :=
| fn_here sels name args ss :
    In (Field name args ss) sels ->
    filter (fun it => is_comparison it = true) args <> [] ->
    filter_name_v1 info sels name
| fn_below sels name args ss k :
    In (Field name args ss) sels ->
    filter_name_v1 info (selections_of info (NNode ss)) k ->
    filter_name_v1 info sels k
| fn_inline sels ss k :
    In (InlineFragment ss) sels ->
    filter_name_v1 info ss k ->
    filter_name_v1 info sels k
| fn_spread sels name k :
    In (FragmentSpread name) sels ->
    filter_name_v1 info (selections_of info (fragment_node info name)) k ->
    filter_name_v1 info sels k.

(** ** What [createInputObject] can mirror *)

(** The reduce over the fields inside [createInputObject], on its own. *)
Fixpoint mirror_fields (fields : list (string * GraphQLType))
    (inputs : list (string * GraphQLType)) (memo : gmap string GraphQLType)
  : outcome (list (string * GraphQLType) * gmap string GraphQLType) :=
  match fields with
  | [] => Ok (inputs, memo)
  | (fname, ftype) :: rest =>
      r ← input_mirror (unwrap_nonNull ftype) memo;
      mirror_fields rest (obj_set fname r.1 inputs) r.2
  end.

(** An object type all of whose fields are, below at most one non-null
    wrapper, scalars, input objects or object types of that kind. *)
Fixpoint mirrorable (t : GraphQLType) : bool :=
  match t with
  | GraphQLScalarType _ | GraphQLInputObjectType _ _ => true
  | GraphQLObjectType _ fields =>
      (fix all (fs : list (string * GraphQLType)) : bool :=
         match fs with
         | [] => true
         | (_, ftype) :: rest =>
             mirrorable (match ftype with GraphQLNonNull t' => t' | _ => ftype end)
             && all rest
         end) fields
  | _ => false
  end.

(** [isInputObjectType(t) || isScalarType(t)] *)
Definition is_input (t : GraphQLType) : bool :=
  match t with
  | GraphQLScalarType _ | GraphQLInputObjectType _ _ => true
  | _ => false
  end.

(** ** The type context: what its functions keep *)

Definition fd_name (fd : FieldDescriptor) : string :=
  match fd with mkFieldDescriptor name _ _ _ _ _ _ _ _ => name end.

(** A field that [getType] gives a place in the type: not hidden, and no
    name that starts with two underscores. *)
Definition fd_visible (fd : FieldDescriptor) : bool :=
  match fd with
  | mkFieldDescriptor name _ _ _ _ hidden _ _ _ => negb (hidden || String.prefix "__" name)
  end.

(** Every run of [m] that returns relates the states before and after
    by [R]. *)
Definition keeps {A : Type} (R : TypeState -> TypeState -> Prop) (m : TypeM A) : Prop :=
  forall st a st', m st = Ok (a, st') -> R st st'.

(** A type object stays where it is, with its name, interfaces and fields
    object; only its [mongooseEmbedded] mark can change. *)
Definition types_kept (h h' : list cell) : Prop :=
  forall a o, h !! a = Some (CType o) ->
    exists e, h' !! a = Some (CType (mkTypeObject o.(t_name) o.(t_interfaces) o.(t_fields) e)).

(** Every object of the store stays where it is and as it is, but for the
    [mongooseEmbedded] mark of a type object. *)
Definition cells_kept (h h' : list cell) : Prop :=
  forall a c, h !! a = Some c ->
    match c with
    | CType o =>
        exists e,
          h' !! a = Some (CType (mkTypeObject o.(t_name) o.(t_interfaces) o.(t_fields) e))
    | _ => h' !! a = Some c
    end.

(** The cache is the same object before and after, and what it held it
    still holds. *)
Definition cache_grows (c c' : option (list (string * nat))) : Prop :=
  match c, c' with
  | None, None => True
  | Some entries, Some entries' =>
      forall k ref, obj_get k entries = Some ref -> obj_get k entries' = Some ref
  | _, _ => False
  end.

(** The type object at [ref] has [nodeInterface] as its first interface. *)
Definition implements (nodeInterface : nat) (h : list cell) (ref : nat) : Prop :=
  exists o rest, h !! ref = Some (CType o) /\ o.(t_interfaces) = Some (nodeInterface :: rest).

(** What [getType_field] and the nested calls of [getType] leave alone. *)
Definition field_step (st st' : TypeState) : Prop :=
  st'.(cache) = st.(cache) /\ st'.(types) = st.(types) /\
  cells_kept st.(store) st'.(store).

(** What a pass of [getTypes] leaves alone. *)
Definition types_step (st st' : TypeState) : Prop :=
  cache_grows st.(cache) st'.(cache) /\ types_kept st.(store) st'.(store).

Section GetTypeEach.

Variables (nodeInterface : nat) (typeName : string) (path : list string) (rootName : string).

(** The reduce over the fields inside [getType], from any accumulator. *)
Fixpoint getType_each (fs : list FieldDescriptor) (acc : list (string * nat))
  : TypeM (list (string * nat)) :=
  match fs with
  | [] => mret acc
  | f :: rest =>
      acc' ← getType_field nodeInterface typeName path rootName f acc;
      getType_each rest acc'
  end.

End GetTypeEach.

(** The type [getType] gives a field that needs no type object of its own:
    a scalar, an enum, or a list of scalars. *)
Definition plain_type (typeName : string) (fd : FieldDescriptor) : option gtype :=
  match fd with
  | mkFieldDescriptor name type subtype _ nonNull _ _ _ enumValues =>
      let wrap := fun t => if nonNull then TNonNull t else t in
      if String.eqb type "Array" then
        if bool_decide (subtype = Some "Object") then None
        else Some (wrap (TList (stringToGraphQLType (default "undefined" subtype))))
      else if String.eqb type "Object" then None
      else if String.eqb type "Embedded" then None
      else Some (wrap (match enumValues with
                       | Some vs =>
                           if String.eqb type "String"
                           then TEnum (getTypeFieldName typeName (name +:+ "Enum")) vs
                           else stringToGraphQLType type
                       | None => stringToGraphQLType type
                       end))
  end.

(** *** The description of the field types

    What the types of a model stand for, written as the table it is, and
    the capital letters as the alphabet, to hold against what [getType]
    computes. *)
Definition scalar_table : list (string * string) :=
  [("String", "String"); ("Number", "Float"); ("Date", "Date"); ("Buffer", "Buffer");
   ("Boolean", "Boolean"); ("ObjectID", "ID")].

Definition scalar_for (type : string) : gtype :=
  TScalar match list_find (fun kv => bool_decide (kv.1 = type)) scalar_table with
          | Some (_, kv) => kv.2
          | None => "Generic"
          end.

Definition small_letters : list ascii := list_ascii_of_string "abcdefghijklmnopqrstuvwxyz".
Definition capital_letters : list ascii := list_ascii_of_string "ABCDEFGHIJKLMNOPQRSTUVWXYZ".

(** The capital of a small letter; any other character is left as it is. *)
Definition capital (c : ascii) : ascii :=
  match list_find (fun x => bool_decide (x = c)) small_letters with
  | Some (i, _) => default c (capital_letters !! i)
  | None => c
  end.

Definition capitalized (s : string) : string :=
  match s with
  | String c r => String (capital c) r
  | EmptyString => ""
  end.

Fixpoint capitals (s : string) : string :=
  match s with
  | String c r => String (capital c) (capitals r)
  | EmptyString => ""
  end.

(** The type a field is described to have. *)
Definition described_type (typeName : string) (fd : FieldDescriptor) : option gtype :=
  match fd with
  | mkFieldDescriptor name type subtype _ nonNull _ _ _ enumValues =>
      let wrap := fun t => if nonNull then TNonNull t else t in
      if bool_decide (type = "Array") then
        if bool_decide (subtype = Some "Object") then None
        else Some (wrap (TList (scalar_for (default "undefined" subtype))))
      else if bool_decide (type = "Object" \/ type = "Embedded") then None
      else
        match enumValues with
        | Some vs =>
            if bool_decide (type = "String")
            then Some (wrap (TEnum (typeName +:+ capitalized (name +:+ "Enum")) vs))
            else Some (wrap (scalar_for type))
        | None => Some (wrap (scalar_for type))
        end
  end.

(** A model for the examples: a product with every kind of plain field. *)
Definition product_model : Model :=
  mkModel "Product" "Product"
    [ mkFieldDescriptor "price" "Number" None None true false [] None None;
      mkFieldDescriptor "added" "Date" None None false false [] None None;
      mkFieldDescriptor "tags" "Array" (Some "String") None false false [] None None;
      mkFieldDescriptor "size" "String" None None false false [] None (Some ["S"; "M"]);
      mkFieldDescriptor "picture" "Buffer" None None false false [] None None;
      mkFieldDescriptor "sold" "Boolean" None None false false [] None None;
      mkFieldDescriptor "notes" "Mixed" None None false false [] None None;
      mkFieldDescriptor "maker" "ObjectID" None None false false [] None None ].

(** What the resolution pass leaves alone: the cache, the registry, and
    every type object, which it only hands its own fields again. *)
Definition resolve_step (st st' : TypeState) : Prop :=
  st'.(cache) = st.(cache) /\
  forall a o, st.(store) !! a = Some (CType o) -> st'.(store) !! a = Some (CType o).

(** ** type: getOrderByType and getArguments

    [getArguments] reads the field objects of a type and hands some of them
    out as arguments: the same objects, which it changes in place. *)

(** An argument: a field object of the type itself, the ordering argument
    with its enum, or whatever the caller handed in. *)
Inductive ArgDef : Type :=
| ArgField (field : nat)
| ArgOrder (name : string) (enum : string * list (string * (string * Z)))
| ArgGiven (tag : string).

(** The two versions: the one that calls the ordering argument [sort] and
    leaves the identity fields out, and the one of type/type.js. *)
Inductive ArgsVersion : Type := SortArg | OrderByArg.

Definition instanceof_GraphQLScalarType (t : gtype) : bool :=
  match t with
  | TScalar _ => true
  | _ => false
  end.

(** [s.toUpperCase()] on the ASCII letters that a GraphQL name is made of. *)
Fixpoint upperCase (s : string) : string :=
  match s with
  | EmptyString => EmptyString
  | String c r => String (toUpperCase c) (upperCase r)
  end.

(** The values of the enum: two for every field that is a scalar, mapping
    to [{ [field.name]: 1 }] and [{ [field.name]: -1 }]. *)
Definition order_values (fields : list FieldObject) : list (string * (string * Z)) :=
  fold_left (fun values field =>
               if instanceof_GraphQLScalarType field.(f_type)
               then obj_set (upperCase field.(f_name) +:+ "_DESC") (field.(f_name), (-1)%Z)
                      (obj_set (upperCase field.(f_name) +:+ "_ASC") (field.(f_name), 1%Z)
                         values)
               else values) fields [].

(** [getOrderByType({ name }, fields)], with the table [orderByTypes]. *)
Definition getOrderByType (name : string) (fields : list FieldObject)
    (orderByTypes : list (string * (string * list (string * (string * Z)))))
  : (string * list (string * (string * Z))) *
    list (string * (string * list (string * (string * Z)))) :=
  match obj_get name orderByTypes with
  | Some enum => (enum, orderByTypes)
  | None =>
      let enum := ("orderBy" +:+ name, order_values fields) in
      (enum, obj_set name enum orderByTypes)
  end.

Definition read_field (a : nat) : TypeM FieldObject :=
  fun st =>
    match st.(store) !! a with
    | Some (CField f) => Ok (f, st)
    | _ => Throw (TypeError "not a field object")
    end.

(** [getTypeFields(type)] as the object it is: the keys with the addresses
    of the field objects; nothing to go through when the type has none. *)
Definition read_fieldMap (fa : nat) : TypeM (list (string * nat)) :=
  fun st =>
    match st.(store) !! fa with
    | Some (CFieldMap m) => Ok (m, st)
    | _ => Throw (TypeError "not a fields object")
    end.

Definition type_fields (type : nat) : TypeM (list (string * nat)) :=
  o ← read_type type;
  match o.(t_fields) with
  | Some fa => read_fieldMap fa
  | None => mret []
  end.

Fixpoint mapT {A B : Type} (f : A -> TypeM B) (l : list A) : TypeM (list B) :=
  match l with
  | [] => mret []
  | x :: r => y ← f x; ys ← mapT f r; mret (y :: ys)
  end.

(** The fields that a version passes by untouched. *)
Definition passed_by (version : ArgsVersion) (name : string) : bool :=
  match version with
  | SortArg => (String.eqb name "_id" || String.eqb name "id")%bool
  | OrderByArg => false
  end.

(** Whether a version takes the non-null wrapper off a field. *)
Definition unwrapped (version : ArgsVersion) (name : string) : bool :=
  match version with
  | SortArg => true
  | OrderByArg => negb (String.eqb name "id")
  end.

(** The callback of the reduce over the fields, for the field object at
    [a]: [field.type = field.type.ofType] writes into that object. *)
Definition getArguments_step (version : ArgsVersion) (args : list (string * ArgDef))
    (a : nat) : TypeM (list (string * ArgDef)) :=
  field ← read_field a;
  if passed_by version field.(f_name) then mret args
  else
    type ← match field.(f_type) with
           | TNonNull ofType =>
               if unwrapped version field.(f_name)
               then _ ← modifyM (set_store (fun h =>
                           <[a := CField (mkFieldObject field.(f_name) ofType
                                            field.(f_connection))]> h));
                    mret ofType
               else mret field.(f_type)
           | t => mret t
           end;
    if instanceof_GraphQLScalarType type
    then mret (obj_set field.(f_name) (ArgField a) args)
    else mret args.

(** [getArguments(type, args)]; the initial value of the reduce, with the
    call of [getOrderByType] in it, is evaluated before the reduce runs. *)
Definition getArguments (version : ArgsVersion) (type : nat) (args : list (string * ArgDef))
    (orderByTypes : list (string * (string * list (string * (string * Z)))))
  : TypeM (list (string * ArgDef) *
           list (string * (string * list (string * (string * Z))))) :=
  o ← read_type type;
  fields ← type_fields type;
  fieldObjects ← mapT read_field (map snd fields);
  let r := getOrderByType o.(t_name) fieldObjects orderByTypes in
  let key := match version with SortArg => "sort" | OrderByArg => "orderBy" end in
  args' ← reduceT (getArguments_step version) (map snd fields)
            (obj_set key (ArgOrder key r.1) (obj_assign [] args));
  mret (args', r.2).

(** A field object after [getArguments] has gone over it. *)
Definition stripped (version : ArgsVersion) (f : FieldObject) : FieldObject :=
  if (passed_by version f.(f_name) || negb (unwrapped version f.(f_name)))%bool then f
  else
    match f.(f_type) with
    | TNonNull ofType => mkFieldObject f.(f_name) ofType f.(f_connection)
    | _ => f
    end.

(** A model for the examples: an account with a name that is required, an
    age and a list of tags. *)
Definition account_model : Model :=
  mkModel "Account" "Account"
    [ mkFieldDescriptor "name" "String" None None true false [] None None;
      mkFieldDescriptor "age" "Number" None None false false [] None None;
      mkFieldDescriptor "tags" "Array" (Some "String") None false false [] None None ].

(** ** model: getModel

    A Mongoose model as the model layer reads it: its [modelName], the
    [versionedName] some callers give it, the name its schema may carry, and
    its schema paths, which only [extractPaths] looks into. *)

Record MongooseModel (Paths : Type) : Type := mkMongooseModel {
  modelName : string;
  versionedName : option string;
  schemaName : option string;
  paths : Paths
}.

Arguments mkMongooseModel {Paths} modelName versionedName schemaName paths.
Arguments modelName {Paths} m.
Arguments versionedName {Paths} m.
Arguments schemaName {Paths} m.
Arguments paths {Paths} m.

(** [{ key, name, fields, model }] *)
Record GraffitiModel (Paths : Type) : Type := mkGraffitiModel {
  gm_key : string;
  gm_name : string;
  gm_fields : list FieldDescriptor;
  gm_model : MongooseModel Paths
}.

Arguments mkGraffitiModel {Paths} gm_key gm_name gm_fields gm_model.
Arguments gm_key {Paths} g.
Arguments gm_name {Paths} g.
Arguments gm_fields {Paths} g.
Arguments gm_model {Paths} g.

(** The entries of the model cache (expiry left aside) and the embedded
    models of the context. *)
Record ModelState (Paths : Type) : Type := mkModelState {
  modelCache : list (string * GraffitiModel Paths);
  embeddedModels : list (string * GraffitiModel Paths)
}.

Arguments mkModelState {Paths} modelCache embeddedModels.
Arguments modelCache {Paths} m.
Arguments embeddedModels {Paths} m.

Section ModelContext.

Context {Paths : Type}.

(** [extractPaths(schemaPaths, { name })]: turns the paths of a schema into
    field descriptions; for an embedded schema it comes back to [getModel],
    so it works on the state of the context. *)
Variable extractPaths :
  Paths -> string -> ModelState Paths ->
  outcome (list FieldDescriptor * ModelState Paths).

(** [getModel(model)] in a context made with a cache ([cache = true]) or
    with a falsy argument in its place. *)
Definition getModel (cache : bool) (model : MongooseModel Paths) (st : ModelState Paths)
  : outcome (GraffitiModel Paths * ModelState Paths) :=
  let key := model.(modelName) in
  match (if cache then obj_get key st.(modelCache) else None) with
  | Some gmodel => Ok (gmodel, st)
  | None =>
      let name := default key (truthy_string model.(schemaName)) in
      r ← extractPaths model.(paths) name st;
      let gmodel := mkGraffitiModel key name r.1 model in
      Ok (gmodel,
          if cache
          then mkModelState (obj_set key gmodel r.2.(modelCache)) r.2.(embeddedModels)
          else r.2)
  end.

End ModelContext.

(** ** schema: getSchema *)

(** The options of [getSchema]: the two it reads itself, and the rest,
    which it hands on. *)
Record SchemaOptions (O : Type) : Type := mkSchemaOptions {
  cacheKey : value;
  schemaCache : option nat;
  otherOptions : O
}.

Arguments mkSchemaOptions {O} cacheKey schemaCache otherOptions.
Arguments cacheKey {O} s.
Arguments schemaCache {O} s.
Arguments otherOptions {O} s.

(** The schema caches by address, that of the module at address 0 (expiry
    left aside), and what the building of a schema works on: the model and
    type contexts and their caches. *)
Record SchemaState (Schema B : Type) : Type := mkSchemaState {
  schemaCaches : list (list (string * Schema));
  building : B
}.

Arguments mkSchemaState {Schema B} schemaCaches building.
Arguments schemaCaches {Schema B} s.
Arguments building {Schema B} s.

Section GetSchema.

Context {Paths O Schema B : Type}.

(** The hash of the string-hash package. *)
Variable stringHash : string -> Z.

(** All that [getSchema] does on a miss before it stores the schema: the
    contexts, [getModels], [getFields], [new GraphQLSchema]. *)
Variable build :
  list (MongooseModel Paths) -> SchemaOptions O -> B -> outcome (Schema * B).

(** [model.versionedName || model.modelName] *)
Definition model_label (model : MongooseModel Paths) : string :=
  default model.(modelName) (truthy_string model.(versionedName)).

(** The cache key as a property key: [options.cacheKey || stringHash(...)]. *)
Definition schema_key (models : list (MongooseModel Paths)) (options : SchemaOptions O)
  : string :=
  to_string (js_or options.(cacheKey)
               (VNum (NInt (stringHash (join "#" (map model_label models)))))).

(** [options.schemaCache || schemaCache] *)
Definition schema_cache_of (options : SchemaOptions O) : option nat :=
  match options.(schemaCache) with
  | Some c => Some c
  | None => Some 0
  end.

Definition getSchema (mongooseModels : MongooseModel Paths + list (MongooseModel Paths))
    (options : option (SchemaOptions O)) (st : SchemaState Schema B)
  : outcome (Schema * SchemaState Schema B) :=
  let models := match mongooseModels with inl m => [m] | inr l => l end in
  match options with
  | None => Throw (TypeError "Cannot read property 'cacheKey' of undefined")
  | Some o =>
      let haskey := schema_key models o in
      match schema_cache_of o with
      | Some c =>
          match st.(schemaCaches) !! c with
          | Some entries =>
              match obj_get haskey entries with
              | Some schema => Ok (schema, st)
              | None =>
                  r ← build models o st.(building);
                  Ok (r.1,
                      mkSchemaState (<[c := obj_set haskey r.1 entries]> st.(schemaCaches))
                                    r.2)
              end
          | None => Throw (TypeError "cache.get is not a function")
          end
      | None =>
          r ← build models o st.(building);
          Ok (r.1, mkSchemaState st.(schemaCaches) r.2)
      end
  end.

End GetSchema.

(** ** The resolution pass on one type *)

(** A type the path walk does not step into: no object type, and no list
    of one. *)
Definition leaf_type (t : gtype) : bool :=
  negb (instanceof_GraphQLObjectType t) &&
  match t with
  | TList t' => negb (instanceof_GraphQLObjectType t')
  | _ => true
  end.

(** What the pass makes of a slot that refers to the model [r]. *)
Definition resolved_type (types : list (string * nat)) (typeName fieldName : string)
    (connection : bool) (r : string) : gtype :=
  if connection
  then TConnection (getTypeFieldName typeName fieldName) (types_lookup types r)
  else types_lookup types r.

(** The slots of a type as the first pass leaves them: under keys that are
    single path segments, each its own field object holding the name of a
    model, each for a field of the type that is a scalar or a list of
    scalars. *)
Definition pending (h : list cell) (fa : nat) (m : list (string * nat))
    (slots : list (string * nat)) : Prop :=
  h !! fa = Some (CFieldMap m) /\
  NoDup (map fst slots) /\ NoDup (map snd slots) /\
  (forall k a, obj_get k m = Some a -> a ∉ map snd slots) /\
  forall k s, In (k, s) slots ->
    split_dots k "" = [k] /\
    (exists n r c, h !! s = Some (CField (mkFieldObject n (TString r) c))) /\
    (exists a f, obj_get k m = Some a /\ h !! a = Some (CField f) /\
                 leaf_type f.(f_type) = true).

(** A model for the examples: a person with a name, a mother that is
    required and friends, persons too. *)
Definition person_model : Model :=
  mkModel "Person" "Person"
    [ mkFieldDescriptor "name" "String" None None false false [] None None;
      mkFieldDescriptor "mother" "ObjectID" None (Some "Person") true false [] None None;
      mkFieldDescriptor "friends" "Array" (Some "ObjectID") (Some "Person") false false []
        None None ].

(** ** Models whose fields are scalars, enums and lists of scalars *)

(** The type of such a field before [nonNull] wraps it. *)
Definition base_type (typeName : string) (fd : FieldDescriptor) : option gtype :=
  match fd with
  | mkFieldDescriptor name type subtype _ _ _ _ _ enumValues =>
      if String.eqb type "Array" then
        if bool_decide (subtype = Some "Object") then None
        else Some (TList (stringToGraphQLType (default "undefined" subtype)))
      else if String.eqb type "Object" then None
      else if String.eqb type "Embedded" then None
      else Some (match enumValues with
                 | Some vs =>
                     if String.eqb type "String"
                     then TEnum (getTypeFieldName typeName (name +:+ "Enum")) vs
                     else stringToGraphQLType type
                 | None => stringToGraphQLType type
                 end)
  end.

(** The reference that the first pass notes down for such a field, with
    whether it is a connection: a list that refers to a model, or an ID that
    does. *)
Definition slot_of (typeName : string) (fd : FieldDescriptor) : option (string * bool) :=
  match fd with
  | mkFieldDescriptor name type subtype reference _ _ _ _ _ =>
      match truthy_string reference, base_type typeName fd with
      | Some r, Some t =>
          if String.eqb type "Array" then Some (r, true)
          else if bool_decide (t = TScalar "ID") then Some (r, false)
          else None
      | _, _ => None
      end
  end.

(** A model made of such fields only, shown or not, under names that are
    single path segments and all different. *)
Definition flat_model (M : Model) : Prop :=
  NoDup (map fd_name M.(m_fields)) /\
  forall fd, In fd M.(m_fields) ->
    is_Some (plain_type M.(m_name) fd) /\ split_dots (fd_name fd) "" = [fd_name fd].

(** The state of the first pass on such a model, after the fields [fs]:
    [acc] holds the field objects so far, all made since the store had [lo]
    objects, and the table has the slots of the references met. *)
Definition loop_state (tn : string) (lo : nat) (fs : list FieldDescriptor)
    (acc : list (string * nat)) (st : TypeState) : Prop :=
  exists slots,
    obj_get tn st.(resolveReference) = Some slots /\
    NoDup (map fst slots) /\ NoDup (map snd slots) /\
    (forall k a, obj_get k acc = Some a ->
       lo <= a < length st.(store) /\
       (exists f, st.(store) !! a = Some (CField f) /\ leaf_type f.(f_type) = true) /\
       a ∉ map snd slots) /\
    (forall k s, In (k, s) slots ->
       lo <= s < length st.(store) /\
       split_dots k "" = [k] /\
       (exists n r c, st.(store) !! s = Some (CField (mkFieldObject n (TString r) c))) /\
       is_Some (obj_get k acc)) /\
    (forall fd r c, In fd fs -> fd_visible fd = true -> slot_of tn fd = Some (r, c) ->
       exists s, obj_get (fd_name fd) slots = Some s /\
                 st.(store) !! s = Some (CField (mkFieldObject (fd_name fd) (TString r) c))).

(** A model as the first pass leaves it: its type object, fields object,
    field objects and slots all made between [lo] and [hi], the slots
    pending, one for every reference of the model. *)
Definition model_built (st : TypeState) (lo hi : nat) (M : Model) (ref : nat)
    (slots : list (string * nat)) : Prop :=
  exists o fa m,
    st.(store) !! ref = Some (CType o) /\ o.(t_fields) = Some fa /\
    lo <= ref < hi /\ lo <= fa < hi /\
    pending st.(store) fa m slots /\
    (forall k a, obj_get k m = Some a -> lo <= a < hi) /\
    (forall k s, In (k, s) slots -> lo <= s < hi) /\
    (forall fd r c,
       In fd M.(m_fields) -> fd_visible fd = true -> slot_of M.(m_name) fd = Some (r, c) ->
       exists s,
         In (fd_name fd, s) slots /\
         st.(store) !! s = Some (CField (mkFieldObject (fd_name fd) (TString r) c))).

(** The same model once the second pass has gone over it. *)
Definition model_resolved (registry : list (string * nat)) (st : TypeState) (lo hi : nat)
    (M : Model) (ref : nat) : Prop :=
  exists o fa m,
    st.(store) !! ref = Some (CType o) /\ o.(t_fields) = Some fa /\
    lo <= ref < hi /\ lo <= fa < hi /\
    st.(store) !! fa = Some (CFieldMap m) /\
    forall fd r c,
      In fd M.(m_fields) -> fd_visible fd = true -> slot_of M.(m_name) fd = Some (r, c) ->
      exists s,
        obj_get (fd_name fd) m = Some s /\ lo <= s < hi /\
        st.(store) !! s
        = Some (CField (mkFieldObject (fd_name fd)
                          (resolved_type registry M.(m_name) (fd_name fd) c r) c)).

(** The models gone over by the first pass: each built in a stretch of the
    store of its own, [iv] giving the stretch by model name, and registered
    in [registry] and in the table of references. *)
Definition first_pass (models : list Model) (registry : list (string * nat))
    (iv : string -> nat * nat) (st : TypeState) : Prop :=
  (forall M, In M models ->
     exists ref slots,
       obj_get M.(m_name) registry = Some ref /\
       obj_get M.(m_name) st.(resolveReference) = Some slots /\
       model_built st (iv M.(m_name)).1 (iv M.(m_name)).2 M ref slots /\
       (iv M.(m_name)).2 <= length st.(store)) /\
  (forall M M', In M models -> In M' models -> M.(m_name) <> M'.(m_name) ->
     (iv M.(m_name)).2 <= (iv M'.(m_name)).1 \/ (iv M'.(m_name)).2 <= (iv M.(m_name)).1).

(** The second pass with the entries [es] of the table still to go: a
    model is resolved once its entry is behind. *)
Definition second_pass (models : list Model) (registry : list (string * nat))
    (iv : string -> nat * nat) (es : list (string * list (string * nat)))
    (st : TypeState) : Prop :=
  forall M, In M models ->
    exists ref,
      obj_get M.(m_name) registry = Some ref /\
      ((exists slots,
          In (M.(m_name), slots) es /\
          model_built st (iv M.(m_name)).1 (iv M.(m_name)).2 M ref slots) \/
       ((M.(m_name) ∉ map fst es) /\
        model_resolved registry st (iv M.(m_name)).1 (iv M.(m_name)).2 M ref)).

(** A second model for the examples: a pet with a name and an owner, a
    person. *)
Definition pet_model : Model :=
  mkModel "Pet" "Pet"
    [ mkFieldDescriptor "name" "String" None None false false [] None None;
      mkFieldDescriptor "owner" "ObjectID" None (Some "Person") false false [] None None ].

(** ** Names

    The embedding reads an object as the map of the properties stored in
    it. A JavaScript object is born with the members of [Object.prototype],
    and an array with its [length]: under these names the code finds
    something where the map holds nothing. *)
Definition builtin_names : list string :=
  ["length"; "__proto__"; "constructor"; "hasOwnProperty"; "isPrototypeOf";
   "propertyIsEnumerable"; "toLocaleString"; "toString"; "valueOf";
   "__defineGetter__"; "__defineSetter__"; "__lookupGetter__"; "__lookupSetter__"].

Definition is_letter (c : ascii) : bool :=
  let n := Ascii.N_of_ascii c in
  (((65 <=? n) && (n <=? 90)) || ((97 <=? n) && (n <=? 122)) || (n =? 95))%N.

(** A name as GraphQL takes it: letters, digits and underscores, no digit
    first. *)
Definition graphql_name (s : string) : bool :=
  match s with
  | String c r =>
      is_letter c && forallb (fun x => is_letter x || is_digit x) (list_ascii_of_string r)
  | EmptyString => false
  end.

(** A name that is one for GraphQL and none that objects have of their
    own. *)
Definition ordinary_name (s : string) : bool :=
  graphql_name s && negb (bool_decide (s ∈ builtin_names)).

(** A model under such a name, whose shown fields refer to models under
    such names and list their enum values, at least one, under GraphQL
    names. *)
Definition ordinary_model (M : Model) : Prop :=
  ordinary_name M.(m_name) = true /\
  forall fd, In fd M.(m_fields) -> fd_visible fd = true ->
    match fd with
    | mkFieldDescriptor _ _ _ reference _ _ _ _ enumValues =>
        (forall r, truthy_string reference = Some r -> ordinary_name r = true) /\
        (forall vs, enumValues = Some vs -> vs <> [] /\ forallb graphql_name vs = true)
    end.

(** The type of a scalar, enum or list field as [getFieldArguments], which
    the newer [getType] calls on every field it shows, reads it. *)
Fixpoint output_type (t : gtype) : option GraphQLType :=
  match t with
  | TScalar n => Some (GraphQLScalarType n)
  | TEnum n vs => Some (GraphQLEnumType n (map (fun v => (v, VStr v)) vs))
  | TList t' => GraphQLList <$> output_type t'
  | TNonNull t' => GraphQLNonNull <$> output_type t'
  | _ => None
  end.

(* ================================================================== *)
(** * Part II. Properties                                              *)
(* ================================================================== *)

(** ** Objects *)

Section ObjectFacts.

Context {A : Type}.
Implicit Types (o : list (string * A)) (k : string) (v : A).

Lemma obj_get_replace_eq k v o :
  is_Some (obj_get k o) -> obj_get k (obj_replace k v o) = Some v.
Proof.
  induction o as [|[k' v'] o IH]; simpl.
  - intros [x Hx]; discriminate.
  - destruct (String.eqb k' k) eqn:E; simpl; rewrite E; auto.
Qed.

Lemma obj_get_replace_ne k k' v o :
  k <> k' -> obj_get k' (obj_replace k v o) = obj_get k' o.
Proof.
  intros Hne. induction o as [|[k0 v0] o IH]; simpl; [reflexivity|].
  destruct (String.eqb k0 k) eqn:E; simpl.
  - apply String.eqb_eq in E; subst k0.
    destruct (String.eqb k k') eqn:E'; [apply String.eqb_eq in E'; contradiction | reflexivity].
  - destruct (String.eqb k0 k'); [reflexivity | apply IH].
Qed.

Lemma obj_get_insert_index_eq n k v o :
  obj_get k o = None -> obj_get k (obj_insert_index n k v o) = Some v.
Proof.
  induction o as [|[k0 v0] o IH]; simpl.
  - rewrite String.eqb_refl; reflexivity.
  - destruct (String.eqb k0 k) eqn:E; [discriminate|]. intros Hn.
    destruct (array_index k0) as [n'|]; [destruct (n' <? n)%Z|]; simpl;
      rewrite ?E, ?String.eqb_refl; auto.
Qed.

Lemma obj_get_insert_index_ne n k k' v o :
  k <> k' -> obj_get k' (obj_insert_index n k v o) = obj_get k' o.
Proof.
  intros Hne. apply String.eqb_neq in Hne.
  induction o as [|[k0 v0] o IH]; simpl.
  - rewrite Hne; reflexivity.
  - destruct (array_index k0) as [n'|]; [destruct (n' <? n)%Z|]; simpl; rewrite ?Hne;
      try reflexivity.
    destruct (String.eqb k0 k'); [reflexivity | apply IH].
Qed.

Lemma obj_get_app k o o' :
  obj_get k (o ++ o') = match obj_get k o with Some x => Some x | None => obj_get k o' end.
Proof.
  induction o as [|[k0 v0] o IH]; simpl; [reflexivity|].
  destruct (String.eqb k0 k); [reflexivity | apply IH].
Qed.

Lemma obj_get_set_eq k v o : obj_get k (obj_set k v o) = Some v.
Proof.
  unfold obj_set. destruct (obj_get k o) eqn:E.
  - apply obj_get_replace_eq. rewrite E; eauto.
  - destruct (array_index k).
    + apply obj_get_insert_index_eq, E.
    + rewrite obj_get_app, E. simpl. rewrite String.eqb_refl. reflexivity.
Qed.

Lemma obj_get_set_ne k k' v o : k <> k' -> obj_get k' (obj_set k v o) = obj_get k' o.
Proof.
  intros Hne. unfold obj_set. destruct (obj_get k o) eqn:E.
  - apply obj_get_replace_ne, Hne.
  - destruct (array_index k).
    + apply obj_get_insert_index_ne, Hne.
    + rewrite obj_get_app. simpl. apply String.eqb_neq in Hne. rewrite Hne.
      destruct (obj_get k' o); reflexivity.
Qed.

Lemma obj_assign_nil o : obj_assign o [] = o.
Proof. reflexivity. Qed.

Lemma obj_assign_one o k v : obj_assign o [(k, v)] = obj_set k v o.
Proof. reflexivity. Qed.

Lemma obj_assign_nil_nil : obj_assign (@nil (string * A)) [] = [].
Proof. reflexivity. Qed.

End ObjectFacts.

Lemma obj_get_In {A : Type} (k : string) (v : A) (o : list (string * A)) :
  obj_get k o = Some v -> In (k, v) o.
Proof.
  induction o as [|[k' v'] o IH]; simpl; [discriminate|].
  destruct (String.eqb k' k) eqn:E.
  - apply String.eqb_eq in E. intros [= ->]. left; congruence.
  - intros H. right; auto.
Qed.

Section ObjectKeys.

Context {A : Type}.
Implicit Types (o src : list (string * A)) (k : string) (v : A).

Lemma obj_set_keeps k k' v o :
  is_Some (obj_get k o) -> is_Some (obj_get k (obj_set k' v o)).
Proof.
  intros H. destruct (decide (k' = k)) as [->|Hne].
  - rewrite obj_get_set_eq. eauto.
  - rewrite obj_get_set_ne by exact Hne. exact H.
Qed.

Lemma obj_assign_keeps k o src :
  is_Some (obj_get k o) -> is_Some (obj_get k (obj_assign o src)).
Proof.
  revert o. induction src as [|[k' v'] src IH]; intros o H; [exact H|].
  change (obj_assign o ((k', v') :: src)) with (obj_assign (obj_set k' v' o) src).
  apply IH. apply obj_set_keeps, H.
Qed.

Lemma obj_assign_has k o src :
  is_Some (obj_get k src) -> is_Some (obj_get k (obj_assign o src)).
Proof.
  revert o. induction src as [|[k' v'] src IH]; intros o H; simpl in H.
  - destruct H; discriminate.
  - destruct (String.eqb k' k) eqn:E.
    + apply String.eqb_eq in E; subst k'.
      change (obj_assign o ((k, v') :: src)) with (obj_assign (obj_set k v' o) src).
      apply obj_assign_keeps. rewrite obj_get_set_eq. eauto.
    + apply IH, H.
Qed.

(** A key of [obj_set] or [...] comes from one of the two sides. *)
Lemma obj_set_key k k' v o :
  is_Some (obj_get k (obj_set k' v o)) -> k = k' \/ is_Some (obj_get k o).
Proof.
  intros H. destruct (decide (k' = k)) as [->|Hne]; [left; reflexivity|].
  right. rewrite obj_get_set_ne in H by exact Hne. exact H.
Qed.

Lemma obj_assign_key k o src :
  is_Some (obj_get k (obj_assign o src)) ->
  is_Some (obj_get k o) \/ is_Some (obj_get k src).
Proof.
  revert o. induction src as [|[k' v'] src IH]; intros o H; [left; exact H|].
  change (obj_assign o ((k', v') :: src)) with (obj_assign (obj_set k' v' o) src) in H.
  destruct (IH _ H) as [H1|H1].
  - apply obj_set_key in H1 as [->|H1]; [right|left; exact H1].
    simpl. rewrite String.eqb_refl. eauto.
  - right. simpl. destruct (String.eqb k' k); eauto.
Qed.

(** The values of [obj_set] or [...] come from one of the two sides. *)
Lemma obj_replace_values k v o x :
  In x (map snd (obj_replace k v o)) -> x = v \/ In x (map snd o).
Proof.
  induction o as [|[k0 v0] o IH]; simpl; [tauto|].
  destruct (String.eqb k0 k); simpl; intros [<-|H]; auto.
  destruct (IH H); auto.
Qed.

Lemma obj_insert_index_values n k v o x :
  In x (map snd (obj_insert_index n k v o)) -> x = v \/ In x (map snd o).
Proof.
  induction o as [|[k0 v0] o IH]; simpl; [intros [<-|[]]; auto|].
  destruct (array_index k0) as [n'|]; [destruct (n' <? n)%Z|]; simpl;
    intros [<-|H]; auto.
  destruct (IH H); auto.
Qed.

Lemma obj_set_values k v o x :
  In x (map snd (obj_set k v o)) -> x = v \/ In x (map snd o).
Proof.
  unfold obj_set. destruct (obj_get k o).
  - apply obj_replace_values.
  - destruct (array_index k); [apply obj_insert_index_values|].
    rewrite map_app, in_app_iff. simpl. intros [H|[<-|[]]]; auto.
Qed.

Lemma obj_assign_values o src x :
  In x (map snd (obj_assign o src)) -> In x (map snd o) \/ In x (map snd src).
Proof.
  revert o. induction src as [|[k' v'] src IH]; intros o H; [left; exact H|].
  change (obj_assign o ((k', v') :: src)) with (obj_assign (obj_set k' v' o) src) in H.
  destruct (IH _ H) as [H1|H1].
  - apply obj_set_values in H1 as [->|H1]; [right; left; reflexivity | left; exact H1].
  - right; right; exact H1.
Qed.

Lemma obj_get_value k v o : obj_get k o = Some v -> In v (map snd o).
Proof. intros H. apply obj_get_In in H. apply (in_map snd) in H. exact H. Qed.

End ObjectKeys.

(** ** reduce and map with callbacks that may throw *)

Lemma reduceM_app {A B : Type} (f : B -> A -> outcome B) (l1 l2 : list A) (init : B) :
  reduceM f (l1 ++ l2) init = b ← reduceM f l1 init; reduceM f l2 b.
Proof.
  revert init. induction l1 as [|x l1 IH]; intros init; simpl; [reflexivity|].
  destruct (f init x); simpl; auto.
Qed.

(** When the reduce returns, the callback returned at every element. *)
Lemma reduceM_Ok_each {A B : Type} (f : B -> A -> outcome B) (l : list A) (init r : B) :
  reduceM f l init = Ok r -> forall x, In x l -> exists b b', f b x = Ok b'.
Proof.
  revert init. induction l as [|y l IH]; intros init H x Hin; [destruct Hin|].
  simpl in H. destruct (f init y) as [b| |] eqn:E; simpl in H; try discriminate.
  destruct Hin as [->|Hin]; [eauto | eapply IH; eauto].
Qed.

Lemma reduceM_invariant {A B : Type} (Inv : B -> Prop) (f : B -> A -> outcome B)
    (l : list A) (init r : B) :
  (forall b x b', In x l -> Inv b -> f b x = Ok b' -> Inv b') ->
  Inv init -> reduceM f l init = Ok r -> Inv r.
Proof.
  revert init. induction l as [|y l IH]; intros init Hstep Hinit H; simpl in H.
  - injection H as <-. exact Hinit.
  - destruct (f init y) as [b| |] eqn:E; simpl in H; try discriminate.
    apply (IH b); [| |exact H].
    + intros b0 x b' Hx. apply Hstep. right; exact Hx.
    + apply (Hstep init y b); [left; reflexivity | exact Hinit | exact E].
Qed.

(** ** parseValue *)

Lemma mapM_index_undefined (values : list ValueNode) (i : nat) :
  mapM_index (fun x i => parseValue_rec 1 (ANode x) (AIndex i)) values i
  = Ok (map (fun _ => VUndef) values).
Proof.
  revert i. induction values as [|x values IH]; intros i; simpl; [reflexivity|].
  rewrite IH. reflexivity.
Qed.

Lemma parseValue_list (info : ResolveInfo) (values : list ValueNode) :
  parseValue info (ListValue values) = Ok (VArr (map (fun _ => VUndef) values)).
Proof.
  unfold parseValue.
  change (parseValue_rec 2 (AInfo info) (ANode (ListValue values)))
    with (l ← mapM_index (fun x i => parseValue_rec 1 (ANode x) (AIndex i)) values 0;
          Ok (VArr l)).
  rewrite mapM_index_undefined. reflexivity.
Qed.

(** The compilers' call of [parseValue] always returns. *)
Lemma parseValue_total (info : ResolveInfo) (node : ValueNode) :
  exists v, parseValue info node = Ok v.
Proof.
  destruct node; first [rewrite parseValue_list; eauto | eexists; reflexivity].
Qed.

(** No call goes deeper than the callback of [map]: any depth from two on
    gives the same result. *)
Lemma parseValue_rec_stable (d : nat) (info : ResolveInfo) (node : ValueNode) :
  parseValue_rec (2 + d) (AInfo info) (ANode node) = parseValue info node.
Proof. destruct node; reflexivity. Qed.

(** The kinds that carry no list are parsed by their syntactic kind. *)
Lemma parseValue_by_kind (info : ResolveInfo) :
  (forall s, parseValue info (IntValue s) = Ok (VNum (parseInt s))) /\
  (forall s, parseValue info (FloatValue s) = Ok (VNum (parseFloat s))) /\
  (forall s, parseValue info (StringValue s) = Ok (VStr s)) /\
  (forall b, parseValue info (BooleanValue b) = Ok (VBool b)) /\
  parseValue info NullValue = Ok VNull /\
  (forall n, parseValue info (VariableRef n)
             = Ok (default VUndef (obj_get n info.(variableValues)))) /\
  (forall s, parseValue info (EnumValue s) = Ok (raw_value (EnumValue s))) /\
  (forall fs, parseValue info (ObjectValue fs) = Ok (raw_value (ObjectValue fs))).
Proof. repeat split. Qed.

(** C6. The elements of a list literal are not parsed: [values.map] hands
    each element to [parseValue] in the place of [info] and its index in the
    place of the node, so every element comes back undefined, whatever it
    is; the one-parameter [parseValue] of the earlier filter module did
    parse them. At the list [[1, "a"]] the first yields [[undefined,
    undefined]], the second [[1, "a"]]. *)
Theorem C6_list_elements_come_back_undefined :
  (forall info values,
     parseValue info (ListValue values) = Ok (VArr (map (fun _ => VUndef) values))) /\
  (forall info,
     parseValue info (ListValue [IntValue "1"; StringValue "a"])
     = Ok (VArr [VUndef; VUndef])) /\
  parseValue_v1 (ListValue [IntValue "1"; StringValue "a"])
  = VArr [VNum (NInt 1); VStr "a"].
Proof.
  split; [apply parseValue_list|].
  split; [intros info; apply parseValue_list | reflexivity].
Qed.

(** ** getFilterObject *)

Lemma mapM_index_clauses (info : ResolveInfo) (l : list Argument) (i : nat) :
  exists clauses,
    mapM_index (fun it _ => v ← parseValue info it.(arg_value);
                            Ok (VObj [("$" +:+ it.(arg_name), v)])) l i = Ok clauses /\
    Forall2 (clause_of info) l clauses.
Proof.
  revert i. induction l as [|it l IH]; intros i; simpl.
  - exists []. split; [reflexivity | constructor].
  - destruct (parseValue_total info it.(arg_value)) as [v Hv].
    destruct (IH (S i)) as [cs [Hcs HF]].
    rewrite Hv. simpl. rewrite Hcs. simpl.
    eexists; split; [reflexivity|]. constructor; [|exact HF].
    exists v. auto.
Qed.

(** [filters] always exists and has one clause per comparison argument, in
    the order of the arguments. *)
Lemma filters_of_clauses (info : ResolveInfo) (args : list Argument) :
  exists clauses,
    filters_of info args = Ok clauses /\
    Forall2 (clause_of info) (filter (fun it => is_comparison it = true) args) clauses.
Proof. apply mapM_index_clauses. Qed.

Lemma selections_of_node (info : ResolveInfo) (ss : option (list Selection)) :
  selections_of info (NNode ss) = default [] ss.
Proof. destruct ss; reflexivity. Qed.

Lemma config_of_lookup (prefix : string) (op : value) (clauses : list value) (o : props) :
  (forall c, clauses = [c] ->
     obj_get prefix (obj_assign o (config_of prefix op clauses)) = Some c) /\
  (2 <= length clauses ->
     obj_get prefix (obj_assign o (config_of prefix op clauses))
     = Some (VObj [("$" +:+ to_string op, VArr clauses)])).
Proof.
  split.
  - intros c ->. simpl. apply obj_get_set_eq.
  - intros Hlen. destruct clauses as [|c1 [|c2 cs]]; simpl in Hlen; try lia.
    unfold config_of. rewrite obj_assign_one. apply obj_get_set_eq.
Qed.

Lemma filter_reduce_keeps self info parentName (l : list Selection) (b out : props)
    (k : string) :
  reduceM (filter_step self info parentName) l b = Ok out ->
  is_Some (obj_get k b) -> is_Some (obj_get k out).
Proof.
  intros H. revert k.
  apply (reduceM_invariant (fun acc => forall k, is_Some (obj_get k b) ->
                                                 is_Some (obj_get k acc)) _ _ _ _)
    with (3 := H); [|auto].
  intros acc x acc' _ Hacc Hstep k Hk. specialize (Hacc k Hk).
  destruct x as [name args ss|ss|name|kind [name|]]; simpl in Hstep; try discriminate.
  - destruct (filters_of info args); simpl in Hstep; try discriminate.
    destruct (self (NNode ss) _); simpl in Hstep; try discriminate.
    injection Hstep as <-. do 2 apply obj_assign_keeps. apply obj_assign_has, Hacc.
  - destruct (self _ _); simpl in Hstep; try discriminate.
    injection Hstep as <-. apply obj_assign_keeps. apply obj_assign_has, Hacc.
Qed.

(** A literal op is copied as it is written, case included. *)
Lemma op_of_literal (s : string) (args : list Argument) :
  find_arg "op" args = Some (mkArgument "op" (EnumValue s)) -> to_string (op_of args) = s.
Proof. unfold op_of. intros ->. reflexivity. Qed.

(** A selected field with comparison arguments gets one clause per
    supplied argument (named $eq, $gt, ... after the argument, holding its
    parsed value), in argument order, and its dotted path is a key of the
    result. What it contributes at that path, and what the result holds
    there when the field is the last selection, is the clause itself when
    there is exactly one, and when there are more the object with the single
    key $op over the list of clauses, op being the value of the op argument
    and "and" without one. So friends(eq:"x", gt:"a", op:or) compiles to
    { friends: { $or: [{$eq:"x"},{$gt:"a"}] } }, age(gt:5) to
    { age: {$gt:5} }, and a field b(gt:5) selected below a to the path
    a.b. *)
Lemma filter_clauses_at_the_dotted_path :
  (forall fuel info nodes parentName sels later name args ss out,
     selections_of info nodes = sels ++ Field name args ss :: later ->
     getFilterObject (S fuel) (Some info) nodes parentName = Ok out ->
     exists clauses,
       filters_of info args = Ok clauses /\
       Forall2 (clause_of info) (filter (fun it => is_comparison it = true) args) clauses /\
       (clauses <> [] -> is_Some (obj_get (node_prefix parentName name) out)) /\
       (later = [] ->
          (forall c, clauses = [c] ->
             obj_get (node_prefix parentName name) out = Some c) /\
          (2 <= length clauses ->
             obj_get (node_prefix parentName name) out
             = Some (VObj [("$" +:+ to_string (op_of args), VArr clauses)]))) /\
       (find_arg "op" args = None -> to_string (op_of args) = "and") /\
       (forall it, find_arg "op" args = Some it -> op_of args = raw_value it.(arg_value)))
  /\
  (forall fuel,
     getFilterObject (2 + fuel)
       (Some (mkInfo (Some [Field "users" []
                (Some [Field "friends"
                         [mkArgument "eq" (StringValue "x");
                          mkArgument "gt" (StringValue "a");
                          mkArgument "op" (EnumValue "or")] None])]) [] []))
       NUndefined None
     = Ok [("friends",
            VObj [("$or", VArr [VObj [("$eq", VStr "x")]; VObj [("$gt", VStr "a")]])])])
  /\
  (forall fuel,
     getFilterObject (2 + fuel)
       (Some (mkInfo (Some [Field "users" []
                (Some [Field "age" [mkArgument "gt" (IntValue "5")] None])]) [] []))
       NUndefined None
     = Ok [("age", VObj [("$gt", VNum (NInt 5))])])
  /\
  (forall fuel,
     getFilterObject (3 + fuel)
       (Some (mkInfo (Some [Field "users" []
                (Some [Field "a" []
                         (Some [Field "b" [mkArgument "gt" (IntValue "5")] None])])]) [] []))
       NUndefined None
     = Ok [("a.b", VObj [("$gt", VNum (NInt 5))])]).
Proof.
  split; [|repeat split; intros fuel; reflexivity].
  intros fuel info nodes parentName sels later name args ss out Hsel H.
  simpl in H. rewrite Hsel, reduceM_app in H.
  destruct (reduceM _ sels _) as [list| |]; simpl in H; try discriminate.
  destruct (filters_of_clauses info args) as [clauses [Hf HF]].
  rewrite Hf in H. simpl in H.
  destruct (getFilterObject fuel (Some info) (NNode ss) _) as [sub| |]; simpl in H;
    try discriminate.
  exists clauses. split; [exact Hf|]. split; [exact HF|].
  destruct (config_of_lookup (node_prefix parentName name) (op_of args) clauses
              (obj_assign (obj_assign [] list) sub)) as [H1 H2].
  split; [|split].
  - intros Hne. apply (filter_reduce_keeps _ _ _ _ _ _ _ H).
    destruct clauses as [|c1 [|c2 cs]]; [congruence| |].
    + rewrite (H1 c1 eq_refl). eauto.
    + rewrite H2 by (simpl; lia). eauto.
  - intros ->. simpl in H. injection H as <-. split; [exact H1 | exact H2].
  - unfold op_of. split.
    + intros ->. reflexivity.
    + intros it ->. reflexivity.
Qed.

Lemma filter_clauses_example :
  exists clauses,
    filters_of (mkInfo None [] []) [mkArgument "gt" (IntValue "5")] = Ok clauses /\
    Forall2 (clause_of (mkInfo None [] []))
      (filter (fun it => is_comparison it = true) [mkArgument "gt" (IntValue "5")]) clauses /\
    (clauses <> [] ->
       is_Some (obj_get (node_prefix None "age") [("age", VObj [("$gt", VNum (NInt 5))])])) /\
    (@nil Selection = [] ->
       (forall c, clauses = [c] ->
          obj_get (node_prefix None "age") [("age", VObj [("$gt", VNum (NInt 5))])] = Some c) /\
       (2 <= length clauses ->
          obj_get (node_prefix None "age") [("age", VObj [("$gt", VNum (NInt 5))])]
          = Some (VObj [("$" +:+ to_string (op_of [mkArgument "gt" (IntValue "5")]),
                         VArr clauses)]))) /\
    (find_arg "op" [mkArgument "gt" (IntValue "5")] = None ->
       to_string (op_of [mkArgument "gt" (IntValue "5")]) = "and") /\
    (forall it, find_arg "op" [mkArgument "gt" (IntValue "5")] = Some it ->
       op_of [mkArgument "gt" (IntValue "5")] = raw_value it.(arg_value)).
Proof.
  apply (proj1 filter_clauses_at_the_dotted_path 1 (mkInfo None [] [])
           (NNode (Some [Field "age" [mkArgument "gt" (IntValue "5")] None]))
           None [] [] "age" [mkArgument "gt" (IntValue "5")] None
           [("age", VObj [("$gt", VNum (NInt 5))])]); reflexivity.
Defined.

(** C1. The combinator of a field with several clauses is keyed by what
    the [op] argument reads as written: [op] is taken as [.value.value] of
    the argument node and never parsed, so an [op] handed in through a
    variable, whatever the variable holds, keys the combinator as
    [$undefined], while the comparison values next to it, which go through
    [parseValue], have their variables resolved. Written in the query, the
    same [op] keys the combinator as [$or]. *)
Theorem C1_op_through_a_variable_keys_undefined :
  (forall fuel opv,
     getFilterObject (2 + fuel)
       (Some (mkInfo (Some [Field "users" []
                (Some [Field "friends"
                         [mkArgument "eq" (VariableRef "v");
                          mkArgument "gt" (StringValue "a");
                          mkArgument "op" (VariableRef "o")] None])])
              [] [("v", VStr "x"); ("o", opv)]))
       NUndefined None
     = Ok [("friends",
            VObj [("$undefined",
                   VArr [VObj [("$eq", VStr "x")]; VObj [("$gt", VStr "a")]])])]) /\
  (forall fuel,
     getFilterObject (2 + fuel)
       (Some (mkInfo (Some [Field "users" []
                (Some [Field "friends"
                         [mkArgument "eq" (VariableRef "v");
                          mkArgument "gt" (StringValue "a");
                          mkArgument "op" (EnumValue "or")] None])])
              [] [("v", VStr "x")]))
       NUndefined None
     = Ok [("friends",
            VObj [("$or", VArr [VObj [("$eq", VStr "x")]; VObj [("$gt", VStr "a")]])])]).
Proof. split; [intros fuel opv | intros fuel]; reflexivity. Qed.

(** C9. Without a resolve info, or when the nodes at hand select nothing,
    both compilers return the empty mapping; neither throws. *)
Theorem C9_absent_or_empty_selection_gives_empty :
  forall mode fuel info nodes parentName,
    (info = None \/ exists i, info = Some i /\ selections_of i nodes = []) ->
    getFilterObject (S fuel) info nodes parentName = Ok [] /\
    getSortObject mode (S fuel) info nodes parentName = Ok [].
Proof.
  intros mode fuel info nodes parentName [->|[i [-> Hsel]]].
  - split; reflexivity.
  - simpl. rewrite Hsel. split; reflexivity.
Qed.

Lemma C9_witness :
  (getFilterObject 1 None NUndefined None = Ok [] /\
   getSortObject StrictSpread 1 None NUndefined None = Ok []) /\
  (getFilterObject 1 (Some (mkInfo (Some [Field "users" [] (Some [])]) [] [])) NUndefined None
   = Ok [] /\
   getSortObject ArrayFromSpread 1 (Some (mkInfo (Some [Field "users" [] (Some [])]) [] []))
     NUndefined None = Ok []).
Proof.
  split.
  - apply (C9_absent_or_empty_selection_gives_empty StrictSpread 0 None NUndefined None).
    left; reflexivity.
  - apply (C9_absent_or_empty_selection_gives_empty ArrayFromSpread 0
             (Some (mkInfo (Some [Field "users" [] (Some [])]) [] [])) NUndefined None).
    right. eexists. split; reflexivity.
Defined.

(** ** Selections of another kind *)

Lemma reduceM_Throw_each {A B : Type} (f : B -> A -> outcome B) (l : list A) (init : B) e :
  reduceM f l init = Throw e -> exists b x, In x l /\ f b x = Throw e.
Proof.
  revert init. induction l as [|y l IH]; intros init H; simpl in H; [discriminate|].
  destruct (f init y) as [b| |] eqn:E; simpl in H; try discriminate.
  - destruct (IH _ H) as [b' [x [Hin Hx]]]. exists b', x. split; [right|]; auto.
  - injection H as <-. exists init, y. split; [left|]; auto.
Qed.

Lemma reduceM_terminates {A B : Type} (f : B -> A -> outcome B) (l : list A) (init : B) :
  (forall b x, In x l -> f b x <> OutOfFuel) -> reduceM f l init <> OutOfFuel.
Proof.
  revert init. induction l as [|y l IH]; intros init H; simpl; [discriminate|].
  destruct (f init y) as [b| |] eqn:E; simpl.
  - apply IH. intros b' x Hx. apply H. right; exact Hx.
  - discriminate.
  - exfalso. apply (H init y); [left; reflexivity | exact E].
Qed.

Lemma sels_depth_In (x : Selection) (ss : list Selection) :
  In x ss -> sel_depth x <= sels_depth ss.
Proof.
  induction ss as [|y ss IH]; intros Hin; [destruct Hin|].
  unfold sels_depth in *. simpl. destruct Hin as [->|Hin]; [lia|].
  specialize (IH Hin). lia.
Qed.

Lemma forallb_In {A : Type} (f : A -> bool) (l : list A) (x : A) :
  forallb f l = true -> In x l -> f x = true.
Proof. intros H Hin. rewrite forallb_forall in H. auto. Qed.

Lemma filter_no_result_with_other (info : ResolveInfo) :
  forall fuel nodes parentName r,
    getFilterObject fuel (Some info) nodes parentName = Ok r ->
    ~ contains_other info (selections_of info nodes).
Proof.
  induction fuel as [|fuel IH]; intros nodes parentName r H Hc; [discriminate|].
  simpl in H.
  pose proof (reduceM_Ok_each _ _ _ _ H) as Heach.
  inversion Hc as [kind name sels Hin|name args ss sels Hin Hss|ss sels Hin Hss
                   |name sels Hin Hss]; subst.
  - destruct (Heach _ Hin) as [b [b' Hstep]]. destruct name; discriminate.
  - destruct (Heach _ Hin) as [b [b' Hstep]]. simpl in Hstep.
    destruct (filters_of info args); simpl in Hstep; try discriminate.
    destruct (getFilterObject fuel (Some info) (NNode (Some ss)) _) as [sub| |] eqn:E;
      simpl in Hstep; try discriminate.
    apply (IH _ _ _ E). rewrite selections_of_node. exact Hss.
  - destruct (Heach _ Hin) as [b [b' Hstep]]. discriminate.
  - destruct (Heach _ Hin) as [b [b' Hstep]]. simpl in Hstep.
    destruct (getFilterObject fuel (Some info) (fragment_node info name) _) as [sub| |] eqn:E;
      simpl in Hstep; try discriminate.
    apply (IH _ _ _ E). exact Hss.
Qed.

Lemma sort_no_result_with_other (mode : SpreadMode) (info : ResolveInfo) :
  forall fuel nodes parentName r,
    getSortObject mode fuel (Some info) nodes parentName = Ok r ->
    ~ contains_other info (selections_of info nodes).
Proof.
  induction fuel as [|fuel IH]; intros nodes parentName r H Hc; [discriminate|].
  simpl in H.
  destruct (reduceM _ (selections_of info nodes) _) as [fieldArr| |] eqn:Hred;
    simpl in H; try discriminate.
  pose proof (reduceM_Ok_each _ _ _ _ Hred) as Heach.
  inversion Hc as [kind name sels Hin|name args ss sels Hin Hss|ss sels Hin Hss
                   |name sels Hin Hss]; subst.
  - destruct (Heach _ Hin) as [b [b' Hstep]]. destruct name; discriminate.
  - destruct (Heach _ Hin) as [b [b' Hstep]]. simpl in Hstep.
    destruct (find_arg "sort" args).
    + destruct (spread_array mode b); simpl in Hstep; try discriminate.
      destruct (getSortObject mode fuel (Some info) (NNode (Some ss)) _) as [sub| |] eqn:E;
        simpl in Hstep; try discriminate.
      apply (IH _ _ _ E). rewrite selections_of_node. exact Hss.
    + destruct (getSortObject mode fuel (Some info) (NNode (Some ss)) _) as [sub| |] eqn:E;
        simpl in Hstep; try discriminate.
      apply (IH _ _ _ E). rewrite selections_of_node. exact Hss.
  - destruct (Heach _ Hin) as [b [b' Hstep]]. discriminate.
  - destruct (Heach _ Hin) as [b [b' Hstep]]. simpl in Hstep.
    destruct (spread_array mode b); simpl in Hstep; try discriminate.
    destruct (getSortObject mode fuel (Some info) (fragment_node info name) _)
      as [sub| |] eqn:E; simpl in Hstep; try discriminate.
    apply (IH _ _ _ E). exact Hss.
Qed.

(** Without fragment spreads the traversal ends within the depth of the
    tree. *)
Lemma filter_terminates (info : ResolveInfo) :
  forall fuel nodes parentName,
    forallb spread_free (selections_of info nodes) = true ->
    sels_depth (selections_of info nodes) < fuel ->
    getFilterObject fuel (Some info) nodes parentName <> OutOfFuel.
Proof.
  induction fuel as [|fuel IH]; intros nodes parentName Hfree Hd; [lia|].
  simpl. apply reduceM_terminates. intros b x Hin.
  pose proof (forallb_In _ _ _ Hfree Hin) as Hx.
  pose proof (sels_depth_In _ _ Hin) as Hdx.
  destruct x as [name args [ss|]|ss|name|kind [name|]]; simpl; try discriminate.
  - destruct (filters_of_clauses info args) as [cs [-> _]]. simpl.
    destruct (getFilterObject fuel (Some info) (NNode (Some ss)) _) eqn:E; simpl;
      try discriminate.
    exfalso. revert E.
    change (sel_depth (Field name args (Some ss))) with (S (sels_depth ss)) in Hdx.
    apply IH; rewrite selections_of_node; simpl default; [exact Hx | lia].
  - destruct (filters_of_clauses info args) as [cs [-> _]]. simpl.
    change (sel_depth (Field name args None)) with 1 in Hdx.
    destruct fuel; [lia|]. simpl. discriminate.
Qed.

Lemma array_from_terminates (o : list (string * sort_item)) : array_from o <> OutOfFuel.
Proof. unfold array_from. destruct (_ <? _)%Z; discriminate. Qed.

Lemma spread_array_terminates (mode : SpreadMode) (acc : sort_acc) :
  spread_array mode acc <> OutOfFuel.
Proof.
  destruct acc, mode; simpl; try discriminate. apply array_from_terminates.
Qed.

Lemma sorts_terminates (l : list sort_item) (init : list (string * number)) :
  reduceM sorts_step l init <> OutOfFuel.
Proof.
  apply reduceM_terminates. intros b x _. destruct x; simpl; try discriminate.
  case_match; discriminate.
Qed.

Lemma bind_Ok {A B : Type} (a : A) (f : A -> outcome B) : (Ok a ≫= f) = f a.
Proof. reflexivity. Qed.

#[local] Arguments spread_array : simpl never.
#[local] Arguments parseValue : simpl never.

Lemma sort_step_terminates self mode info parentName b x :
  (forall p, self (child_node info x) p <> OutOfFuel) ->
  sort_step self mode info parentName b x <> OutOfFuel.
Proof.
  intros Hself.
  destruct x as [name args ss|ss|name|kind [name|]]; simpl in *; try discriminate.
  - destruct (find_arg "sort" args) as [it|].
    + destruct (spread_array mode b) eqn:E1; simpl;
        [ | discriminate | destruct (spread_array_terminates _ _ E1)].
      destruct (self (NNode ss) _) eqn:E2; simpl;
        [ | discriminate | destruct (Hself _ E2)].
      destruct (spread_array mode (AccObject _)) eqn:E3; simpl;
        [ | discriminate | destruct (spread_array_terminates _ _ E3)].
      destruct (parseValue_total info (arg_value it)) as [v ->]. discriminate.
    + destruct (self (NNode ss) _) eqn:E2; simpl;
        [discriminate | discriminate | destruct (Hself _ E2)].
  - destruct (spread_array mode b) eqn:E1; simpl;
      [ | discriminate | destruct (spread_array_terminates _ _ E1)].
    destruct (self _ _) eqn:E2; simpl;
      [ | discriminate | destruct (Hself _ E2)].
    destruct (spread_array mode (AccObject _)) eqn:E3; simpl;
      [discriminate | discriminate | destruct (spread_array_terminates _ _ E3)].
Qed.

Lemma sort_terminates (mode : SpreadMode) (info : ResolveInfo) :
  forall fuel nodes parentName,
    forallb spread_free (selections_of info nodes) = true ->
    sels_depth (selections_of info nodes) < fuel ->
    getSortObject mode fuel (Some info) nodes parentName <> OutOfFuel.
Proof.
  induction fuel as [|fuel IH]; intros nodes parentName Hfree Hd; [lia|].
  simpl.
  destruct (reduceM _ _ _) as [fieldArr| |] eqn:Hred; simpl; try discriminate.
  - apply sorts_terminates.
  - exfalso. revert Hred. apply reduceM_terminates. intros b x Hin.
    pose proof (forallb_In _ _ _ Hfree Hin) as Hx.
    pose proof (sels_depth_In _ _ Hin) as Hdx.
    destruct x as [name args [ss|]|ss|name|kind [name|]]; simpl in Hx;
      try discriminate; try (simpl; discriminate);
      apply sort_step_terminates; intros p; simpl.
    + change (sel_depth (Field name args (Some ss))) with (S (sels_depth ss)) in Hdx.
      apply IH; rewrite selections_of_node; simpl default; [exact Hx | lia].
    + change (sel_depth (Field name args None)) with 1 in Hdx.
      destruct fuel; [lia | simpl; discriminate].
Qed.

(** Below a supported selection of a supported info, the traversal goes on
    over supported selections. *)
Lemma child_supported (info : ResolveInfo) (x : Selection) :
  all_supported info = true -> supported x = true ->
  forallb supported (selections_of info (child_node info x)) = true.
Proof.
  intros Hall Hx. apply andb_prop in Hall as [Htop Hfrag].
  destruct x as [name args [ss|]|ss|name|kind name]; simpl in Hx; try discriminate;
    try exact Htop; try reflexivity.
  - exact Hx.
  - simpl. unfold fragment_node. destruct (obj_get name (fragments info)) eqn:E.
    + apply obj_get_In in E. apply (forallb_In _ _ _ Hfrag E).
    + exact Htop.
Qed.

Lemma filter_never_unsupported (info : ResolveInfo) :
  all_supported info = true ->
  forall fuel nodes parentName,
    forallb supported (selections_of info nodes) = true ->
    getFilterObject fuel (Some info) nodes parentName <> Throw unsupported_selection.
Proof.
  intros Hall. induction fuel as [|fuel IH]; intros nodes parentName Hsup; [discriminate|].
  simpl. intros H. apply reduceM_Throw_each in H as [b [x [Hin Hstep]]].
  pose proof (forallb_In _ _ _ Hsup Hin) as Hx.
  pose proof (child_supported info x Hall Hx) as Hchild.
  destruct x as [name args ss|ss|name|kind name]; simpl in Hstep, Hchild;
    try discriminate.
  - destruct (filters_of_clauses info args) as [cs [Hcs _]]. rewrite Hcs in Hstep.
    simpl in Hstep.
    destruct (getFilterObject fuel (Some info) (NNode ss) _) eqn:E; simpl in Hstep;
      try discriminate.
    injection Hstep as ->. exact (IH _ _ Hchild E).
  - destruct (getFilterObject fuel (Some info) (fragment_node info name) _) eqn:E;
      simpl in Hstep; try discriminate.
    injection Hstep as ->. exact (IH _ _ Hchild E).
Qed.

Lemma spread_array_never_unsupported (mode : SpreadMode) (acc : sort_acc) :
  spread_array mode acc <> Throw unsupported_selection.
Proof.
  destruct acc, mode; unfold spread_array, array_from; try discriminate.
  case_match; discriminate.
Qed.

Lemma sorts_never_unsupported (l : list sort_item) (init : list (string * number)) :
  reduceM sorts_step l init <> Throw unsupported_selection.
Proof.
  intros H. apply reduceM_Throw_each in H as [b [x [_ Hstep]]].
  destruct x; simpl in Hstep; try discriminate. revert Hstep. case_match; discriminate.
Qed.

Lemma sort_never_unsupported (mode : SpreadMode) (info : ResolveInfo) :
  all_supported info = true ->
  forall fuel nodes parentName,
    forallb supported (selections_of info nodes) = true ->
    getSortObject mode fuel (Some info) nodes parentName <> Throw unsupported_selection.
Proof.
  intros Hall. induction fuel as [|fuel IH]; intros nodes parentName Hsup; [discriminate|].
  simpl. intros H.
  destruct (reduceM _ (selections_of info nodes) _) as [fieldArr| |] eqn:Hred;
    simpl in H; try discriminate.
  { exact (sorts_never_unsupported _ _ H). }
  injection H as ->.
  apply reduceM_Throw_each in Hred as [b [x [Hin Hstep]]].
  pose proof (forallb_In _ _ _ Hsup Hin) as Hx.
  pose proof (child_supported info x Hall Hx) as Hchild.
  destruct x as [name args ss|ss|name|kind name]; simpl in Hstep, Hchild;
    try discriminate.
  - destruct (find_arg "sort" args) as [it|].
    + destruct (spread_array mode b) eqn:E1; simpl in Hstep; try discriminate;
        [|injection Hstep as ->; exact (spread_array_never_unsupported _ _ E1)].
      destruct (getSortObject mode fuel (Some info) (NNode ss) _) eqn:E2;
        simpl in Hstep; try discriminate;
        [|injection Hstep as ->; exact (IH _ _ Hchild E2)].
      destruct (spread_array mode (AccObject _)) eqn:E3; simpl in Hstep; try discriminate;
        [|injection Hstep as ->; exact (spread_array_never_unsupported _ _ E3)].
      destruct (parseValue_total info (arg_value it)) as [v Hv]. rewrite Hv in Hstep.
      discriminate.
    + destruct (getSortObject mode fuel (Some info) (NNode ss) _) eqn:E2;
        simpl in Hstep; try discriminate.
      injection Hstep as ->. exact (IH _ _ Hchild E2).
  - destruct (spread_array mode b) eqn:E1; simpl in Hstep; try discriminate;
      [|injection Hstep as ->; exact (spread_array_never_unsupported _ _ E1)].
    destruct (getSortObject mode fuel (Some info) (fragment_node info name) _) eqn:E2;
      simpl in Hstep; try discriminate;
      [|injection Hstep as ->; exact (IH _ _ Hchild E2)].
    destruct (spread_array mode (AccObject _)) eqn:E3; simpl in Hstep; try discriminate.
    injection Hstep as ->; exact (spread_array_never_unsupported _ _ E3).
Qed.

(** When the selection tree holds a node that is no field, inline
    fragment or fragment spread, neither compiler returns a result, whatever
    the depth allowed, and on a tree without fragment spreads both throw as
    soon as the depth allowed exceeds that of the tree. On a tree made of
    the three kinds only, the error for an unsupported selection is never
    thrown. *)
Lemma other_kinds_never_compile :
  forall mode fuel info nodes parentName,
    (contains_other info (selections_of info nodes) ->
       (forall r, getFilterObject fuel (Some info) nodes parentName <> Ok r) /\
       (forall r, getSortObject mode fuel (Some info) nodes parentName <> Ok r) /\
       (forallb spread_free (selections_of info nodes) = true ->
        sels_depth (selections_of info nodes) < fuel ->
          (exists e, getFilterObject fuel (Some info) nodes parentName = Throw e) /\
          (exists e, getSortObject mode fuel (Some info) nodes parentName = Throw e))) /\
    (all_supported info = true ->
     forallb supported (selections_of info nodes) = true ->
       getFilterObject fuel (Some info) nodes parentName <> Throw unsupported_selection /\
       getSortObject mode fuel (Some info) nodes parentName <> Throw unsupported_selection).
Proof.
  intros mode fuel info nodes parentName. split.
  - intros Hc.
    assert (Hf : forall r, getFilterObject fuel (Some info) nodes parentName <> Ok r).
    { intros r H. apply (filter_no_result_with_other _ _ _ _ _ H). exact Hc. }
    assert (Hs : forall r, getSortObject mode fuel (Some info) nodes parentName <> Ok r).
    { intros r H. apply (sort_no_result_with_other _ _ _ _ _ _ H). exact Hc. }
    split; [exact Hf|]. split; [exact Hs|].
    intros Hfree Hd. split.
    + pose proof (filter_terminates info fuel nodes parentName Hfree Hd) as Ht.
      destruct (getFilterObject fuel (Some info) nodes parentName) as [r|e|];
        [destruct (Hf r eq_refl) | eauto | destruct (Ht eq_refl)].
    + pose proof (sort_terminates mode info fuel nodes parentName Hfree Hd) as Ht.
      destruct (getSortObject mode fuel (Some info) nodes parentName)
        as [r|e|]; [destruct (Hs r eq_refl) | eauto | destruct (Ht eq_refl)].
  - intros Hall Hsup. split.
    + apply filter_never_unsupported; [exact Hall | exact Hsup].
    + apply sort_never_unsupported; [exact Hall | exact Hsup].
Qed.

(** A query whose selection holds a node of kind Directive, and one made of
    fields and a fragment spread. *)
Lemma other_kinds_example :
  ((forall r, getFilterObject 3
                (Some (mkInfo (Some [Field "users" []
                         (Some [Field "a" [] None; OtherNode "Directive" (Some "skip")])])
                       [] [])) NUndefined None <> Ok r) /\
   (forall r, getSortObject StrictSpread 3
                (Some (mkInfo (Some [Field "users" []
                         (Some [Field "a" [] None; OtherNode "Directive" (Some "skip")])])
                       [] [])) NUndefined None <> Ok r) /\
   ((exists e, getFilterObject 3
                 (Some (mkInfo (Some [Field "users" []
                          (Some [Field "a" [] None; OtherNode "Directive" (Some "skip")])])
                        [] [])) NUndefined None = Throw e) /\
    (exists e, getSortObject StrictSpread 3
                 (Some (mkInfo (Some [Field "users" []
                          (Some [Field "a" [] None; OtherNode "Directive" (Some "skip")])])
                        [] [])) NUndefined None = Throw e))) /\
  (getFilterObject 3
     (Some (mkInfo (Some [Field "users" [] (Some [Field "a" [] None; FragmentSpread "F"])])
            [("F", [Field "b" [] None])] [])) NUndefined None
     <> Throw unsupported_selection /\
   getSortObject ArrayFromSpread 3
     (Some (mkInfo (Some [Field "users" [] (Some [Field "a" [] None; FragmentSpread "F"])])
            [("F", [Field "b" [] None])] [])) NUndefined None
     <> Throw unsupported_selection).
Proof.
  split.
  - destruct (other_kinds_never_compile StrictSpread 3
                (mkInfo (Some [Field "users" []
                         (Some [Field "a" [] None; OtherNode "Directive" (Some "skip")])])
                       [] []) NUndefined None) as [H _].
    destruct H as [Hf [Hs Ht]].
    + apply (co_here _ "Directive" (Some "skip")). simpl. right; left; reflexivity.
    + split; [exact Hf|]. split; [exact Hs|]. apply Ht; [reflexivity | simpl; lia].
  - apply (other_kinds_never_compile ArrayFromSpread 3
             (mkInfo (Some [Field "users" [] (Some [Field "a" [] None; FragmentSpread "F"])])
                     [("F", [Field "b" [] None])] []) NUndefined None); reflexivity.
Defined.

(** C8. An inline fragment is one of the three kinds the compilers have a
    case for, and neither reaches it: [name.value] is read before the
    switch over the kind, an inline fragment has no name, and both
    compilers end in a TypeError, whatever the fragment selects and
    whatever follows it. The query [users { ... on User { age(gt: 5) } }]
    is made of the three kinds only. Fields and fragment spreads do
    compile: the same field reached through a spread of the fragment F
    gives the clause, under the path [F.age]. *)
Theorem C8_inline_fragment_aborts_both_compilers :
  (forall mode fuel ss rest frags vars parentName,
     getFilterObject (S fuel)
       (Some (mkInfo (Some [Field "users" [] (Some (InlineFragment ss :: rest))]) frags vars))
       NUndefined parentName = Throw name_undefined /\
     getSortObject mode (S fuel)
       (Some (mkInfo (Some [Field "users" [] (Some (InlineFragment ss :: rest))]) frags vars))
       NUndefined parentName = Throw name_undefined) /\
  all_supported
    (mkInfo (Some [Field "users" []
       (Some [InlineFragment [Field "age" [mkArgument "gt" (IntValue "5")] None]])]) [] [])
  = true /\
  (forall fuel,
     getFilterObject (3 + fuel)
       (Some (mkInfo (Some [Field "users" [] (Some [Field "a" [] None; FragmentSpread "F"])])
                [("F", [Field "age" [mkArgument "gt" (IntValue "5")] None])] []))
       NUndefined None
     = Ok [("F.age", VObj [("$gt", VNum (NInt 5))])]).
Proof.
  split; [|split; [reflexivity | intros fuel; reflexivity]].
  intros mode fuel ss rest frags vars parentName. split; reflexivity.
Qed.

(** ** getSortObject *)

(** With the spread of the language, a sort argument anywhere ends in a
    TypeError: the only mapping [getSortObject] can return is the empty
    one. *)
Lemma getSortObject_strict_empty (info : option ResolveInfo) :
  forall fuel nodes parentName m,
    getSortObject StrictSpread fuel info nodes parentName = Ok m -> m = [].
Proof.
  induction fuel as [|fuel IH]; intros nodes parentName m H; [discriminate|].
  simpl in H. destruct info as [i|]; [|injection H as <-; reflexivity].
  assert (Hinv : forall l acc acc',
            (acc = AccArray [] \/ acc = AccObject []) ->
            reduceM (sort_step (getSortObject StrictSpread fuel (Some i)) StrictSpread i
                       parentName) l acc = Ok acc' ->
            acc' = AccArray [] \/ acc' = AccObject []).
  { induction l as [|x l IHl]; intros acc acc' Hacc Hred; simpl in Hred.
    - injection Hred as <-. exact Hacc.
    - destruct (sort_step _ _ _ _ acc x) as [acc1| |] eqn:Hstep; simpl in Hred;
        try discriminate.
      apply (IHl acc1 acc'); [|exact Hred]. clear Hred IHl.
      destruct x as [name args ss|ss|name|kind [name|]]; simpl in Hstep; try discriminate.
      + destruct (find_arg "sort" args) as [it|].
        * destruct (spread_array StrictSpread acc); simpl in Hstep; try discriminate.
          destruct (getSortObject StrictSpread fuel (Some i) (NNode ss) _);
            simpl in Hstep; discriminate.
        * destruct (getSortObject StrictSpread fuel (Some i) (NNode ss) None)
            as [sub| |] eqn:E; simpl in Hstep; try discriminate.
          apply IH in E. subst sub. injection Hstep as <-.
          right. destruct Hacc as [->| ->]; reflexivity.
      + destruct (spread_array StrictSpread acc); simpl in Hstep; try discriminate.
        destruct (getSortObject StrictSpread fuel (Some i) _ _); simpl in Hstep;
          discriminate. }
  destruct (reduceM _ (selections_of i nodes) _) as [fieldArr| |] eqn:Hred;
    simpl in H; try discriminate.
  destruct (Hinv _ _ _ (or_introl eq_refl) Hred) as [-> | ->];
    vm_compute in H; injection H as <-; reflexivity.
Qed.

(** An enum literal has no digits to parse: its direction is the default 1,
    be it [asc] or [desc]. *)
Lemma sort_direction_of_enum_literals :
  sort_direction (VStr "desc") = NInt 1 /\ sort_direction (VStr "asc") = NInt 1 /\
  sort_direction (VStr "DESC") = NInt 1 /\ sort_direction (VStr "ASC") = NInt 1 /\
  sort_direction (VNum (NInt (-1))) = NInt (-1).
Proof. repeat split. Qed.

(** C2. The selections a(sort:DESC,sortOrder:2), b(sort:ASC,sortOrder:1),
    c(sort:ASC) do not compile to { b:1, a:-1, c:1 }: the direction is read
    from the name of the enum literal, which holds no number, so a gets 1
    like the others; the order b, a, c is the claimed one. That is the
    result when a spread of an object yields nothing; with the spread of the
    language the first sort argument ends in a TypeError. Spelling the enum
    members desc and asc changes nothing, while a direction handed in
    through a variable, which carries the enum's value -1, is kept. *)
Theorem C2_example_direction_of_desc_is_1 :
  (forall fuel,
     getSortObject ArrayFromSpread (2 + fuel)
       (Some (mkInfo (Some [Field "users" []
                (Some [Field "a" [mkArgument "sort" (EnumValue "DESC");
                                  mkArgument "sortOrder" (IntValue "2")] None;
                       Field "b" [mkArgument "sort" (EnumValue "ASC");
                                  mkArgument "sortOrder" (IntValue "1")] None;
                       Field "c" [mkArgument "sort" (EnumValue "ASC")] None])]) [] []))
       NUndefined None
     = Ok [("b", NInt 1); ("a", NInt 1); ("c", NInt 1)]) /\
  (forall fuel,
     getSortObject StrictSpread (2 + fuel)
       (Some (mkInfo (Some [Field "users" []
                (Some [Field "a" [mkArgument "sort" (EnumValue "DESC");
                                  mkArgument "sortOrder" (IntValue "2")] None;
                       Field "b" [mkArgument "sort" (EnumValue "ASC");
                                  mkArgument "sortOrder" (IntValue "1")] None;
                       Field "c" [mkArgument "sort" (EnumValue "ASC")] None])]) [] []))
       NUndefined None
     = Throw (TypeError "object is not iterable")) /\
  (forall mode fuel,
     getSortObject mode fuel
       (Some (mkInfo (Some [Field "users" []
                (Some [Field "a" [mkArgument "sort" (EnumValue "DESC");
                                  mkArgument "sortOrder" (IntValue "2")] None;
                       Field "b" [mkArgument "sort" (EnumValue "ASC");
                                  mkArgument "sortOrder" (IntValue "1")] None;
                       Field "c" [mkArgument "sort" (EnumValue "ASC")] None])]) [] []))
       NUndefined None
     <> Ok [("b", NInt 1); ("a", NInt (-1)); ("c", NInt 1)]) /\
  (forall fuel,
     getSortObject ArrayFromSpread (2 + fuel)
       (Some (mkInfo (Some [Field "users" []
                (Some [Field "a" [mkArgument "sort" (EnumValue "desc");
                                  mkArgument "sortOrder" (IntValue "2")] None;
                       Field "b" [mkArgument "sort" (EnumValue "asc");
                                  mkArgument "sortOrder" (IntValue "1")] None;
                       Field "c" [mkArgument "sort" (EnumValue "asc")] None])]) [] []))
       NUndefined None
     = Ok [("b", NInt 1); ("a", NInt 1); ("c", NInt 1)]) /\
  (forall fuel,
     getSortObject ArrayFromSpread (2 + fuel)
       (Some (mkInfo (Some [Field "users" []
                (Some [Field "a" [mkArgument "sort" (VariableRef "d");
                                  mkArgument "sortOrder" (IntValue "2")] None;
                       Field "b" [mkArgument "sort" (EnumValue "asc");
                                  mkArgument "sortOrder" (IntValue "1")] None;
                       Field "c" [mkArgument "sort" (EnumValue "asc")] None])])
              [] [("d", VNum (NInt (-1)))]))
       NUndefined None
     = Ok [("b", NInt 1); ("a", NInt (-1)); ("c", NInt 1)]).
Proof.
  split; [intros fuel; reflexivity|].
  split; [intros fuel; reflexivity|].
  split; [|split; intros fuel; reflexivity].
  intros mode [|[|fuel]] H; destruct mode; vm_compute in H; discriminate.
Qed.

(** ** Where the entries of a sort mapping come from *)

Lemma imap_values {A K : Type} (g : nat -> K) (l : list A) :
  map snd (imap (fun i x => (g i, x)) l) = l.
Proof.
  revert g. induction l as [|x l IH]; intros g; [reflexivity|].
  simpl. f_equal. apply (IH (fun i => g (S i))).
Qed.

Lemma own_props_values (acc : sort_acc) :
  map snd (own_props acc) = collection_values acc.
Proof. destruct acc; [apply imap_values | reflexivity]. Qed.

Lemma numbers_values (m : list (string * number)) (x : sort_item) :
  In x (map snd (numbers m)) -> exists n, x = INumber n.
Proof.
  unfold numbers. rewrite map_map. simpl. rewrite in_map_iff.
  intros [[k n] [<- _]]. eauto.
Qed.

Lemma array_from_items (o : list (string * sort_item)) (l : list sort_item) (x : sort_item) :
  array_from o = Ok l -> In x l -> x = IUndefined \/ In x (map snd o).
Proof.
  unfold array_from. destruct (_ <? _)%Z; [discriminate|]. intros [= <-].
  rewrite in_map_iff. intros [i [<- _]].
  destruct (obj_get (pretty (Z.of_nat i)) o) as [v|] eqn:E; simpl; [right|left; reflexivity].
  apply (obj_get_value _ _ _ E).
Qed.

Lemma spread_array_items (mode : SpreadMode) (acc : sort_acc) (l : list sort_item)
    (x : sort_item) :
  spread_array mode acc = Ok l -> In x l -> x = IUndefined \/ In x (collection_values acc).
Proof.
  destruct acc as [l0|o]; unfold spread_array.
  - intros [= <-]. auto.
  - destruct mode; [discriminate|]. apply array_from_items.
Qed.

Lemma sort_insert_In {A : Type} (cmp : A -> A -> Z) (y : A) (l : list A) (x : A) :
  In x (sort_insert cmp y l) -> x = y \/ In x l.
Proof.
  induction l as [|z l IH]; simpl; [intros [<-|[]]; auto|].
  destruct (cmp y z <? 0)%Z; simpl; intros [<-|H]; auto.
  destruct (IH H); auto.
Qed.

Lemma js_sort_In {A : Type} (cmp : A -> A -> Z) (l : list A) (x : A) :
  In x (js_sort cmp l) -> In x l.
Proof.
  unfold js_sort.
  assert (H : forall acc, In x (fold_left (fun acc y => sort_insert cmp y acc) l acc) ->
                          In x acc \/ In x l).
  { induction l as [|y l IH]; intros acc; simpl; [auto|].
    intros Hx. destruct (IH _ Hx) as [H1|H1]; [|auto].
    apply sort_insert_In in H1 as [->|H1]; auto. }
  intros Hx. destruct (H _ Hx) as [[]|Hl]. exact Hl.
Qed.

Lemma orderBy_items (acc : sort_acc) (x : sort_item) :
  In x (orderBy acc) -> In x (collection_values acc).
Proof.
  unfold orderBy. rewrite in_map_iff. intros [[i y] [<- H]].
  apply js_sort_In in H. apply (in_map snd) in H.
  rewrite imap_values in H. exact H.
Qed.

Lemma sorts_keys (l : list sort_item) (init m : list (string * number)) (k : string) :
  reduceM sorts_step l init = Ok m -> is_Some (obj_get k m) ->
  is_Some (obj_get k init) \/ exists e, In (IEntry e) l /\ e.(se_name) = k.
Proof.
  revert init. induction l as [|it l IH]; intros init H Hk; simpl in H.
  - injection H as <-. auto.
  - destruct (sorts_step init it) as [b| |] eqn:E; simpl in H; try discriminate.
    destruct (IH _ H Hk) as [Hb|[e [Hin He]]]; [|right; exists e; split; [right|]; auto].
    destruct it as [e|n|]; simpl in E; try discriminate.
    + destruct (negb (String.eqb (se_name e) "")); injection E as <-; [|auto].
      apply obj_set_key in Hb as [->|Hb]; [right; exists e; split; [left|]; auto|].
      apply obj_assign_key in Hb as [[v Hv]|Hb]; [discriminate | auto].
    + injection E as <-. auto.
Qed.

(** Both with the spread of the language and with the lenient one, a path
    of the mapping that [getSortObject] returns is the prefix of the call
    followed by the name of a field selected directly, with a sort argument
    of its own: what the recursion finds below a field never becomes an
    entry. *)
Lemma getSortObject_paths_are_direct (mode : SpreadMode) (info : ResolveInfo) (fuel : nat)
    (nodes : NodeArg) (parentName : option string) (m : list (string * number)) (k : string) :
  getSortObject mode fuel (Some info) nodes parentName = Ok m ->
  is_Some (obj_get k m) ->
  exists name args ss,
    In (Field name args ss) (selections_of info nodes) /\
    is_Some (find_arg "sort" args) /\
    k = node_prefix parentName name.
Proof.
  destruct fuel as [|fuel]; [discriminate|]. simpl. intros H Hk.
  destruct (reduceM _ (selections_of info nodes) _) as [fieldArr| |] eqn:Hred;
    simpl in H; try discriminate.
  destruct (sorts_keys _ _ _ _ H Hk) as [[v Hv]|[e [Hin <-]]]; [discriminate|].
  apply orderBy_items in Hin. clear H Hk.
  revert e Hin.
  apply (reduceM_invariant
           (fun acc => forall e, In (IEntry e) (collection_values acc) ->
              exists name args ss,
                In (Field name args ss) (selections_of info nodes) /\
                is_Some (find_arg "sort" args) /\
                e.(se_name) = node_prefix parentName name)
           _ _ _ _) with (3 := Hred).
  - intros b x b' Hx Hb Hstep e Hin.
    destruct x as [name args ss|ss|name|kind [name|]]; simpl in Hstep; try discriminate.
    + destruct (find_arg "sort" args) as [it|] eqn:Hsort.
      * destruct (spread_array mode b) as [l1| |] eqn:E1; simpl in Hstep; try discriminate.
        destruct (getSortObject mode fuel (Some info) (NNode ss) _) as [sub| |];
          simpl in Hstep; try discriminate.
        destruct (spread_array mode (AccObject _)) as [l2| |] eqn:E2; simpl in Hstep;
          try discriminate.
        destruct (parseValue info (arg_value it)) as [v| |]; simpl in Hstep;
          try discriminate.
        injection Hstep as <-. simpl in Hin.
        rewrite !in_app_iff in Hin. destruct Hin as [Hin|[Hin|[Hin|[]]]].
        -- destruct (spread_array_items _ _ _ _ E1 Hin) as [?|Hin']; [discriminate|].
           apply Hb, Hin'.
        -- destruct (spread_array_items _ _ _ _ E2 Hin) as [?|Hin']; [discriminate|].
           apply numbers_values in Hin' as [n ?]. discriminate.
        -- injection Hin as <-. exists name, args, ss.
           split; [exact Hx|]. split; [rewrite Hsort; eauto | reflexivity].
      * destruct (getSortObject mode fuel (Some info) (NNode ss) None) as [sub| |];
          simpl in Hstep; try discriminate.
        injection Hstep as <-. simpl in Hin.
        apply obj_assign_values in Hin as [Hin|Hin].
        -- apply obj_assign_values in Hin as [[]|Hin].
           rewrite own_props_values in Hin. apply Hb, Hin.
        -- apply numbers_values in Hin as [n ?]. discriminate.
    + destruct (spread_array mode b) as [l1| |] eqn:E1; simpl in Hstep; try discriminate.
      destruct (getSortObject mode fuel (Some info) _ _) as [sub| |];
        simpl in Hstep; try discriminate.
      destruct (spread_array mode (AccObject _)) as [l2| |] eqn:E2; simpl in Hstep;
        try discriminate.
      injection Hstep as <-. simpl in Hin.
      rewrite in_app_iff in Hin. destruct Hin as [Hin|Hin].
      * destruct (spread_array_items _ _ _ _ E1 Hin) as [?|Hin']; [discriminate|].
        apply Hb, Hin'.
      * destruct (spread_array_items _ _ _ _ E2 Hin) as [?|Hin']; [discriminate|].
        apply numbers_values in Hin' as [n ?]. discriminate.
  - intros e [].
Qed.

(** C7. A sort argument on a field below another is not recorded under the
    dotted path. For a { b(sort: asc) }, a carrying no sort argument, the
    recursion is entered without the prefix and its result, a mapping and
    not a list of entries, is merged into the accumulator as bare numbers
    that the final fold skips: the result is empty (a TypeError with the
    spread of the language), and no depth or spread gives an entry a.b.
    With a sort argument on a as well, a alone is recorded. The filter
    compiler keeps b under a.b, and puts the fields of a fragment F under
    the name of the fragment; an inline fragment ends both compilers with a
    TypeError on its missing name. *)
Theorem C7_nested_sort_path_not_recorded :
  (forall fuel,
     getSortObject ArrayFromSpread (3 + fuel)
       (Some (mkInfo (Some [Field "users" []
                (Some [Field "a" []
                         (Some [Field "b" [mkArgument "sort" (EnumValue "asc")] None])])])
              [] []))
       NUndefined None = Ok []) /\
  (forall fuel,
     getSortObject StrictSpread (3 + fuel)
       (Some (mkInfo (Some [Field "users" []
                (Some [Field "a" []
                         (Some [Field "b" [mkArgument "sort" (EnumValue "asc")] None])])])
              [] []))
       NUndefined None = Throw (TypeError "object is not iterable")) /\
  (forall mode fuel,
     match getSortObject mode fuel
             (Some (mkInfo (Some [Field "users" []
                      (Some [Field "a" []
                               (Some [Field "b" [mkArgument "sort" (EnumValue "asc")]
                                        None])])])
                    [] []))
             NUndefined None with
     | Ok m => obj_get "a.b" m = None
     | _ => True
     end) /\
  (forall fuel,
     getSortObject ArrayFromSpread (3 + fuel)
       (Some (mkInfo (Some [Field "users" []
                (Some [Field "a" [mkArgument "sort" (EnumValue "asc")]
                         (Some [Field "b" [mkArgument "sort" (EnumValue "asc")] None])])])
              [] []))
       NUndefined None = Ok [("a", NInt 1)]) /\
  (forall fuel,
     getFilterObject (3 + fuel)
       (Some (mkInfo (Some [Field "users" []
                (Some [Field "a" []
                         (Some [Field "b" [mkArgument "gt" (IntValue "5")] None])])])
              [] []))
       NUndefined None = Ok [("a.b", VObj [("$gt", VNum (NInt 5))])]) /\
  (forall fuel,
     getFilterObject (3 + fuel)
       (Some (mkInfo (Some [Field "users" [] (Some [FragmentSpread "F"])])
              [("F", [Field "age" [mkArgument "gt" (IntValue "5")] None])] []))
       NUndefined None = Ok [("F.age", VObj [("$gt", VNum (NInt 5))])]) /\
  (forall mode fuel,
     getFilterObject (1 + fuel)
       (Some (mkInfo (Some [Field "users" []
                (Some [InlineFragment [Field "age" [mkArgument "gt" (IntValue "5")] None]])])
              [] []))
       NUndefined None = Throw name_undefined /\
     getSortObject mode (1 + fuel)
       (Some (mkInfo (Some [Field "users" []
                (Some [InlineFragment [Field "age" [mkArgument "sort" (EnumValue "asc")]
                                         None]])])
              [] []))
       NUndefined None = Throw name_undefined).
Proof.
  split; [intros fuel; reflexivity|].
  split; [intros fuel; reflexivity|].
  split.
  { intros mode [|[|[|fuel]]]; destruct mode; vm_compute; exact I || reflexivity. }
  split; [intros fuel; reflexivity|].
  split; [intros fuel; reflexivity|].
  split; [intros fuel; reflexivity|].
  intros mode fuel. split; [reflexivity | destruct mode; reflexivity].
Qed.

(** ** addHooks *)

Section HookFacts.

Context {S hooks : Type}.
Variable compose : hooks -> list value -> async S value.
Implicit Types (resolver : list value -> async S value) (pre post : hooks).

(** The result of the post chain replaces that of the resolver exactly when
    it is truthy; this holds whatever [compose] does. *)
Lemma addHooks_fulfilled resolver pre post args s x s1 result s2 chained s3 :
  compose pre args s = Fulfilled x s1 ->
  resolver args s1 = Fulfilled result s2 ->
  compose post (result :: args) s2 = Fulfilled chained s3 ->
  addHooks compose resolver pre post args s
  = Fulfilled (if truthy chained then chained else result) s3.
Proof.
  intros Hpre Hres Hpost. unfold addHooks, await.
  rewrite Hpre, Hres, Hpost. reflexivity.
Qed.

(** C10. When the pre chain has run and the resolver rejects, the composed
    resolver rejects with the same reason and in the state the resolver
    left: the post chain, whatever it holds and whatever it would do, is not
    started. This holds for every behaviour of [compose]. *)
Theorem C10_resolver_failure_skips_post_hooks resolver pre post args s x s1 reason s2 :
  compose pre args s = Fulfilled x s1 ->
  resolver args s1 = Rejected reason s2 ->
  addHooks compose resolver pre post args s = Rejected reason s2.
Proof.
  intros Hpre Hres. unfold addHooks, await. rewrite Hpre, Hres. reflexivity.
Qed.

End HookFacts.

(** A resolver that fails after logging its call, between a pre hook and a
    post hook that both log theirs: the post hook leaves no trace. *)
Lemma C10_witness :
  addHooks Middleware_compose
    (fun args log => Rejected (VStr "boom") (log ++ [("resolver", args)]))
    [probe "pre" VUndef] [probe "post" (VStr "replaced")] [VNum (NInt 7)] []
  = Rejected (VStr "boom") [("pre", [VNum (NInt 7)]); ("resolver", [VNum (NInt 7)])].
Proof.
  apply (C10_resolver_failure_skips_post_hooks Middleware_compose
           (fun args log => Rejected (VStr "boom") (log ++ [("resolver", args)]))
           [probe "pre" VUndef] [probe "post" (VStr "replaced")] [VNum (NInt 7)] []
           VUndef [("pre", [VNum (NInt 7)])]); reflexivity.
Defined.

(** The chain of the model runs its hooks in list order. *)
Lemma Middleware_compose_probes (tags : list (string * value)) (args : list value)
    (log : list (string * list value)) :
  Middleware_compose (map (fun p => probe p.1 p.2) tags) args log
  = Fulfilled (default VUndef (last (map snd tags)))
              (log ++ map (fun p => (p.1, args)) tags).
Proof.
  revert log. induction tags as [|p tags IH]; intros log.
  - simpl. rewrite app_nil_r. reflexivity.
  - destruct tags as [|q tags]; [reflexivity|].
    remember (q :: tags) as rest eqn:Hrest.
    assert (Hstep : Middleware_compose (map (fun p => probe p.1 p.2) (p :: rest)) args log
                    = Middleware_compose (map (fun p => probe p.1 p.2) rest) args
                        (log ++ [(p.1, args)])).
    { subst rest. reflexivity. }
    rewrite Hstep, IH. subst rest. simpl. rewrite <- app_assoc. reflexivity.
Qed.

(** C5. The composed resolver runs the pre chain, then the resolver, then
    the post chain on the resolver's result followed by the original
    arguments, and returns the result of the post chain when it is truthy,
    the resolver's own otherwise; undefined (what an empty chain gives), null,
    false, 0, NaN and the empty string are what leaves the resolver's result
    in place (an empty array or object is truthy and replaces it). With hooks
    that log their calls, for any two lists of hooks the log reads: the pre
    hooks in order with the arguments, the resolver with the arguments, the
    post hooks in order with the result before the arguments. *)
Theorem C5_hooks_run_in_order_and_replace_when_truthy :
  (forall (S hooks : Type) (compose : hooks -> list value -> async S value)
          resolver pre post args s x s1 result s2 chained s3,
     compose pre args s = Fulfilled x s1 ->
     resolver args s1 = Fulfilled result s2 ->
     compose post (result :: args) s2 = Fulfilled chained s3 ->
     addHooks compose resolver pre post args s
     = Fulfilled (if truthy chained then chained else result) s3) /\
  (forall (pre post : list (string * value)) (result : value) (args : list value)
          (log : list (string * list value)),
     addHooks Middleware_compose (probe "resolver" result)
       (map (fun p => probe p.1 p.2) pre) (map (fun p => probe p.1 p.2) post) args log
     = Fulfilled
         (let chained := default VUndef (last (map snd post)) in
          if truthy chained then chained else result)
         (log ++ map (fun p => (p.1, args)) pre ++ [("resolver", args)] ++
          map (fun p => (p.1, result :: args)) post)) /\
  (forall v, truthy v = false <->
             v = VUndef \/ v = VNull \/ v = VBool false \/ v = VNum (NInt 0) \/
             v = VNum NNaN \/ v = VStr "").
Proof.
  split; [intros; eapply addHooks_fulfilled; eauto|].
  split.
  - intros pre post result args log.
    erewrite addHooks_fulfilled.
    + reflexivity.
    + apply Middleware_compose_probes.
    + reflexivity.
    + rewrite Middleware_compose_probes. rewrite <- !app_assoc. reflexivity.
  - intros v. split.
    + destruct v as [| |[|]|[z|m d| |neg]|s|l|o]; simpl; intros H; try discriminate; auto 10.
      * apply negb_false_iff, Z.eqb_eq in H. subst. auto 10.
      * apply negb_false_iff, String.eqb_eq in H. subst. auto 10.
    + intros [->|[->|[->|[->|[->| ->]]]]]; reflexivity.
Qed.

Lemma C5_witness :
  addHooks Middleware_compose (probe "resolver" (VStr "own"))
    [probe "pre1" VUndef; probe "pre2" VUndef] [probe "post1" (VStr "x"); probe "post2" (VStr "")]
    [VNum (NInt 7)] []
  = Fulfilled (VStr "own")
      [("pre1", [VNum (NInt 7)]); ("pre2", [VNum (NInt 7)]); ("resolver", [VNum (NInt 7)]);
       ("post1", [VStr "own"; VNum (NInt 7)]); ("post2", [VStr "own"; VNum (NInt 7)])].
Proof.
  apply (proj1 C5_hooks_run_in_order_and_replace_when_truthy _ _ Middleware_compose
           (probe "resolver" (VStr "own"))
           [probe "pre1" VUndef; probe "pre2" VUndef]
           [probe "post1" (VStr "x"); probe "post2" (VStr "")]
           [VNum (NInt 7)] [] VUndef
           [("pre1", [VNum (NInt 7)]); ("pre2", [VNum (NInt 7)])]
           (VStr "own")
           [("pre1", [VNum (NInt 7)]); ("pre2", [VNum (NInt 7)]); ("resolver", [VNum (NInt 7)])]
           (VStr "")); reflexivity.
Defined.

(** ** getFieldArguments *)

Lemma createInputObject_memoized (ofType : GraphQLType) (name : string)
    (fields : list (string * GraphQLType)) (memo memo' : gmap string GraphQLType)
    (mirror : GraphQLType) :
  unwrap_nonNull ofType = GraphQLObjectType name fields ->
  createInputObject ofType memo = Ok (mirror, memo') ->
  memo' !! name = Some mirror /\ createInputObject ofType memo' = Ok (mirror, memo').
Proof.
  unfold createInputObject. intros -> H.
  assert (Hm : memo' !! name = Some mirror).
  { simpl in H. destruct (memo !! name) as [t|] eqn:E.
    - injection H as <- <-. exact E.
    - match type of H with (?m ≫= _) = _ => destruct m as [[inputs memo1]| |] end;
        simpl in H; try discriminate.
      injection H as <- <-. apply lookup_insert_eq. }
  split; [exact Hm|]. simpl. rewrite Hm. reflexivity.
Qed.




(** ** getTypes *)

(** A type is registered under any name but [length]. *)
Lemma addType_inv (name : string) (type : nat) (st : TypeState) (u : unit) (st' : TypeState) :
  addType name type st = Ok (u, st') ->
  name <> "length" /\ set_types (obj_set name type) st = st'.
Proof.
  unfold addType. destruct (String.eqb name "length") eqn:E; [discriminate|].
  intros [= _ <-]. split; [apply String.eqb_neq, E | reflexivity].
Qed.

(** A cached type whose node interface is not the one of the context is
    rebuilt: a new type object with the same name and fields and the
    context's interface, registered under the model name, returned for it
    and noted in [reResolveTypes]; the cache keeps the old object. *)
Lemma getTypes_model_rebuilds (nodeInterface : nat) (types0 : list (string * nat))
    (reResolveTypes : list string) (model : Model) (st : TypeState)
    (entries : list (string * nat)) (type : nat) (o : TypeObject) (interfaces : list nat) :
  st.(cache) = Some entries ->
  obj_get model.(m_key) entries = Some type ->
  st.(store) !! type = Some (CType o) ->
  o.(t_interfaces) = Some interfaces ->
  head interfaces <> Some nodeInterface ->
  model.(m_name) <> "length" ->
  getTypes_model nodeInterface (types0, reResolveTypes) model st
  = Ok ((obj_set model.(m_name) (length st.(store)) types0, reResolveTypes ++ [o.(t_name)]),
        mkTypeState
          (st.(store) ++ [CType (mkTypeObject o.(t_name) (Some [nodeInterface])
                                   o.(t_fields) false)])
          st.(cache)
          (obj_set model.(m_name) (length st.(store)) st.(types))
          st.(resolveReference)).
Proof.
  destruct st as [h c ts rr]. simpl. intros -> Hget Hstore Hint Hne Hname.
  unfold getTypes_model. unfold mbind, TypeM_bind, getsM. cbn [cache]. cbv iota beta.
  rewrite Hget. unfold read_type. cbn [store]. rewrite Hstore. cbv iota beta. rewrite Hint.
  rewrite bool_decide_eq_false_2 by exact Hne.
  unfold addType. apply String.eqb_neq in Hname. rewrite Hname.
  reflexivity.
Qed.

(** A cached type with the interface of the context is served as it is. *)
Lemma getTypes_model_reuses (nodeInterface : nat) (types0 : list (string * nat))
    (reResolveTypes : list string) (model : Model) (st : TypeState)
    (entries : list (string * nat)) (type : nat) (o : TypeObject) (interfaces : list nat) :
  st.(cache) = Some entries ->
  obj_get model.(m_key) entries = Some type ->
  st.(store) !! type = Some (CType o) ->
  o.(t_interfaces) = Some interfaces ->
  head interfaces = Some nodeInterface ->
  getTypes_model nodeInterface (types0, reResolveTypes) model st
  = Ok ((obj_set model.(m_name) type types0, reResolveTypes), st).
Proof.
  destruct st as [h c ts rr]. simpl. intros -> Hget Hstore Hint Heq.
  unfold getTypes_model. unfold mbind, TypeM_bind, getsM. cbn [cache]. cbv iota beta.
  rewrite Hget. unfold read_type. cbn [store]. rewrite Hstore. cbv iota beta. rewrite Hint.
  rewrite bool_decide_eq_true_2 by exact Heq.
  reflexivity.
Qed.

(** C4. In [getTypes], a type served from the cache whose node interface is
    that of the context is not kept out of the resolution pass: only the
    names of rebuilt types are in [reResolveTypes]. Called a second time in
    the same context, with the cache holding the type of the first call,
    [getTypes] serves that same type object and resolves its slots again;
    the friends slot, whose type is by then the connection type, is given
    a new connection around an undefined node type, and the slot of the
    nested boss field lands among the fields of User itself. A context of
    its own with the same cache rebuilds the type with its interface,
    registers it and leaves its slots alone. *)
Theorem C4_matching_cached_type_is_resolved_again :
  exists st1 st2 st3,
    getTypes 1 [user_model] (createTypeContext 1 (mkTypeState [] (Some []) [] []))
    = Ok ([("User", 14)], st1) /\
    field_type st1.(store) 14 "friends" = Some (TConnection "UserFriends" (TObject 14)) /\
    field_type st1.(store) 14 "boss" = None /\
    getTypes 1 [user_model] st1 = Ok ([("User", 14)], st2) /\
    field_type st2.(store) 14 "friends" = Some (TConnection "UserFriends" TUndefined) /\
    field_type st2.(store) 14 "boss" = Some (TObject 14) /\
    getTypes 2 [user_model] (createTypeContext 2 st1) = Ok ([("User", 16)], st3) /\
    obj_get "User" st3.(types) = Some 16 /\
    obj_get "User" <$> st3.(cache) = Some (Some 14) /\
    st3.(store) !! 16 = Some (CType (mkTypeObject "User" (Some [2]) (Some 13) false)) /\
    field_type st3.(store) 16 "friends" = Some (TConnection "UserFriends" (TObject 14)).
Proof.
  destruct (getTypes 1 [user_model] (createTypeContext 1 (mkTypeState [] (Some []) [] [])))
    as [[types1 st1]| |] eqn:E1; vm_compute in E1; try discriminate.
  injection E1 as <- <-.
  eexists; eexists; eexists.
  split; [reflexivity|]. split; [reflexivity|]. split; [reflexivity|].
  split; [vm_compute; reflexivity|].
  split; [reflexivity|]. split; [reflexivity|].
  split; [vm_compute; reflexivity|].
  repeat split.
Qed.

(* ================================================================== *)
(** * Part III. Further properties of the code                         *)
(* ================================================================== *)

(** ** getFilterObject: the keys of the result *)

Lemma reduceM_split {A B : Type} (f : B -> A -> outcome B) (l : list A) (init r : B) (x : A) :
  reduceM f l init = Ok r -> In x l ->
  exists l1 l2 b b',
    l = l1 ++ x :: l2 /\ reduceM f l1 init = Ok b /\ f b x = Ok b' /\
    reduceM f l2 b' = Ok r.
Proof.
  revert init. induction l as [|y l IH]; intros init H Hin; [destruct Hin|].
  simpl in H. destruct (f init y) as [b1| |] eqn:E; simpl in H; try discriminate.
  destruct Hin as [->|Hin].
  - exists [], l, init, b1. repeat split; auto.
  - destruct (IH _ H Hin) as [l1 [l2 [b [b' [-> [H1 [H2 H3]]]]]]].
    exists (y :: l1), l2, b, b'. repeat split; auto.
    simpl. rewrite E. exact H1.
Qed.

Lemma reduceM_all_Ok {A B : Type} (f : B -> A -> outcome B) (l : list A) (init : B) :
  (forall b x, In x l -> exists b', f b x = Ok b') -> exists r, reduceM f l init = Ok r.
Proof.
  revert init. induction l as [|y l IH]; intros init H; simpl; [eauto|].
  destruct (H init y (or_introl eq_refl)) as [b' ->]. simpl.
  apply IH. intros b x Hx. apply H. right; exact Hx.
Qed.

Lemma Forall2_nil_iff {A B : Type} (R : A -> B -> Prop) (l : list A) (l' : list B) :
  Forall2 R l l' -> (l = [] <-> l' = []).
Proof. intros H. destruct H; split; intros; congruence. Qed.

Lemma config_of_key (prefix : string) (op : value) (clauses : list value) (k : string) :
  is_Some (obj_get k (config_of prefix op clauses)) -> k = prefix /\ clauses <> [].
Proof.
  destruct clauses as [|c1 [|c2 cs]]; simpl; intros [v Hv]; try discriminate;
    (destruct (String.eqb prefix k) eqn:E; [|discriminate]);
    apply String.eqb_eq in E; subst; split; congruence.
Qed.

Lemma filter_keys_sound (info : ResolveInfo) :
  forall fuel nodes parentName out k,
    getFilterObject fuel (Some info) nodes parentName = Ok out ->
    is_Some (obj_get k out) ->
    filter_path info (selections_of info nodes) parentName k.
Proof.
  induction fuel as [|fuel IH]; intros nodes parentName out k H; [discriminate|].
  simpl in H. revert k.
  apply (reduceM_invariant
           (fun acc => forall k, is_Some (obj_get k acc) ->
                                 filter_path info (selections_of info nodes) parentName k)
           _ _ _ _) with (3 := H).
  - intros b x b' Hx Hb Hstep k Hk.
    destruct x as [name args ss|ss|name|kind [name|]]; simpl in Hstep; try discriminate.
    + destruct (filters_of_clauses info args) as [clauses [Hf HF]].
      rewrite Hf in Hstep. simpl in Hstep.
      destruct (getFilterObject fuel (Some info) (NNode ss) _) as [sub| |] eqn:E;
        simpl in Hstep; try discriminate.
      injection Hstep as <-.
      apply obj_assign_key in Hk as [Hk|Hk].
      * apply obj_assign_key in Hk as [Hk|Hk].
        -- apply obj_assign_key in Hk as [[v Hv]|Hk]; [discriminate|]. apply Hb, Hk.
        -- eapply fp_below; [exact Hx|]. apply (IH _ _ _ _ E Hk).
      * apply config_of_key in Hk as [-> Hne].
        eapply fp_here; [exact Hx|].
        intros Hnil. apply Hne. apply (Forall2_nil_iff _ _ _ HF), Hnil.
    + destruct (getFilterObject fuel (Some info) (fragment_node info name) _)
        as [sub| |] eqn:E; simpl in Hstep; try discriminate.
      injection Hstep as <-.
      apply obj_assign_key in Hk as [Hk|Hk].
      * apply obj_assign_key in Hk as [[v Hv]|Hk]; [discriminate|]. apply Hb, Hk.
      * eapply fp_spread; [exact Hx|]. apply (IH _ _ _ _ E Hk).
  - intros k [v Hv]. discriminate.
Qed.

Lemma filter_keys_complete (info : ResolveInfo) (sels : list Selection)
    (parentName : option string) (k : string) :
  filter_path info sels parentName k ->
  forall fuel nodes out,
    selections_of info nodes = sels ->
    getFilterObject fuel (Some info) nodes parentName = Ok out ->
    is_Some (obj_get k out).
Proof.
  induction 1 as [sels parentName name args ss Hin Hne
                 |sels parentName name args ss k Hin Hpath IH
                 |sels parentName name k Hin Hpath IH];
    intros fuel nodes out Hsel H; (destruct fuel as [|fuel]; [discriminate|]);
    simpl in H; rewrite Hsel in H;
    destruct (reduceM_split _ _ _ _ _ H Hin) as [l1 [l2 [b [b' [_ [_ [Hstep Hrest]]]]]]];
    apply (filter_reduce_keeps _ _ _ _ _ _ _ Hrest); simpl in Hstep.
  - destruct (filters_of_clauses info args) as [clauses [Hf HF]].
    rewrite Hf in Hstep. simpl in Hstep.
    destruct (getFilterObject fuel (Some info) (NNode ss) _) as [sub| |];
      simpl in Hstep; try discriminate.
    injection Hstep as <-. apply obj_assign_has.
    assert (Hc : clauses <> []).
    { intros Hnil. apply Hne. apply (Forall2_nil_iff _ _ _ HF), Hnil. }
    destruct clauses as [|c1 [|c2 cs]]; [congruence| |]; simpl;
      rewrite String.eqb_refl; eauto.
  - destruct (filters_of info args); simpl in Hstep; try discriminate.
    destruct (getFilterObject fuel (Some info) (NNode ss) _) as [sub| |] eqn:E;
      simpl in Hstep; try discriminate.
    injection Hstep as <-. apply obj_assign_keeps, obj_assign_has.
    apply (IH _ _ _ eq_refl E).
  - destruct (getFilterObject fuel (Some info) (fragment_node info name) _)
      as [sub| |] eqn:E; simpl in Hstep; try discriminate.
    injection Hstep as <-. apply obj_assign_has.
    apply (IH _ _ _ eq_refl E).
Qed.

(** X1. The keys of the object [getFilterObject] returns are exactly the
    dotted paths of the fields that carry at least one comparison argument
    and that the traversal meets, the name of a spread fragment counting as
    a segment of the path; a field without a comparison argument leaves no
    key of its own. *)
Theorem X1_filter_keys_are_the_paths_of_compared_fields :
  forall info fuel nodes parentName out k,
    getFilterObject fuel (Some info) nodes parentName = Ok out ->
    (is_Some (obj_get k out) <->
     filter_path info (selections_of info nodes) parentName k).
Proof.
  intros info fuel nodes parentName out k H. split.
  - apply (filter_keys_sound info fuel nodes parentName out k H).
  - intros Hp. apply (filter_keys_complete info _ _ _ Hp fuel nodes out eq_refl H).
Qed.

Lemma X1_witness :
  is_Some (obj_get "a.b" [("a.b", VObj [("$gt", VNum (NInt 5))])]) <->
  filter_path
    (mkInfo (Some [Field "users" []
               (Some [Field "a" [] (Some [Field "b" [mkArgument "gt" (IntValue "5")] None]);
                      Field "c" [] None])]) [] [])
    [Field "a" [] (Some [Field "b" [mkArgument "gt" (IntValue "5")] None]); Field "c" [] None]
    None "a.b".
Proof.
  apply (X1_filter_keys_are_the_paths_of_compared_fields
           (mkInfo (Some [Field "users" []
               (Some [Field "a" [] (Some [Field "b" [mkArgument "gt" (IntValue "5")] None]);
                      Field "c" [] None])]) [] [])
           3 NUndefined None [("a.b", VObj [("$gt", VNum (NInt 5))])] "a.b").
  reflexivity.
Defined.

(** ** getFilterObject: when it returns *)

(** X2. On a selection made of fields only (no fragment, no other node),
    [getFilterObject] throws nothing: it returns an object as soon as the
    depth it is given exceeds the nesting of the selection. *)
Theorem X2_filter_of_fields_only_returns :
  forall info fuel nodes parentName,
    forallb fields_only (selections_of info nodes) = true ->
    sels_depth (selections_of info nodes) < fuel ->
    exists out, getFilterObject fuel (Some info) nodes parentName = Ok out.
Proof.
  intros info. induction fuel as [|fuel IH]; intros nodes parentName Hf Hd; [lia|].
  simpl. apply reduceM_all_Ok. intros b x Hin.
  pose proof (forallb_In _ _ _ Hf Hin) as Hx.
  pose proof (sels_depth_In _ _ Hin) as Hdx.
  destruct x as [name args [ss|]|ss|name|kind name]; simpl in Hx; try discriminate; simpl.
  - destruct (filters_of_clauses info args) as [cs [-> _]]. simpl.
    change (sel_depth (Field name args (Some ss))) with (S (sels_depth ss)) in Hdx.
    destruct (IH (NNode (Some ss)) (Some (node_prefix parentName name))) as [sub ->];
      [rewrite selections_of_node; exact Hx | rewrite selections_of_node; simpl; lia|].
    simpl. eauto.
  - destruct (filters_of_clauses info args) as [cs [-> _]]. simpl.
    change (sel_depth (Field name args None)) with 1 in Hdx.
    destruct fuel; [lia|]. simpl. eauto.
Qed.

Lemma X2_witness :
  exists out,
    getFilterObject 3
      (Some (mkInfo (Some [Field "users" []
               (Some [Field "a" [] (Some [Field "b" [mkArgument "gt" (IntValue "5")] None]);
                      Field "c" [mkArgument "in" (ListValue [IntValue "1"])] None])]) [] []))
      NUndefined None = Ok out.
Proof.
  apply (X2_filter_of_fields_only_returns
           (mkInfo (Some [Field "users" []
               (Some [Field "a" [] (Some [Field "b" [mkArgument "gt" (IntValue "5")] None]);
                      Field "c" [mkArgument "in" (ListValue [IntValue "1"])] None])]) [] [])
           3 NUndefined None); [reflexivity | simpl; lia].
Defined.

(** ** The spread of a fragment that is not defined *)

Lemma filter_unknown_fragment (info : ResolveInfo) :
  reaches_unknown_fragment info (selections_of info NUndefined) ->
  forall fuel nodes parentName r,
    reaches_unknown_fragment info (selections_of info nodes) ->
    getFilterObject fuel (Some info) nodes parentName <> Ok r.
Proof.
  intros Htop. induction fuel as [|fuel IH]; intros nodes parentName r Hr H; [discriminate|].
  simpl in H. pose proof (reduceM_Ok_each _ _ _ _ H) as Heach.
  inversion Hr as [name sels Hin Hnone|name args ss sels Hin Hss|name ss sels Hin Hsome Hss];
    subst; destruct (Heach _ Hin) as [b [b' Hstep]]; simpl in Hstep.
  - unfold fragment_node in Hstep. rewrite Hnone in Hstep.
    destruct (getFilterObject fuel (Some info) NUndefined _) as [sub| |] eqn:E;
      simpl in Hstep; try discriminate.
    apply (IH _ _ _ Htop E).
  - destruct (filters_of info args); simpl in Hstep; try discriminate.
    destruct (getFilterObject fuel (Some info) (NNode (Some ss)) _) as [sub| |] eqn:E;
      simpl in Hstep; try discriminate.
    apply (IH (NNode (Some ss)) _ _ Hss E).
  - unfold fragment_node in Hstep. rewrite Hsome in Hstep.
    destruct (getFilterObject fuel (Some info) (NNode (Some ss)) _) as [sub| |] eqn:E;
      simpl in Hstep; try discriminate.
    apply (IH (NNode (Some ss)) _ _ Hss E).
Qed.

Lemma sort_unknown_fragment (mode : SpreadMode) (info : ResolveInfo) :
  reaches_unknown_fragment info (selections_of info NUndefined) ->
  forall fuel nodes parentName r,
    reaches_unknown_fragment info (selections_of info nodes) ->
    getSortObject mode fuel (Some info) nodes parentName <> Ok r.
Proof.
  intros Htop. induction fuel as [|fuel IH]; intros nodes parentName r Hr H; [discriminate|].
  simpl in H.
  destruct (reduceM _ (selections_of info nodes) _) as [fieldArr| |] eqn:Hred;
    simpl in H; try discriminate.
  pose proof (reduceM_Ok_each _ _ _ _ Hred) as Heach.
  inversion Hr as [name sels Hin Hnone|name args ss sels Hin Hss|name ss sels Hin Hsome Hss];
    subst; destruct (Heach _ Hin) as [b [b' Hstep]]; simpl in Hstep.
  - unfold fragment_node in Hstep. rewrite Hnone in Hstep.
    destruct (spread_array mode b); simpl in Hstep; try discriminate.
    destruct (getSortObject mode fuel (Some info) NUndefined _) as [sub| |] eqn:E;
      simpl in Hstep; try discriminate.
    apply (IH _ _ _ Htop E).
  - destruct (find_arg "sort" args).
    + destruct (spread_array mode b); simpl in Hstep; try discriminate.
      destruct (getSortObject mode fuel (Some info) (NNode (Some ss)) _) as [sub| |] eqn:E;
        simpl in Hstep; try discriminate.
      apply (IH (NNode (Some ss)) _ _ Hss E).
    + destruct (getSortObject mode fuel (Some info) (NNode (Some ss)) _) as [sub| |] eqn:E;
        simpl in Hstep; try discriminate.
      apply (IH (NNode (Some ss)) _ _ Hss E).
  - unfold fragment_node in Hstep. rewrite Hsome in Hstep.
    destruct (spread_array mode b); simpl in Hstep; try discriminate.
    destruct (getSortObject mode fuel (Some info) (NNode (Some ss)) _) as [sub| |] eqn:E;
      simpl in Hstep; try discriminate.
    apply (IH (NNode (Some ss)) _ _ Hss E).
Qed.

(** X3. When the query spreads a fragment that [info.fragments] does not
    hold, the undefined node handed to the recursion makes it start again
    from [info.fieldNodes]: at no depth does either compiler return a
    result (in JavaScript the recursion ends with the call stack). *)
Theorem X3_unknown_fragment_never_returns :
  forall mode info fuel parentName,
    reaches_unknown_fragment info (selections_of info NUndefined) ->
    (forall r, getFilterObject fuel (Some info) NUndefined parentName <> Ok r) /\
    (forall r, getSortObject mode fuel (Some info) NUndefined parentName <> Ok r).
Proof.
  intros mode info fuel parentName H. split; intros r.
  - apply (filter_unknown_fragment info H fuel NUndefined parentName r H).
  - apply (sort_unknown_fragment mode info H fuel NUndefined parentName r H).
Qed.

Lemma X3_witness :
  (forall r, getFilterObject 9
               (Some (mkInfo (Some [Field "users" []
                        (Some [Field "a" [] (Some [FragmentSpread "Missing"])])]) [] []))
               NUndefined None <> Ok r) /\
  (forall r, getSortObject ArrayFromSpread 9
               (Some (mkInfo (Some [Field "users" []
                        (Some [Field "a" [] (Some [FragmentSpread "Missing"])])]) [] []))
               NUndefined None <> Ok r).
Proof.
  apply (X3_unknown_fragment_never_returns ArrayFromSpread
           (mkInfo (Some [Field "users" []
                        (Some [Field "a" [] (Some [FragmentSpread "Missing"])])]) [] [])
           9 None).
  apply (ru_field _ "a" [] [FragmentSpread "Missing"]); [left; reflexivity|].
  apply (ru_here _ "Missing"); [left; reflexivity | reflexivity].
Defined.

(** ** getSortObject: when the spread of the language lets it return *)

Lemma unsorted_field name args ss :
  unsorted (Field name args ss) =
  negb (bool_decide (is_Some (find_arg "sort" args))) &&
  forallb unsorted (default [] ss).
Proof. destruct ss; simpl; [reflexivity | rewrite andb_true_r; reflexivity]. Qed.

Lemma sort_strict_unsorted (info : ResolveInfo) :
  forall fuel nodes parentName m,
    getSortObject StrictSpread fuel (Some info) nodes parentName = Ok m ->
    forallb unsorted (selections_of info nodes) = true.
Proof.
  induction fuel as [|fuel IH]; intros nodes parentName m H; [discriminate|].
  simpl in H.
  destruct (reduceM _ (selections_of info nodes) _) as [fieldArr| |] eqn:Hred;
    simpl in H; try discriminate.
  pose proof (reduceM_Ok_each _ _ _ _ Hred) as Heach.
  apply forallb_forall. intros x Hin.
  destruct (Heach _ Hin) as [b [b' Hstep]].
  destruct x as [name args ss|ss|name|kind [name|]]; simpl in Hstep; try discriminate.
  - rewrite unsorted_field. destruct (find_arg "sort" args) as [it|].
    + destruct (spread_array StrictSpread b); simpl in Hstep; try discriminate.
      destruct (getSortObject StrictSpread fuel (Some info) (NNode ss) _);
        simpl in Hstep; discriminate.
    + destruct (getSortObject StrictSpread fuel (Some info) (NNode ss) None)
        as [sub| |] eqn:E; simpl in Hstep; try discriminate.
      apply IH in E. rewrite selections_of_node in E. rewrite E. reflexivity.
  - destruct (spread_array StrictSpread b); simpl in Hstep; try discriminate.
    destruct (getSortObject StrictSpread fuel (Some info) _ _); simpl in Hstep;
      discriminate.
Qed.

Lemma sort_unsorted_empty (mode : SpreadMode) (info : ResolveInfo) :
  forall fuel nodes parentName,
    forallb unsorted (selections_of info nodes) = true ->
    sels_depth (selections_of info nodes) < fuel ->
    getSortObject mode fuel (Some info) nodes parentName = Ok [].
Proof.
  induction fuel as [|fuel IH]; intros nodes parentName Hu Hd; [lia|].
  simpl.
  assert (Hinv : forall l acc,
            (forall x, In x l -> In x (selections_of info nodes)) ->
            (acc = AccArray [] \/ acc = AccObject []) ->
            exists acc',
              reduceM (sort_step (getSortObject mode fuel (Some info)) mode info parentName)
                      l acc = Ok acc' /\
              (acc' = AccArray [] \/ acc' = AccObject [])).
  { induction l as [|x l IHl]; intros acc Hsub Hacc; simpl; [eauto|].
    assert (Hin : In x (selections_of info nodes)) by (apply Hsub; left; reflexivity).
    pose proof (forallb_In _ _ _ Hu Hin) as Hx.
    pose proof (sels_depth_In _ _ Hin) as Hdx.
    destruct x as [name args ss|ss|name|kind name]; try discriminate.
    rewrite unsorted_field in Hx. apply andb_true_iff in Hx as [Hs Hss].
    assert (Hdss : sels_depth (default [] ss) < fuel).
    { destruct ss as [ss|].
      - change (sel_depth (Field name args (Some ss))) with (S (sels_depth ss)) in Hdx.
        simpl. lia.
      - change (sel_depth (Field name args None)) with 1 in Hdx. simpl. lia. }
    simpl. destruct (find_arg "sort" args) as [it|] eqn:Hsort.
    { rewrite bool_decide_eq_true_2 in Hs by eauto. discriminate. }
    rewrite (IH (NNode ss) None);
      [|rewrite selections_of_node; exact Hss
       |rewrite selections_of_node; exact Hdss].
    simpl. apply IHl; [intros y Hy; apply Hsub; right; exact Hy|].
    right. destruct Hacc as [->| ->]; reflexivity. }
  destruct (Hinv (selections_of info nodes) (AccArray []) (fun x H => H) (or_introl eq_refl))
    as [acc' [-> Hacc']].
  destruct Hacc' as [->| ->]; reflexivity.
Qed.

(** X4. With the spread of the language, [getSortObject] returns exactly on
    the selections made of fields without any [sort] argument, and what it
    returns is the empty mapping: a [sort] argument or the spread of a
    fragment, at any level, ends the call with an error. *)
Theorem X4_strict_sort_returns_only_without_sort_arguments :
  forall info fuel nodes parentName,
    (forall m, getSortObject StrictSpread fuel (Some info) nodes parentName = Ok m ->
               m = [] /\ forallb unsorted (selections_of info nodes) = true) /\
    (forallb unsorted (selections_of info nodes) = true ->
     sels_depth (selections_of info nodes) < fuel ->
     getSortObject StrictSpread fuel (Some info) nodes parentName = Ok []).
Proof.
  intros info fuel nodes parentName. split.
  - intros m H. split.
    + apply (getSortObject_strict_empty _ _ _ _ _ H).
    + apply (sort_strict_unsorted _ _ _ _ _ H).
  - apply sort_unsorted_empty.
Qed.

Lemma X4_witness :
  getSortObject StrictSpread 3
    (Some (mkInfo (Some [Field "users" []
             (Some [Field "a" [mkArgument "gt" (IntValue "1")] (Some [Field "b" [] None]);
                    Field "c" [] None])]) [] []))
    NUndefined None = Ok [].
Proof.
  apply (proj2 (X4_strict_sort_returns_only_without_sort_arguments
           (mkInfo (Some [Field "users" []
             (Some [Field "a" [mkArgument "gt" (IntValue "1")] (Some [Field "b" [] None]);
                    Field "c" [] None])]) [] [])
           3 NUndefined None)); [reflexivity | simpl; lia].
Defined.

(** ** getSortObject: where the pairs of the mapping come from *)

Section ObjectPairs.

Context {A : Type}.
Implicit Types (o : list (string * A)) (k : string) (v : A).

Lemma obj_replace_pairs k v o p :
  In p (obj_replace k v o) -> p = (k, v) \/ In p o.
Proof.
  induction o as [|[k' v'] o IH]; simpl; [tauto|].
  destruct (String.eqb k' k) eqn:E; simpl; intros [<-|H]; auto.
  - apply String.eqb_eq in E as ->. auto.
  - destruct (IH H); auto.
Qed.

Lemma obj_insert_index_pairs n k v o p :
  In p (obj_insert_index n k v o) -> p = (k, v) \/ In p o.
Proof.
  induction o as [|[k' v'] o IH]; simpl; [intros [<-|[]]; auto|].
  destruct (array_index k') as [n'|]; [destruct (n' <? n)%Z|]; simpl;
    intros [<-|H]; auto.
  destruct (IH H); auto.
Qed.

Lemma obj_set_pairs k v o p :
  In p (obj_set k v o) -> p = (k, v) \/ In p o.
Proof.
  unfold obj_set. destruct (obj_get k o).
  - apply obj_replace_pairs.
  - destruct (array_index k); [apply obj_insert_index_pairs|].
    rewrite in_app_iff. simpl. intros [H|[<-|[]]]; auto.
Qed.

Lemma obj_assign_pairs o src p :
  In p (obj_assign o src) -> In p o \/ In p src.
Proof.
  revert o. induction src as [|[k v] src IH]; intros o; [auto|].
  change (obj_assign o ((k, v) :: src)) with (obj_assign (obj_set k v o) src).
  intros H. destruct (IH _ H) as [H1|H1]; [|right; right; exact H1].
  apply obj_set_pairs in H1 as [->|H1]; [right; left; reflexivity | left; exact H1].
Qed.

End ObjectPairs.

Lemma sorts_pairs (l : list sort_item) (init m : list (string * number)) (p : string * number) :
  reduceM sorts_step l init = Ok m -> In p m ->
  In p init \/ exists e, In (IEntry e) l /\ p = (e.(se_name), e.(se_value)).
Proof.
  revert init. induction l as [|it l IH]; intros init H Hp; simpl in H.
  - injection H as <-. auto.
  - destruct (sorts_step init it) as [b| |] eqn:E; simpl in H; try discriminate.
    destruct (IH _ H Hp) as [Hb|[e [Hin He]]]; [|right; exists e; split; [right|]; auto].
    destruct it as [e|n|]; simpl in E; try discriminate.
    + destruct (negb (String.eqb (se_name e) "")); injection E as <-; [|auto].
      apply obj_set_pairs in Hb as [->|Hb]; [right; exists e; split; [left|]; auto|].
      apply obj_assign_pairs in Hb as [[]|Hb]. auto.
    + injection E as <-. auto.
Qed.

Lemma sort_direction_truthy (v : value) : truthy (VNum (sort_direction v)) = true.
Proof.
  unfold sort_direction. destruct (truthy (VNum (parseInt_value v))) eqn:E;
    [exact E | reflexivity].
Qed.

Lemma sort_entries_origin (mode : SpreadMode) (info : ResolveInfo) (fuel : nat)
    (nodes : NodeArg) (parentName : option string) (fieldArr : sort_acc) (e : SortEntry) :
  reduceM (sort_step (getSortObject mode fuel (Some info)) mode info parentName)
          (selections_of info nodes) (AccArray []) = Ok fieldArr ->
  In (IEntry e) (collection_values fieldArr) ->
  sort_origin info (selections_of info nodes) parentName e.(se_name) e.(se_value).
Proof.
  intros Hred. revert e.
  apply (reduceM_invariant
           (fun acc => forall e, In (IEntry e) (collection_values acc) ->
              sort_origin info (selections_of info nodes) parentName
                          e.(se_name) e.(se_value))
           _ _ _ _) with (3 := Hred).
  - intros b x b' Hx Hb Hstep e Hin.
    destruct x as [name args ss|ss|name|kind [name|]]; simpl in Hstep; try discriminate.
    + destruct (find_arg "sort" args) as [it|] eqn:Hsort.
      * destruct (spread_array mode b) as [l1| |] eqn:E1; simpl in Hstep; try discriminate.
        destruct (getSortObject mode fuel (Some info) (NNode ss) _) as [sub| |];
          simpl in Hstep; try discriminate.
        destruct (spread_array mode (AccObject _)) as [l2| |] eqn:E2; simpl in Hstep;
          try discriminate.
        destruct (parseValue info (arg_value it)) as [v| |] eqn:Ev; simpl in Hstep;
          try discriminate.
        injection Hstep as <-. simpl in Hin.
        rewrite !in_app_iff in Hin. destruct Hin as [Hin|[Hin|[Hin|[]]]].
        -- destruct (spread_array_items _ _ _ _ E1 Hin) as [?|Hin']; [discriminate|].
           apply Hb, Hin'.
        -- destruct (spread_array_items _ _ _ _ E2 Hin) as [?|Hin']; [discriminate|].
           apply numbers_values in Hin' as [n ?]. discriminate.
        -- injection Hin as <-. exists name, args, ss, it, v. auto.
      * destruct (getSortObject mode fuel (Some info) (NNode ss) None) as [sub| |];
          simpl in Hstep; try discriminate.
        injection Hstep as <-. simpl in Hin.
        apply obj_assign_values in Hin as [Hin|Hin].
        -- apply obj_assign_values in Hin as [[]|Hin].
           rewrite own_props_values in Hin. apply Hb, Hin.
        -- apply numbers_values in Hin as [n ?]. discriminate.
    + destruct (spread_array mode b) as [l1| |] eqn:E1; simpl in Hstep; try discriminate.
      destruct (getSortObject mode fuel (Some info) _ _) as [sub| |];
        simpl in Hstep; try discriminate.
      destruct (spread_array mode (AccObject _)) as [l2| |] eqn:E2; simpl in Hstep;
        try discriminate.
      injection Hstep as <-. simpl in Hin.
      rewrite in_app_iff in Hin. destruct Hin as [Hin|Hin].
      * destruct (spread_array_items _ _ _ _ E1 Hin) as [?|Hin']; [discriminate|].
        apply Hb, Hin'.
      * destruct (spread_array_items _ _ _ _ E2 Hin) as [?|Hin']; [discriminate|].
        apply numbers_values in Hin' as [n ?]. discriminate.
  - intros e [].
Qed.

(** X5. Whatever the spread, every pair [path: direction] of the mapping
    that [getSortObject] returns stems from a field selected directly with
    a [sort] argument: the path is the prefix of the call followed by the
    name of the field; the direction is never 0 nor NaN; and when the
    parsed argument is a value that JavaScript prints as the embedding
    does (numbers that are doubles, ASCII strings), the direction is what
    [parseInt] reads in it, or 1. So a direction of 5e-7 handed in through
    a variable sorts by 5, the first digit of its exponent notation. *)
Theorem X5_sort_pairs_come_from_sort_arguments :
  forall mode info fuel nodes parentName m k n,
    getSortObject mode fuel (Some info) nodes parentName = Ok m ->
    obj_get k m = Some n ->
    exists name args ss it v,
      In (Field name args ss) (selections_of info nodes) /\
      find_arg "sort" args = Some it /\
      parseValue info it.(arg_value) = Ok v /\
      k = node_prefix parentName name /\
      truthy (VNum n) = true /\
      (exact_value v = true -> n = sort_direction v).
Proof.
  intros mode info fuel nodes parentName m k n H Hk.
  assert (Ho : sort_origin info (selections_of info nodes) parentName k n).
  { destruct fuel as [|fuel]; [discriminate|]. simpl in H.
    destruct (reduceM _ (selections_of info nodes) _) as [fieldArr| |] eqn:Hred;
      simpl in H; try discriminate.
    apply obj_get_In in Hk.
    destruct (sorts_pairs _ _ _ _ H Hk) as [[]|[e [Hin He]]].
    apply orderBy_items in Hin. injection He as -> ->.
    apply (sort_entries_origin _ _ _ _ _ _ _ Hred Hin). }
  destruct Ho as [name [args [ss [it [v [Hin [Hsort [Hv [Hkey ->]]]]]]]]].
  exists name, args, ss, it, v. repeat (split; [assumption|]).
  split; [apply sort_direction_truthy | reflexivity].
Qed.

(** Directions of 5e-7 and of -1, both through variables: the pair [a: 5]
    of the result stems from the field a, whose argument parses to 5e-7, a
    value printed as JavaScript prints it, and 5 is what [parseInt] reads
    in it. *)
Lemma X5_witness :
  exists v,
    parseValue
      (mkInfo (Some [Field "users" []
         (Some [Field "a" [mkArgument "sort" (VariableRef "d")] None;
                Field "b" [mkArgument "sort" (VariableRef "e")] None])])
         [] [("d", VNum (NDec 5 7)); ("e", VNum (NInt (-1)))])
      (VariableRef "d") = Ok v /\
    v = VNum (NDec 5 7) /\ exact_value v = true /\ to_string v = "5e-7" /\
    NInt 5 = sort_direction v.
Proof.
  destruct (X5_sort_pairs_come_from_sort_arguments ArrayFromSpread
              (mkInfo (Some [Field "users" []
                 (Some [Field "a" [mkArgument "sort" (VariableRef "d")] None;
                        Field "b" [mkArgument "sort" (VariableRef "e")] None])])
                 [] [("d", VNum (NDec 5 7)); ("e", VNum (NInt (-1)))])
              2 NUndefined None [("a", NInt 5); ("b", NInt (-1))] "a" (NInt 5)
              eq_refl eq_refl)
    as [name [args [ss [it [v [Hin [Hsort [Hv [Hk [_ Hn]]]]]]]]]].
  destruct Hin as [[= <- <- <-]|[[= <- <- <-]|[]]]; [|discriminate Hk].
  injection Hsort as <-. exists v. split; [exact Hv|].
  injection Hv as <-. split; [reflexivity|]. split; [reflexivity|].
  split; [reflexivity | apply Hn; reflexivity].
Defined.

(** ** The earlier compilers *)

Lemma parseValue_literal (info : ResolveInfo) (node : ValueNode) :
  literal node = true -> parseValue info node = Ok (parseValue_v1 node).
Proof. destruct node as [| | | | | | |[|x l]|]; try discriminate; reflexivity. Qed.

Lemma mapM_index_literals (info : ResolveInfo) (l : list Argument) (i : nat) :
  forallb (fun it => literal it.(arg_value)) l = true ->
  mapM_index (fun it _ => v ← parseValue info it.(arg_value);
                          Ok (VObj [("$" +:+ it.(arg_name), v)])) l i
  = Ok (map (fun it => VObj [("$" +:+ it.(arg_name), parseValue_v1 it.(arg_value))]) l).
Proof.
  revert i. induction l as [|it l IH]; intros i H; [reflexivity|].
  simpl in H. apply andb_true_iff in H as [Hit Hl].
  simpl. rewrite (parseValue_literal info _ Hit). simpl. rewrite (IH _ Hl). reflexivity.
Qed.

Lemma node_prefix_top (name : string) : node_prefix None name = name.
Proof. reflexivity. Qed.

(** X6. On a selection of fields that have no selection of their own and
    whose comparison arguments are literals (no variable, no list with an
    element), the compiler with dotted paths, called without a parent
    name, returns what the earlier one returns: same keys, same clauses,
    same order. *)
Theorem X6_filter_compilers_agree_on_flat_literal_selections :
  forall info fuel nodes,
    forallb flat (selections_of info nodes) = true ->
    forallb literal_args (selections_of info nodes) = true ->
    getFilterObject fuel (Some info) nodes None = getFilterObject_v1 fuel (Some info) nodes.
Proof.
  intros info fuel nodes.
  destruct fuel as [|fuel]; [reflexivity|]. simpl.
  generalize (@nil (string * value)) as acc.
  induction (selections_of info nodes) as [|x l IH]; intros acc Hflat Hlit; [reflexivity|].
  simpl in Hflat, Hlit.
  apply andb_true_iff in Hflat as [Hx Hflat]. apply andb_true_iff in Hlit as [Hlx Hlit].
  destruct x as [name args [ss|]|ss|name|kind name]; try discriminate.
  simpl. unfold filters_of. simpl in Hlx. rewrite (mapM_index_literals info _ 0 Hlx).
  simpl. fold (filters_of_v1 args).
  assert (Hsub : getFilterObject fuel (Some info) (NNode None) (Some name)
                 = getFilterObject_v1 fuel (Some info) (NNode None)).
  { destruct fuel; reflexivity. }
  rewrite node_prefix_top, Hsub.
  destruct (getFilterObject_v1 fuel (Some info) (NNode None)) as [sub| |]; simpl;
    [|reflexivity|reflexivity].
  apply IH; assumption.
Qed.

Lemma X6_witness :
  getFilterObject 2
    (Some (mkInfo (Some [Field "users" []
             (Some [Field "age" [mkArgument "gt" (IntValue "5");
                                 mkArgument "lt" (FloatValue "7.5");
                                 mkArgument "op" (EnumValue "or")] None;
                    Field "name" [mkArgument "eq" (StringValue "x")] None])]) [] []))
    NUndefined None
  = getFilterObject_v1 2
      (Some (mkInfo (Some [Field "users" []
               (Some [Field "age" [mkArgument "gt" (IntValue "5");
                                   mkArgument "lt" (FloatValue "7.5");
                                   mkArgument "op" (EnumValue "or")] None;
                      Field "name" [mkArgument "eq" (StringValue "x")] None])]) [] []))
      NUndefined.
Proof.
  apply (X6_filter_compilers_agree_on_flat_literal_selections
           (mkInfo (Some [Field "users" []
             (Some [Field "age" [mkArgument "gt" (IntValue "5");
                                 mkArgument "lt" (FloatValue "7.5");
                                 mkArgument "op" (EnumValue "or")] None;
                    Field "name" [mkArgument "eq" (StringValue "x")] None])]) [] [])
           2 NUndefined); reflexivity.
Defined.

Lemma filters_of_v1_nil (args : list Argument) :
  filters_of_v1 args = [] <-> filter (fun it => is_comparison it = true) args = [].
Proof.
  unfold filters_of_v1.
  destruct (filter (fun it => is_comparison it = true) args); simpl; split; congruence.
Qed.

Lemma filter_v1_reduce_keeps self info (l : list Selection) (b out : props) (k : string) :
  reduceM (filter_step_v1 self info) l b = Ok out ->
  is_Some (obj_get k b) -> is_Some (obj_get k out).
Proof.
  intros H. revert k.
  apply (reduceM_invariant (fun acc => forall k, is_Some (obj_get k b) ->
                                                 is_Some (obj_get k acc)) _ _ _ _)
    with (3 := H); [|auto].
  intros acc x acc' _ Hacc Hstep k Hk. specialize (Hacc k Hk).
  destruct x as [name args ss|ss|name|kind name]; simpl in Hstep; try discriminate.
  - destruct (self (NNode ss)); simpl in Hstep; try discriminate.
    injection Hstep as <-. do 2 apply obj_assign_keeps. apply obj_assign_has, Hacc.
  - destruct (self _); simpl in Hstep; try discriminate.
    injection Hstep as <-. apply obj_assign_keeps. apply obj_assign_has, Hacc.
  - destruct (self _); simpl in Hstep; try discriminate.
    injection Hstep as <-. apply obj_assign_keeps. apply obj_assign_has, Hacc.
Qed.

Lemma filter_v1_keys_sound (info : ResolveInfo) :
  forall fuel nodes out k,
    getFilterObject_v1 fuel (Some info) nodes = Ok out ->
    is_Some (obj_get k out) ->
    filter_name_v1 info (selections_of info nodes) k.
Proof.
  induction fuel as [|fuel IH]; intros nodes out k H; [discriminate|].
  simpl in H. revert k.
  apply (reduceM_invariant
           (fun acc => forall k, is_Some (obj_get k acc) ->
                                 filter_name_v1 info (selections_of info nodes) k)
           _ _ _ _) with (3 := H).
  - intros b x b' Hx Hb Hstep k Hk.
    destruct x as [name args ss|ss|name|kind name]; simpl in Hstep; try discriminate.
    + destruct (getFilterObject_v1 fuel (Some info) (NNode ss)) as [sub| |] eqn:E;
        simpl in Hstep; try discriminate.
      injection Hstep as <-.
      apply obj_assign_key in Hk as [Hk|Hk].
      * apply obj_assign_key in Hk as [Hk|Hk].
        -- apply obj_assign_key in Hk as [[v Hv]|Hk]; [discriminate|]. apply Hb, Hk.
        -- eapply fn_below; [exact Hx|]. apply (IH _ _ _ E Hk).
      * apply config_of_key in Hk as [-> Hne].
        eapply fn_here; [exact Hx|].
        intros Hnil. apply Hne. apply filters_of_v1_nil, Hnil.
    + destruct (getFilterObject_v1 fuel (Some info) (NNode (Some ss))) as [sub| |] eqn:E;
        simpl in Hstep; try discriminate.
      injection Hstep as <-.
      apply obj_assign_key in Hk as [Hk|Hk].
      * apply obj_assign_key in Hk as [[v Hv]|Hk]; [discriminate|]. apply Hb, Hk.
      * eapply fn_inline; [exact Hx|]. apply (IH _ _ _ E Hk).
    + destruct (getFilterObject_v1 fuel (Some info) (fragment_node info name))
        as [sub| |] eqn:E; simpl in Hstep; try discriminate.
      injection Hstep as <-.
      apply obj_assign_key in Hk as [Hk|Hk].
      * apply obj_assign_key in Hk as [[v Hv]|Hk]; [discriminate|]. apply Hb, Hk.
      * eapply fn_spread; [exact Hx|]. apply (IH _ _ _ E Hk).
  - intros k [v Hv]. discriminate.
Qed.

Lemma filter_v1_keys_complete (info : ResolveInfo) (sels : list Selection) (k : string) :
  filter_name_v1 info sels k ->
  forall fuel nodes out,
    selections_of info nodes = sels ->
    getFilterObject_v1 fuel (Some info) nodes = Ok out ->
    is_Some (obj_get k out).
Proof.
  induction 1 as [sels name args ss Hin Hne
                 |sels name args ss k Hin Hpath IH
                 |sels ss k Hin Hpath IH
                 |sels name k Hin Hpath IH];
    intros fuel nodes out Hsel H; (destruct fuel as [|fuel]; [discriminate|]);
    simpl in H; rewrite Hsel in H;
    destruct (reduceM_split _ _ _ _ _ H Hin) as [l1 [l2 [b [b' [_ [_ [Hstep Hrest]]]]]]];
    apply (filter_v1_reduce_keeps _ _ _ _ _ _ Hrest); simpl in Hstep.
  - destruct (getFilterObject_v1 fuel (Some info) (NNode ss)) as [sub| |];
      simpl in Hstep; try discriminate.
    injection Hstep as <-. apply obj_assign_has.
    assert (Hc : filters_of_v1 args <> []).
    { intros Hnil. apply Hne. apply filters_of_v1_nil, Hnil. }
    destruct (filters_of_v1 args) as [|c1 [|c2 cs]]; [congruence| |]; simpl;
      rewrite String.eqb_refl; eauto.
  - destruct (getFilterObject_v1 fuel (Some info) (NNode ss)) as [sub| |] eqn:E;
      simpl in Hstep; try discriminate.
    injection Hstep as <-. apply obj_assign_keeps, obj_assign_has.
    apply (IH _ _ _ eq_refl E).
  - destruct (getFilterObject_v1 fuel (Some info) (NNode (Some ss))) as [sub| |] eqn:E;
      simpl in Hstep; try discriminate.
    injection Hstep as <-. apply obj_assign_has.
    apply (IH _ (NNode (Some ss)) _ eq_refl E).
  - destruct (getFilterObject_v1 fuel (Some info) (fragment_node info name))
      as [sub| |] eqn:E; simpl in Hstep; try discriminate.
    injection Hstep as <-. apply obj_assign_has.
    apply (IH _ _ _ eq_refl E).
Qed.

(** X7. The keys of the object the earlier [getFilterObject] returns are
    exactly the bare names of the fields with a comparison argument that
    its traversal meets, at any depth, below inline fragments and spread
    fragments too: no path, so that two fields of the same name at
    different places share one key. *)
Theorem X7_earlier_filter_keys_are_bare_field_names :
  forall info fuel nodes out k,
    getFilterObject_v1 fuel (Some info) nodes = Ok out ->
    (is_Some (obj_get k out) <-> filter_name_v1 info (selections_of info nodes) k).
Proof.
  intros info fuel nodes out k H. split.
  - apply (filter_v1_keys_sound info fuel nodes out k H).
  - intros Hp. apply (filter_v1_keys_complete info _ _ Hp fuel nodes out eq_refl H).
Qed.

Lemma X7_witness :
  is_Some (obj_get "b" [("b", VObj [("$lt", VNum (NInt 9))])]) <->
  filter_name_v1
    (mkInfo (Some [Field "users" []
               (Some [Field "a" [] (Some [Field "b" [mkArgument "gt" (IntValue "5")] None]);
                      InlineFragment [Field "b" [mkArgument "lt" (IntValue "9")] None]])])
            [] [])
    [Field "a" [] (Some [Field "b" [mkArgument "gt" (IntValue "5")] None]);
     InlineFragment [Field "b" [mkArgument "lt" (IntValue "9")] None]]
    "b".
Proof.
  apply (X7_earlier_filter_keys_are_bare_field_names
           (mkInfo (Some [Field "users" []
               (Some [Field "a" [] (Some [Field "b" [mkArgument "gt" (IntValue "5")] None]);
                      InlineFragment [Field "b" [mkArgument "lt" (IntValue "9")] None]])])
            [] [])
           3 NUndefined [("b", VObj [("$lt", VNum (NInt 9))])] "b").
  reflexivity.
Defined.

(** ** The earlier getSortObject *)

Lemma find_arg_name (n : string) (args : list Argument) (it : Argument) :
  find_arg n args = Some it -> it.(arg_name) = n.
Proof.
  induction args as [|a args IH]; simpl; [discriminate|].
  destruct (String.eqb (arg_name a) n) eqn:E; [|exact IH].
  intros [= <-]. apply String.eqb_eq, E.
Qed.

Lemma sort_values_values (m : list (string * option number)) (x : sort_item) :
  In x (map snd (sort_values m)) -> forall e, x <> IEntry e.
Proof.
  unfold sort_values. rewrite map_map. simpl. rewrite in_map_iff.
  intros [[k [n|]] [<- _]] e; discriminate.
Qed.

Lemma sorts_v1_keys (l : list sort_item) (init m : list (string * option number))
    (k : string) :
  reduceM sorts_step_v1 l init = Ok m -> is_Some (obj_get k m) ->
  is_Some (obj_get k init) \/ k = "undefined" \/ exists e, In (IEntry e) l /\ e.(se_name) = k.
Proof.
  revert init. induction l as [|it l IH]; intros init H Hk; simpl in H.
  - injection H as <-. auto.
  - destruct (sorts_step_v1 init it) as [b| |] eqn:E; simpl in H; try discriminate.
    destruct (IH _ H Hk) as [Hb|[Hb|[e [Hin He]]]];
      [|auto|right; right; exists e; split; [right|]; auto].
    destruct it as [e|n|]; simpl in E; try discriminate; injection E as <-.
    + apply obj_set_key in Hb as [->|Hb]; [right; right; exists e; split; [left|]; auto|].
      apply obj_assign_key in Hb as [[v Hv]|Hb]; [discriminate | auto].
    + apply obj_set_key in Hb as [->|Hb]; [auto|].
      apply obj_assign_key in Hb as [[v Hv]|Hb]; [discriminate | auto].
Qed.

Lemma sort_v1_entries (mode : SpreadMode) (info : ResolveInfo) (fuel : nat)
    (nodes : NodeArg) (fieldArr : sort_acc) (e : SortEntry) :
  reduceM (sort_step_v1 (getSortObject_v1 mode fuel (Some info)) mode info)
          (selections_of info nodes) (AccArray []) = Ok fieldArr ->
  In (IEntry e) (collection_values fieldArr) -> e.(se_name) = "sort".
Proof.
  intros Hred. revert e.
  apply (reduceM_invariant
           (fun acc => forall e, In (IEntry e) (collection_values acc) -> e.(se_name) = "sort")
           _ _ _ _) with (3 := Hred).
  - intros b x b' Hx Hb Hstep e Hin.
    assert (Hspread : forall l1 sub l2,
              spread_array mode b = Ok l1 ->
              spread_array mode (AccObject (sort_values sub)) = Ok l2 ->
              In (IEntry e) (l1 ++ l2) -> e.(se_name) = "sort").
    { intros l1 sub l2 E1 E2 Hin'. rewrite in_app_iff in Hin'. destruct Hin' as [Hin'|Hin'].
      - destruct (spread_array_items _ _ _ _ E1 Hin') as [?|Hin'']; [discriminate|].
        apply Hb, Hin''.
      - destruct (spread_array_items _ _ _ _ E2 Hin') as [?|Hin'']; [discriminate|].
        exfalso. apply (sort_values_values _ _ Hin'' e eq_refl). }
    destruct x as [name args ss|ss|name|kind name]; simpl in Hstep; try discriminate.
    + destruct (find_arg "sort" args) as [it|] eqn:Hsort.
      * destruct (spread_array mode b) as [l1| |] eqn:E1; simpl in Hstep; try discriminate.
        destruct (getSortObject_v1 mode fuel (Some info) (NNode ss)) as [sub| |];
          simpl in Hstep; try discriminate.
        destruct (spread_array mode (AccObject _)) as [l2| |] eqn:E2; simpl in Hstep;
          try discriminate.
        injection Hstep as <-. simpl in Hin.
        rewrite app_assoc, in_app_iff in Hin. destruct Hin as [Hin|[Hin|[]]].
        -- apply (Hspread _ _ _ eq_refl E2 Hin).
        -- injection Hin as <-. apply (find_arg_name _ _ _ Hsort).
      * destruct (getSortObject_v1 mode fuel (Some info) (NNode ss)) as [sub| |];
          simpl in Hstep; try discriminate.
        injection Hstep as <-. simpl in Hin.
        apply obj_assign_values in Hin as [Hin|Hin].
        -- apply obj_assign_values in Hin as [[]|Hin].
           rewrite own_props_values in Hin. apply Hb, Hin.
        -- exfalso. apply (sort_values_values _ _ Hin e eq_refl).
    + destruct (spread_array mode b) as [l1| |] eqn:E1; simpl in Hstep; try discriminate.
      destruct (getSortObject_v1 mode fuel (Some info) _) as [sub| |];
        simpl in Hstep; try discriminate.
      destruct (spread_array mode (AccObject _)) as [l2| |] eqn:E2; simpl in Hstep;
        try discriminate.
      injection Hstep as <-. apply (Hspread _ _ _ eq_refl E2 Hin).
    + destruct (spread_array mode b) as [l1| |] eqn:E1; simpl in Hstep; try discriminate.
      destruct (getSortObject_v1 mode fuel (Some info) _) as [sub| |];
        simpl in Hstep; try discriminate.
      destruct (spread_array mode (AccObject _)) as [l2| |] eqn:E2; simpl in Hstep;
        try discriminate.
      injection Hstep as <-. apply (Hspread _ _ _ eq_refl E2 Hin).
  - intros e [].
Qed.

(** X8. The earlier [getSortObject] names an entry after the argument it
    found, which is always [sort], not after the field: whatever the
    selection and the spread, the only keys its result can hold are
    ["sort"] and ["undefined"], so that it never records which field to
    sort by. *)
Theorem X8_earlier_sort_never_records_a_field :
  forall mode info fuel nodes m k,
    getSortObject_v1 mode fuel (Some info) nodes = Ok m ->
    is_Some (obj_get k m) ->
    k = "sort" \/ k = "undefined".
Proof.
  intros mode info fuel nodes m k H Hk.
  destruct fuel as [|fuel]; [discriminate|]. simpl in H.
  destruct (reduceM _ (selections_of info nodes) _) as [fieldArr| |] eqn:Hred;
    simpl in H; try discriminate.
  destruct (sorts_v1_keys _ _ _ _ H Hk) as [[v Hv]|[->|[e [Hin <-]]]];
    [discriminate | auto |].
  left. apply orderBy_items in Hin.
  apply (sort_v1_entries _ _ _ _ _ _ Hred Hin).
Qed.

Lemma X8_witness : "sort" = "sort" \/ "sort" = "undefined".
Proof.
  apply (X8_earlier_sort_never_records_a_field ArrayFromSpread
           (mkInfo (Some [Field "users" []
              (Some [Field "age" [mkArgument "sort" (IntValue "-1")] None;
                     Field "name" [mkArgument "sort" (IntValue "1")] None])]) [] [])
           2 NUndefined [("sort", Some (NInt 1))] "sort"); [reflexivity | eauto].
Defined.

(** ** addHooks: where a failure comes from *)

Section HookFailures.

Context {S hooks : Type}.
Variable compose : hooks -> list value -> async S value.
Implicit Types (resolver : list value -> async S value) (pre post : hooks).

(** X9. The composed resolver fails exactly when the pre chain fails, or
    the pre chain succeeds and the resolver fails, or both succeed and the
    post chain fails; it fails with the reason of that stage and in the
    state that stage left, and nothing runs after it. What the pre chain
    returns is dropped: the resolver gets the original arguments. This
    holds for every behaviour of [compose]. *)
Theorem X9_addHooks_fails_exactly_when_a_stage_fails resolver pre post args s reason s' :
  addHooks compose resolver pre post args s = Rejected reason s' <->
  compose pre args s = Rejected reason s' \/
  (exists x s1,
     compose pre args s = Fulfilled x s1 /\ resolver args s1 = Rejected reason s') \/
  (exists x s1 result s2,
     compose pre args s = Fulfilled x s1 /\ resolver args s1 = Fulfilled result s2 /\
     compose post (result :: args) s2 = Rejected reason s').
Proof.
  unfold addHooks, await, resolved. split.
  - intros H.
    destruct (compose pre args s) as [x s1|r s1] eqn:Hpre; [|left; exact H].
    destruct (resolver args s1) as [result s2|r s2] eqn:Hres;
      [|right; left; exists x, s1; rewrite Hres; auto].
    destruct (compose post (result :: args) s2) as [chained s3|r s3] eqn:Hpost;
      [discriminate|].
    right; right. exists x, s1, result, s2. rewrite Hres, Hpost. auto.
  - intros [H|[[x [s1 [Hpre Hres]]]|[x [s1 [result [s2 [Hpre [Hres Hpost]]]]]]]].
    + rewrite H. reflexivity.
    + rewrite Hpre, Hres. reflexivity.
    + rewrite Hpre, Hres, Hpost. reflexivity.
Qed.

End HookFailures.

(** ** createInputObject *)

Lemma GraphQLType_nested_ind (P : GraphQLType -> Prop) :
  (forall name, P (GraphQLScalarType name)) ->
  (forall name values, P (GraphQLEnumType name values)) ->
  (forall name fields, Forall (fun f => P f.2) fields -> P (GraphQLObjectType name fields)) ->
  (forall name fields, Forall (fun f => P f.2) fields ->
                       P (GraphQLInputObjectType name fields)) ->
  (forall ofType, P ofType -> P (GraphQLList ofType)) ->
  (forall ofType, P ofType -> P (GraphQLNonNull ofType)) ->
  forall t, P t.
Proof.
  intros Hs He Ho Hi Hl Hn. fix IH 1. intros [n|n vs|n fields|n fields|t|t].
  - apply Hs.
  - apply He.
  - apply Ho. induction fields as [|[k f] fields IHf];
      [constructor | constructor; [apply IH | exact IHf]].
  - apply Hi. induction fields as [|[k f] fields IHf];
      [constructor | constructor; [apply IH | exact IHf]].
  - apply Hl, IH.
  - apply Hn, IH.
Qed.

Lemma mirror_fields_eq (fields : list (string * GraphQLType)) :
  forall inputs memo,
    (fix each (fields : list (string * GraphQLType))
         (inputs : list (string * GraphQLType))
         (memo : gmap string GraphQLType) :=
       match fields with
       | [] => Ok (inputs, memo)
       | (fname, ftype) :: rest =>
           r ← input_mirror
                 (match ftype with GraphQLNonNull t' => t' | _ => ftype end) memo;
           each rest (obj_set fname r.1 inputs) r.2
       end) fields inputs memo
    = mirror_fields fields inputs memo.
Proof.
  induction fields as [|[k f] fields IHf]; intros inputs memo; [reflexivity|].
  cbn -[input_mirror obj_set]. unfold unwrap_nonNull.
  destruct (input_mirror (match f with GraphQLNonNull t' => t' | _ => f end) memo)
    as [r| |]; [apply IHf | reflexivity | reflexivity].
Qed.

Lemma input_mirror_object (name : string) (fields : list (string * GraphQLType))
    (memo : gmap string GraphQLType) :
  input_mirror (GraphQLObjectType name fields) memo
  = match memo !! name with
    | Some t => Ok (t, memo)
    | None =>
        r ← mirror_fields fields [] memo;
        Ok (GraphQLInputObjectType ("inputFor" +:+ name) r.1,
            <[name := GraphQLInputObjectType ("inputFor" +:+ name) r.1]> r.2)
    end.
Proof.
  cbn [input_mirror type_name]. destruct (memo !! name); [reflexivity|].
  rewrite mirror_fields_eq. reflexivity.
Qed.

Lemma mirrorable_object (name : string) (fields : list (string * GraphQLType)) :
  mirrorable (GraphQLObjectType name fields)
  = forallb (fun f => mirrorable (unwrap_nonNull f.2)) fields.
Proof.
  cbn [mirrorable]. induction fields as [|[k f] fields IHf]; [reflexivity|].
  cbn [forallb snd]. rewrite <- IHf. reflexivity.
Qed.

(** What a successful mirror of [t] under the table [memo] looks like. *)
Lemma input_mirror_returns :
  forall t,
    mirrorable t = true ->
    forall memo,
      map_Forall (fun _ x => is_input x = true) memo ->
      exists r memo',
        input_mirror t memo = Ok (r, memo') /\
        is_input r = true /\
        map_Forall (fun _ x => is_input x = true) memo' /\
        (forall name fields,
           t = GraphQLObjectType name fields -> memo !! name = None ->
           exists inputs,
             r = GraphQLInputObjectType ("inputFor" +:+ name) inputs /\
             forall k, is_Some (obj_get k inputs) <-> is_Some (obj_get k fields)).
Proof.
  intros t.
  cut ((mirrorable t = true ->
        forall memo,
          map_Forall (fun _ x => is_input x = true) memo ->
          exists r memo',
            input_mirror t memo = Ok (r, memo') /\
            is_input r = true /\
            map_Forall (fun _ x => is_input x = true) memo' /\
            (forall name fields,
               t = GraphQLObjectType name fields -> memo !! name = None ->
               exists inputs,
                 r = GraphQLInputObjectType ("inputFor" +:+ name) inputs /\
                 forall k, is_Some (obj_get k inputs) <-> is_Some (obj_get k fields))) /\
       (mirrorable (unwrap_nonNull t) = true ->
        forall memo,
          map_Forall (fun _ x => is_input x = true) memo ->
          exists r memo',
            input_mirror (unwrap_nonNull t) memo = Ok (r, memo') /\
            is_input r = true /\
            map_Forall (fun _ x => is_input x = true) memo')).
  { intros [H _]. exact H. }
  induction t as [n|n vs|n fields IHf|n fields IHf|t IHt|t IHt] using GraphQLType_nested_ind.
  - split; intros _ memo Hmemo; exists (GraphQLScalarType n), memo;
      repeat split; auto; intros; discriminate.
  - split; intros H; discriminate.
  - assert (Hobj : mirrorable (GraphQLObjectType n fields) = true ->
            forall memo,
              map_Forall (fun _ x => is_input x = true) memo ->
              exists r memo',
                input_mirror (GraphQLObjectType n fields) memo = Ok (r, memo') /\
                is_input r = true /\
                map_Forall (fun _ x => is_input x = true) memo' /\
                (forall name fields0,
                   GraphQLObjectType n fields = GraphQLObjectType name fields0 ->
                   memo !! name = None ->
                   exists inputs,
                     r = GraphQLInputObjectType ("inputFor" +:+ name) inputs /\
                     forall k, is_Some (obj_get k inputs) <-> is_Some (obj_get k fields0))).
    { rewrite mirrorable_object. intros Hm memo Hmemo.
      rewrite input_mirror_object.
      destruct (memo !! n) as [t|] eqn:En.
      { exists t, memo. repeat split; auto.
        - apply (Hmemo _ _ En).
        - intros name fields0 [= <- <-] Hnone. congruence. }
      assert (Hloop : forall inputs memo0,
                map_Forall (fun _ x => is_input x = true) memo0 ->
                exists inputs' memo',
                  mirror_fields fields inputs memo0 = Ok (inputs', memo') /\
                  map_Forall (fun _ x => is_input x = true) memo' /\
                  forall k, is_Some (obj_get k inputs') <->
                            is_Some (obj_get k inputs) \/ is_Some (obj_get k fields)).
      { clear En Hmemo memo.
        induction fields as [|[k f] fields IHl]; intros inputs memo0 Hmemo0.
        - exists inputs, memo0. repeat split; auto.
          intros [H|[v Hv]]; [exact H | discriminate].
        - apply Forall_cons in IHf as [[_ Hf] IHf].
          cbn [forallb] in Hm. apply andb_true_iff in Hm as [Hmf Hm].
          destruct (Hf Hmf memo0 Hmemo0) as [r [memo1 [Hr [_ Hmemo1]]]].
          destruct (IHl IHf Hm (obj_set k r inputs) memo1 Hmemo1)
            as [inputs' [memo' [Hrest [Hmemo' Hkeys]]]].
          exists inputs', memo'. split; [|split; [exact Hmemo'|]].
          + cbn [mirror_fields]. cbn [snd] in Hr. rewrite Hr. exact Hrest.
          + intros k0. rewrite Hkeys. cbn [obj_get].
            destruct (String.eqb k k0) eqn:E.
            * apply String.eqb_eq in E as ->. split; [eauto|].
              intros _. left. rewrite obj_get_set_eq. eauto.
            * apply String.eqb_neq in E. rewrite obj_get_set_ne by exact E. tauto. }
      destruct (Hloop [] memo Hmemo) as [inputs' [memo' [Hrun [Hmemo' Hkeys]]]].
      rewrite Hrun. cbn.
      eexists; eexists. split; [reflexivity|]. split; [reflexivity|]. split.
      - apply map_Forall_insert_2; [reflexivity | exact Hmemo'].
      - intros name fields0 [= <- <-] _. exists inputs'. split; [reflexivity|].
        intros k0. rewrite Hkeys. split; [intros [[v Hv]|H]; [discriminate | exact H] | auto]. }
    split; [exact Hobj|].
    intros Hm memo Hmemo. destruct (Hobj Hm memo Hmemo) as [r [memo' [H1 [H2 [H3 _]]]]].
    exists r, memo'. auto.
  - split; intros _ memo Hmemo; exists (GraphQLInputObjectType n fields), memo;
      repeat split; auto; intros; discriminate.
  - split; intros H; discriminate.
  - split; [intros H; discriminate|].
    destruct IHt as [IHt _]. cbn [unwrap_nonNull]. intros Hm memo Hmemo.
    destruct (IHt Hm memo Hmemo) as [r [memo' [H1 [H2 [H3 _]]]]].
    exists r, memo'. auto.
Qed.



(** ** The type context *)

Lemma bindT_inv {A B : Type} (m : TypeM A) (k : A -> TypeM B) (st : TypeState)
    (b : B) (st' : TypeState) :
  (m ≫= k) st = Ok (b, st') ->
  exists a st1, m st = Ok (a, st1) /\ k a st1 = Ok (b, st').
Proof.
  unfold mbind, TypeM_bind. destruct (m st) as [[a st1]| |]; try discriminate.
  intros H. exists a, st1. auto.
Qed.

Lemma retT_inv {A : Type} (a b : A) (st st' : TypeState) :
  (mret a : TypeM A) st = Ok (b, st') -> b = a /\ st' = st.
Proof. intros [= <- <-]. auto. Qed.

Lemma getTypes_model_entry (nodeInterface : nat) (types : list (string * nat))
    (reResolveTypes : list string) (model : Model) (st : TypeState)
    (types' : list (string * nat)) (reResolveTypes' : list string) (st' : TypeState) :
  getTypes_model nodeInterface (types, reResolveTypes) model st
  = Ok ((types', reResolveTypes'), st') ->
  exists ref, types' = obj_set model.(m_name) ref types.
Proof.
  unfold getTypes_model. intros H.
  apply bindT_inv in H as [c [st1 [_ H]]].
  apply bindT_inv in H as [r [st2 [_ H]]].
  apply retT_inv in H as [[= -> ->] _]. eauto.
Qed.

Lemma reduceT_model_keys (nodeInterface : nat) (models : list Model) :
  forall acc st r st',
    reduceT (getTypes_model nodeInterface) models acc st = Ok (r, st') ->
    forall k, is_Some (obj_get k r.1) <->
              is_Some (obj_get k acc.1) \/ exists m, In m models /\ m.(m_name) = k.
Proof.
  induction models as [|model models IH]; intros acc st r st' H k.
  - apply retT_inv in H as [-> _]. split; [auto | intros [H|[m [[] _]]]; exact H].
  - cbn [reduceT] in H. apply bindT_inv in H as [[types1 rr1] [st1 [Hstep H]]].
    destruct acc as [types0 rr0].
    apply getTypes_model_entry in Hstep as [ref ->].
    rewrite (IH _ _ _ _ H k). cbn [fst]. split.
    + intros [Hk|[m [Hin Hm]]]; [|right; exists m; split; [right|]; auto].
      apply obj_set_key in Hk as [->|Hk]; [right; exists model; split; [left|]; auto | auto].
    + intros [Hk|[m [[<-|Hin] Hm]]].
      * left. apply obj_set_keeps, Hk.
      * left. subst k. rewrite obj_get_set_eq. eauto.
      * right. exists m. auto.
Qed.


Lemma types_kept_refl (h : list cell) : types_kept h h.
Proof. intros a [n i f e] H. exists e. exact H. Qed.

Lemma types_kept_trans (h1 h2 h3 : list cell) :
  types_kept h1 h2 -> types_kept h2 h3 -> types_kept h1 h3.
Proof.
  intros H12 H23 a o H. destruct (H12 a o H) as [e He].
  destruct (H23 a _ He) as [e' He']. exists e'. exact He'.
Qed.

Lemma cells_kept_refl (h : list cell) : cells_kept h h.
Proof. intros a [[n i f e]|m|f] H; [exists e|..]; exact H. Qed.

Lemma cells_kept_trans (h1 h2 h3 : list cell) :
  cells_kept h1 h2 -> cells_kept h2 h3 -> cells_kept h1 h3.
Proof.
  intros H12 H23 a c H. specialize (H12 a c H). destruct c as [o|m|f].
  - destruct H12 as [e He]. apply (H23 a _ He).
  - apply (H23 a _ H12).
  - apply (H23 a _ H12).
Qed.

Lemma cells_kept_types_kept (h h' : list cell) : cells_kept h h' -> types_kept h h'.
Proof. intros H a o Ha. apply (H a _ Ha). Qed.

Lemma cells_kept_app (h l : list cell) : cells_kept h (h ++ l).
Proof.
  intros a c H. apply (lookup_app_l_Some _ l) in H.
  destruct c as [[n i f e]|m|f]; [exists e|..]; exact H.
Qed.

Lemma cells_kept_mark (h : list cell) (a : nat) (o : TypeObject) (e : bool) :
  h !! a = Some (CType o) ->
  cells_kept h (<[a := CType (mkTypeObject o.(t_name) o.(t_interfaces) o.(t_fields) e)]> h).
Proof.
  intros Ha b c H. destruct (decide (a = b)) as [->|Hne].
  - rewrite Ha in H. injection H as <-. exists e.
    apply list_lookup_insert_eq. apply lookup_lt_Some in Ha. exact Ha.
  - rewrite list_lookup_insert_ne by exact Hne.
    destruct c as [[n i f e']|m|f]; [exists e'|..]; exact H.
Qed.

Lemma cache_grows_refl (c : option (list (string * nat))) : cache_grows c c.
Proof. destruct c; simpl; auto. Qed.

Lemma cache_grows_trans (c1 c2 c3 : option (list (string * nat))) :
  cache_grows c1 c2 -> cache_grows c2 c3 -> cache_grows c1 c3.
Proof.
  destruct c1, c2, c3; simpl; try tauto. intros H12 H23 k ref H. auto.
Qed.

Lemma field_step_refl (st : TypeState) : field_step st st.
Proof. repeat split. apply cells_kept_refl. Qed.

Lemma field_step_trans (st1 st2 st3 : TypeState) :
  field_step st1 st2 -> field_step st2 st3 -> field_step st1 st3.
Proof.
  intros [Hc [Ht Hs]] [Hc' [Ht' Hs']]. split; [congruence|]. split; [congruence|].
  apply (cells_kept_trans _ _ _ Hs Hs').
Qed.

Lemma types_step_refl (st : TypeState) : types_step st st.
Proof. split; [apply cache_grows_refl | apply types_kept_refl]. Qed.

Lemma types_step_trans (st1 st2 st3 : TypeState) :
  types_step st1 st2 -> types_step st2 st3 -> types_step st1 st3.
Proof.
  intros [Hc Hs] [Hc' Hs']. split.
  - apply (cache_grows_trans _ _ _ Hc Hc').
  - apply (types_kept_trans _ _ _ Hs Hs').
Qed.

Lemma field_step_types_step (st st' : TypeState) : field_step st st' -> types_step st st'.
Proof.
  intros [Hc [_ Hs]]. split; [rewrite Hc; apply cache_grows_refl|].
  apply cells_kept_types_kept, Hs.
Qed.

Section Keeps.

Variable R : TypeState -> TypeState -> Prop.
Hypothesis R_refl : forall st, R st st.
Hypothesis R_trans : forall st1 st2 st3, R st1 st2 -> R st2 st3 -> R st1 st3.

Lemma keeps_ret {A : Type} (a : A) : keeps R (mret a).
Proof. intros st b st' H. apply retT_inv in H as [_ ->]. apply R_refl. Qed.

Lemma keeps_throw {A : Type} (e : exn) : keeps R (throwM e : TypeM A).
Proof. intros st b st' H. discriminate. Qed.

Lemma keeps_getsM {A : Type} (f : TypeState -> A) : keeps R (getsM f).
Proof. intros st b st' [= _ <-]. apply R_refl. Qed.

Lemma keeps_bind {A B : Type} (m : TypeM A) (k : A -> TypeM B) :
  keeps R m -> (forall a, keeps R (k a)) -> keeps R (m ≫= k).
Proof.
  intros Hm Hk st b st' H. apply bindT_inv in H as [a [st1 [H1 H2]]].
  apply (R_trans _ st1); [apply (Hm _ _ _ H1) | apply (Hk _ _ _ _ H2)].
Qed.

Lemma keeps_forEachM {A : Type} (f : A -> TypeM unit) (l : list A) :
  (forall x, In x l -> keeps R (f x)) -> keeps R (forEachM f l).
Proof.
  induction l as [|x l IH]; intros Hf; [apply keeps_ret|].
  cbn [forEachM]. apply keeps_bind; [apply Hf; left; reflexivity|].
  intros _. apply IH. intros y Hy. apply Hf. right; exact Hy.
Qed.

Lemma keeps_reduceT {A B : Type} (f : B -> A -> TypeM B) (l : list A) (init : B) :
  (forall b x, In x l -> keeps R (f b x)) -> keeps R (reduceT f l init).
Proof.
  revert init. induction l as [|x l IH]; intros init Hf; [apply keeps_ret|].
  cbn [reduceT]. apply keeps_bind; [apply Hf; left; reflexivity|].
  intros b. apply IH. intros b' y Hy. apply Hf. right; exact Hy.
Qed.

End Keeps.

Lemma keeps_impl {A : Type} (R R' : TypeState -> TypeState -> Prop) (m : TypeM A) :
  (forall st st', R st st' -> R' st st') -> keeps R m -> keeps R' m.
Proof. intros HR Hm st a st' H. apply HR, (Hm _ _ _ H). Qed.

Lemma keeps_alloc (c : cell) : keeps field_step (alloc c).
Proof.
  intros st a st' [= _ <-]. repeat split. apply cells_kept_app.
Qed.

Lemma keeps_add_slot (rootName key : string) (slot : nat) :
  keeps field_step (add_slot rootName key slot).
Proof.
  intros st a st' H. unfold add_slot in H.
  destruct (obj_get rootName (resolveReference st)); [|discriminate].
  injection H as _ <-. repeat split. apply cells_kept_refl.
Qed.

Lemma keeps_set_resolveReference f : keeps field_step (modifyM (set_resolveReference f)).
Proof. intros st a st' [= _ <-]. repeat split. apply cells_kept_refl. Qed.

Lemma keeps_mark_embedded (t : nat) :
  keeps field_step
    (o ← read_type t;
     _ ← modifyM (set_store (fun h =>
            <[t := CType (mkTypeObject o.(t_name) o.(t_interfaces) o.(t_fields) true)]> h));
     mret (TObject t)).
Proof.
  intros st a st' H. apply bindT_inv in H as [o [st1 [Hread H]]].
  apply bindT_inv in H as [u [st2 [Hmod H]]]. apply retT_inv in H as [_ ->].
  injection Hmod as _ <-. unfold read_type in Hread.
  destruct (store st !! t) as [[o'| |]|] eqn:E; try discriminate.
  injection Hread as <- <-.
  repeat split. cbn [store set_store].
  apply cells_kept_mark, E.
Qed.

Lemma FieldDescriptor_nested_ind (P : FieldDescriptor -> Prop) :
  (forall name type subtype reference nonNull hidden fields embeddedModel enumValues,
     Forall P fields ->
     (forall ename efields, embeddedModel = Some (ename, efields) -> Forall P efields) ->
     P (mkFieldDescriptor name type subtype reference nonNull hidden fields embeddedModel
          enumValues)) ->
  forall fd, P fd.
Proof.
  intros H. fix IH 1. intros [name type subtype reference nonNull hidden fields em ev].
  apply H.
  - induction fields as [|f fields IHf]; [constructor | constructor; [apply IH | exact IHf]].
  - destruct em as [[en ef]|]; [|discriminate].
    intros ename efields [= _ <-].
    induction ef as [|f ef IHf]; [constructor | constructor; [apply IH | exact IHf]].
Qed.

(** [getType_field] with the nested calls written as calls of [getType]. *)
Lemma getType_field_eq (nodeInterface : nat) (typeName : string) (path : list string)
    (rootName : string) name type subtype reference nonNull hidden subfields embeddedModel
    enumValues (graphQLFields : list (string * nat)) :
  getType_field nodeInterface typeName path rootName
    (mkFieldDescriptor name type subtype reference nonNull hidden subfields embeddedModel
       enumValues) graphQLFields
  = let newPath := path ++ [name] in
    if (hidden || String.prefix "__" name)%bool then mret graphQLFields
    else
      fieldType ←
        (if String.eqb type "Array" then
           if bool_decide (subtype = Some "Object") then
             t ← getType nodeInterface (getTypeFieldName typeName name) subfields newPath
                   (Some rootName);
             mret (TList (TObject t))
           else
             _ ← match truthy_string reference with
                 | Some r =>
                     slot ← alloc (CField (mkFieldObject name (TString r) true));
                     add_slot rootName name slot
                 | None => mret tt
                 end;
             mret (TList (stringToGraphQLType (default "undefined" subtype)))
         else if String.eqb type "Object" then
           t ← getType nodeInterface (getTypeFieldName typeName name) subfields newPath
                 (Some rootName);
           mret (TObject t)
         else if String.eqb type "Embedded" then
           registered ← getsM (fun st => obj_get name st.(types));
           t ← (if String.eqb name "length"
                then throwM (TypeError "Cannot create property on number")
                else
                  match registered with
                  | Some t => mret t
                  | None =>
                      match embeddedModel with
                      | Some (ename, efields) =>
                          getType nodeInterface ename efields ["embedded"] None
                      | None => throwM (TypeError "Cannot destructure undefined")
                      end
                  end);
           o ← read_type t;
           _ ← modifyM (set_store (fun h =>
                  <[t := CType (mkTypeObject o.(t_name) o.(t_interfaces) o.(t_fields) true)]> h));
           mret (TObject t)
         else
           match enumValues with
           | Some vs =>
               if String.eqb type "String"
               then mret (TEnum (getTypeFieldName typeName (name +:+ "Enum")) vs)
               else mret (stringToGraphQLType type)
           | None => mret (stringToGraphQLType type)
           end);
      _ ← match truthy_string reference with
          | Some r =>
              if bool_decide (fieldType = TScalar "ID") then
                slot ← alloc (CField (mkFieldObject name (TString r) false));
                add_slot rootName (join "." newPath) slot
              else mret tt
          | None => mret tt
          end;
      let fieldType' := if nonNull then TNonNull fieldType else fieldType in
      graphQLField ← alloc (CField (mkFieldObject name fieldType' false));
      mret (obj_set name graphQLField graphQLFields).
Proof. reflexivity. Qed.

Lemma getType_fields_each (nodeInterface : nat) (fields : list FieldDescriptor)
    (typeName : string) (path : list string) (rootName : string) :
  getType_fields nodeInterface fields typeName path rootName
  = getType_each nodeInterface typeName path rootName fields [].
Proof. reflexivity. Qed.

Lemma keeps_getType_fields (nodeInterface : nat) (fields : list FieldDescriptor)
    (typeName : string) (path : list string) (rootName : string) :
  Forall (fun fd => forall tn pa rn acc,
            keeps field_step (getType_field nodeInterface tn pa rn fd acc)) fields ->
  keeps field_step (getType_fields nodeInterface fields typeName path rootName).
Proof.
  rewrite getType_fields_each. generalize (@nil (string * nat)) as acc.
  induction fields as [|f fields IH]; intros acc HF.
  - apply (keeps_ret _ field_step_refl).
  - apply Forall_cons in HF as [Hf HF]. cbn [getType_each].
    apply (keeps_bind _ field_step_trans); [apply Hf|].
    intros acc'. apply IH, HF.
Qed.

Lemma keeps_getType_nested (nodeInterface : nat) (name : string)
    (fields : list FieldDescriptor) (path : list string) (rootType : option string) :
  path <> [] ->
  Forall (fun fd => forall tn pa rn acc,
            keeps field_step (getType_field nodeInterface tn pa rn fd acc)) fields ->
  keeps field_step (getType nodeInterface name fields path rootType).
Proof.
  intros Hpath HF. unfold getType, getType_body.
  rewrite bool_decide_eq_false_2 by exact Hpath.
  apply (keeps_bind _ field_step_trans); [apply keeps_set_resolveReference|]. intros _.
  apply (keeps_bind _ field_step_trans); [apply keeps_getType_fields, HF|]. intros m.
  apply (keeps_bind _ field_step_trans); [apply (keeps_ret _ field_step_refl)|]. intros m'.
  apply (keeps_bind _ field_step_trans); [apply keeps_alloc|]. intros fa.
  apply (keeps_bind _ field_step_trans); [apply keeps_alloc|]. intros d.
  apply (keeps_bind _ field_step_trans); [apply (keeps_ret _ field_step_refl)|]. intros _.
  apply (keeps_ret _ field_step_refl).
Qed.

Ltac keeps_field_step :=
  repeat first
    [ apply (keeps_ret _ field_step_refl)
    | apply keeps_throw
    | apply (keeps_getsM _ field_step_refl)
    | apply keeps_alloc
    | apply keeps_add_slot
    | apply keeps_mark_embedded
    | apply (keeps_bind _ field_step_trans); [|intros ?]
    | match goal with
      | |- keeps _ (if ?b then _ else _) => destruct b
      | |- keeps _ (match ?x with _ => _ end) => destruct x
      end ].

Lemma keeps_getType_field (nodeInterface : nat) :
  forall fd tn pa rn acc,
    keeps field_step (getType_field nodeInterface tn pa rn fd acc).
Proof.
  induction fd as [name type subtype reference nonNull hidden fields em ev IHf IHe]
    using FieldDescriptor_nested_ind.
  intros tn pa rn acc. rewrite getType_field_eq. cbv zeta.
  assert (Hpath : pa ++ [name] <> []) by (destruct pa; discriminate).
  assert (Hnested : forall n rt,
            keeps field_step (getType nodeInterface n fields (pa ++ [name]) rt)).
  { intros n rt. apply keeps_getType_nested; assumption. }
  assert (Hembedded : forall ename efields,
            em = Some (ename, efields) ->
            keeps field_step (getType nodeInterface ename efields ["embedded"] None)).
  { intros ename efields He. apply keeps_getType_nested; [discriminate|].
    apply (IHe _ _ He). }
  destruct (hidden || String.prefix "__" name)%bool; [apply (keeps_ret _ field_step_refl)|].
  apply (keeps_bind _ field_step_trans); [|intros fieldType; keeps_field_step].
  destruct (String.eqb type "Array"); [destruct (bool_decide (subtype = Some "Object"))|].
  - apply (keeps_bind _ field_step_trans); [apply Hnested|]. intros t.
    apply (keeps_ret _ field_step_refl).
  - keeps_field_step.
  - destruct (String.eqb type "Object").
    + apply (keeps_bind _ field_step_trans); [apply Hnested|]. intros t.
      apply (keeps_ret _ field_step_refl).
    + destruct (String.eqb type "Embedded"); [|keeps_field_step].
      apply (keeps_bind _ field_step_trans); [apply (keeps_getsM _ field_step_refl)|].
      intros registered.
      apply (keeps_bind _ field_step_trans); [|intros t; apply keeps_mark_embedded].
      destruct (String.eqb name "length"); [apply keeps_throw|].
      destruct registered as [t|]; [apply (keeps_ret _ field_step_refl)|].
      destruct em as [[ename efields]|]; [|apply keeps_throw].
      apply (Hembedded _ _ eq_refl).
Qed.

(** Any call of [getType] that is not a root call. *)
Lemma keeps_getType (nodeInterface : nat) (name : string) (fields : list FieldDescriptor)
    (path : list string) (rootType : option string) :
  path <> [] -> keeps field_step (getType nodeInterface name fields path rootType).
Proof.
  intros Hpath. apply keeps_getType_nested; [exact Hpath|].
  apply Forall_forall. intros fd _. apply keeps_getType_field.
Qed.

(** What a root call of [getType] does after the reduce over the fields. *)
Lemma getType_root_inv (nodeInterface : nat) (name : string) (fields : list FieldDescriptor)
    (st : TypeState) (ref : nat) (st' : TypeState) :
  getType nodeInterface name fields [] None st = Ok (ref, st') ->
  exists m st0 st1,
    field_step st st0 /\
    getType_each nodeInterface name [] name fields [] st0 = Ok (m, st1) /\
    ref = S (S (length st1.(store))) /\
    st'.(store) = st1.(store) ++
      [CField (mkFieldObject "id" (TNonNull (TScalar "ID")) false);
       CFieldMap (obj_set "id" (length st1.(store)) m);
       CType (mkTypeObject name (Some [nodeInterface]) (Some (S (length st1.(store)))) false)] /\
    st'.(cache) = st1.(cache) /\
    st'.(types) = obj_set name ref st1.(types).
Proof.
  unfold getType, getType_body. intros H.
  apply bindT_inv in H as [u [st0 [H0 H]]].
  apply bindT_inv in H as [m [st1 [Hm H]]].
  apply bindT_inv in H as [m' [st2 [Hm' H]]].
  apply bindT_inv in H as [fa [st3 [Hfa H]]].
  apply bindT_inv in H as [d [st4 [Hd H]]].
  apply bindT_inv in H as [u' [st5 [Hreg H]]].
  apply retT_inv in H as [-> ->].
  rewrite bool_decide_eq_true_2 in Hm', Hd, Hreg by reflexivity.
  apply bindT_inv in Hm' as [idf [st2' [Hid Hm']]]. apply retT_inv in Hm' as [-> ->].
  injection Hid as <- <-. injection Hfa as <- <-. injection Hd as <- <-.
  apply addType_inv in Hreg as [_ <-].
  exists m, st0, st1. split; [apply (keeps_set_resolveReference _ _ _ _ H0)|].
  split; [exact Hm|]. cbn [store cache types set_store set_types].
  rewrite !length_app. cbn [length].
  replace (length (store st1) + 1 + 1) with (S (S (length (store st1)))) by lia.
  replace (length (store st1) + 1) with (S (length (store st1))) by lia.
  rewrite <- !app_assoc. cbn [app]. auto.
Qed.

Lemma getType_field_key (nodeInterface : nat) (tn : string) (pa : list string) (rn : string)
    (fd : FieldDescriptor) (acc : list (string * nat)) (st : TypeState)
    (acc' : list (string * nat)) (st' : TypeState) :
  getType_field nodeInterface tn pa rn fd acc st = Ok (acc', st') ->
  if fd_visible fd
  then exists a f,
         acc' = obj_set (fd_name fd) a acc /\
         st'.(store) !! a = Some (CField f) /\ f.(f_name) = fd_name fd
  else acc' = acc.
Proof.
  destruct fd as [name type subtype reference nonNull hidden fields em ev].
  rewrite getType_field_eq. cbv zeta. cbn [fd_visible fd_name].
  destruct (hidden || String.prefix "__" name)%bool; cbn [negb]; intros H.
  - apply retT_inv in H as [-> _]. reflexivity.
  - apply bindT_inv in H as [fieldType [st1 [_ H]]].
    apply bindT_inv in H as [u [st2 [_ H]]].
    apply bindT_inv in H as [a [st3 [Ha H]]].
    apply retT_inv in H as [-> ->]. injection Ha as <- <-.
    eexists; eexists. split; [reflexivity|]. cbn [store set_store].
    split; [apply list_lookup_middle; reflexivity | reflexivity].
Qed.

Lemma getType_each_keys (nodeInterface : nat) (tn : string) (pa : list string) (rn : string)
    (fs : list FieldDescriptor) :
  forall acc st m st',
    getType_each nodeInterface tn pa rn fs acc st = Ok (m, st') ->
    forall k, is_Some (obj_get k m) <->
              is_Some (obj_get k acc) \/
              exists fd, In fd fs /\ fd_visible fd = true /\ fd_name fd = k.
Proof.
  induction fs as [|fd fs IH]; intros acc st m st' H k.
  - apply retT_inv in H as [-> _]. split; [auto | intros [H|[fd [[] _]]]; exact H].
  - cbn [getType_each] in H. apply bindT_inv in H as [acc1 [st1 [Hstep H]]].
    rewrite (IH _ _ _ _ H k). apply getType_field_key in Hstep.
    destruct (fd_visible fd) eqn:Hv.
    + destruct Hstep as [a [f [-> _]]]. split.
      * intros [Hk|[fd' [Hin Hfd]]]; [|right; exists fd'; split; [right|]; auto].
        apply obj_set_key in Hk as [->|Hk]; [right; exists fd; split; [left|]; auto | auto].
      * intros [Hk|[fd' [[<-|Hin] [Hv' Hn]]]].
        -- left. apply obj_set_keeps, Hk.
        -- left. rewrite Hn. rewrite obj_get_set_eq. eauto.
        -- right. exists fd'. auto.
    + subst acc1. split.
      * intros [Hk|[fd' [Hin Hfd]]]; [auto | right; exists fd'; split; [right|]; auto].
      * intros [Hk|[fd' [[<-|Hin] [Hv' Hn]]]]; [auto | congruence | right; exists fd'; auto].
Qed.

Lemma keeps_getType_each (nodeInterface : nat) (tn : string) (pa : list string) (rn : string)
    (fs : list FieldDescriptor) (acc : list (string * nat)) :
  keeps field_step (getType_each nodeInterface tn pa rn fs acc).
Proof.
  revert acc. induction fs as [|fd fs IH]; intros acc.
  - apply (keeps_ret _ field_step_refl).
  - cbn [getType_each]. apply (keeps_bind _ field_step_trans); [apply keeps_getType_field|].
    intros acc'. apply IH.
Qed.

(** X12. A root call of [getType] that returns gives a type object with
    the name of the model, the node interface of the context as its only
    interface and no embedded mark, registers it under that name, and
    gives it a field for [id] of type non-null ID and for every field of
    the model that is neither hidden nor named with two leading
    underscores, and no other field; the cache is not touched and every
    object the store held before is still there. *)
Theorem X12_getType_builds_the_root_type :
  forall nodeInterface name fields st ref st',
    getType nodeInterface name fields [] None st = Ok (ref, st') ->
    (exists fa m,
       st'.(store) !! ref
       = Some (CType (mkTypeObject name (Some [nodeInterface]) (Some fa) false)) /\
       st'.(store) !! fa = Some (CFieldMap m) /\
       forall k, is_Some (obj_get k m) <->
                 k = "id" \/ exists fd, In fd fields /\ fd_visible fd = true /\ fd_name fd = k) /\
    field_type st'.(store) ref "id" = Some (TNonNull (TScalar "ID")) /\
    obj_get name st'.(types) = Some ref /\
    st'.(cache) = st.(cache) /\
    cells_kept st.(store) st'.(store).
Proof.
  intros nodeInterface name fields st ref st' H.
  apply getType_root_inv in H
    as [m [st0 [st1 [H0 [Hm [Href [Hstore [Hcache Htypes]]]]]]]].
  pose proof (keeps_getType_each _ _ _ _ _ _ _ _ _ Hm) as H1.
  destruct (field_step_trans _ _ _ H0 H1) as [Hc [_ Hkept]].
  assert (Lref : st'.(store) !! ref
                 = Some (CType (mkTypeObject name (Some [nodeInterface])
                                  (Some (S (length st1.(store)))) false))).
  { rewrite Hstore, Href. rewrite lookup_app_r by lia.
    replace (S (S (length (store st1))) - length (store st1)) with 2 by lia. reflexivity. }
  assert (Lfa : st'.(store) !! S (length st1.(store))
                = Some (CFieldMap (obj_set "id" (length st1.(store)) m))).
  { rewrite Hstore. rewrite lookup_app_r by lia.
    replace (S (length (store st1)) - length (store st1)) with 1 by lia. reflexivity. }
  assert (Lid : st'.(store) !! length st1.(store)
                = Some (CField (mkFieldObject "id" (TNonNull (TScalar "ID")) false))).
  { rewrite Hstore. rewrite lookup_app_r by lia.
    replace (length (store st1) - length (store st1)) with 0 by lia. reflexivity. }
  split; [|split; [|split; [|split]]].
  - eexists; eexists. split; [exact Lref|]. split; [exact Lfa|].
    intros k. split.
    + intros Hk. apply obj_set_key in Hk as [->|Hk]; [auto|].
      apply (getType_each_keys _ _ _ _ _ _ _ _ _ Hm k) in Hk as [[v Hv]|Hk];
        [discriminate | auto].
    + intros [->|Hk]; [rewrite obj_get_set_eq; eauto|].
      apply obj_set_keeps. apply (getType_each_keys _ _ _ _ _ _ _ _ _ Hm k). auto.
  - unfold field_type. rewrite Lref. cbn [t_fields]. unfold parent_lookup.
    rewrite Lfa, obj_get_set_eq, Lid. reflexivity.
  - rewrite Htypes. apply obj_get_set_eq.
  - congruence.
  - apply (cells_kept_trans _ _ _ Hkept). rewrite Hstore. apply cells_kept_app.
Qed.

Lemma X12_witness :
  match getType 0 "User" user_model.(m_fields) [] None
          (createTypeContext 0 (mkTypeState [] (Some []) [] [])) with
  | Ok (ref, st') =>
      field_type st'.(store) ref "id" = Some (TNonNull (TScalar "ID")) /\
      obj_get "User" st'.(types) = Some ref /\
      st'.(cache) = Some []
  | _ => False
  end.
Proof.
  destruct (getType 0 "User" user_model.(m_fields) [] None
              (createTypeContext 0 (mkTypeState [] (Some []) [] [])))
    as [[ref st']| |] eqn:E.
  - destruct (X12_getType_builds_the_root_type _ _ _ _ _ _ E) as [_ [H1 [H2 [H3 _]]]].
    auto.
  - vm_compute in E. discriminate.
  - vm_compute in E. discriminate.
Defined.

Lemma getType_field_plain (nodeInterface : nat) (tn : string) (pa : list string) (rn : string)
    (fd : FieldDescriptor) (acc : list (string * nat)) (st : TypeState)
    (acc' : list (string * nat)) (st' : TypeState) (ty : gtype) :
  getType_field nodeInterface tn pa rn fd acc st = Ok (acc', st') ->
  fd_visible fd = true ->
  plain_type tn fd = Some ty ->
  exists a,
    acc' = obj_set (fd_name fd) a acc /\
    st'.(store) !! a = Some (CField (mkFieldObject (fd_name fd) ty false)).
Proof.
  destruct fd as [name type subtype reference nonNull hidden fields em ev].
  rewrite getType_field_eq. cbv zeta. cbn [fd_visible fd_name plain_type].
  intros H Hv Hp.
  destruct (hidden || String.prefix "__" name)%bool; [discriminate|].
  apply bindT_inv in H as [fieldType [st1 [Hty H]]].
  apply bindT_inv in H as [u [st2 [_ H]]].
  apply bindT_inv in H as [a [st3 [Ha H]]].
  apply retT_inv in H as [-> ->]. injection Ha as <- <-.
  exists (length (store st2)). split; [reflexivity|]. cbn [store set_store].
  rewrite list_lookup_middle by reflexivity. do 3 f_equal.
  destruct (String.eqb type "Array").
  - destruct (bool_decide (subtype = Some "Object")); [discriminate|].
    apply bindT_inv in Hty as [u' [st1' [_ Hty]]]. apply retT_inv in Hty as [-> _].
    congruence.
  - destruct (String.eqb type "Object"); [discriminate|].
    destruct (String.eqb type "Embedded"); [discriminate|].
    destruct ev as [vs|]; [destruct (String.eqb type "String")|];
      apply retT_inv in Hty as [-> _]; congruence.
Qed.

Lemma getType_each_other (nodeInterface : nat) (tn : string) (pa : list string) (rn : string)
    (fs : list FieldDescriptor) (k : string) :
  k ∉ map fd_name fs ->
  forall acc st m st',
    getType_each nodeInterface tn pa rn fs acc st = Ok (m, st') ->
    obj_get k m = obj_get k acc.
Proof.
  induction fs as [|fd fs IH]; intros Hk acc st m st' H.
  - apply retT_inv in H as [-> _]. reflexivity.
  - cbn [getType_each] in H. apply bindT_inv in H as [acc1 [st1 [Hstep H]]].
    cbn [map] in Hk. apply not_elem_of_cons in Hk as [Hne Hk].
    rewrite (IH Hk _ _ _ _ H). apply getType_field_key in Hstep.
    destruct (fd_visible fd); [|congruence].
    destruct Hstep as [a [f [-> _]]]. apply obj_get_set_ne. congruence.
Qed.

Lemma getType_each_plain (nodeInterface : nat) (tn : string) (pa : list string) (rn : string)
    (fs : list FieldDescriptor) :
  NoDup (map fd_name fs) ->
  forall acc st m st',
    getType_each nodeInterface tn pa rn fs acc st = Ok (m, st') ->
    forall fd ty,
      In fd fs -> fd_visible fd = true -> plain_type tn fd = Some ty ->
      exists a,
        obj_get (fd_name fd) m = Some a /\
        st'.(store) !! a = Some (CField (mkFieldObject (fd_name fd) ty false)).
Proof.
  induction fs as [|fd0 fs IH]; intros Hnd acc st m st' H fd ty Hin Hv Hp; [destruct Hin|].
  cbn [getType_each] in H. apply bindT_inv in H as [acc1 [st1 [Hstep H]]].
  cbn [map] in Hnd. apply NoDup_cons in Hnd as [Hfresh Hnd].
  destruct Hin as [->|Hin]; [|apply (IH Hnd _ _ _ _ H fd ty Hin Hv Hp)].
  destruct (getType_field_plain _ _ _ _ _ _ _ _ _ _ Hstep Hv Hp) as [a [-> Ha]].
  exists a. split.
  - rewrite (getType_each_other _ _ _ _ _ _ Hfresh _ _ _ _ H). apply obj_get_set_eq.
  - destruct (keeps_getType_each _ _ _ _ _ _ _ _ _ H) as [_ [_ Hkept]].
    apply (Hkept _ _ Ha).
Qed.

Lemma toUpperCase_capital (c : ascii) : toUpperCase c = capital c.
Proof. destruct c as [[] [] [] [] [] [] [] []]; reflexivity. Qed.

Lemma stringToGraphQLType_table (type : string) : stringToGraphQLType type = scalar_for type.
Proof.
  unfold stringToGraphQLType, scalar_for, scalar_table.
  destruct (String.eqb_spec type "String") as [->|H1]; [reflexivity|].
  destruct (String.eqb_spec type "Number") as [->|H2]; [reflexivity|].
  destruct (String.eqb_spec type "Date") as [->|H3]; [reflexivity|].
  destruct (String.eqb_spec type "Buffer") as [->|H4]; [reflexivity|].
  destruct (String.eqb_spec type "Boolean") as [->|H5]; [reflexivity|].
  destruct (String.eqb_spec type "ObjectID") as [->|H6]; [reflexivity|].
  cbn [list_find fst]. rewrite !bool_decide_eq_false_2 by congruence. reflexivity.
Qed.

Lemma plain_type_described (typeName : string) (fd : FieldDescriptor) :
  plain_type typeName fd = described_type typeName fd.
Proof.
  destruct fd as [name type subtype reference nonNull hidden fields em ev].
  cbn [plain_type described_type]. rewrite !stringToGraphQLType_table.
  destruct (String.eqb_spec type "Array") as [->|Harr].
  { rewrite (bool_decide_eq_true_2 ("Array" = "Array")) by reflexivity. reflexivity. }
  rewrite (bool_decide_eq_false_2 (type = "Array")) by exact Harr.
  destruct (String.eqb_spec type "Object") as [->|Hobj].
  { rewrite (bool_decide_eq_true_2 (_ \/ _)) by (left; reflexivity). reflexivity. }
  destruct (String.eqb_spec type "Embedded") as [->|Hemb].
  { rewrite (bool_decide_eq_true_2 (_ \/ _)) by (right; reflexivity). reflexivity. }
  rewrite (bool_decide_eq_false_2 (_ \/ _)) by (intros [?|?]; congruence).
  destruct ev as [vs|]; [|reflexivity].
  destruct (String.eqb_spec type "String") as [->|Hstr].
  - rewrite (bool_decide_eq_true_2 ("String" = "String")) by reflexivity.
    unfold getTypeFieldName, capitalized.
    destruct (name +:+ "Enum") as [|c r]; [reflexivity|].
    rewrite toUpperCase_capital. reflexivity.
  - rewrite (bool_decide_eq_false_2 (type = "String")) by exact Hstr. reflexivity.
Qed.

(** X13. In the type a root call of [getType] builds, a field of the model
    that is neither hidden nor named with two leading underscores, is not
    called [id], has an ASCII name it shares with no other field, and is a
    scalar, an enum or a list of scalars, has the type of the description:
    by the table, String, Number, Date, Buffer, Boolean and ObjectID give
    the scalars String, Float, Date, Buffer, Boolean and ID and anything
    else Generic; enum values on a String give an enum named by the type
    name followed by the field name with a capital and by Enum; an Array
    gives the list of what the table has for its subtype; [nonNull] wraps
    the whole. *)
Theorem X13_getType_maps_plain_fields :
  forall nodeInterface name fields st ref st' fd ty,
    getType nodeInterface name fields [] None st = Ok (ref, st') ->
    NoDup (map fd_name fields) ->
    In fd fields -> fd_visible fd = true -> fd_name fd <> "id" ->
    ascii_string (fd_name fd) = true ->
    described_type name fd = Some ty ->
    field_type st'.(store) ref (fd_name fd) = Some ty.
Proof.
  intros nodeInterface name fields st ref st' fd ty H Hnd Hin Hv Hid _ Hp.
  rewrite <- plain_type_described in Hp.
  apply getType_root_inv in H
    as [m [st0 [st1 [H0 [Hm [Href [Hstore [Hcache Htypes]]]]]]]].
  destruct (getType_each_plain _ _ _ _ _ Hnd _ _ _ _ Hm fd ty Hin Hv Hp) as [a [Hka Ha]].
  unfold field_type. rewrite Hstore, Href.
  rewrite (lookup_app_r _ _ (S (S _))) by lia.
  replace (S (S (length (store st1))) - length (store st1)) with 2 by lia.
  cbn [lookup list_lookup t_fields]. unfold parent_lookup.
  rewrite (lookup_app_r _ _ (S _)) by lia.
  replace (S (length (store st1)) - length (store st1)) with 1 by lia.
  cbn [lookup list_lookup].
  rewrite obj_get_set_ne by congruence. rewrite Hka.
  rewrite (lookup_app_l_Some _ _ _ _ Ha). reflexivity.
Qed.

(** The product type: a required Float, a Date, a list of Strings, an enum
    called ProductSizeEnum, a Buffer, a Boolean, a Generic for a type the
    table does not have, and an ID. *)
Lemma X13_witness :
  match getType 0 "Product" product_model.(m_fields) [] None
          (createTypeContext 0 (mkTypeState [] (Some []) [] [])) with
  | Ok (ref, st') =>
      field_type st'.(store) ref "price" = Some (TNonNull (TScalar "Float")) /\
      field_type st'.(store) ref "added" = Some (TScalar "Date") /\
      field_type st'.(store) ref "tags" = Some (TList (TScalar "String")) /\
      field_type st'.(store) ref "size" = Some (TEnum "ProductSizeEnum" ["S"; "M"]) /\
      field_type st'.(store) ref "picture" = Some (TScalar "Buffer") /\
      field_type st'.(store) ref "sold" = Some (TScalar "Boolean") /\
      field_type st'.(store) ref "notes" = Some (TScalar "Generic") /\
      field_type st'.(store) ref "maker" = Some (TScalar "ID")
  | _ => False
  end.
Proof.
  destruct (getType 0 "Product" product_model.(m_fields) [] None
              (createTypeContext 0 (mkTypeState [] (Some []) [] [])))
    as [[ref st']| |] eqn:E; [|vm_compute in E; discriminate..].
  assert (Hnd : NoDup (map fd_name product_model.(m_fields)))
    by (apply (bool_decide_unpack _); vm_compute; exact I).
  pose proof (fun fd ty => X13_getType_maps_plain_fields 0 "Product" product_model.(m_fields)
                             _ ref st' fd ty E Hnd) as Hall.
  repeat split.
  - apply (Hall (mkFieldDescriptor "price" "Number" None None true false [] None None));
      [vm_compute; tauto | reflexivity | discriminate | reflexivity | reflexivity].
  - apply (Hall (mkFieldDescriptor "added" "Date" None None false false [] None None));
      [vm_compute; tauto | reflexivity | discriminate | reflexivity | reflexivity].
  - apply (Hall (mkFieldDescriptor "tags" "Array" (Some "String") None false false [] None
                   None));
      [vm_compute; tauto | reflexivity | discriminate | reflexivity | reflexivity].
  - apply (Hall (mkFieldDescriptor "size" "String" None None false false [] None
                   (Some ["S"; "M"])));
      [vm_compute; tauto | reflexivity | discriminate | reflexivity | reflexivity].
  - apply (Hall (mkFieldDescriptor "picture" "Buffer" None None false false [] None None));
      [vm_compute; tauto | reflexivity | discriminate | reflexivity | reflexivity].
  - apply (Hall (mkFieldDescriptor "sold" "Boolean" None None false false [] None None));
      [vm_compute; tauto | reflexivity | discriminate | reflexivity | reflexivity].
  - apply (Hall (mkFieldDescriptor "notes" "Mixed" None None false false [] None None));
      [vm_compute; tauto | reflexivity | discriminate | reflexivity | reflexivity].
  - apply (Hall (mkFieldDescriptor "maker" "ObjectID" None None false false [] None None));
      [vm_compute; tauto | reflexivity | discriminate | reflexivity | reflexivity].
Defined.

(** ** getTypes *)

Lemma implements_kept (nodeInterface : nat) (h h' : list cell) (ref : nat) :
  types_kept h h' -> implements nodeInterface h ref -> implements nodeInterface h' ref.
Proof.
  intros Hk [o [rest [Ho Hi]]]. destruct (Hk _ _ Ho) as [e He].
  eexists; exists rest. split; [exact He | exact Hi].
Qed.

Lemma getType_root_implements (nodeInterface : nat) (name : string)
    (fields : list FieldDescriptor) (st : TypeState) (ref : nat) (st' : TypeState) :
  getType nodeInterface name fields [] None st = Ok (ref, st') ->
  implements nodeInterface st'.(store) ref /\
  st'.(cache) = st.(cache) /\
  cells_kept st.(store) st'.(store).
Proof.
  intros H. apply getType_root_inv in H
    as [m [st0 [st1 [H0 [Hm [Href [Hstore [Hcache Htypes]]]]]]]].
  pose proof (keeps_getType_each _ _ _ _ _ _ _ _ _ Hm) as H1.
  destruct (field_step_trans _ _ _ H0 H1) as [Hc [_ Hkept]].
  split; [|split; [congruence|]].
  - exists (mkTypeObject name (Some [nodeInterface]) (Some (S (length (store st1)))) false), [].
    split; [|reflexivity].
    rewrite Hstore, Href. rewrite lookup_app_r by lia.
    replace (S (S (length (store st1))) - length (store st1)) with 2 by lia. reflexivity.
  - apply (cells_kept_trans _ _ _ Hkept). rewrite Hstore. apply cells_kept_app.
Qed.

Lemma getTypes_model_step (nodeInterface : nat) (types : list (string * nat))
    (reResolveTypes : list string) (model : Model) (st : TypeState)
    (types' : list (string * nat)) (reResolveTypes' : list string) (st' : TypeState) :
  getTypes_model nodeInterface (types, reResolveTypes) model st
  = Ok ((types', reResolveTypes'), st') ->
  exists ref,
    types' = obj_set model.(m_name) ref types /\
    implements nodeInterface st'.(store) ref /\
    types_step st st' /\
    (forall entries', st'.(cache) = Some entries' ->
                      is_Some (obj_get model.(m_key) entries')).
Proof.
  unfold getTypes_model. intros H.
  apply bindT_inv in H as [c [st1 [Hc H]]]. injection Hc as <- <-.
  apply bindT_inv in H as [[ref rr] [st2 [Hr H]]].
  apply retT_inv in H as [[= -> ->] ->]. exists ref. split; [reflexivity|].
  destruct (cache st) as [entries|] eqn:Ecache.
  - destruct (obj_get (m_key model) entries) as [type|] eqn:Ekey.
    + apply bindT_inv in Hr as [o [st3 [Hread Hr]]].
      unfold read_type in Hread.
      destruct (store st !! type) as [[o'| |]|] eqn:Etype; try discriminate.
      injection Hread as <- <-.
      destruct (t_interfaces o') as [interfaces|] eqn:Ei; [|discriminate].
      destruct (bool_decide (head interfaces = Some nodeInterface)) eqn:Eh.
      * apply retT_inv in Hr as [[= -> ->] ->].
        apply bool_decide_eq_true_1 in Eh. destruct interfaces as [|i rest]; [discriminate|].
        injection Eh as ->.
        split; [exists o', rest; auto|]. split; [apply types_step_refl|].
        intros entries' He. rewrite Ecache in He. injection He as <-. eauto.
      * apply bindT_inv in Hr as [type' [st4 [Ha Hr]]].
        apply bindT_inv in Hr as [u [st5 [Hreg Hr]]].
        apply retT_inv in Hr as [[= -> ->] ->].
        injection Ha as <- <-. apply addType_inv in Hreg as [_ <-].
        cbn [store cache set_types set_store].
        split; [|split].
        -- exists (mkTypeObject (t_name o') (Some [nodeInterface]) (t_fields o') false), [].
           split; [apply list_lookup_middle; reflexivity | reflexivity].
        -- split; cbn [store cache set_types set_store];
             [apply cache_grows_refl | apply cells_kept_types_kept, cells_kept_app].
        -- intros entries' He. rewrite Ecache in He. injection He as <-. eauto.
    + apply bindT_inv in Hr as [type [st3 [Hget Hr]]].
      apply bindT_inv in Hr as [u [st4 [Hset Hr]]].
      apply retT_inv in Hr as [[= -> ->] ->]. injection Hset as _ <-.
      apply getType_root_implements in Hget as [Himpl [Hcache Hkept]].
      cbn [store cache set_cache]. rewrite Hcache, Ecache. cbn [fmap option_fmap option_map].
      split; [exact Himpl|]. split; [split|].
      * cbn [store cache set_cache]. rewrite Hcache, Ecache. cbn.
        intros k r Hk. rewrite obj_get_set_ne; [exact Hk | congruence].
      * apply cells_kept_types_kept, Hkept.
      * intros entries' [= <-]. rewrite obj_get_set_eq. eauto.
  - apply bindT_inv in Hr as [type [st3 [Hget Hr]]].
    apply retT_inv in Hr as [[= -> ->] ->].
    apply getType_root_implements in Hget as [Himpl [Hcache Hkept]].
    split; [exact Himpl|]. split; [split|].
    + rewrite Hcache, Ecache. exact I.
    + apply cells_kept_types_kept, Hkept.
    + intros entries' He. congruence.
Qed.

Lemma getTypes_reduce (nodeInterface : nat) (models : list Model) :
  forall acc st r st',
    reduceT (getTypes_model nodeInterface) models acc st = Ok (r, st') ->
    (forall k ref, obj_get k acc.1 = Some ref -> implements nodeInterface st.(store) ref) ->
    types_step st st' /\
    (forall k ref, obj_get k r.1 = Some ref -> implements nodeInterface st'.(store) ref) /\
    (forall entries', st'.(cache) = Some entries' ->
       forall m, In m models -> is_Some (obj_get m.(m_key) entries')).
Proof.
  induction models as [|model models IH]; intros acc st r st' H Hacc.
  - apply retT_inv in H as [-> ->]. split; [apply types_step_refl|].
    split; [exact Hacc | intros _ _ m []].
  - cbn [reduceT] in H. apply bindT_inv in H as [[types1 rr1] [st1 [Hstep H]]].
    destruct acc as [types0 rr0].
    apply getTypes_model_step in Hstep as [ref [-> [Himpl [Hs1 Hkey]]]].
    destruct (IH _ _ _ _ H) as [Hs2 [Hr Hkeys]].
    { cbn [fst]. intros k ref' Hk. destruct (decide (m_name model = k)) as [<-|Hne].
      - rewrite obj_get_set_eq in Hk. injection Hk as <-. exact Himpl.
      - rewrite obj_get_set_ne in Hk by exact Hne.
        apply (implements_kept _ _ _ _ (proj2 Hs1)). apply (Hacc _ _ Hk). }
    split; [apply (types_step_trans _ _ _ Hs1 Hs2)|]. split; [exact Hr|].
    intros entries' He m [<-|Hin]; [|apply (Hkeys _ He _ Hin)].
    destruct Hs2 as [Hg _]. rewrite He in Hg.
    destruct (cache st1) as [entries1|] eqn:E1; [|destruct Hg].
    destruct (Hkey _ eq_refl) as [v Hv]. exists v. apply (Hg _ _ Hv).
Qed.

Lemma resolve_step_refl (st : TypeState) : resolve_step st st.
Proof. split; auto. Qed.

Lemma resolve_step_trans (st1 st2 st3 : TypeState) :
  resolve_step st1 st2 -> resolve_step st2 st3 -> resolve_step st1 st3.
Proof. intros [Hc H] [Hc' H']. split; [congruence | auto]. Qed.

Lemma insert_keeps_types (h : list cell) (a : nat) (c : cell) :
  (forall o, h !! a = Some (CType o) -> c = CType o) ->
  forall b o, h !! b = Some (CType o) -> <[a := c]> h !! b = Some (CType o).
Proof.
  intros Hc b o H. destruct (decide (a = b)) as [->|Hne].
  - rewrite (Hc o H). apply list_lookup_insert_eq. apply lookup_lt_Some in H. exact H.
  - rewrite list_lookup_insert_ne by exact Hne. exact H.
Qed.

Lemma path_step_keeps_types (field last : nat) (h : list cell) (parent : parent_fields)
    (x : nat * string) (h' : list cell) (parent' : parent_fields) :
  path_step field last (h, parent) x = Ok (h', parent') ->
  forall b o, h !! b = Some (CType o) -> h' !! b = Some (CType o).
Proof.
  destruct x as [idx segment]. unfold path_step.
  destruct (parent_lookup h parent segment) as [found| |]; simpl; try discriminate.
  destruct (idx =? last)%nat; [|intros [= <- _]; auto].
  match goal with |- match ?p with _ => _ end = _ -> _ => destruct p as [a|m|] end;
    [|intros [= <- _]; auto | discriminate].
  destruct (h !! a) as [[o'|m|f]|] eqn:E; intros [= <- _]; auto.
  apply insert_keeps_types. intros o Ho. congruence.
Qed.

Lemma resolve_slot_keeps_types (types : list (string * nat)) (typeName : string)
    (typeFields : parent_fields) (h : list cell) (slot : string * nat) (h' : list cell) :
  resolve_slot types typeName typeFields h slot = Ok h' ->
  forall b o, h !! b = Some (CType o) -> h' !! b = Some (CType o).
Proof.
  destruct slot as [fieldName field]. unfold resolve_slot.
  destruct (h !! field) as [[o'|m|f]|] eqn:E; try (intros [= <-]; auto).
  match goal with
  | |- (reduceM ?f ?l ?init ≫= _) = _ -> _ => destruct (reduceM f l init) as [r| |] eqn:Hred
  end; simpl; try discriminate.
  intros [= <-].
  apply (reduceM_invariant
           (fun acc => forall b o, h !! b = Some (CType o) -> acc.1 !! b = Some (CType o))
           _ _ _ _) with (3 := Hred).
  - intros [h1 p1] x [h2 p2] _ Hinv Hstep b o Hb. cbn [fst] in *.
    apply (path_step_keeps_types _ _ _ _ _ _ _ Hstep). apply Hinv, Hb.
  - cbn [fst]. apply insert_keeps_types. intros o Ho. congruence.
Qed.

Lemma keeps_resolve_type (types : list (string * nat)) (typeName : string)
    (fields : list (string * nat)) :
  keeps resolve_step (resolve_type types typeName fields).
Proof.
  intros st a st' H. unfold resolve_type in H.
  destruct (obj_get typeName types) as [type|];
    [|apply retT_inv in H as [_ ->]; apply resolve_step_refl].
  apply bindT_inv in H as [o [st1 [Hread H]]].
  unfold read_type in Hread.
  destruct (store st !! type) as [[o'| |]|] eqn:Etype; try discriminate.
  injection Hread as <- <-.
  apply bindT_inv in H as [u [st2 [Hred H]]].
  destruct (reduceM _ fields (store st)) as [h| |] eqn:Hslots; try discriminate.
  injection Hred as _ <-. injection H as _ <-.
  assert (Hh : forall b o, store st !! b = Some (CType o) -> h !! b = Some (CType o)).
  { apply (reduceM_invariant
             (fun acc => forall b o, store st !! b = Some (CType o) ->
                                     acc !! b = Some (CType o))
             _ _ _ _) with (3 := Hslots); [|auto].
    intros h1 x h2 _ Hinv Hstep b o Hb.
    apply (resolve_slot_keeps_types _ _ _ _ _ _ Hstep). apply Hinv, Hb. }
  split; [reflexivity|]. cbn [store set_store].
  intros b o Hb. apply insert_keeps_types; [|apply Hh, Hb].
  intros o0 H0. rewrite (Hh _ _ Etype) in H0. injection H0 as <-.
  destruct o'; reflexivity.
Qed.

Lemma resolve_step_types_step (st st' : TypeState) : resolve_step st st' -> types_step st st'.
Proof.
  intros [Hc Hk]. split; [rewrite Hc; apply cache_grows_refl|].
  intros a [n i f e] Ha. exists e. apply (Hk _ _ Ha).
Qed.

(** Both versions of [getTypes]: the reduce over the models, then a pass
    that keeps the cache and every type object. *)
Lemma getTypes_inv (nodeInterface : nat) (graffitiModels : list Model) (st : TypeState)
    (types : list (string * nat)) (st' : TypeState) :
  getTypes nodeInterface graffitiModels st = Ok (types, st') \/
  getTypes_cacheGate nodeInterface graffitiModels st = Ok (types, st') ->
  exists r st1,
    reduceT (getTypes_model nodeInterface) graffitiModels ([], []) st = Ok (r, st1) /\
    r.1 = types /\ resolve_step st1 st'.
Proof.
  intros [H|H].
  - unfold getTypes in H. apply bindT_inv in H as [[types1 rr1] [st1 [Hred H]]].
    apply bindT_inv in H as [rr [st2 [Hrr H]]]. injection Hrr as <- <-.
    apply bindT_inv in H as [u [st3 [Hpass H]]].
    apply retT_inv in H as [-> ->]. exists (types1, rr1), st1.
    split; [exact Hred|]. split; [reflexivity|].
    revert Hpass. apply (keeps_forEachM _ resolve_step_refl resolve_step_trans).
    intros entry _. destruct (bool_decide (entry.1 ∈ rr1));
      [apply (keeps_ret _ resolve_step_refl) | apply keeps_resolve_type].
  - unfold getTypes_cacheGate in H. apply bindT_inv in H as [r [st1 [Hred H]]].
    apply bindT_inv in H as [rr [st2 [Hrr H]]]. injection Hrr as <- <-.
    apply bindT_inv in H as [u [st3 [Hpass H]]].
    apply retT_inv in H as [-> ->]. exists r, st1.
    split; [exact Hred|]. split; [reflexivity|].
    revert Hpass. apply (keeps_forEachM _ resolve_step_refl resolve_step_trans).
    intros entry _.
    apply (keeps_bind _ resolve_step_trans); [apply (keeps_getsM _ resolve_step_refl)|].
    intros c. cbv zeta.
    match goal with |- keeps _ (if ?b then _ else _) => destruct b end;
      [apply (keeps_ret _ resolve_step_refl) | apply keeps_resolve_type].
Qed.

(** X14. Whatever the cache holds, every type that either version of
    [getTypes] returns has the node interface of the context as its first
    interface. The cache is never switched on or off and never loses or
    replaces an entry (a type rebuilt for the context is returned and
    registered, not cached); when there is a cache it holds an entry for the
    key of every model afterwards. Every type object that was in the store
    is still there with its name, interfaces and fields object. *)
Theorem X14_getTypes_returns_types_of_this_context :
  forall nodeInterface graffitiModels st types st',
    (getTypes nodeInterface graffitiModels st = Ok (types, st') \/
     getTypes_cacheGate nodeInterface graffitiModels st = Ok (types, st')) ->
    (forall k ref, obj_get k types = Some ref -> implements nodeInterface st'.(store) ref) /\
    cache_grows st.(cache) st'.(cache) /\
    (forall entries', st'.(cache) = Some entries' ->
       forall m, In m graffitiModels -> is_Some (obj_get m.(m_key) entries')) /\
    types_kept st.(store) st'.(store).
Proof.
  intros nodeInterface graffitiModels st types st' H.
  apply getTypes_inv in H as [r [st1 [Hred [<- Hpass]]]].
  destruct (getTypes_reduce _ _ _ _ _ _ Hred) as [Hs1 [Himpl Hkeys]].
  { intros k ref Hk. discriminate. }
  pose proof (resolve_step_types_step _ _ Hpass) as Hs2.
  destruct (types_step_trans _ _ _ Hs1 Hs2) as [Hg Hk].
  split; [|split; [exact Hg|split; [|exact Hk]]].
  - intros k ref Hkr. apply (implements_kept _ _ _ _ (proj2 Hs2)). apply (Himpl _ _ Hkr).
  - intros entries' He. destruct Hpass as [Hc _]. rewrite Hc in He. apply (Hkeys _ He).
Qed.


(** A second context, with a node interface of its own, served from the
    cache the first one filled. *)
Lemma X14_witness :
  match getTypes 0 [user_model] (createTypeContext 0 (mkTypeState [] (Some []) [] [])) with
  | Ok (_, st1) =>
      match getTypes 1 [user_model] (createTypeContext 1 st1) with
      | Ok (types, st2) =>
          (forall k ref, obj_get k types = Some ref -> implements 1 st2.(store) ref) /\
          cache_grows (createTypeContext 1 st1).(cache) st2.(cache)
      | _ => False
      end
  | _ => False
  end.
Proof.
  destruct (getTypes 0 [user_model] (createTypeContext 0 (mkTypeState [] (Some []) [] [])))
    as [[types1 st1]| |] eqn:E1; [|vm_compute in E1; discriminate..].
  destruct (getTypes 1 [user_model] (createTypeContext 1 st1))
    as [[types st2]| |] eqn:E2.
  - destruct (X14_getTypes_returns_types_of_this_context 1 [user_model] _ types st2
                (or_introl E2)) as [H1 [H2 _]].
    split; [exact H1 | exact H2].
  - vm_compute in E1. injection E1 as <- <-. vm_compute in E2. discriminate.
  - vm_compute in E1. injection E1 as <- <-. vm_compute in E2. discriminate.
Defined.

(** ** getArguments *)

Lemma read_type_inv (ref : nat) (st : TypeState) (o : TypeObject) (st' : TypeState) :
  read_type ref st = Ok (o, st') -> st.(store) !! ref = Some (CType o) /\ st' = st.
Proof.
  unfold read_type. destruct (store st !! ref) as [[o'| |]|]; try discriminate.
  intros [= <- <-]. auto.
Qed.

Lemma read_field_inv (a : nat) (st : TypeState) (f : FieldObject) (st' : TypeState) :
  read_field a st = Ok (f, st') -> st.(store) !! a = Some (CField f) /\ st' = st.
Proof.
  unfold read_field. destruct (store st !! a) as [[| |f']|]; try discriminate.
  intros [= <- <-]. auto.
Qed.

Lemma type_fields_inv (type : nat) (st : TypeState) (o : TypeObject) (fa : nat)
    (m m' : list (string * nat)) (st' : TypeState) :
  type_fields type st = Ok (m', st') ->
  st.(store) !! type = Some (CType o) -> o.(t_fields) = Some fa ->
  st.(store) !! fa = Some (CFieldMap m) ->
  m' = m /\ st' = st.
Proof.
  unfold type_fields. intros H Ho Hfa Hm.
  apply bindT_inv in H as [o' [st1 [Hread H]]].
  apply read_type_inv in Hread as [Ho' ->]. rewrite Ho in Ho'. injection Ho' as <-.
  rewrite Hfa in H. unfold read_fieldMap in H. rewrite Hm in H.
  injection H as <- <-. auto.
Qed.

Lemma mapT_read_field (l : list nat) (st : TypeState) (fs : list FieldObject)
    (st' : TypeState) :
  mapT read_field l st = Ok (fs, st') ->
  st' = st /\ Forall2 (fun a f => st.(store) !! a = Some (CField f)) l fs.
Proof.
  revert fs st'. induction l as [|a l IH]; intros fs st' H.
  - apply retT_inv in H as [-> ->]. split; [reflexivity | constructor].
  - cbn [mapT] in H. apply bindT_inv in H as [f [st1 [Hf H]]].
    apply read_field_inv in Hf as [Hf ->].
    apply bindT_inv in H as [fs' [st2 [Hfs H]]].
    apply IH in Hfs as [-> HF]. apply retT_inv in H as [-> ->].
    split; [reflexivity | constructor; assumption].
Qed.

Lemma stripped_name (version : ArgsVersion) (f : FieldObject) :
  (stripped version f).(f_name) = f.(f_name).
Proof.
  unfold stripped. destruct (passed_by version (f_name f) || _)%bool; [reflexivity|].
  destruct (f_type f); reflexivity.
Qed.

(** One step of the reduce: what it writes and what it adds. *)
Lemma getArguments_step_inv (version : ArgsVersion) (args : list (string * ArgDef))
    (a : nat) (st : TypeState) (args' : list (string * ArgDef)) (st' : TypeState) :
  getArguments_step version args a st = Ok (args', st') ->
  exists f,
    st.(store) !! a = Some (CField f) /\
    st'.(store) = <[a := CField (stripped version f)]> st.(store) /\
    st'.(cache) = st.(cache) /\ st'.(types) = st.(types) /\
    args' = if (negb (passed_by version f.(f_name)) &&
                instanceof_GraphQLScalarType (stripped version f).(f_type))%bool
            then obj_set f.(f_name) (ArgField a) args
            else args.
Proof.
  unfold getArguments_step. intros H.
  apply bindT_inv in H as [f [st1 [Hf H]]]. apply read_field_inv in Hf as [Hf ->].
  exists f. split; [exact Hf|]. unfold stripped.
  destruct (passed_by version (f_name f)) eqn:Hp; cbn [orb negb andb].
  { apply retT_inv in H as [-> ->]. rewrite list_insert_id by exact Hf. auto. }
  apply bindT_inv in H as [type [st1 [Hty H]]].
  assert (Hst : st'.(store) = st1.(store) /\ st'.(cache) = st1.(cache) /\
                st'.(types) = st1.(types) /\
                args' = if instanceof_GraphQLScalarType type
                        then obj_set (f_name f) (ArgField a) args else args).
  { destruct (instanceof_GraphQLScalarType type); apply retT_inv in H as [-> ->]; auto. }
  destruct Hst as [Hs [Hc [Ht ->]]]. rewrite Hs, Hc, Ht. clear H Hs Hc Ht.
  destruct (f_type f) as [n|n vs|t|t|r|n t|n t| |s|] eqn:Et;
    try solve [apply retT_inv in Hty as [-> ->];
               destruct (unwrapped version (f_name f)); cbn [negb];
               rewrite list_insert_id by exact Hf; rewrite ?Et; auto].
  destruct (unwrapped version (f_name f)); cbn [negb].
  - apply bindT_inv in Hty as [u [st2 [Hmod Hty]]]. apply retT_inv in Hty as [-> ->].
    injection Hmod as _ <-. auto.
  - apply retT_inv in Hty as [-> ->]. rewrite list_insert_id by exact Hf.
    rewrite Et. auto.
Qed.

Lemma getArguments_reduce_store (version : ArgsVersion) (l : list nat) :
  NoDup l ->
  forall args st args' st',
    reduceT (getArguments_step version) l args st = Ok (args', st') ->
    (forall a f, a ∈ l -> st.(store) !! a = Some (CField f) ->
                 st'.(store) !! a = Some (CField (stripped version f))) /\
    (forall b, b ∉ l -> st'.(store) !! b = st.(store) !! b) /\
    st'.(cache) = st.(cache) /\ st'.(types) = st.(types).
Proof.
  induction 1 as [|a l Hfresh Hnd IH]; intros args st args' st' H.
  - apply retT_inv in H as [_ ->]. split; [intros a f Ha; inversion Ha | auto].
  - cbn [reduceT] in H. apply bindT_inv in H as [args1 [st1 [Hstep H]]].
    apply getArguments_step_inv in Hstep as [f0 [Hf0 [Hs1 [Hc1 [Ht1 _]]]]].
    destruct (IH _ _ _ _ H) as [Hin [Hout [Hc Ht]]].
    split; [|split; [|split; congruence]].
    + intros b f Hb Hf. apply elem_of_cons in Hb as [->|Hb].
      * rewrite (Hout _ Hfresh), Hs1. rewrite Hf0 in Hf. injection Hf as <-.
        apply list_lookup_insert_eq. apply lookup_lt_Some in Hf0. exact Hf0.
      * apply Hin; [exact Hb|]. rewrite Hs1.
        rewrite list_lookup_insert_ne; [exact Hf | intros ->; contradiction].
    + intros b Hb. apply not_elem_of_cons in Hb as [Hne Hb].
      rewrite (Hout _ Hb), Hs1. apply list_lookup_insert_ne. congruence.
Qed.

(** What [getArguments] does before and after its reduce. *)
Lemma getArguments_inv (version : ArgsVersion) (type : nat)
    (args : list (string * ArgDef))
    (orderByTypes : list (string * (string * list (string * (string * Z)))))
    (st : TypeState) r (st' : TypeState) (o : TypeObject) (fa : nat)
    (m : list (string * nat)) :
  getArguments version type args orderByTypes st = Ok (r, st') ->
  st.(store) !! type = Some (CType o) -> o.(t_fields) = Some fa ->
  st.(store) !! fa = Some (CFieldMap m) ->
  exists fieldObjects,
    Forall2 (fun a f => st.(store) !! a = Some (CField f)) (map snd m) fieldObjects /\
    r.2 = (getOrderByType o.(t_name) fieldObjects orderByTypes).2 /\
    reduceT (getArguments_step version) (map snd m)
      (obj_set (match version with SortArg => "sort" | OrderByArg => "orderBy" end)
         (ArgOrder (match version with SortArg => "sort" | OrderByArg => "orderBy" end)
            (getOrderByType o.(t_name) fieldObjects orderByTypes).1)
         (obj_assign [] args)) st
    = Ok (r.1, st').
Proof.
  unfold getArguments. intros H Ho Hfa Hm.
  apply bindT_inv in H as [o' [st1 [Hread H]]].
  apply read_type_inv in Hread as [Ho' ->]. rewrite Ho in Ho'. injection Ho' as <-.
  apply bindT_inv in H as [m' [st1 [Hfields H]]].
  apply (type_fields_inv _ _ _ _ _ _ _ Hfields Ho Hfa) in Hm as [-> ->].
  apply bindT_inv in H as [fieldObjects [st1 [Hobjs H]]].
  apply mapT_read_field in Hobjs as [-> HF].
  cbv zeta in H. apply bindT_inv in H as [args' [st1 [Hred H]]].
  apply retT_inv in H as [-> ->]. exists fieldObjects. auto.
Qed.

(** X15. [getArguments] changes the type it is given: it takes the
    non-null wrapper off the field objects it goes over, which are those of
    the type, so that afterwards every field of the type is nullable but
    [id] (and [_id] in the version that leaves the identity fields out).
    Nothing else in the store changes, nor the cache, nor the registry. *)
Theorem X15_getArguments_strips_non_null_from_the_type :
  forall version type args orderByTypes st r st' o fa m,
    getArguments version type args orderByTypes st = Ok (r, st') ->
    st.(store) !! type = Some (CType o) -> o.(t_fields) = Some fa ->
    st.(store) !! fa = Some (CFieldMap m) ->
    NoDup (map snd m) ->
    (forall k a f,
       obj_get k m = Some a -> st.(store) !! a = Some (CField f) ->
       field_type st'.(store) type k = Some (stripped version f).(f_type)) /\
    (forall b, b ∉ map snd m -> st'.(store) !! b = st.(store) !! b) /\
    st'.(cache) = st.(cache) /\ st'.(types) = st.(types).
Proof.
  intros version type args orderByTypes st r st' o fa m H Ho Hfa Hm Hnd.
  destruct (getArguments_inv _ _ _ _ _ _ _ _ _ _ H Ho Hfa Hm) as [fs [HF [_ Hred]]].
  destruct (getArguments_reduce_store _ _ Hnd _ _ _ _ Hred) as [Hin [Hout [Hc Ht]]].
  assert (Hfields : forall b, b ∈ map snd m -> exists f, st.(store) !! b = Some (CField f)).
  { intros b Hb. apply list_elem_of_lookup in Hb as [i Hi].
    destruct (Forall2_lookup_l _ _ _ _ _ HF Hi) as [f [_ Hf]]. eauto. }
  assert (Hother : forall b c, st.(store) !! b = Some c -> (forall f, c <> CField f) ->
                               st'.(store) !! b = Some c).
  { intros b c Hb Hc'. rewrite Hout; [exact Hb|].
    intros Hin'. destruct (Hfields _ Hin') as [f Hf]. rewrite Hb in Hf.
    injection Hf as ->. apply (Hc' f eq_refl). }
  split; [|auto].
  intros k a f Hk Ha. unfold field_type.
  rewrite (Hother _ _ Ho) by discriminate. rewrite Hfa. unfold parent_lookup.
  rewrite (Hother _ _ Hm) by discriminate. rewrite Hk.
  rewrite (Hin a f); [reflexivity | | exact Ha].
  apply obj_get_In in Hk. apply list_elem_of_In. apply (in_map snd) in Hk. exact Hk.
Qed.

Lemma getArguments_reduce_sound (version : ArgsVersion) (l : list nat) :
  NoDup l ->
  forall args st args' st',
    reduceT (getArguments_step version) l args st = Ok (args', st') ->
    forall k a,
      obj_get k args' = Some (ArgField a) ->
      obj_get k args = Some (ArgField a) \/
      (a ∈ l /\
       exists f, st.(store) !! a = Some (CField f) /\ f.(f_name) = k /\
                 passed_by version k = false /\
                 instanceof_GraphQLScalarType (stripped version f).(f_type) = true).
Proof.
  induction 1 as [|a0 l Hfresh Hnd IH]; intros args st args' st' H k a Hk.
  - apply retT_inv in H as [-> _]. auto.
  - cbn [reduceT] in H. apply bindT_inv in H as [args1 [st1 [Hstep H]]].
    apply getArguments_step_inv in Hstep as [f0 [Hf0 [Hs1 [_ [_ ->]]]]].
    destruct (IH _ _ _ _ H k a Hk) as [Hk1|[Hin [f [Hf Hrest]]]].
    + destruct (negb (passed_by version (f_name f0)) &&
                instanceof_GraphQLScalarType (f_type (stripped version f0)))%bool eqn:Hc;
        [|auto].
      destruct (decide (f_name f0 = k)) as [<-|Hne];
        [|rewrite obj_get_set_ne in Hk1 by exact Hne; auto].
      rewrite obj_get_set_eq in Hk1. injection Hk1 as <-.
      apply andb_true_iff in Hc as [Hp Hsc]. apply negb_true_iff in Hp.
      right. split; [left|]. exists f0. auto.
    + right. split; [right; exact Hin|]. exists f. split; [|exact Hrest].
      rewrite Hs1 in Hf. rewrite list_lookup_insert_ne in Hf; [exact Hf|].
      intros ->. contradiction.
Qed.

Lemma getArguments_reduce_other (version : ArgsVersion) (k : string) (l : list nat) :
  NoDup l ->
  forall args st args' st',
    reduceT (getArguments_step version) l args st = Ok (args', st') ->
    (forall a f, a ∈ l -> st.(store) !! a = Some (CField f) -> f.(f_name) <> k) ->
    obj_get k args' = obj_get k args.
Proof.
  induction 1 as [|a0 l Hfresh Hnd IH]; intros args st args' st' H Hk.
  - apply retT_inv in H as [-> _]. reflexivity.
  - cbn [reduceT] in H. apply bindT_inv in H as [args1 [st1 [Hstep H]]].
    apply getArguments_step_inv in Hstep as [f0 [Hf0 [Hs1 [_ [_ ->]]]]].
    rewrite (IH _ _ _ _ H).
    + destruct (_ && _)%bool; [|reflexivity].
      apply obj_get_set_ne. apply (Hk a0 f0); [left | exact Hf0].
    + intros a f Ha Hf. apply (Hk a f); [right; exact Ha|].
      rewrite Hs1 in Hf. rewrite list_lookup_insert_ne in Hf; [exact Hf|].
      intros ->. contradiction.
Qed.

Lemma getArguments_reduce_complete (version : ArgsVersion) (l : list nat) :
  NoDup l ->
  forall args st args' st',
    reduceT (getArguments_step version) l args st = Ok (args', st') ->
    (forall a1 a2 f1 f2,
       a1 ∈ l -> a2 ∈ l -> st.(store) !! a1 = Some (CField f1) ->
       st.(store) !! a2 = Some (CField f2) -> f1.(f_name) = f2.(f_name) -> a1 = a2) ->
    forall a f,
      a ∈ l -> st.(store) !! a = Some (CField f) ->
      passed_by version f.(f_name) = false ->
      instanceof_GraphQLScalarType (stripped version f).(f_type) = true ->
      obj_get f.(f_name) args' = Some (ArgField a).
Proof.
  induction 1 as [|a0 l Hfresh Hnd IH]; intros args st args' st' H Huniq a f Ha Hf Hp Hsc.
  - inversion Ha.
  - cbn [reduceT] in H. apply bindT_inv in H as [args1 [st1 [Hstep H]]].
    apply getArguments_step_inv in Hstep as [f0 [Hf0 [Hs1 [_ [_ ->]]]]].
    assert (Hsame : forall b g, b ∈ l -> st1.(store) !! b = Some (CField g) ->
                                st.(store) !! b = Some (CField g)).
    { intros b g Hb Hg. rewrite Hs1 in Hg.
      rewrite list_lookup_insert_ne in Hg; [exact Hg|]. intros ->. contradiction. }
    apply elem_of_cons in Ha as [->|Ha].
    + rewrite Hf0 in Hf. injection Hf as <-.
      rewrite (getArguments_reduce_other _ (f_name f0) _ Hnd _ _ _ _ H).
      * rewrite Hp, Hsc. cbn [negb andb]. apply obj_get_set_eq.
      * intros b g Hb Hg Hname. apply Hfresh.
        rewrite (Huniq a0 b f0 g); [exact Hb | left | right; exact Hb | exact Hf0
                                    | apply (Hsame _ _ Hb Hg) | congruence].
    + apply (IH _ _ _ _ H); [|exact Ha| |exact Hp|exact Hsc].
      * intros a1 a2 f1 f2 H1 H2 Hf1 Hf2 Hn.
        apply (Huniq a1 a2 f1 f2); [right; exact H1 | right; exact H2
                                    | apply (Hsame _ _ H1 Hf1) | apply (Hsame _ _ H2 Hf2)
                                    | exact Hn].
      * rewrite Hs1. rewrite list_lookup_insert_ne; [exact Hf|]. intros ->. contradiction.
Qed.

(** X16. The field arguments that [getArguments] returns are the field
    objects of the type themselves: an argument that was not handed in is,
    under the name of a field that is not passed by, the object of that
    field, a scalar once its non-null wrapper is off. When no two fields
    share a name, every such field is an argument. The ordering argument is
    there under its own key unless a field is called like it. *)
Theorem X16_getArguments_hands_out_the_field_objects :
  forall version type args orderByTypes st r st' o fa m,
    getArguments version type args orderByTypes st = Ok (r, st') ->
    st.(store) !! type = Some (CType o) -> o.(t_fields) = Some fa ->
    st.(store) !! fa = Some (CFieldMap m) ->
    NoDup (map snd m) ->
    (forall k a,
       obj_get k r.1 = Some (ArgField a) ->
       In (k, ArgField a) args \/
       (a ∈ map snd m /\
        exists f, st'.(store) !! a = Some (CField f) /\ f.(f_name) = k /\
                  passed_by version k = false /\
                  instanceof_GraphQLScalarType f.(f_type) = true)) /\
    ((forall a1 a2 f1 f2,
        a1 ∈ map snd m -> a2 ∈ map snd m -> st.(store) !! a1 = Some (CField f1) ->
        st.(store) !! a2 = Some (CField f2) -> f1.(f_name) = f2.(f_name) -> a1 = a2) ->
     forall a f,
       a ∈ map snd m -> st.(store) !! a = Some (CField f) ->
       passed_by version f.(f_name) = false ->
       instanceof_GraphQLScalarType (stripped version f).(f_type) = true ->
       obj_get f.(f_name) r.1 = Some (ArgField a)) /\
    ((forall a f, a ∈ map snd m -> st.(store) !! a = Some (CField f) ->
                  f.(f_name) <> match version with SortArg => "sort" | OrderByArg => "orderBy" end) ->
     exists enum,
       obj_get (match version with SortArg => "sort" | OrderByArg => "orderBy" end) r.1
       = Some (ArgOrder (match version with SortArg => "sort" | OrderByArg => "orderBy" end)
                 enum)).
Proof.
  intros version type args orderByTypes st r st' o fa m H Ho Hfa Hm Hnd.
  destruct (getArguments_inv _ _ _ _ _ _ _ _ _ _ H Ho Hfa Hm) as [fs [HF [_ Hred]]].
  destruct (getArguments_reduce_store _ _ Hnd _ _ _ _ Hred) as [Hin _].
  split; [|split].
  - intros k a Hk.
    destruct (getArguments_reduce_sound _ _ Hnd _ _ _ _ Hred k a Hk)
      as [Hk0|[Ha [f [Hf [Hn [Hp Hsc]]]]]].
    + left. apply obj_get_In in Hk0.
      apply obj_set_pairs in Hk0 as [Hk0|Hk0]; [discriminate|].
      apply obj_assign_pairs in Hk0 as [[]|Hk0]. exact Hk0.
    + right. split; [exact Ha|]. exists (stripped version f).
      split; [apply (Hin _ _ Ha Hf)|]. rewrite stripped_name. auto.
  - intros Huniq a f Ha Hf Hp Hsc.
    apply (getArguments_reduce_complete _ _ Hnd _ _ _ _ Hred Huniq a f Ha Hf Hp Hsc).
  - intros Hkey. eexists.
    rewrite (getArguments_reduce_other _ _ _ Hnd _ _ _ _ Hred Hkey).
    apply obj_get_set_eq.
Qed.

Lemma order_values_keys (fields : list FieldObject) (k : string) :
  is_Some (obj_get k (order_values fields)) <->
  exists f, In f fields /\ instanceof_GraphQLScalarType f.(f_type) = true /\
            (k = upperCase f.(f_name) +:+ "_ASC" \/ k = upperCase f.(f_name) +:+ "_DESC").
Proof.
  unfold order_values.
  cut (forall acc,
         is_Some (obj_get k
           (fold_left (fun values field =>
               if instanceof_GraphQLScalarType field.(f_type)
               then obj_set (upperCase field.(f_name) +:+ "_DESC") (field.(f_name), (-1)%Z)
                      (obj_set (upperCase field.(f_name) +:+ "_ASC") (field.(f_name), 1%Z)
                         values)
               else values) fields acc)) <->
         is_Some (obj_get k acc) \/
         exists f, In f fields /\ instanceof_GraphQLScalarType f.(f_type) = true /\
                   (k = upperCase f.(f_name) +:+ "_ASC" \/
                    k = upperCase f.(f_name) +:+ "_DESC")).
  { intros Hc. rewrite Hc. split; [intros [[v Hv]|H]; [discriminate | exact H] | auto]. }
  induction fields as [|f fields IH]; intros acc.
  - simpl. split; [auto | intros [H|[f [[] _]]]; exact H].
  - cbn [fold_left]. rewrite IH. split.
    + intros [Hk|[f' [Hin Hf']]]; [|right; exists f'; split; [right|]; tauto].
      destruct (instanceof_GraphQLScalarType (f_type f)) eqn:Hs; [|auto].
      apply obj_set_key in Hk as [->|Hk]; [right; exists f; split; [left|]; auto|].
      apply obj_set_key in Hk as [->|Hk]; [right; exists f; split; [left|]; auto | auto].
    + intros [Hk|[f' [[<-|Hin] [Hs Hf']]]].
      * left. destruct (instanceof_GraphQLScalarType (f_type f)); [|exact Hk].
        do 2 apply obj_set_keeps. exact Hk.
      * left. rewrite Hs. destruct Hf' as [->| ->].
        -- apply obj_set_keeps. rewrite obj_get_set_eq. eauto.
        -- rewrite obj_get_set_eq. eauto.
      * right. exists f'. auto.
Qed.

Lemma upperCase_capitals (s : string) : upperCase s = capitals s.
Proof.
  induction s as [|c r IH]; [reflexivity|].
  cbn [upperCase capitals]. rewrite toUpperCase_capital, IH. reflexivity.
Qed.

(** X17. For a type whose name is none that an object has of its own
    ([constructor], [toString], ...): the ordering argument that
    [getArguments] returns (no field being called like it) carries the enum
    the table holds for the name of the type afterwards. When the table had one for that name already, it is
    that one: a later call for a type of the same name gets the enum of the
    first, whatever its fields are by then. Otherwise the enum is new, it
    is called orderBy followed by the type name, and it is made from the
    fields as they are before [getArguments] takes any non-null wrapper
    off: for fields under ASCII names, its values are the name in capital
    letters followed by [_ASC], and by [_DESC], for every field that is a
    scalar at that moment, and no other. So a field declared non-null
    becomes an argument but never a way to order. *)
Theorem X17_ordering_enum_is_made_before_the_unwrapping :
  forall version type args orderByTypes st r st' o fa m,
    getArguments version type args orderByTypes st = Ok (r, st') ->
    st.(store) !! type = Some (CType o) -> o.(t_fields) = Some fa ->
    st.(store) !! fa = Some (CFieldMap m) ->
    NoDup (map snd m) ->
    o.(t_name) ∉ builtin_names ->
    (forall a f, a ∈ map snd m -> st.(store) !! a = Some (CField f) ->
                 ascii_string f.(f_name) = true /\
                 f.(f_name) <> match version with SortArg => "sort" | OrderByArg => "orderBy" end) ->
    exists enum,
      obj_get (match version with SortArg => "sort" | OrderByArg => "orderBy" end) r.1
      = Some (ArgOrder (match version with SortArg => "sort" | OrderByArg => "orderBy" end)
                enum) /\
      obj_get o.(t_name) r.2 = Some enum /\
      match obj_get o.(t_name) orderByTypes with
      | Some first => enum = first /\ r.2 = orderByTypes
      | None =>
          enum.1 = "orderBy" +:+ o.(t_name) /\
          r.2 = obj_set o.(t_name) enum orderByTypes /\
          forall k,
            is_Some (obj_get k enum.2) <->
            exists a f,
              a ∈ map snd m /\ st.(store) !! a = Some (CField f) /\
              instanceof_GraphQLScalarType f.(f_type) = true /\
              (k = capitals f.(f_name) +:+ "_ASC" \/ k = capitals f.(f_name) +:+ "_DESC")
      end.
Proof.
  intros version type args orderByTypes st r st' o fa m H Ho Hfa Hm Hnd _ Hnames.
  destruct (getArguments_inv _ _ _ _ _ _ _ _ _ _ H Ho Hfa Hm) as [fs [HF [Hr Hred]]].
  exists (getOrderByType (t_name o) fs orderByTypes).1.
  split.
  { rewrite (getArguments_reduce_other _ _ _ Hnd _ _ _ _ Hred
               (fun a f Ha Hf => proj2 (Hnames a f Ha Hf))).
    apply obj_get_set_eq. }
  rewrite Hr. unfold getOrderByType.
  destruct (obj_get (t_name o) orderByTypes) as [first|] eqn:Efirst; cbn [fst snd].
  { split; [exact Efirst | split; reflexivity]. }
  split; [apply obj_get_set_eq|]. split; [reflexivity|]. split; [reflexivity|].
  intros k. rewrite order_values_keys. split.
  - intros [f [Hin Hf]]. apply list_elem_of_In, list_elem_of_lookup in Hin as [i Hi].
    destruct (Forall2_lookup_r _ _ _ _ _ HF Hi) as [a [Ha Hcell]].
    exists a, f. rewrite <- !upperCase_capitals.
    split; [apply (list_elem_of_lookup_2 _ _ _ Ha) | auto].
  - intros [a [f [Ha [Hcell Hf]]]]. apply list_elem_of_lookup in Ha as [i Hi].
    destruct (Forall2_lookup_l _ _ _ _ _ HF Hi) as [f' [Hf' Hcell']].
    rewrite Hcell in Hcell'. injection Hcell' as <-.
    exists f. rewrite !upperCase_capitals.
    split; [apply list_elem_of_In, (list_elem_of_lookup_2 _ _ _ Hf') | exact Hf].
Qed.

(** The account type, built and then asked for its arguments: the name,
    required in the model, is no longer required in the type. *)
Lemma X15_witness :
  match getType 0 "Account" account_model.(m_fields) [] None
          (createTypeContext 0 (mkTypeState [] (Some []) [] [])) with
  | Ok (ref, st1) =>
      match getArguments SortArg ref [] [] st1 with
      | Ok (r, st2) =>
          field_type st1.(store) ref "name" = Some (TNonNull (TScalar "String")) /\
          field_type st2.(store) ref "name" = Some (TScalar "String")
      | _ => False
      end
  | _ => False
  end.
Proof.
  destruct (getType 0 "Account" account_model.(m_fields) [] None
              (createTypeContext 0 (mkTypeState [] (Some []) [] [])))
    as [[ref st1]| |] eqn:E1; [|vm_compute in E1; discriminate..].
  vm_compute in E1. injection E1 as <- <-.
  destruct (getArguments SortArg 6 [] [] _) as [[r st2]| |] eqn:E2;
    [|vm_compute in E2; discriminate..].
  split; [reflexivity|].
  destruct (X15_getArguments_strips_non_null_from_the_type SortArg 6 [] [] _ r st2
              (mkTypeObject "Account" (Some [0]) (Some 5) false) 5
              [("name", 1); ("age", 2); ("tags", 3); ("id", 4)]
              E2 eq_refl eq_refl eq_refl) as [Hf _].
  - apply (bool_decide_unpack _). vm_compute. exact I.
  - apply (Hf "name" 1 (mkFieldObject "name" (TNonNull (TScalar "String")) false));
      reflexivity.
Defined.

Lemma X16_witness :
  match getType 0 "Account" account_model.(m_fields) [] None
          (createTypeContext 0 (mkTypeState [] (Some []) [] [])) with
  | Ok (ref, st1) =>
      match getArguments SortArg ref [] [] st1 with
      | Ok (r, st2) =>
          obj_get "name" r.1 = Some (ArgField 1) /\
          (In ("name", ArgField 1) [] \/
           (1 ∈ [1; 2; 3; 4] /\
            exists f, st2.(store) !! 1 = Some (CField f) /\ f.(f_name) = "name" /\
                      passed_by SortArg "name" = false /\
                      instanceof_GraphQLScalarType f.(f_type) = true))
      | _ => False
      end
  | _ => False
  end.
Proof.
  destruct (getType 0 "Account" account_model.(m_fields) [] None
              (createTypeContext 0 (mkTypeState [] (Some []) [] [])))
    as [[ref st1]| |] eqn:E1; [|vm_compute in E1; discriminate..].
  vm_compute in E1. injection E1 as <- <-.
  destruct (getArguments SortArg 6 [] [] _) as [[r st2]| |] eqn:E2;
    [|vm_compute in E2; discriminate..].
  assert (Hname : obj_get "name" r.1 = Some (ArgField 1)).
  { vm_compute in E2. injection E2 as <- _. reflexivity. }
  split; [exact Hname|].
  destruct (X16_getArguments_hands_out_the_field_objects SortArg 6 [] [] _ r st2
              (mkTypeObject "Account" (Some [0]) (Some 5) false) 5
              [("name", 1); ("age", 2); ("tags", 3); ("id", 4)]
              E2 eq_refl eq_refl eq_refl) as [Hs _].
  - apply (bool_decide_unpack _). vm_compute. exact I.
  - apply (Hs "name" 1 Hname).
Defined.

(** The account type asked for its arguments twice: the age is the one
    way to order, the name being required and the tags a list when the
    enum is made; the second call, by which the name is a scalar, gets the
    same enum. *)
Lemma X17_witness :
  match getType 0 "Account" account_model.(m_fields) [] None
          (createTypeContext 0 (mkTypeState [] (Some []) [] [])) with
  | Ok (ref, st1) =>
      match getArguments SortArg ref [] [] st1 with
      | Ok (r, st2) =>
          obj_get "sort" r.1
          = Some (ArgOrder "sort"
                    ("orderByAccount",
                     [("AGE_ASC", ("age", 1%Z)); ("AGE_DESC", ("age", (-1)%Z))])) /\
          field_type st2.(store) ref "name" = Some (TScalar "String") /\
          match getArguments SortArg ref [] r.2 st2 with
          | Ok (r', st3) =>
              exists enum,
                obj_get "sort" r'.1 = Some (ArgOrder "sort" enum) /\
                obj_get "Account" r'.2 = Some enum /\
                enum = ("orderByAccount",
                        [("AGE_ASC", ("age", 1%Z)); ("AGE_DESC", ("age", (-1)%Z))]) /\
                r'.2 = r.2
          | _ => False
          end
      | _ => False
      end
  | _ => False
  end.
Proof.
  destruct (getType 0 "Account" account_model.(m_fields) [] None
              (createTypeContext 0 (mkTypeState [] (Some []) [] [])))
    as [[ref st1]| |] eqn:E1; [|vm_compute in E1; discriminate..].
  vm_compute in E1. injection E1 as <- <-.
  destruct (getArguments SortArg 6 [] [] _) as [[r st2]| |] eqn:E2;
    [|vm_compute in E2; discriminate..].
  vm_compute in E2. injection E2 as <- <-.
  split; [reflexivity|]. split; [reflexivity|].
  destruct (getArguments SortArg 6 [] _ _) as [[r' st3]| |] eqn:E3;
    [|vm_compute in E3; discriminate..].
  apply (X17_ordering_enum_is_made_before_the_unwrapping SortArg 6 [] _ _ r' st3
           (mkTypeObject "Account" (Some [0]) (Some 5) false) 5
           [("name", 1); ("age", 2); ("tags", 3); ("id", 4)]
           E3 eq_refl eq_refl eq_refl).
  - apply (bool_decide_unpack _). vm_compute. exact I.
  - apply (bool_decide_unpack _). vm_compute. exact I.
  - intros a f Ha Hf. cbn [map snd] in Ha.
    repeat (apply elem_of_cons in Ha as [->|Ha];
            [injection Hf as <-; split; [reflexivity | discriminate]|]).
    apply elem_of_nil in Ha. destruct Ha.
Defined.

(** ** The gate of type/type.js *)

Lemma forEachM_noop {A : Type} (f : A -> TypeM unit) (l : list A) (st : TypeState) :
  (forall x u st', In x l -> f x st = Ok (u, st') -> st' = st) ->
  forall u st', forEachM f l st = Ok (u, st') -> st' = st.
Proof.
  induction l as [|x l IH]; intros Hf u st' H.
  - apply retT_inv in H as [_ ->]. reflexivity.
  - cbn [forEachM] in H. apply bindT_inv in H as [u1 [st1 [Hx H]]].
    apply Hf in Hx; [|left; reflexivity]. subst st1.
    apply (IH (fun y u' st'' Hy => Hf y u' st'' (or_intror Hy)) _ _ H).
Qed.

(** X18. In the version of type/type.js, whose gate asks the cache for the
    name of the type, a context that has a cache never resolves a
    reference when every model is cached under its own name: each type is
    in the cache by the time the pass looks, being put there when built, so
    that the pass changes nothing and [getTypes] ends in the very state the
    reduce over the models left. *)
Theorem X18_cache_gate_skips_every_resolution :
  forall nodeInterface graffitiModels st types st',
    getTypes_cacheGate nodeInterface graffitiModels st = Ok (types, st') ->
    is_Some st.(cache) ->
    (forall m, In m graffitiModels -> m.(m_key) = m.(m_name)) ->
    exists reResolveTypes,
      reduceT (getTypes_model nodeInterface) graffitiModels ([], []) st
      = Ok ((types, reResolveTypes), st').
Proof.
  intros nodeInterface graffitiModels st types st' H [entries Hcache] Hkeys.
  unfold getTypes_cacheGate in H. apply bindT_inv in H as [[types1 rr1] [st1 [Hred H]]].
  apply bindT_inv in H as [rr [st2 [Hrr H]]]. injection Hrr as <- <-.
  apply bindT_inv in H as [u [st3 [Hpass H]]].
  apply retT_inv in H as [-> ->]. cbn [fst] in *.
  exists rr1. rewrite Hred. do 2 f_equal. symmetry.
  destruct (getTypes_reduce _ _ _ _ _ _ Hred) as [[Hg _] [_ Hcached]].
  { intros k ref Hk. discriminate. }
  rewrite Hcache in Hg. destruct (cache st1) as [entries1|] eqn:E1; [|destruct Hg].
  apply (forEachM_noop _ _ _) with (2 := Hpass).
  intros [typeName fields] u' st'' _ Hx. cbn [fst snd] in Hx.
  apply bindT_inv in Hx as [c [st4 [Hc Hx]]]. injection Hc as <- <-.
  rewrite E1 in Hx.
  destruct (bool_decide (is_Some (obj_get typeName entries1))) eqn:Hb.
  - apply retT_inv in Hx as [_ ->]. reflexivity.
  - unfold resolve_type in Hx.
    destruct (obj_get typeName types1) as [type|] eqn:Et;
      [|apply retT_inv in Hx as [_ ->]; reflexivity].
    exfalso. apply bool_decide_eq_false_1 in Hb. apply Hb. clear Hb.
    assert (Hm : exists m, In m graffitiModels /\ m.(m_name) = typeName).
    { pose proof (reduceT_model_keys _ _ _ _ _ _ Hred typeName) as Hk. cbn [fst] in Hk.
      destruct (proj1 Hk (ex_intro _ type Et)) as [[v Hv]|Hm]; [discriminate | exact Hm]. }
    destruct Hm as [m [Hin <-]]. rewrite <- (Hkeys _ Hin).
    apply (Hcached _ eq_refl _ Hin).
Qed.

Lemma X18_witness :
  match getTypes_cacheGate 0 [user_model]
          (createTypeContext 0 (mkTypeState [] (Some []) [] [])) with
  | Ok (types, st') =>
      exists reResolveTypes,
        reduceT (getTypes_model 0) [user_model] ([], [])
          (createTypeContext 0 (mkTypeState [] (Some []) [] []))
        = Ok ((types, reResolveTypes), st')
  | _ => False
  end.
Proof.
  destruct (getTypes_cacheGate 0 [user_model]
              (createTypeContext 0 (mkTypeState [] (Some []) [] [])))
    as [[types st']| |] eqn:E; [|vm_compute in E; discriminate..].
  apply (X18_cache_gate_skips_every_resolution 0 [user_model] _ types st' E).
  - eexists. reflexivity.
  - intros m [<-|[]]. reflexivity.
Defined.

(** ** Field arguments and the filter compiler *)

Lemma getFieldArguments_list_keys (field : OutputField) (ofType : GraphQLType)
    (memo : gmap string GraphQLType) (args : list (string * FieldArg))
    (memo' : gmap string GraphQLType) (k : string) :
  unwrap_nonNull field.(of_type) = GraphQLList ofType ->
  getFieldArguments field [] memo = Ok (args, memo') ->
  is_Some (obj_get k args) -> k = "all" \/ k = "size".
Proof.
  unfold getFieldArguments. intros Hty H [v Hv].
  destruct (String.eqb (of_name field) "_id" || String.eqb (of_name field) "id")%bool.
  - injection H as <- _. discriminate.
  - rewrite Hty in H. cbn [instanceof_scalar_or_enum instanceof_object] in H.
    destruct (createInputObject ofType memo) as [r| |]; simpl in H; try discriminate.
    injection H as <- _. apply obj_get_In in Hv.
    destruct Hv as [[= <- _]|[[= <- _]|[]]]; auto.
Qed.

(** X19. What [getFieldArguments] declares for a list field, [all] and
    [size], is nothing that [getFilterObject] reads: a selected field that
    carries only arguments declared for a list field yields no clause, and
    a selection made of such a field compiles to the empty filter. *)
Theorem X19_list_field_arguments_are_not_compiled :
  forall field ofType inputByTypes args memo info name qargs fuel parentName,
    unwrap_nonNull field.(of_type) = GraphQLList ofType ->
    getFieldArguments field [] inputByTypes = Ok (args, memo) ->
    (forall it, In it qargs -> is_Some (obj_get it.(arg_name) args)) ->
    filters_of info qargs = Ok [] /\
    getFilterObject (S (S fuel)) (Some info) (NNode (Some [Field name qargs None])) parentName
    = Ok [].
Proof.
  intros field ofType inputByTypes args memo info name qargs fuel parentName Hty H Hq.
  assert (Hnone : filter (fun it => is_comparison it = true) qargs = []).
  { induction qargs as [|it qargs IH]; [reflexivity|].
    rewrite filter_cons. destruct (decide (is_comparison it = true)) as [Hc|Hc].
    - exfalso. unfold is_comparison in Hc. apply bool_decide_eq_true_1 in Hc.
      destruct (getFieldArguments_list_keys _ _ _ _ _ _ Hty H (Hq it (or_introl eq_refl)))
        as [Hk|Hk]; rewrite Hk in Hc;
        repeat (apply elem_of_cons in Hc as [Hc|Hc]; [discriminate|]);
        inversion Hc.
    - apply IH. intros it' Hin. apply Hq. right; exact Hin. }
  assert (Hf : filters_of info qargs = Ok []).
  { unfold filters_of. rewrite Hnone. reflexivity. }
  split; [exact Hf|].
  change (getFilterObject (S (S fuel)) (Some info)
            (NNode (Some [Field name qargs None])) parentName)
    with (b ← (filters ← filters_of info qargs;
               sub ← getFilterObject (S fuel) (Some info) (NNode None)
                       (Some (node_prefix parentName name));
               Ok (obj_assign (obj_assign (obj_assign [] []) sub)
                     (config_of (node_prefix parentName name) (op_of qargs) filters)));
          Ok b).
  rewrite Hf. reflexivity.
Qed.

Lemma X19_witness :
  filters_of (mkInfo None [] [])
    [mkArgument "size" (IntValue "2"); mkArgument "all" (ListValue [IntValue "1"])] = Ok [] /\
  getFilterObject 2 (Some (mkInfo None [] []))
    (NNode (Some [Field "nums"
                    [mkArgument "size" (IntValue "2");
                     mkArgument "all" (ListValue [IntValue "1"])] None])) None
  = Ok [].
Proof.
  apply (X19_list_field_arguments_are_not_compiled
           (mkOutputField "nums" (GraphQLNonNull (GraphQLList GraphQLFloat)))
           GraphQLFloat ∅
           [ ("all", mkFieldArg "all" (GraphQLList GraphQLFloat)
                "Matches arrays that contain all elements specified in the query.");
             ("size", mkFieldArg "size" GraphQLInt
                "Selects documents if the array field is a specified size.") ]
           ∅ (mkInfo None [] []) "nums"
           [mkArgument "size" (IntValue "2"); mkArgument "all" (ListValue [IntValue "1"])]
           0 None).
  - reflexivity.
  - reflexivity.
  - intros it [<-|[<-|[]]]; eexists; reflexivity.
Defined.

(** ** The model cache and the schema cache *)

Section ModelCacheFacts.

Context {Paths : Type}.
Variable extractPaths :
  Paths -> string -> ModelState Paths ->
  outcome (list FieldDescriptor * ModelState Paths).

(** X20. In a context with a cache, once [getModel] has returned for a
    model, it returns the same graffiti model, without extracting anything
    and without touching the state, for every model of the same
    [modelName], whatever its schema: the cache goes by that name alone.
    This holds for every [extractPaths]. *)
Theorem X20_getModel_serves_by_modelName (model model' : MongooseModel Paths)
    (st st1 : ModelState Paths) (gmodel : GraffitiModel Paths) :
  getModel extractPaths true model st = Ok (gmodel, st1) ->
  model'.(modelName) = model.(modelName) ->
  getModel extractPaths true model' st1 = Ok (gmodel, st1).
Proof.
  unfold getModel. intros H Hname. rewrite Hname.
  destruct (obj_get (modelName model) (modelCache st)) as [g|] eqn:Ehit.
  - injection H as <- <-. rewrite Ehit. reflexivity.
  - destruct (extractPaths _ _ st) as [[fields st2]| |]; simpl in H; try discriminate.
    injection H as <- <-. cbn [modelCache]. rewrite obj_get_set_eq. reflexivity.
Qed.

End ModelCacheFacts.

Lemma X20_witness :
  getModel (fun (p : list FieldDescriptor) _ st => Ok (p, st)) true
    (mkMongooseModel "User" None None
       [mkFieldDescriptor "age" "Number" None None false false [] None None])
    (mkModelState [("User", mkGraffitiModel "User" "User" []
                              (mkMongooseModel "User" None None []))] [])
  = Ok (mkGraffitiModel "User" "User" [] (mkMongooseModel "User" None None []),
        mkModelState [("User", mkGraffitiModel "User" "User" []
                                 (mkMongooseModel "User" None None []))] []).
Proof.
  apply (X20_getModel_serves_by_modelName (fun (p : list FieldDescriptor) _ st => Ok (p, st))
           (mkMongooseModel "User" None None [])
           (mkMongooseModel "User" None None
              [mkFieldDescriptor "age" "Number" None None false false [] None None])
           (mkModelState [] [])); reflexivity.
Defined.

Section SchemaCacheFacts.

Context {Paths O Schema B : Type}.
Variable stringHash : string -> Z.
Variable build :
  list (MongooseModel Paths) -> SchemaOptions O -> B -> outcome (Schema * B).

(** X21. With options there is always a schema cache, the one handed in or
    that of the module, so that a call of [getSchema] that returns leaves
    its schema stored, and a later call that comes to the same key in the
    same cache gets that schema back with nothing built and no state
    changed, whatever models it is given. The key is the [cacheKey] when
    that is truthy; otherwise it is made from the labels of the models
    joined by [#], the label of a model being its [versionedName] when it
    has one that is not empty and its [modelName] otherwise. This holds for
    every hash and every way of building. *)
Theorem X21_getSchema_serves_by_key :
  forall mongooseModels options st schema st1 mongooseModels' options',
    let label := fun model : MongooseModel Paths =>
                   match model.(versionedName) with
                   | Some v => if bool_decide (v = "") then model.(modelName) else v
                   | None => model.(modelName)
                   end in
    let listed := fun ms : MongooseModel Paths + list (MongooseModel Paths) =>
                    match ms with inl model => [model] | inr l => l end in
    getSchema stringHash build mongooseModels (Some options) st = Ok (schema, st1) ->
    options'.(schemaCache) = options.(schemaCache) ->
    (truthy options.(cacheKey) = true /\ options'.(cacheKey) = options.(cacheKey)) \/
    (truthy options.(cacheKey) = false /\ truthy options'.(cacheKey) = false /\
     join "#" (map label (listed mongooseModels'))
     = join "#" (map label (listed mongooseModels))) ->
    getSchema stringHash build mongooseModels' (Some options') st1 = Ok (schema, st1).
Proof.
  intros mongooseModels options st schema st1 mongooseModels' options' label listed
         H Hcache Hsame.
  assert (Hlabel : forall model, model_label model = label model).
  { intros model. unfold model_label, label, truthy_string.
    destruct (versionedName model) as [v|]; [|reflexivity].
    destruct (String.eqb_spec v "") as [->|Hne];
      [rewrite bool_decide_eq_true_2 by reflexivity
      |rewrite bool_decide_eq_false_2 by exact Hne]; reflexivity. }
  assert (Hkey : schema_key stringHash (listed mongooseModels') options'
                 = schema_key stringHash (listed mongooseModels) options).
  { unfold schema_key, js_or. destruct Hsame as [[Ht ->]|[Ht [Ht' Hjoin]]].
    - rewrite Ht. reflexivity.
    - rewrite Ht, Ht'. rewrite !(map_ext _ _ Hlabel), Hjoin. reflexivity. }
  unfold getSchema in *. fold (listed mongooseModels) in H. fold (listed mongooseModels').
  rewrite Hkey. unfold schema_cache_of in *. rewrite Hcache.
  destruct (match schemaCache options with Some c => Some c | None => Some 0 end)
    as [c|] eqn:Ec; [|destruct (schemaCache options); discriminate].
  destruct (schemaCaches st !! c) as [entries|] eqn:Ecache; [|discriminate].
  destruct (obj_get _ entries) as [s|] eqn:Ehit.
  - injection H as <- <-. rewrite Ecache, Ehit. reflexivity.
  - destruct (build _ options (building st)) as [[s b]| |]; simpl in H; try discriminate.
    injection H as <- <-. cbn [schemaCaches].
    rewrite list_lookup_insert_eq by (apply lookup_lt_Some in Ecache; exact Ecache).
    rewrite obj_get_set_eq. reflexivity.
Qed.

End SchemaCacheFacts.

(** A schema built for the model User in its version User_v2 is served
    for another model that goes by the same version name. *)
Lemma X21_witness :
  getSchema (fun s => Z.of_nat (String.length s))
    (fun (ms : list (MongooseModel unit)) (_ : SchemaOptions unit) (b : nat) =>
       Ok (map modelName ms, S b))
    (inl (mkMongooseModel "Account" (Some "User_v2") None tt))
    (Some (mkSchemaOptions VUndef None tt))
    (mkSchemaState [[("7", ["User"])]] 1)
  = Ok (["User"], mkSchemaState [[("7", ["User"])]] 1).
Proof.
  apply (X21_getSchema_serves_by_key (fun s => Z.of_nat (String.length s))
           (fun (ms : list (MongooseModel unit)) (_ : SchemaOptions unit) (b : nat) =>
              Ok (map modelName ms, S b))
           (inr [mkMongooseModel "User" (Some "User_v2") None tt])
           (mkSchemaOptions VUndef None tt)
           (mkSchemaState [[]] 0)).
  - reflexivity.
  - reflexivity.
  - right. split; [reflexivity|]. split; reflexivity.
Defined.

(** ** The resolution pass *)

Lemma obj_assign_other {A : Type} (k : string) (o src : list (string * A)) :
  k ∉ map fst src -> obj_get k (obj_assign o src) = obj_get k o.
Proof.
  revert o. induction src as [|[k' v'] src IH]; intros o Hk; [reflexivity|].
  change (obj_assign o ((k', v') :: src)) with (obj_assign (obj_set k' v' o) src).
  cbn [map fst] in Hk. apply not_elem_of_cons in Hk as [Hne Hk].
  rewrite (IH _ Hk). apply obj_get_set_ne. congruence.
Qed.

Lemma obj_assign_last {A : Type} (k : string) (v : A) (o src : list (string * A)) :
  NoDup (map fst src) -> In (k, v) src -> obj_get k (obj_assign o src) = Some v.
Proof.
  revert o. induction src as [|[k' v'] src IH]; intros o Hnd Hin; [destruct Hin|].
  change (obj_assign o ((k', v') :: src)) with (obj_assign (obj_set k' v' o) src).
  cbn [map fst] in Hnd. apply NoDup_cons in Hnd as [Hfresh Hnd].
  destruct Hin as [[= -> ->]|Hin].
  - rewrite (obj_assign_other _ _ _ Hfresh). apply obj_get_set_eq.
  - apply (IH _ Hnd Hin).
Qed.

(** One slot under a single-segment key, for a field the walk does not
    step into. *)
Lemma resolve_slot_leaf (types : list (string * nat)) (typeName : string) (fa : nat)
    (h : list cell) (k : string) (s : nat) (m : list (string * nat))
    (n r : string) (c : bool) (a : nat) (f : FieldObject) :
  h !! fa = Some (CFieldMap m) ->
  split_dots k "" = [k] ->
  h !! s = Some (CField (mkFieldObject n (TString r) c)) ->
  obj_get k m = Some a -> h !! a = Some (CField f) -> leaf_type f.(f_type) = true ->
  a <> s ->
  resolve_slot types typeName (PStore fa) h (k, s)
  = Ok (<[fa := CFieldMap (obj_set k s m)]>
          (<[s := CField (mkFieldObject n (resolved_type types typeName k c r) c)]> h)).
Proof.
  intros Hfa Hk Hs Hka Ha Hleaf Hne. unfold resolve_slot. rewrite Hs, Hk.
  cbn [f_type f_name f_connection type_key imap length Nat.sub reduceM].
  assert (Hfa1 : <[s := CField (mkFieldObject n (resolved_type types typeName k c r) c)]> h
                 !! fa = Some (CFieldMap m)).
  { rewrite list_lookup_insert_ne; [exact Hfa|]. intros ->. congruence. }
  assert (Ha1 : <[s := CField (mkFieldObject n (resolved_type types typeName k c r) c)]> h
                !! a = Some (CField f)).
  { rewrite list_lookup_insert_ne; [exact Ha|]. congruence. }
  unfold resolved_type in *. unfold path_step, parent_lookup.
  rewrite Hfa1, Hka, Ha1. cbn [mbind]. simpl.
  unfold leaf_type in Hleaf. apply andb_true_iff in Hleaf as [Hno Hl].
  apply negb_true_iff in Hno. rewrite Hno.
  destruct (f_type f) as [| |t'| | | | | | |]; try (rewrite Hfa1; reflexivity).
  apply negb_true_iff in Hl. rewrite Hl. rewrite Hfa1. reflexivity.
Qed.

Lemma resolve_slots_pending (types : list (string * nat)) (typeName : string) (fa : nat)
    (slots : list (string * nat)) :
  forall h m,
    pending h fa m slots ->
    exists h',
      reduceM (resolve_slot types typeName (PStore fa)) slots h = Ok h' /\
      h' !! fa = Some (CFieldMap (obj_assign m slots)) /\
      (forall k s n r c,
         In (k, s) slots -> h !! s = Some (CField (mkFieldObject n (TString r) c)) ->
         h' !! s = Some (CField (mkFieldObject n (resolved_type types typeName k c r) c))) /\
      (forall b, b <> fa -> b ∉ map snd slots -> h' !! b = h !! b).
Proof.
  induction slots as [|[k0 s0] rest IH]; intros h m [Hfa [Hndk [Hnds [Hrange Hslots]]]].
  - exists h. split; [reflexivity|]. split; [exact Hfa|]. split; [intros k s n r c []|auto].
  - cbn [map fst snd] in Hndk, Hnds.
    apply NoDup_cons in Hndk as [Hk0 Hndk]. apply NoDup_cons in Hnds as [Hs0 Hnds].
    destruct (Hslots k0 s0 (or_introl eq_refl))
      as [Hdot [[n0 [r0 [c0 Hcell0]]] [a0 [f0 [Hka0 [Ha0 Hleaf0]]]]]].
    assert (Hne0 : a0 <> s0).
    { intros ->. apply (Hrange _ _ Hka0). left. }
    assert (Hsfa : s0 <> fa) by (intros ->; congruence).
    set (h1 := <[fa := CFieldMap (obj_set k0 s0 m)]>
                 (<[s0 := CField (mkFieldObject n0
                                    (resolved_type types typeName k0 c0 r0) c0)]> h)).
    assert (Hother : forall b, b <> fa -> b <> s0 -> h1 !! b = h !! b).
    { intros b Hb1 Hb2. unfold h1.
      rewrite list_lookup_insert_ne by congruence.
      rewrite list_lookup_insert_ne by congruence. reflexivity. }
    assert (Hfa1 : h1 !! fa = Some (CFieldMap (obj_set k0 s0 m))).
    { unfold h1. apply list_lookup_insert_eq. rewrite length_insert.
      apply lookup_lt_Some in Hfa. exact Hfa. }
    assert (Hs01 : h1 !! s0 = Some (CField (mkFieldObject n0
                                         (resolved_type types typeName k0 c0 r0) c0))).
    { unfold h1. rewrite list_lookup_insert_ne by congruence.
      apply list_lookup_insert_eq. apply lookup_lt_Some in Hcell0. exact Hcell0. }
    destruct (IH h1 (obj_set k0 s0 m)) as [h' [Hred [Hfa' [Hres Hframe]]]].
    { split; [exact Hfa1|]. split; [exact Hndk|]. split; [exact Hnds|]. split.
      - intros k a Hka. destruct (decide (k0 = k)) as [<-|Hne].
        + rewrite obj_get_set_eq in Hka. injection Hka as <-. exact Hs0.
        + rewrite obj_get_set_ne in Hka by exact Hne.
          intros Hin. apply (Hrange _ _ Hka). right. exact Hin.
      - intros k s Hin.
        destruct (Hslots k s (or_intror Hin))
          as [Hd [[n [r [c Hcell]]] [a [f [Hka [Ha Hleaf]]]]]].
        assert (Hks : k <> k0).
        { intros ->. apply Hk0. apply list_elem_of_In. apply (in_map fst) in Hin. exact Hin. }
        assert (Hss : s <> s0).
        { intros ->. apply Hs0. apply list_elem_of_In. apply (in_map snd) in Hin. exact Hin. }
        split; [exact Hd|]. split.
        + exists n, r, c. rewrite Hother; [exact Hcell | intros ->; congruence | exact Hss].
        + exists a, f. split; [rewrite obj_get_set_ne by congruence; exact Hka|].
          split; [|exact Hleaf].
          rewrite Hother; [exact Ha | intros ->; congruence|].
          intros ->. apply (Hrange _ _ Hka). left. }
    exists h'. split; [|split; [exact Hfa'|split]].
    + cbn [reduceM].
      rewrite (resolve_slot_leaf _ _ _ _ _ _ _ _ _ _ _ _ Hfa Hdot Hcell0 Hka0 Ha0 Hleaf0 Hne0).
      exact Hred.
    + intros k s n r c [[= -> ->]|Hin] Hcell.
      * rewrite Hcell0 in Hcell. injection Hcell as <- <- <-.
        rewrite (Hframe _ Hsfa Hs0). exact Hs01.
      * apply (Hres _ _ _ _ _ Hin).
        assert (Hss : s <> s0).
        { intros ->. apply Hs0. apply list_elem_of_In. apply (in_map snd) in Hin. exact Hin. }
        rewrite Hother; [exact Hcell | intros ->; congruence | exact Hss].
    + intros b Hb Hnot. cbn [map snd] in Hnot. apply not_elem_of_cons in Hnot as [Hb0 Hnot].
      rewrite (Hframe _ Hb Hnot). apply (Hother _ Hb Hb0).
Qed.



(** ** getTypes on models of scalars *)

Lemma alloc_inv (c : cell) (st : TypeState) (a : nat) (st' : TypeState) :
  alloc c st = Ok (a, st') ->
  a = length st.(store) /\ st'.(store) = st.(store) ++ [c] /\
  st'.(cache) = st.(cache) /\ st'.(types) = st.(types) /\
  st'.(resolveReference) = st.(resolveReference).
Proof. intros [= <- <-]. auto. Qed.

Lemma add_slot_inv (rootName key : string) (slot : nat) (st : TypeState) (u : unit)
    (st' : TypeState) :
  add_slot rootName key slot st = Ok (u, st') ->
  exists slots,
    obj_get rootName st.(resolveReference) = Some slots /\
    st'.(resolveReference) = obj_set rootName (obj_set key slot slots) st.(resolveReference) /\
    st'.(store) = st.(store) /\ st'.(cache) = st.(cache) /\ st'.(types) = st.(types).
Proof.
  unfold add_slot. destruct (obj_get rootName (resolveReference st)) as [slots|];
    [|discriminate].
  intros [= _ <-]. exists slots. auto.
Qed.

(** What the first pass does for one field that is shown and is a scalar,
    an enum or a list of scalars. *)
Lemma getType_field_flat (nodeInterface : nat) (tn rn : string) (fd : FieldDescriptor)
    (acc : list (string * nat)) (st : TypeState) (acc' : list (string * nat))
    (st' : TypeState) (ty : gtype) :
  getType_field nodeInterface tn [] rn fd acc st = Ok (acc', st') ->
  fd_visible fd = true ->
  plain_type tn fd = Some ty ->
  st'.(cache) = st.(cache) /\ st'.(types) = st.(types) /\
  match slot_of tn fd with
  | Some (r, c) =>
      exists slots,
        obj_get rn st.(resolveReference) = Some slots /\
        st'.(store) = st.(store) ++
          [CField (mkFieldObject (fd_name fd) (TString r) c);
           CField (mkFieldObject (fd_name fd) ty false)] /\
        st'.(resolveReference)
        = obj_set rn (obj_set (fd_name fd) (length st.(store)) slots) st.(resolveReference) /\
        acc' = obj_set (fd_name fd) (S (length st.(store))) acc
  | None =>
      st'.(store) = st.(store) ++ [CField (mkFieldObject (fd_name fd) ty false)] /\
      st'.(resolveReference) = st.(resolveReference) /\
      acc' = obj_set (fd_name fd) (length st.(store)) acc
  end.
Proof.
  destruct fd as [name type subtype reference nonNull hidden fields em ev].
  rewrite getType_field_eq. cbv zeta. cbn [fd_visible fd_name plain_type slot_of base_type].
  intros H Hv Hp.
  destruct (hidden || String.prefix "__" name)%bool; [discriminate|].
  apply bindT_inv in H as [fieldType [st1 [Hty H]]].
  apply bindT_inv in H as [u [st2 [Hslot H]]].
  apply bindT_inv in H as [a [st3 [Ha H]]].
  apply retT_inv in H as [-> ->].
  apply alloc_inv in Ha as [-> [Hs3 [Hc3 [Ht3 Hr3]]]].
  rewrite Hs3, Hc3, Ht3, Hr3. clear Hs3 Hc3 Ht3 Hr3 st3.
  destruct (String.eqb type "Array") eqn:Earr.
  - destruct (bool_decide (subtype = Some "Object")); [discriminate|].
    injection Hp as <-.
    apply bindT_inv in Hty as [u' [st1' [Hpre Hty]]]. apply retT_inv in Hty as [-> ->].
    destruct (truthy_string reference) as [r|] eqn:Er.
    + apply bindT_inv in Hpre as [s [st0 [Hs Hpre]]].
      apply alloc_inv in Hs as [-> [Hs0 [Hc0 [Ht0 Hr0]]]].
      apply add_slot_inv in Hpre as [slots [Hg [Hr1 [Hs1 [Hc1 Ht1]]]]].
      assert (Hst2 : st2 = st1').
      { destruct (bool_decide (_ = TScalar "ID")) eqn:Hb;
          [apply bool_decide_eq_true_1 in Hb; discriminate|].
        apply retT_inv in Hslot as [_ ->]. reflexivity. }
      subst st2. rewrite Hs1, Hc1, Ht1, Hr1, Hs0, Hc0, Ht0.
      split; [reflexivity|]. split; [reflexivity|].
      exists slots. rewrite Hr0 in Hg. rewrite Hr0.
      split; [exact Hg|]. rewrite <- app_assoc. cbn [app].
      rewrite length_app. cbn [length].
      replace (length (store st) + 1) with (S (length (store st))) by lia.
      destruct nonNull; auto.
    + apply retT_inv in Hpre as [_ ->]. apply retT_inv in Hslot as [_ ->].
      destruct nonNull; auto.
  - destruct (String.eqb type "Object"); [discriminate|].
    destruct (String.eqb type "Embedded"); [discriminate|].
    injection Hp as <-.
    assert (Hft : fieldType = match ev with
                              | Some vs =>
                                  if String.eqb type "String"
                                  then TEnum (getTypeFieldName tn (name +:+ "Enum")) vs
                                  else stringToGraphQLType type
                              | None => stringToGraphQLType type
                              end /\ st1 = st).
    { destruct ev as [vs|]; [destruct (String.eqb type "String")|];
        apply retT_inv in Hty as [-> ->]; auto. }
    destruct Hft as [<- ->].
    destruct (truthy_string reference) as [r|] eqn:Er.
    + destruct (bool_decide (fieldType = TScalar "ID")) eqn:Hb.
      * apply bindT_inv in Hslot as [s [st0 [Hs Hslot]]].
        apply alloc_inv in Hs as [-> [Hs0 [Hc0 [Ht0 Hr0]]]].
        apply add_slot_inv in Hslot as [slots [Hg [Hr1 [Hs1 [Hc1 Ht1]]]]].
        rewrite Hs1, Hc1, Ht1, Hr1, Hs0, Hc0, Ht0.
        split; [reflexivity|]. split; [reflexivity|].
        exists slots. rewrite Hr0 in Hg. rewrite Hr0.
        split; [exact Hg|]. rewrite <- app_assoc. cbn [app].
        rewrite length_app. cbn [length].
        replace (length (store st) + 1) with (S (length (store st))) by lia.
        destruct nonNull; auto.
      * apply retT_inv in Hslot as [_ ->]. destruct nonNull; auto.
    + apply retT_inv in Hslot as [_ ->]. destruct nonNull; auto.
Qed.

Section ObjectNoDup.

Context {A : Type}.
Implicit Types (o : list (string * A)) (k : string) (v : A).

Lemma obj_get_None k o : obj_get k o = None -> k ∉ map fst o.
Proof.
  induction o as [|[k' v'] o IH]; simpl; [intros _ H; inversion H|].
  destruct (String.eqb k' k) eqn:E; [discriminate|].
  intros H Hin. apply elem_of_cons in Hin as [->|Hin]; [|apply (IH H Hin)].
  rewrite String.eqb_refl in E. discriminate.
Qed.

Lemma obj_replace_keys k v o : map fst (obj_replace k v o) = map fst o.
Proof.
  induction o as [|[k' v'] o IH]; [reflexivity|]. simpl.
  destruct (String.eqb k' k); simpl; [reflexivity | rewrite IH; reflexivity].
Qed.

Lemma obj_insert_index_perm n k v o : obj_insert_index n k v o ≡ₚ (k, v) :: o.
Proof.
  induction o as [|[k' v'] o IH]; [reflexivity|]. simpl.
  destruct (array_index k') as [n'|]; [destruct (n' <? n)%Z|]; try reflexivity.
  rewrite IH. apply perm_swap.
Qed.

Lemma obj_set_keys_NoDup k v o : NoDup (map fst o) -> NoDup (map fst (obj_set k v o)).
Proof.
  intros Hnd. unfold obj_set. destruct (obj_get k o) eqn:E.
  - rewrite obj_replace_keys. exact Hnd.
  - apply obj_get_None in E. destruct (array_index k).
    + rewrite (obj_insert_index_perm _ k v o). simpl. apply NoDup_cons. auto.
    + rewrite map_app. simpl. apply NoDup_app. split; [exact Hnd|].
      split; [|apply NoDup_singleton].
      intros x Hx Hx'. apply list_elem_of_singleton in Hx'. subst x. contradiction.
Qed.

Lemma obj_replace_values_NoDup k (v : A) o :
  NoDup (map snd o) -> v ∉ map snd o -> NoDup (map snd (obj_replace k v o)).
Proof.
  induction o as [|[k' v'] o IH]; [auto|]. simpl. intros Hnd Hv.
  apply NoDup_cons in Hnd as [Hfresh Hnd]. apply not_elem_of_cons in Hv as [Hne Hv].
  destruct (String.eqb k' k); simpl; apply NoDup_cons.
  - auto.
  - split; [|apply IH; assumption].
    intros Hin. apply list_elem_of_In in Hin. apply obj_replace_values in Hin as [->|Hin];
      [congruence | apply Hfresh, list_elem_of_In, Hin].
Qed.

Lemma obj_set_values_NoDup k (v : A) o :
  NoDup (map snd o) -> v ∉ map snd o -> NoDup (map snd (obj_set k v o)).
Proof.
  intros Hnd Hv. unfold obj_set. destruct (obj_get k o).
  - apply obj_replace_values_NoDup; assumption.
  - destruct (array_index k).
    + rewrite (obj_insert_index_perm _ k v o). simpl. apply NoDup_cons. auto.
    + rewrite map_app. simpl. apply NoDup_app. split; [exact Hnd|].
      split; [|apply NoDup_singleton].
      intros x Hx Hx'. apply list_elem_of_singleton in Hx'. subst x. contradiction.
Qed.

End ObjectNoDup.

Lemma plain_leaf (typeName : string) (fd : FieldDescriptor) (ty : gtype) :
  plain_type typeName fd = Some ty -> leaf_type ty = true.
Proof.
  destruct fd as [name type subtype reference nonNull hidden fields em ev].
  cbn [plain_type]. unfold stringToGraphQLType.
  destruct (String.eqb type "Array");
    [destruct (bool_decide (subtype = Some "Object")); [discriminate|]
    |destruct (String.eqb type "Object"); [discriminate|];
     destruct (String.eqb type "Embedded"); [discriminate|]];
    intros [= <-]; destruct nonNull; try reflexivity;
    repeat case_match; reflexivity.
Qed.

Lemma getType_field_hidden (nodeInterface : nat) (tn : string) (pa : list string)
    (rn : string) (fd : FieldDescriptor) (acc : list (string * nat)) (st : TypeState)
    (acc' : list (string * nat)) (st' : TypeState) :
  getType_field nodeInterface tn pa rn fd acc st = Ok (acc', st') ->
  fd_visible fd = false -> acc' = acc /\ st' = st.
Proof.
  destruct fd as [name type subtype reference nonNull hidden fields em ev].
  rewrite getType_field_eq. cbv zeta. cbn [fd_visible].
  destruct (hidden || String.prefix "__" name)%bool; [|discriminate].
  intros H _. apply retT_inv in H. exact H.
Qed.

Lemma loop_state_step (nodeInterface : nat) (tn : string) (lo : nat)
    (prior : list FieldDescriptor) (fd : FieldDescriptor) (acc : list (string * nat))
    (st : TypeState) (acc' : list (string * nat)) (st' : TypeState) :
  getType_field nodeInterface tn [] tn fd acc st = Ok (acc', st') ->
  fd_name fd ∉ map fd_name prior ->
  is_Some (plain_type tn fd) -> split_dots (fd_name fd) "" = [fd_name fd] ->
  lo <= length st.(store) ->
  loop_state tn lo prior acc st ->
  loop_state tn lo (prior ++ [fd]) acc' st' /\
  (forall k, k <> tn -> obj_get k st'.(resolveReference) = obj_get k st.(resolveReference)) /\
  (NoDup (map fst st.(resolveReference)) -> NoDup (map fst st'.(resolveReference))) /\
  length st.(store) <= length st'.(store).
Proof.
  intros H Hfresh [ty Hp] Hdot Hlo [slots [Hrr [Hndk [Hnds [Hacc [Hslots Hdone]]]]]].
  destruct (fd_visible fd) eqn:Hv.
  2:{ apply getType_field_hidden in H as [-> ->]; [|exact Hv].
      split; [|auto]. exists slots. repeat (split; [assumption|]).
      intros fd' r c Hin Hv' Hs. apply in_app_or in Hin as [Hin|[<-|[]]];
        [apply (Hdone _ _ _ Hin Hv' Hs) | congruence]. }
  pose proof (plain_leaf _ _ _ Hp) as Hleaf.
  destruct (getType_field_flat _ _ _ _ _ _ _ _ _ H Hv Hp) as [Hc [Ht Hcase]].
  assert (Holdslots : forall k s, In (k, s) slots -> s < length (store st)).
  { intros k s Hin. destruct (Hslots k s Hin) as [[_ Hlt] _]. exact Hlt. }
  destruct (slot_of tn fd) as [[r c]|] eqn:Hslot.
  - destruct Hcase as [slots0 [Hrr0 [Hstore [Hrr' ->]]]].
    rewrite Hrr in Hrr0. injection Hrr0 as <-.
    set (s := length (store st)) in *.
    assert (Hlen : length (store st') = S (S s)).
    { rewrite Hstore, length_app. cbn [length]. unfold s. lia. }
    assert (Hold : forall a x, store st !! a = Some x -> store st' !! a = Some x).
    { intros a x Ha. rewrite Hstore. apply lookup_app_l_Some, Ha. }
    assert (Hs : store st' !! s = Some (CField (mkFieldObject (fd_name fd) (TString r) c))).
    { rewrite Hstore. rewrite lookup_app_r by (unfold s; lia).
      replace (s - length (store st)) with 0 by (unfold s; lia). reflexivity. }
    assert (Hf : store st' !! S s = Some (CField (mkFieldObject (fd_name fd) ty false))).
    { rewrite Hstore. rewrite lookup_app_r by (unfold s; lia).
      replace (S s - length (store st)) with 1 by (unfold s; lia). reflexivity. }
    assert (Hsfresh : s ∉ map snd slots).
    { intros Hin. apply list_elem_of_In, in_map_iff in Hin as [[k s'] [Hs' Hin]].
      cbn [snd] in Hs'. subst s'. apply Holdslots in Hin. unfold s in Hin. lia. }
    split; [|split; [|split]].
    + exists (obj_set (fd_name fd) s slots).
      split; [rewrite Hrr'; apply obj_get_set_eq|].
      split; [apply obj_set_keys_NoDup, Hndk|].
      split; [apply obj_set_values_NoDup; assumption|].
      split; [|split].
      * intros k a Hka. destruct (decide (fd_name fd = k)) as [<-|Hne].
        -- rewrite obj_get_set_eq in Hka. injection Hka as <-.
           split; [rewrite Hlen; unfold s; lia|]. split; [eauto|].
           intros Hin. apply list_elem_of_In, in_map_iff in Hin as [[k' s'] [Hs' Hin]].
           cbn [snd] in Hs'. subst s'.
           apply obj_set_pairs in Hin as [[= _ Hss]|Hin]; [lia|].
           apply Holdslots in Hin. unfold s in Hin. lia.
        -- rewrite obj_get_set_ne in Hka by exact Hne.
           destruct (Hacc k a Hka) as [[Hlo' Hlt] [[f [Hf' Hl']] Hnot]].
           split; [rewrite Hlen; unfold s; lia|]. split; [exists f; auto|].
           intros Hin. apply list_elem_of_In, in_map_iff in Hin as [[k' s'] [Hs' Hin]].
           cbn [snd] in Hs'. subst s'.
           apply obj_set_pairs in Hin as [[= _ Hss]|Hin]; [unfold s in Hss; lia|].
           apply Hnot. apply list_elem_of_In. apply (in_map snd) in Hin. exact Hin.
      * intros k s' Hin. apply obj_set_pairs in Hin as [[= -> ->]|Hin].
        -- split; [rewrite Hlen; unfold s; lia|]. split; [exact Hdot|].
           split; [eauto|]. rewrite obj_get_set_eq. eauto.
        -- destruct (Hslots k s' Hin) as [[Hlo' Hlt] [Hd [[n [r' [c' Hcell]]] Hk]]].
           split; [rewrite Hlen; unfold s; lia|]. split; [exact Hd|].
           split; [exists n, r', c'; auto | apply obj_set_keeps, Hk].
      * intros fd' r' c' Hin Hv' Hs'. apply in_app_or in Hin as [Hin|[<-|[]]].
        -- destruct (Hdone _ _ _ Hin Hv' Hs') as [s' [Hks Hcell]].
           exists s'. split; [|auto].
           rewrite obj_get_set_ne; [exact Hks|].
           intros Heq. apply Hfresh. rewrite Heq.
           apply list_elem_of_In. apply (in_map fd_name) in Hin. exact Hin.
        -- rewrite Hslot in Hs'. injection Hs' as <- <-.
           exists s. split; [apply obj_get_set_eq | exact Hs].
    + intros k Hk. rewrite Hrr'. apply obj_get_set_ne. congruence.
    + intros Hnd. rewrite Hrr'. apply obj_set_keys_NoDup, Hnd.
    + rewrite Hlen. unfold s. lia.
  - destruct Hcase as [Hstore [Hrr' ->]].
    set (s := length (store st)) in *.
    assert (Hlen : length (store st') = S s).
    { rewrite Hstore, length_app. cbn [length]. unfold s. lia. }
    assert (Hold : forall a x, store st !! a = Some x -> store st' !! a = Some x).
    { intros a x Ha. rewrite Hstore. apply lookup_app_l_Some, Ha. }
    assert (Hf : store st' !! s = Some (CField (mkFieldObject (fd_name fd) ty false))).
    { rewrite Hstore. rewrite lookup_app_r by (unfold s; lia).
      replace (s - length (store st)) with 0 by (unfold s; lia). reflexivity. }
    split; [|split; [|split]].
    + exists slots. rewrite Hrr'. split; [exact Hrr|].
      split; [exact Hndk|]. split; [exact Hnds|]. split; [|split].
      * intros k a Hka. destruct (decide (fd_name fd = k)) as [<-|Hne].
        -- rewrite obj_get_set_eq in Hka. injection Hka as <-.
           split; [rewrite Hlen; unfold s; lia|]. split; [eauto|].
           intros Hin. apply list_elem_of_In, in_map_iff in Hin as [[k' s'] [Hs' Hin]].
           cbn [snd] in Hs'. subst s'. apply Holdslots in Hin. unfold s in Hin. lia.
        -- rewrite obj_get_set_ne in Hka by exact Hne.
           destruct (Hacc k a Hka) as [[Hlo' Hlt] [[f [Hf' Hl']] Hnot]].
           split; [rewrite Hlen; unfold s; lia|]. split; [exists f; auto | exact Hnot].
      * intros k s' Hin.
        destruct (Hslots k s' Hin) as [[Hlo' Hlt] [Hd [[n [r' [c' Hcell]]] Hk]]].
        split; [rewrite Hlen; unfold s; lia|]. split; [exact Hd|].
        split; [exists n, r', c'; auto | apply obj_set_keeps, Hk].
      * intros fd' r' c' Hin Hv' Hs'. apply in_app_or in Hin as [Hin|[<-|[]]].
        -- destruct (Hdone _ _ _ Hin Hv' Hs') as [s' [Hks Hcell]]. exists s'. auto.
        -- congruence.
    + intros k Hk. rewrite Hrr'. reflexivity.
    + intros Hnd. rewrite Hrr'. exact Hnd.
    + rewrite Hlen. unfold s. lia.
Qed.

Lemma getType_each_flat (nodeInterface : nat) (tn : string) (lo : nat) :
  forall fs prior acc st m st',
    getType_each nodeInterface tn [] tn fs acc st = Ok (m, st') ->
    NoDup (map fd_name (prior ++ fs)) ->
    (forall fd, In fd fs ->
       is_Some (plain_type tn fd) /\ split_dots (fd_name fd) "" = [fd_name fd]) ->
    lo <= length st.(store) ->
    loop_state tn lo prior acc st ->
    loop_state tn lo (prior ++ fs) m st' /\
    (forall k, k <> tn ->
               obj_get k st'.(resolveReference) = obj_get k st.(resolveReference)) /\
    (NoDup (map fst st.(resolveReference)) -> NoDup (map fst st'.(resolveReference))) /\
    length st.(store) <= length st'.(store).
Proof.
  induction fs as [|fd fs IH]; intros prior acc st m st' H Hnd Hflat Hlo Hstate.
  - apply retT_inv in H as [-> ->]. rewrite app_nil_r. auto.
  - cbn [getType_each] in H. apply bindT_inv in H as [acc1 [st1 [Hstep H]]].
    destruct (Hflat fd (or_introl eq_refl)) as [Hp Hdot].
    assert (Hfresh : fd_name fd ∉ map fd_name prior).
    { rewrite map_app in Hnd. apply NoDup_app in Hnd as [_ [Hdisj _]].
      intros Hin. apply (Hdisj _ Hin). left. }
    destruct (loop_state_step _ _ _ _ _ _ _ _ _ Hstep Hfresh Hp Hdot Hlo Hstate)
      as [Hstate1 [Hrr1 [Hnd1 Hlen1]]].
    destruct (IH (prior ++ [fd]) acc1 st1 m st' H) as [Hstate2 [Hrr2 [Hnd2 Hlen2]]].
    + rewrite <- app_assoc. exact Hnd.
    + intros fd' Hin. apply Hflat. right. exact Hin.
    + lia.
    + exact Hstate1.
    + rewrite <- app_assoc in Hstate2. split; [exact Hstate2|].
      split; [intros k Hk; rewrite (Hrr2 k Hk); apply (Hrr1 k Hk)|].
      split; [auto | lia].
Qed.

Lemma getType_root_start (nodeInterface : nat) (name : string)
    (fields : list FieldDescriptor) (st : TypeState) (ref : nat) (st' : TypeState) :
  getType nodeInterface name fields [] None st = Ok (ref, st') ->
  exists m st1,
    getType_each nodeInterface name [] name fields []
      (set_resolveReference (fun rr => match obj_get name rr with
                                       | Some _ => rr
                                       | None => obj_set name [] rr
                                       end) st) = Ok (m, st1) /\
    ref = S (S (length st1.(store))) /\
    st'.(store) = st1.(store) ++
      [CField (mkFieldObject "id" (TNonNull (TScalar "ID")) false);
       CFieldMap (obj_set "id" (length st1.(store)) m);
       CType (mkTypeObject name (Some [nodeInterface]) (Some (S (length st1.(store)))) false)] /\
    st'.(cache) = st1.(cache) /\
    st'.(resolveReference) = st1.(resolveReference).
Proof.
  unfold getType, getType_body. intros H.
  apply bindT_inv in H as [u [st0 [H0 H]]]. injection H0 as _ <-.
  apply bindT_inv in H as [m [st1 [Hm H]]].
  apply bindT_inv in H as [m' [st2 [Hm' H]]].
  apply bindT_inv in H as [fa [st3 [Hfa H]]].
  apply bindT_inv in H as [d [st4 [Hd H]]].
  apply bindT_inv in H as [u' [st5 [Hreg H]]].
  apply retT_inv in H as [-> ->].
  rewrite bool_decide_eq_true_2 in Hm', Hd, Hreg by reflexivity.
  apply bindT_inv in Hm' as [idf [st2' [Hid Hm']]]. apply retT_inv in Hm' as [-> ->].
  injection Hid as <- <-. injection Hfa as <- <-. injection Hd as <- <-.
  apply addType_inv in Hreg as [_ <-].
  exists m, st1. split; [exact Hm|]. cbn [store cache resolveReference set_store set_types].
  rewrite !length_app. cbn [length].
  replace (length (store st1) + 1 + 1) with (S (S (length (store st1)))) by lia.
  replace (length (store st1) + 1) with (S (length (store st1))) by lia.
  rewrite <- !app_assoc. cbn [app]. auto.
Qed.

(** The first pass on one model of scalars whose name the table does not
    know yet. *)
Lemma getType_root_flat (nodeInterface : nat) (M : Model) (st : TypeState) (ref : nat)
    (st' : TypeState) :
  getType nodeInterface M.(m_name) M.(m_fields) [] None st = Ok (ref, st') ->
  flat_model M ->
  obj_get M.(m_name) st.(resolveReference) = None ->
  exists slots,
    model_built st' (length st.(store)) (length st'.(store)) M ref slots /\
    obj_get M.(m_name) st'.(resolveReference) = Some slots /\
    (forall k, k <> M.(m_name) ->
               obj_get k st'.(resolveReference) = obj_get k st.(resolveReference)) /\
    (NoDup (map fst st.(resolveReference)) -> NoDup (map fst st'.(resolveReference))) /\
    length st.(store) <= length st'.(store).
Proof.
  intros H [Hnd Hflat] Hnone.
  apply getType_root_start in H as [m [st1 [Hm [Href [Hstore [Hcache Hrr]]]]]].
  unfold set_resolveReference in Hm. rewrite Hnone in Hm.
  set (st0 := mkTypeState (store st) (cache st) (types st)
                (obj_set (m_name M) [] (resolveReference st))) in *.
  rename Hm into Hm0.
  destruct (getType_each_flat nodeInterface (m_name M) (length (store st))
              (m_fields M) [] [] st0 m st1 Hm0 Hnd Hflat (Nat.le_refl _))
    as [[slots [Hslots [Hndk [Hnds [Hacc [Hsl Hdone]]]]]] [Hother [Hkeys Hlen]]].
  { exists []. split; [apply obj_get_set_eq|]. split; [constructor|]. split; [constructor|].
    split; [intros k a Hka; discriminate|]. split; [intros k s []|intros fd r c []]. }
  cbn [app] in Hdone. unfold st0 in Hlen; cbn [store] in Hlen.
  set (len1 := length (store st1)) in *.
  assert (Hlen' : length (store st') = S (S (S len1))).
  { rewrite Hstore, length_app. cbn [length]. unfold len1. lia. }
  assert (Hold : forall a x, store st1 !! a = Some x -> store st' !! a = Some x).
  { intros a x Ha. rewrite Hstore. apply lookup_app_l_Some, Ha. }
  assert (Lid : store st' !! len1
                = Some (CField (mkFieldObject "id" (TNonNull (TScalar "ID")) false))).
  { rewrite Hstore. rewrite lookup_app_r by (unfold len1; lia).
    replace (len1 - length (store st1)) with 0 by (unfold len1; lia). reflexivity. }
  assert (Lfa : store st' !! S len1 = Some (CFieldMap (obj_set "id" len1 m))).
  { rewrite Hstore. rewrite lookup_app_r by (unfold len1; lia).
    replace (S len1 - length (store st1)) with 1 by (unfold len1; lia). reflexivity. }
  assert (Lref : store st' !! ref
                 = Some (CType (mkTypeObject (m_name M) (Some [nodeInterface])
                                  (Some (S len1)) false))).
  { rewrite Hstore, Href. rewrite lookup_app_r by (unfold len1; lia).
    replace (S (S len1) - length (store st1)) with 2 by (unfold len1; lia). reflexivity. }
  exists slots. split; [|split; [|split; [|split]]].
  - eexists; exists (S len1), (obj_set "id" len1 m).
    split; [exact Lref|]. split; [reflexivity|].
    split; [rewrite Href, Hlen'; unfold len1 in *; lia|].
    split; [rewrite Hlen'; unfold len1 in *; lia|].
    split; [|split; [|split]].
    + split; [exact Lfa|]. split; [exact Hndk|]. split; [exact Hnds|]. split.
      * intros k a Hka Hin. apply list_elem_of_In, in_map_iff in Hin as [[k' s'] [Hs' Hin]].
        cbn [snd] in Hs'. subst s'. destruct (Hsl _ _ Hin) as [[_ Hlt] _].
        destruct (decide ("id" = k)) as [<-|Hne].
        -- rewrite obj_get_set_eq in Hka. injection Hka as <-. unfold len1 in Hlt. lia.
        -- rewrite obj_get_set_ne in Hka by exact Hne.
           destruct (Hacc _ _ Hka) as [_ [_ Hnot]]. apply Hnot.
           apply list_elem_of_In. apply (in_map snd) in Hin. exact Hin.
      * intros k s Hin.
        destruct (Hsl _ _ Hin) as [_ [Hdot [[n [r [c Hcell]]] [a Hka]]]].
        split; [exact Hdot|]. split; [exists n, r, c; auto|].
        destruct (decide ("id" = k)) as [<-|Hne].
        -- eexists; eexists. split; [apply obj_get_set_eq|]. split; [exact Lid | reflexivity].
        -- destruct (Hacc _ _ Hka) as [_ [[f [Hf Hleaf]] _]].
           exists a, f. split; [rewrite obj_get_set_ne by exact Hne; exact Hka|]. auto.
    + intros k a Hka. rewrite Hlen'. destruct (decide ("id" = k)) as [<-|Hne].
      * rewrite obj_get_set_eq in Hka. injection Hka as <-. unfold len1 in *. lia.
      * rewrite obj_get_set_ne in Hka by exact Hne.
        destruct (Hacc _ _ Hka) as [[Hlo Hlt] _]. unfold len1 in *. lia.
    + intros k s Hin. destruct (Hsl _ _ Hin) as [[Hlo Hlt] _]. rewrite Hlen'.
      unfold len1 in *. lia.
    + intros fd r c Hin Hv Hs. destruct (Hdone _ _ _ Hin Hv Hs) as [s [Hks Hcell]].
      exists s. split; [apply obj_get_In, Hks | auto].
  - rewrite Hrr. exact Hslots.
  - intros k Hk. rewrite Hrr, (Hother k Hk). unfold st0; cbn [resolveReference].
    apply obj_get_set_ne. congruence.
  - intros Hn. rewrite Hrr. apply Hkeys. unfold st0; cbn [resolveReference].
    apply obj_set_keys_NoDup, Hn.
  - rewrite Hlen'. unfold len1 in *. lia.
Qed.

Lemma getType_field_extends (nodeInterface : nat) (tn rn : string) (fd : FieldDescriptor)
    (acc : list (string * nat)) (st : TypeState) (acc' : list (string * nat))
    (st' : TypeState) :
  getType_field nodeInterface tn [] rn fd acc st = Ok (acc', st') ->
  is_Some (plain_type tn fd) ->
  (forall a x, st.(store) !! a = Some x -> st'.(store) !! a = Some x) /\
  st'.(cache) = st.(cache).
Proof.
  intros H [ty Hp]. destruct (fd_visible fd) eqn:Hv.
  - destruct (getType_field_flat _ _ _ _ _ _ _ _ _ H Hv Hp) as [Hc [_ Hcase]].
    split; [|exact Hc]. intros a x Ha.
    destruct (slot_of tn fd) as [[r c]|].
    + destruct Hcase as [slots [_ [-> _]]]. apply lookup_app_l_Some, Ha.
    + destruct Hcase as [-> _]. apply lookup_app_l_Some, Ha.
  - apply getType_field_hidden in H as [_ ->]; auto.
Qed.

Lemma getType_each_extends (nodeInterface : nat) (tn : string) :
  forall fs acc st m st',
    getType_each nodeInterface tn [] tn fs acc st = Ok (m, st') ->
    (forall fd, In fd fs -> is_Some (plain_type tn fd)) ->
    (forall a x, st.(store) !! a = Some x -> st'.(store) !! a = Some x) /\
    st'.(cache) = st.(cache).
Proof.
  induction fs as [|fd fs IH]; intros acc st m st' H Hflat.
  - apply retT_inv in H as [-> ->]. auto.
  - cbn [getType_each] in H. apply bindT_inv in H as [acc1 [st1 [Hstep H]]].
    destruct (getType_field_extends _ _ _ _ _ _ _ _ Hstep (Hflat fd (or_introl eq_refl)))
      as [Hext1 Hc1].
    destruct (IH _ _ _ _ H (fun fd' Hin => Hflat fd' (or_intror Hin))) as [Hext2 Hc2].
    split; [auto | congruence].
Qed.

(** A root call on a model of scalars only adds to the store. *)
Lemma getType_root_extends (nodeInterface : nat) (M : Model) (st : TypeState) (ref : nat)
    (st' : TypeState) :
  getType nodeInterface M.(m_name) M.(m_fields) [] None st = Ok (ref, st') ->
  flat_model M ->
  (forall a x, st.(store) !! a = Some x -> st'.(store) !! a = Some x) /\
  st'.(cache) = st.(cache).
Proof.
  intros H [_ Hflat].
  apply getType_root_start in H as [m [st1 [Hm [_ [Hstore [Hcache _]]]]]].
  apply getType_each_extends in Hm as [Hext Hc]; [|intros fd Hin; apply (Hflat fd Hin)].
  split; [|rewrite Hcache, Hc; reflexivity].
  intros a x Ha. rewrite Hstore. apply lookup_app_l_Some, Hext, Ha.
Qed.

Lemma getTypes_model_nocache (nodeInterface : nat) (registry : list (string * nat))
    (rrs : list string) (M : Model) (st : TypeState)
    (r : list (string * nat) * list string) (st' : TypeState) :
  getTypes_model nodeInterface (registry, rrs) M st = Ok (r, st') ->
  st.(cache) = None ->
  exists ref,
    getType nodeInterface M.(m_name) M.(m_fields) [] None st = Ok (ref, st') /\
    r = (obj_set M.(m_name) ref registry, rrs).
Proof.
  unfold getTypes_model. intros H Hc.
  apply bindT_inv in H as [c [st1 [Hget H]]]. injection Hget as <- <-.
  rewrite Hc in H.
  apply bindT_inv in H as [[ref rrs'] [st2 [Hty H]]].
  apply retT_inv in H as [-> ->].
  apply bindT_inv in Hty as [ref' [st3 [Hty H]]].
  apply retT_inv in H as [[= E1 E2] ->]. subst ref' rrs'.
  exists ref. auto.
Qed.

Lemma model_built_frame (st st' : TypeState) (lo hi : nat) (M : Model) (ref : nat)
    (slots : list (string * nat)) :
  model_built st lo hi M ref slots ->
  (forall b, lo <= b < hi -> st'.(store) !! b = st.(store) !! b) ->
  model_built st' lo hi M ref slots.
Proof.
  intros [o [fa [m [Ho [Hf [Hr [Hfa [[Hmap [Hndk [Hnds [Hrange Hsl]]]] [Hm [Hs Hfd]]]]]]]]]]
         Hsame.
  exists o, fa, m. rewrite (Hsame _ Hr). split; [exact Ho|]. split; [exact Hf|].
  split; [exact Hr|]. split; [exact Hfa|]. split; [|split; [exact Hm|split; [exact Hs|]]].
  - split; [rewrite (Hsame _ Hfa); exact Hmap|]. split; [exact Hndk|].
    split; [exact Hnds|]. split; [exact Hrange|].
    intros k s Hin. destruct (Hsl k s Hin) as [Hd [[n [r [c Hc]]] [a [f [Hka [Ha Hl]]]]]].
    split; [exact Hd|].
    split; [exists n, r, c; rewrite (Hsame _ (Hs _ _ Hin)); exact Hc|].
    exists a, f. split; [exact Hka|].
    split; [rewrite (Hsame _ (Hm _ _ Hka)); exact Ha | exact Hl].
  - intros fd r c Hin Hv Hso. destruct (Hfd _ _ _ Hin Hv Hso) as [s [Hins Hc]].
    exists s. split; [exact Hins|]. rewrite (Hsame _ (Hs _ _ Hins)). exact Hc.
Qed.

Lemma model_resolved_frame (registry : list (string * nat)) (st st' : TypeState)
    (lo hi : nat) (M : Model) (ref : nat) :
  model_resolved registry st lo hi M ref ->
  (forall b, lo <= b < hi -> st'.(store) !! b = st.(store) !! b) ->
  model_resolved registry st' lo hi M ref.
Proof.
  intros [o [fa [m [Ho [Hf [Hr [Hfa [Hmap Hfd]]]]]]]] Hsame.
  exists o, fa, m. rewrite (Hsame _ Hr), (Hsame _ Hfa). repeat (split; [assumption|]).
  intros fd r c Hin Hv Hso. destruct (Hfd _ _ _ Hin Hv Hso) as [s [Hks [Hb Hc]]].
  exists s. rewrite (Hsame _ Hb). auto.
Qed.

(** The reduce over the models, without a cache, on models of scalars
    whose names the table does not know yet. *)
Lemma getTypes_reduce_flat (nodeInterface : nat) :
  forall todo prior registry rrs iv st r st',
    reduceT (getTypes_model nodeInterface) todo (registry, rrs) st = Ok (r, st') ->
    st.(cache) = None ->
    NoDup (map m_name (prior ++ todo)) ->
    (forall M, In M todo -> flat_model M) ->
    NoDup (map fst st.(resolveReference)) ->
    (forall M, In M todo -> obj_get M.(m_name) st.(resolveReference) = None) ->
    first_pass prior registry iv st ->
    exists iv',
      first_pass (prior ++ todo) r.1 iv' st' /\ r.2 = rrs /\
      NoDup (map fst st'.(resolveReference)) /\ st'.(cache) = None.
Proof.
  induction todo as [|M todo IH];
    intros prior registry rrs iv st r st' H Hc Hnd Hflat Hkeys Hnew Hfirst.
  - apply retT_inv in H as [-> ->]. rewrite app_nil_r. exists iv. auto.
  - cbn [reduceT] in H. apply bindT_inv in H as [r1 [st2 [Hstep H]]].
    apply getTypes_model_nocache in Hstep as [ref [Hget ->]]; [|exact Hc].
    pose proof (Hflat M (or_introl eq_refl)) as HflatM.
    destruct (getType_root_flat _ _ _ _ _ Hget HflatM (Hnew M (or_introl eq_refl)))
      as [slots [Hbuilt [Hrrname [Hother [Hnd' Hlen]]]]].
    destruct (getType_root_extends _ _ _ _ _ Hget HflatM) as [Hext Hc2].
    assert (HfreshM : forall M', In M' prior -> m_name M' <> m_name M).
    { rewrite map_app in Hnd. apply NoDup_app in Hnd as [_ [Hdisj _]].
      intros M' Hin Heq. apply (Hdisj (m_name M')).
      - apply list_elem_of_In, in_map, Hin.
      - rewrite Heq. left. }
    assert (HfreshT : forall M', In M' todo -> m_name M' <> m_name M).
    { rewrite map_app in Hnd. apply NoDup_app in Hnd as [_ [_ Hnd]].
      cbn [map] in Hnd. apply NoDup_cons in Hnd as [Hnot _].
      intros M' Hin Heq. apply Hnot. rewrite <- Heq. apply list_elem_of_In, in_map, Hin. }
    set (iv2 := fun k : string =>
                  if String.eqb k (m_name M)
                  then (length (store st), length (store st2)) else iv k).
    assert (Hiv_new : iv2 (m_name M) = (length (store st), length (store st2))).
    { unfold iv2. rewrite String.eqb_refl. reflexivity. }
    assert (Hiv_old : forall k, k <> m_name M -> iv2 k = iv k).
    { intros k Hk. unfold iv2. apply String.eqb_neq in Hk. rewrite Hk. reflexivity. }
    destruct Hfirst as [Hmodels Hdisj].
    destruct (IH (prior ++ [M]) (obj_set (m_name M) ref registry) rrs iv2 st2 r st' H)
      as [iv' [Hfirst' [Hrrs [Hnd'' Hc']]]].
    + congruence.
    + rewrite <- app_assoc. exact Hnd.
    + intros M' Hin. apply Hflat. right. exact Hin.
    + apply Hnd', Hkeys.
    + intros M' Hin. rewrite (Hother _ (HfreshT _ Hin)). apply Hnew. right. exact Hin.
    + split.
      * intros M' Hin. apply in_app_or in Hin as [Hin|[<-|[]]].
        -- destruct (Hmodels M' Hin) as [ref' [slots' [Href' [Hsl' [Hb' Hhi]]]]].
           pose proof (HfreshM _ Hin) as Hne.
           exists ref', slots'. rewrite (Hiv_old _ Hne).
           split; [rewrite obj_get_set_ne by congruence; exact Href'|].
           split; [rewrite (Hother _ Hne); exact Hsl'|].
           split; [|lia].
           apply (model_built_frame _ _ _ _ _ _ _ Hb'). intros b Hb.
           destruct (lookup_lt_is_Some_2 (store st) b) as [x Hx]; [lia|].
           rewrite Hx. apply Hext, Hx.
        -- exists ref, slots. rewrite Hiv_new. cbn [fst snd].
           split; [apply obj_get_set_eq|]. split; [exact Hrrname|]. split; [exact Hbuilt|lia].
      * intros M1 M2 Hin1 Hin2 Hne.
        apply in_app_or in Hin1 as [Hin1|[<-|[]]]; apply in_app_or in Hin2 as [Hin2|[<-|[]]].
        -- rewrite (Hiv_old _ (HfreshM _ Hin1)), (Hiv_old _ (HfreshM _ Hin2)).
           apply (Hdisj _ _ Hin1 Hin2 Hne).
        -- rewrite (Hiv_old _ (HfreshM _ Hin1)), Hiv_new. cbn [fst snd].
           destruct (Hmodels _ Hin1) as [_ [_ [_ [_ [_ Hhi]]]]]. left. exact Hhi.
        -- rewrite (Hiv_old _ (HfreshM _ Hin2)), Hiv_new. cbn [fst snd].
           destruct (Hmodels _ Hin2) as [_ [_ [_ [_ [_ Hhi]]]]]. right. exact Hhi.
        -- congruence.
    + exists iv'. rewrite <- app_assoc in Hfirst'. auto.
Qed.

(** The first pass on such models throws nothing. *)

Lemma bindT_ok {A B : Type} (m : TypeM A) (k : A -> TypeM B) (st : TypeState) (a : A)
    (st1 : TypeState) :
  m st = Ok (a, st1) -> (x ← m; k x) st = k a st1.
Proof. intros H. unfold mbind, TypeM_bind. rewrite H. reflexivity. Qed.

Lemma getType_field_returns (nodeInterface : nat) (tn rn : string) (fd : FieldDescriptor)
    (acc : list (string * nat)) (st : TypeState) :
  is_Some (plain_type tn fd) -> is_Some (obj_get rn st.(resolveReference)) ->
  exists acc' st', getType_field nodeInterface tn [] rn fd acc st = Ok (acc', st').
Proof.
  intros [ty Hp] [slots Hs].
  destruct fd as [name type subtype reference nonNull hidden fields em ev].
  rewrite getType_field_eq. cbv zeta. cbn [plain_type] in Hp.
  destruct (hidden || String.prefix "__" name)%bool; [eexists; eexists; reflexivity|].
  destruct (String.eqb type "Array");
    [destruct (bool_decide (subtype = Some "Object")); [discriminate|]
    |destruct (String.eqb type "Object"); [discriminate|];
     destruct (String.eqb type "Embedded"); [discriminate|];
     destruct ev as [vs|]; [destruct (String.eqb type "String")|]];
    destruct (truthy_string reference);
    unfold mbind, TypeM_bind, mret, TypeM_ret, alloc, add_slot, set_store,
      set_resolveReference;
    cbn [store cache types resolveReference]; rewrite ?Hs;
    repeat match goal with
           | |- context [bool_decide ?P] => destruct (bool_decide P)
           end;
    cbn [store cache types resolveReference]; rewrite ?Hs, ?obj_get_set_eq; eauto.
Qed.

Lemma getType_each_returns (nodeInterface : nat) (tn : string) :
  forall fs acc st,
    (forall fd, In fd fs -> is_Some (plain_type tn fd)) ->
    is_Some (obj_get tn st.(resolveReference)) ->
    exists m st', getType_each nodeInterface tn [] tn fs acc st = Ok (m, st').
Proof.
  induction fs as [|fd fs IH]; intros acc st Hflat Hrr.
  - exists acc, st. reflexivity.
  - pose proof (Hflat fd (or_introl eq_refl)) as Hp.
    destruct (getType_field_returns nodeInterface tn tn fd acc st Hp Hrr)
      as [acc1 [st1 Hstep]].
    assert (Hrr1 : is_Some (obj_get tn (resolveReference st1))).
    { destruct (fd_visible fd) eqn:Hv.
      - destruct Hp as [ty Hp].
        destruct (getType_field_flat _ _ _ _ _ _ _ _ _ Hstep Hv Hp) as [_ [_ Hcase]].
        destruct (slot_of tn fd) as [[r c]|].
        + destruct Hcase as [slots [_ [_ [-> _]]]]. rewrite obj_get_set_eq. eauto.
        + destruct Hcase as [_ [-> _]]. exact Hrr.
      - apply getType_field_hidden in Hstep as [_ ->]; auto. }
    destruct (IH acc1 st1 (fun fd' Hin => Hflat fd' (or_intror Hin)) Hrr1) as [m [st' H]].
    exists m, st'. cbn [getType_each]. rewrite (bindT_ok _ _ _ _ _ Hstep). exact H.
Qed.

(** On a field that is a scalar, an enum or a list of scalars the call of
    [getFieldArguments] in [getType] throws nothing. *)
Lemma getFieldArguments_plain_field (tn : string) (fd : FieldDescriptor) (ty : gtype) :
  plain_type tn fd = Some ty ->
  exists gt,
    output_type ty = Some gt /\
    forall args memo, exists r, getFieldArguments (mkOutputField (fd_name fd) gt) args memo = Ok r.
Proof.
  destruct fd as [name type subtype reference nonNull hidden fields em ev].
  cbn [plain_type fd_name]. rewrite !stringToGraphQLType_table. unfold scalar_for.
  intros Hp.
  assert (Hargs : forall gt,
            (exists n, gt = GraphQLScalarType n) \/ (exists n vs, gt = GraphQLEnumType n vs) \/
            (exists n, gt = GraphQLList (GraphQLScalarType n)) ->
            forall args memo, exists r,
              getFieldArguments
                (mkOutputField name (if nonNull then GraphQLNonNull gt else gt)) args memo
              = Ok r).
  { intros gt Hgt args memo. unfold getFieldArguments. cbn [of_name of_type].
    destruct (_ || _)%bool; [eexists; reflexivity|].
    destruct Hgt as [[n ->]|[[n [vs ->]]|[n ->]]]; destruct nonNull;
      unfold createInputObject;
      cbn [unwrap_nonNull instanceof_scalar_or_enum instanceof_object input_mirror mbind
           outcome_bind fst snd]; eexists; reflexivity. }
  destruct (String.eqb type "Array").
  - destruct (bool_decide (subtype = Some "Object")); [discriminate|].
    injection Hp as <-.
    destruct nonNull; (eexists; split; [reflexivity|]);
      apply (Hargs _ (or_intror (or_intror (ex_intro _ _ eq_refl)))).
  - destruct (String.eqb type "Object"); [discriminate|].
    destruct (String.eqb type "Embedded"); [discriminate|].
    injection Hp as <-.
    destruct ev as [vs|]; [destruct (String.eqb type "String")|].
    + destruct nonNull; (eexists; split; [reflexivity|]);
        apply (Hargs _ (or_intror (or_introl (ex_intro _ _ (ex_intro _ _ eq_refl))))).
    + destruct nonNull; (eexists; split; [reflexivity|]);
        apply (Hargs _ (or_introl (ex_intro _ _ eq_refl))).
    + destruct nonNull; (eexists; split; [reflexivity|]);
        apply (Hargs _ (or_introl (ex_intro _ _ eq_refl))).
Qed.

Lemma ordinary_name_not_length (s : string) : ordinary_name s = true -> s <> "length".
Proof.
  unfold ordinary_name. intros H ->. apply andb_true_iff in H as [_ H].
  vm_compute in H. discriminate.
Qed.

Lemma getType_root_returns (nodeInterface : nat) (M : Model) (st : TypeState) :
  flat_model M -> M.(m_name) <> "length" ->
  exists ref st', getType nodeInterface M.(m_name) M.(m_fields) [] None st = Ok (ref, st').
Proof.
  intros [_ Hflat] Hname. apply String.eqb_neq in Hname.
  unfold getType, getType_body, addType. rewrite Hname. rewrite getType_fields_each.
  cbn [default]. rewrite bool_decide_eq_true_2 by reflexivity.
  erewrite bindT_ok by reflexivity.
  edestruct (getType_each_returns nodeInterface (m_name M) (m_fields M) [])
    as [m [st1 Hm]]; [intros fd Hin; apply (Hflat fd Hin) | |].
  2:{ rewrite (bindT_ok _ _ _ _ _ Hm). eexists; eexists. reflexivity. }
  cbn [resolveReference set_resolveReference].
  destruct (obj_get (m_name M) (resolveReference st)) eqn:E;
    [rewrite E | rewrite obj_get_set_eq]; eauto.
Qed.

Lemma getTypes_reduce_returns (nodeInterface : nat) :
  forall models acc st,
    st.(cache) = None -> (forall M, In M models -> flat_model M) ->
    (forall M, In M models -> M.(m_name) <> "length") ->
    exists r st', reduceT (getTypes_model nodeInterface) models acc st = Ok (r, st').
Proof.
  induction models as [|M models IH]; intros [registry rrs] st Hc Hflat Hnames.
  - eexists; eexists. reflexivity.
  - pose proof (Hflat M (or_introl eq_refl)) as HflatM.
    destruct (getType_root_returns nodeInterface M st HflatM (Hnames M (or_introl eq_refl)))
      as [ref [st1 Hget]].
    destruct (getType_root_extends _ _ _ _ _ Hget HflatM) as [_ Hc1].
    assert (Hstep : getTypes_model nodeInterface (registry, rrs) M st
                    = Ok ((obj_set (m_name M) ref registry, rrs), st1)).
    { unfold getTypes_model. erewrite bindT_ok by reflexivity. rewrite Hc.
      rewrite (bindT_ok _ _ _ (ref, rrs) st1); [reflexivity|].
      rewrite (bindT_ok _ _ _ _ _ Hget). reflexivity. }
    destruct (IH (obj_set (m_name M) ref registry, rrs) st1) as [r [st' H]];
      [congruence | intros M' Hin; apply Hflat; right; exact Hin
       | intros M' Hin; apply Hnames; right; exact Hin|].
    exists r, st'. cbn [reduceT]. rewrite (bindT_ok _ _ _ _ _ Hstep). exact H.
Qed.

(** The pass on one type whose slots are pending, by what it does to the
    store. *)
Lemma resolve_type_pending (registry : list (string * nat)) (typeName : string)
    (slots : list (string * nat)) (st : TypeState) (type : nat) (o : TypeObject) (fa : nat)
    (m : list (string * nat)) :
  obj_get typeName registry = Some type ->
  st.(store) !! type = Some (CType o) -> o.(t_fields) = Some fa ->
  pending st.(store) fa m slots ->
  exists st',
    resolve_type registry typeName slots st = Ok (tt, st') /\
    st'.(store) !! fa = Some (CFieldMap (obj_assign m slots)) /\
    (forall k s n r c,
       In (k, s) slots ->
       st.(store) !! s = Some (CField (mkFieldObject n (TString r) c)) ->
       st'.(store) !! s
       = Some (CField (mkFieldObject n (resolved_type registry typeName k c r) c))) /\
    (forall b, b <> fa -> b ∉ map snd slots -> st'.(store) !! b = st.(store) !! b).
Proof.
  intros Hty Ho Hfa Hp.
  destruct (resolve_slots_pending registry typeName fa slots _ _ Hp)
    as [h' [Hred [Hfa' [Hres Hframe]]]].
  destruct Hp as [Hmap [Hndk [Hnds [Hrange Hslots]]]].
  assert (Htyfa : type <> fa) by (intros ->; congruence).
  assert (Htys : type ∉ map snd slots).
  { intros Hin. apply list_elem_of_In, in_map_iff in Hin as [[k s] [Hs Hin]].
    cbn [snd] in Hs. subst s.
    destruct (Hslots _ _ Hin) as [_ [[n [r [c Hcell]]] _]]. congruence. }
  assert (Ho' : h' !! type = Some (CType o)) by (rewrite (Hframe _ Htyfa Htys); exact Ho).
  assert (Hsame : <[type := CType (mkTypeObject o.(t_name) o.(t_interfaces) o.(t_fields)
                                     o.(t_mongooseEmbedded))]> h' = h').
  { apply list_insert_id. rewrite Ho'. destruct o; reflexivity. }
  exists (set_store (fun _ => h') st). split; [|split; [|split]].
  - unfold resolve_type. rewrite Hty.
    unfold mbind, TypeM_bind, read_type. rewrite Ho. rewrite Hfa. cbn [from_option].
    rewrite Hred. unfold modifyM, set_store. cbn [store cache types resolveReference].
    rewrite <- Hfa, Hsame. reflexivity.
  - exact Hfa'.
  - exact Hres.
  - exact Hframe.
Qed.

(** Without a cache the gate of either version lets every entry through. *)
Lemma forEachM_nocache (registry : list (string * nat))
    (gated : string * list (string * nat) -> TypeM unit) :
  (forall entry st, st.(cache) = None ->
                    gated entry st = resolve_type registry entry.1 entry.2 st) ->
  forall es st,
    st.(cache) = None ->
    forEachM gated es st
    = forEachM (fun entry : string * list (string * nat) =>
                  resolve_type registry entry.1 entry.2) es st.
Proof.
  intros Hgate. induction es as [|entry es IH]; intros st Hc; [reflexivity|].
  cbn [forEachM]. unfold mbind, TypeM_bind. rewrite (Hgate _ _ Hc).
  destruct (resolve_type registry entry.1 entry.2 st) as [[u st1]| |] eqn:E;
    try reflexivity.
  apply IH. apply keeps_resolve_type in E as [Hc1 _]. congruence.
Qed.

Section SecondPass.

Variable models : list Model.
Variable registry : list (string * nat).
Variable iv : string -> nat * nat.

Hypothesis registry_keys :
  forall k, is_Some (obj_get k registry) -> exists M, In M models /\ M.(m_name) = k.
Hypothesis apart :
  forall M M', In M models -> In M' models -> M.(m_name) <> M'.(m_name) ->
    (iv M.(m_name)).2 <= (iv M'.(m_name)).1 \/ (iv M'.(m_name)).2 <= (iv M.(m_name)).1.

Lemma second_pass_step (tn : string) (slots : list (string * nat))
    (es : list (string * list (string * nat))) (st st' : TypeState) :
  resolve_type registry tn slots st = Ok (tt, st') ->
  NoDup (tn :: map fst es) ->
  second_pass models registry iv ((tn, slots) :: es) st ->
  second_pass models registry iv es st'.
Proof.
  intros Hrun Hnd Hinv. apply NoDup_cons in Hnd as [Htn Hnd].
  assert (Hentry : forall name sl, In (name, sl) ((tn, slots) :: es) -> name = tn -> sl = slots).
  { intros name sl [[= _ <-]|Hin] Hname; [reflexivity|]. exfalso. apply Htn. subst name.
    apply list_elem_of_In. apply (in_map fst) in Hin. exact Hin. }
  destruct (obj_get tn registry) as [type|] eqn:Hty.
  2:{ unfold resolve_type in Hrun. rewrite Hty in Hrun. injection Hrun as <-.
      intros M HM. destruct (Hinv M HM) as [ref [Href [[sl [Hin Hb]]|[Hnot Hres]]]];
        exists ref; (split; [exact Href|]).
      - left. exists sl. split; [|exact Hb].
        destruct Hin as [[= E _]|Hin]; [congruence | exact Hin].
      - right. split; [|exact Hres]. intros Hin. apply Hnot. right. exact Hin. }
  destruct (registry_keys tn) as [M0 [HM0 Hn0]]; [rewrite Hty; eauto|].
  destruct (Hinv M0 HM0) as [ref0 [Href0 [[sl0 [Hin0 Hb0]]|[Hnot0 _]]]].
  2:{ exfalso. apply Hnot0. rewrite Hn0. left. }
  pose proof (Hentry _ _ Hin0 Hn0) as ->.
  assert (ref0 = type) as -> by congruence.
  destruct Hb0 as [o0 [fa0 [m0 [Ho0 [Hf0 [Hr0 [Hfa0 [Hp0 [Hm0 [Hs0 Hfd0]]]]]]]]]].
  destruct (resolve_type_pending _ _ _ _ _ _ _ _ Hty Ho0 Hf0 Hp0)
    as [st0 [Hrun0 [_ [_ Hframe0]]]].
  rewrite Hrun in Hrun0. injection Hrun0 as <-.
  assert (Hframe : forall M, In M models -> m_name M <> tn ->
                   forall b, (iv (m_name M)).1 <= b < (iv (m_name M)).2 ->
                             store st' !! b = store st !! b).
  { intros M HM Hne b Hb. apply Hframe0.
    - destruct (apart M M0 HM HM0) as [H|H]; [congruence | lia | lia].
    - intros Hin. apply list_elem_of_In, in_map_iff in Hin as [[k s] [Hs Hin]].
      cbn [snd] in Hs. subst s. pose proof (Hs0 _ _ Hin) as Hbs.
      destruct (apart M M0 HM HM0) as [H|H]; [congruence | lia | lia]. }
  intros M HM. destruct (Hinv M HM) as [ref [Href [[sl [Hin Hb]]|[Hnot Hres]]]];
    exists ref; (split; [exact Href|]).
  - destruct (decide (m_name M = tn)) as [E|NE].
    + right. split; [rewrite E; exact Htn|].
      pose proof (Hentry _ _ Hin E) as ->.
      assert (ref = type) as -> by congruence.
      destruct Hb as [o [fa [m [Ho [Hf [Hr [Hfa [Hp [Hm [Hs Hfd]]]]]]]]]].
      destruct (resolve_type_pending _ _ _ _ _ _ _ _ Hty Ho Hf Hp)
        as [st1 [Hrun1 [Hfa' [Hres Hframe1]]]].
      rewrite Hrun in Hrun1. injection Hrun1 as <-.
      destruct Hp as [Hmap [Hndk [Hnds [Hrange Hslots]]]].
      exists o, fa, (obj_assign m slots).
      split.
      { rewrite Hframe1; [exact Ho | intros ->; congruence|].
        intros Hin'. apply list_elem_of_In, in_map_iff in Hin' as [[k s] [Hs' Hin']].
        cbn [snd] in Hs'. subst s.
        destruct (Hslots _ _ Hin') as [_ [[n [r [c Hcell]]] _]]. congruence. }
      split; [exact Hf|]. split; [exact Hr|]. split; [exact Hfa|]. split; [exact Hfa'|].
      intros fd r c Hinfd Hv Hso.
      destruct (Hfd _ _ _ Hinfd Hv Hso) as [s [Hins Hcell]].
      exists s. split; [apply (obj_assign_last _ _ _ _ Hndk Hins)|].
      split; [apply (Hs _ _ Hins)|]. rewrite E. apply (Hres _ _ _ _ _ Hins Hcell).
    + left. exists sl. split.
      * destruct Hin as [[= E _]|Hin]; [congruence | exact Hin].
      * apply (model_built_frame _ _ _ _ _ _ _ Hb), (Hframe M HM NE).
  - right. split; [intros Hin; apply Hnot; right; exact Hin|].
    apply (model_resolved_frame _ _ _ _ _ _ _ Hres), (Hframe M HM).
    intros E. apply Hnot. rewrite E. left.
Qed.

Lemma second_pass_returns :
  forall es st,
    NoDup (map fst es) ->
    second_pass models registry iv es st ->
    exists st',
      forEachM (fun entry : string * list (string * nat) =>
                  resolve_type registry entry.1 entry.2) es st = Ok (tt, st') /\
      second_pass models registry iv [] st'.
Proof.
  induction es as [|[tn slots] es IH]; intros st Hnd Hinv.
  - exists st. split; [reflexivity | exact Hinv].
  - cbn [map fst] in Hnd.
    assert (Hrun : exists st1, resolve_type registry tn slots st = Ok (tt, st1)).
    { destruct (obj_get tn registry) as [type|] eqn:Hty.
      2:{ exists st. unfold resolve_type. rewrite Hty. reflexivity. }
      destruct (registry_keys tn) as [M0 [HM0 Hn0]]; [rewrite Hty; eauto|].
      apply NoDup_cons in Hnd as [Htn _].
      destruct (Hinv M0 HM0) as [ref0 [Href0 [[sl0 [Hin0 Hb0]]|[Hnot0 _]]]].
      2:{ exfalso. apply Hnot0. rewrite Hn0. left. }
      assert (sl0 = slots) as ->.
      { destruct Hin0 as [[= _ <-]|Hin0]; [reflexivity|]. exfalso. apply Htn.
        rewrite <- Hn0. apply list_elem_of_In. apply (in_map fst) in Hin0. exact Hin0. }
      assert (ref0 = type) as -> by congruence.
      destruct Hb0 as [o0 [fa0 [m0 [Ho0 [Hf0 [_ [_ [Hp0 _]]]]]]]].
      destruct (resolve_type_pending _ _ _ _ _ _ _ _ Hty Ho0 Hf0 Hp0) as [st1 [Hrun _]].
      exists st1. exact Hrun. }
    destruct Hrun as [st1 Hrun].
    pose proof (second_pass_step _ _ _ _ _ Hrun Hnd Hinv) as Hinv1.
    apply NoDup_cons in Hnd as [_ Hnd].
    destruct (IH st1 Hnd Hinv1) as [st' [Hrest Hend]].
    exists st'. split; [|exact Hend].
    cbn [forEachM]. rewrite (bindT_ok _ _ _ tt st1); [exact Hrest | exact Hrun].
Qed.

End SecondPass.


